(** * email6: header value parser, encoded-word codec, header folding, policy

    A shallow embedding of the header engine of the [email6] package
    ([_encoded_words.py], [_header_value_parser.py], [header.py],
    [policy.py]) together with the properties its design document states
    about it.

    Conventions of the embedding.
    - A Python [str] is a list of Unicode code points ([uchar] = [N]); a Rocq
      string literal stands for the [str] with the same characters (coercion
      [u]).  A Python [bytes] is a [list byte].
    - A Python call either returns or raises: [result A] is [Ok a] or
      [Raise e].
    - Python objects that are mutated in place (token lists, the formatter,
      a policy's instance dictionary) are passed and returned explicitly.
    - [while] loops are [Fixpoint]s on a fuel argument that the entry points
      instantiate with the length of the input plus one; [Raise OutOfFuel]
      is the only outcome that is not an outcome of the Python program, and
      the address parser never produces it ([get_address_list_fuelled]). *)

From Stdlib Require Import ZArith NArith String Ascii List Bool Lia.
From Stdlib.Strings Require Import Byte.
From stdpp Require Import base option list gmap strings.

Set Warnings "-register-all".

Local Open Scope N_scope.
Local Open Scope list_scope.

(** ** Python values: code points, strings, bytes *)

Definition uchar := N.
Definition str := list uchar.
Definition bytes := list byte.

Definition ch (a : ascii) : uchar := N_of_ascii a.
Arguments ch a%_char.

Definition u (s : string) : str := map N_of_ascii (list_ascii_of_string s).
Coercion u : string >-> str.

Definition b (s : string) : bytes := list_byte_of_string s.

(** Characters that have no literal form inside a Rocq string. *)
Definition DQUOTE : uchar := 34.
Definition TAB : uchar := 9.
Definition LF : uchar := 10.
Definition CR : uchar := 13.
Definition BACKSLASH : uchar := 92.

(** [c in s] for a character and a string (or a set of characters). *)
Definition inb (c : uchar) (s : str) : bool := existsb (N.eqb c) s.

Definition str_eqb (s t : str) : bool := bool_decide (s = t).

(** [str.isspace] on one character: the Unicode white space of CPython. *)
Definition py_isspace (c : uchar) : bool :=
  ((9 <=? c) && (c <=? 13)) || ((28 <=? c) && (c <=? 32))
  || (c =? 133) || (c =? 160) || (c =? 5760)
  || ((8192 <=? c) && (c <=? 8202))
  || (c =? 8232) || (c =? 8233) || (c =? 8239) || (c =? 8287) || (c =? 12288).

(** [s.isspace()]: non-empty and white space throughout. *)
Definition isspace (s : str) : bool :=
  match s with [] => false | _ => forallb py_isspace s end.

Fixpoint lstrip (s : str) : str :=
  match s with
  | c :: s' => if py_isspace c then lstrip s' else s
  | [] => []
  end.

Definition rstrip (s : str) : str := rev (lstrip (rev s)).

(** [s[n:]] and [s[:n]]. *)
Definition slice_from (n : nat) (s : str) : str := drop n s.
Definition slice_to (n : nat) (s : str) : str := take n s.

Fixpoint startswith (s p : str) : bool :=
  match p, s with
  | [], _ => true
  | a :: p', c :: s' => (a =? c) && startswith s' p'
  | _ :: _, [] => false
  end.

Definition endswith (s p : str) : bool := startswith (rev s) (rev p).

(** [sep.join(l)]. *)
Fixpoint join (sep : str) (l : list str) : str :=
  match l with
  | [] => []
  | [x] => x
  | x :: l' => x ++ sep ++ join sep l'
  end.

(** [s.replace(c, rep)] for a one-character pattern. *)
Definition replace_char (c : uchar) (rep : str) (s : str) : str :=
  flat_map (fun x => if x =? c then rep else [x]) s.

(** [s.split(c)] for a one-character separator: never the empty list. *)
Fixpoint split_char (c : uchar) (s : str) : list str :=
  match s with
  | [] => [[]]
  | x :: s' =>
      if x =? c then [] :: split_char c s'
      else match split_char c s' with
           | w :: ws => (x :: w) :: ws
           | [] => [[x]]
           end
  end.

(** [s.lower()] on ASCII text: the letters [A] to [Z] become [a] to [z].
    On other text Python follows the Unicode tables, which the model does
    not hold: there it keeps the code point.  That is exact wherever the
    result is compared with [q], [b] or a name of the default registry (no
    other code point lower-cases to a text that holds [q] or [b], and the
    two that lower-case to a text with an ASCII letter, U+212A to [k] and
    U+0130 to [i] and U+0307, give no name of that registry); the
    statements about other names are about ASCII names. *)
Definition lower_char (c : uchar) : uchar :=
  if (65 <=? c) && (c <=? 90) then c + 32 else c.
Definition lower (s : str) : str := map lower_char s.

(** [''.join(s.split())]: every white-space character removed. *)
Definition remove_whitespace (s : str) : str :=
  filter (fun c => py_isspace c = false) s.

(** Line boundaries of [str.splitlines]. *)
Definition is_linebreak (c : uchar) : bool :=
  (c =? 10) || (c =? 11) || (c =? 12) || (c =? 13)
  || (c =? 28) || (c =? 29) || (c =? 30) || (c =? 133)
  || (c =? 8232) || (c =? 8233).

(** [s.splitlines()]: [cur] is the line being read, in reverse. *)
Fixpoint splitlines_aux (s : str) (cur : str) : list str :=
  match s with
  | [] => match cur with [] => [] | _ => [rev cur] end
  | c :: s' =>
      if is_linebreak c then
        match s' with
        | d :: s'' =>
            if (c =? 13) && (d =? 10) then rev cur :: splitlines_aux s'' []
            else rev cur :: splitlines_aux s' []
        | [] => [rev cur]
        end
      else splitlines_aux s' (c :: cur)
  end.
Definition splitlines (s : str) : list str := splitlines_aux s [].

(** ** Exceptions and results *)

(** Modelled from the spec: [email6/errors.py] is not among the sources; a
    defect is "an immutable tagged value describing one parsing or encoding
    anomaly (kind + human-readable detail)".  The kinds are the classes the
    parser, the codec and the header classes instantiate. *)
Inductive defect :=
| InvalidHeaderDefect (detail : string)
| ObsoleteHeaderDefect (detail : string)
| NonPrintableDefect (non_printables : list uchar)
| InvalidBase64PaddingDefect
| InvalidBase64CharactersDefect
| UndecodableBytesDefect
| HeaderMissingRequiredValue.

Definition is_InvalidHeaderDefect (d : defect) : bool :=
  match d with InvalidHeaderDefect _ => true | _ => false end.

Inductive exn :=
| HeaderParseError
| IndexError
| TypeError
| ValueError
| KeyError
| LookupError
| AttributeError (msg : string)
| AssertionError
| UnboundLocalError
| UnicodeEncodeError
| UnicodeError                (* raised by a codec when it decodes *)
| binascii_Error
| DefectRaised (d : defect)   (* [raise defect] *)
| OutOfFuel.                  (* the fuel of a loop ran out: not Python *)

Inductive result (A : Type) :=
| Ok (a : A)
| Raise (e : exn).
Arguments Ok {A} a.
Arguments Raise {A} e.

Global Instance result_ret : MRet result := fun A a => Ok a.
Global Instance result_bind : MBind result := fun A B f m =>
  match m with
  | Ok a => f a
  | Raise e => Raise e
  end.

(** [try: body  except errors.HeaderParseError: handler]. *)
Definition try_except {A} (body : result A) (handler : result A) : result A :=
  match body with
  | Raise HeaderParseError => handler
  | other => other
  end.

Definition returns {A} (r : result A) : Prop := exists a, r = Ok a.

(** [[f(x) for x in l]]: the results in order, or the first exception. *)
Definition mapM {A B} (f : A -> result B) (l : list A) : result (list B) :=
  foldr (fun x acc => y ← f x; rest ← acc; Ok (y :: rest)) (Ok []) l.

(** [s[0]]. *)
Definition first (s : str) : result uchar :=
  match s with c :: _ => Ok c | [] => Raise IndexError end.

(** [value and value[0] == c], [value and value[0] in cs]. *)
Definition starts_with_char (s : str) (c : uchar) : bool :=
  match s with x :: _ => x =? c | [] => false end.
Definition starts_in (s : str) (cs : str) : bool :=
  match s with x :: _ => inb x cs | [] => false end.
Definition nonempty {A} (l : list A) : bool :=
  match l with [] => false | _ => true end.

(** ** [_encoded_words.py] *)

Module encoded_words.

(** *** The standard library's [base64.b64decode] (CPython 3.8)

    [Lib/base64.py]: with [validate=True] the input must match
    [[A-Za-z0-9+/]*={0,2}] in full, else [binascii.Error]; then
    [binascii.a2b_base64].  [Modules/binascii.c]: characters outside the
    alphabet are skipped; a pad is honoured at quad position 3, or at
    position 2 when the next valid character is a pad too, and ends the
    input; it is skipped otherwise; left-over bits at the end of the input are
    the error "Incorrect padding" (or "number of data characters cannot be
    1 more than a multiple of 4"). *)

Definition table_a2b_base64 (c : byte) : option N :=
  let n := Byte.to_N c in
  if (65 <=? n) && (n <=? 90) then Some (n - 65)
  else if (97 <=? n) && (n <=? 122) then Some (n - 71)
  else if (48 <=? n) && (n <=? 57) then Some (n + 4)
  else if n =? 43 then Some 62
  else if n =? 47 then Some 63
  else None.

Definition BASE64_PAD : N := 61.

Definition byte_of (n : N) : byte :=
  match Byte.of_N n with Some x => x | None => x00 end.

(** [binascii_find_valid(s, slen, num)]: the [num]-th (from 0) character
    of [s] that is valid for base64, the pad included. *)
Fixpoint binascii_find_valid (s : bytes) (num : nat) : option N :=
  match s with
  | [] => None
  | c :: s' =>
      let n := Byte.to_N c in
      if (n <=? 127) && ((n =? BASE64_PAD) || bool_decide (is_Some (table_a2b_base64 c)))
      then match num with
           | O => Some n
           | S num' => binascii_find_valid s' num'
           end
      else binascii_find_valid s' num
  end.

Fixpoint a2b_base64_loop (data : bytes) (quad_pos leftchar leftbits : N)
    (out : bytes) : result bytes :=
  match data with
  | [] => if leftbits =? 0 then Ok out else Raise binascii_Error
  | c :: rest =>
      let n := Byte.to_N c in
      if (127 <? n) || (n =? 13) || (n =? 10) || (n =? 32) then
        a2b_base64_loop rest quad_pos leftchar leftbits out
      else if n =? BASE64_PAD then
        if (quad_pos <? 2)
           || ((quad_pos =? 2)
               && negb (bool_decide (binascii_find_valid data 1 = Some BASE64_PAD)))
        then a2b_base64_loop rest quad_pos leftchar leftbits out
        else Ok out
      else
        match table_a2b_base64 c with
        | None => a2b_base64_loop rest quad_pos leftchar leftbits out
        | Some v =>
            let quad_pos := N.land (quad_pos + 1) 3 in
            let leftchar := N.lor (N.shiftl leftchar 6) v in
            let leftbits := leftbits + 6 in
            if 8 <=? leftbits then
              let leftbits := leftbits - 8 in
              a2b_base64_loop rest quad_pos
                (N.land leftchar (N.shiftl 1 leftbits - 1)) leftbits
                (out ++ [byte_of (N.land (N.shiftr leftchar leftbits) 255)])
            else a2b_base64_loop rest quad_pos leftchar leftbits out
        end
  end.

Definition a2b_base64 (data : bytes) : result bytes :=
  a2b_base64_loop data 0 0 0 [].

(** [re.fullmatch(b'[A-Za-z0-9+/]*={0,2}', s)]. *)
Fixpoint b64_fullmatch (s : bytes) : bool :=
  match s with
  | [] => true
  | c :: s' =>
      if bool_decide (is_Some (table_a2b_base64 c)) then b64_fullmatch s'
      else match map Byte.to_N s with
           | [61] | [61; 61] => true
           | _ => false
           end
  end.

Definition b64decode (s : bytes) (validate : bool) : result bytes :=
  if validate && negb (b64_fullmatch s) then Raise binascii_Error
  else a2b_base64 s.

(** *** Quoted printable *)

Definition hexval (c : byte) : option N :=
  let n := Byte.to_N c in
  if (48 <=? n) && (n <=? 57) then Some (n - 48)
  else if (97 <=? n) && (n <=? 102) then Some (n - 87)
  else if (65 <=? n) && (n <=? 70) then Some (n - 55)
  else None.

(** [_q_byte_subber(lambda m: bytes([int(m.group(1), 16)]), encoded)]:
    every [=XX] with two hexadecimal digits, leftmost first, becomes the
    byte [XX]. *)
Fixpoint _q_byte_subber (encoded : bytes) : bytes :=
  match encoded with
  | [] => []
  | c :: rest =>
      match rest with
      | h :: ((l :: rest'') as rest') =>
          match Byte.to_N c =? 61, hexval h, hexval l with
          | true, Some x, Some y =>
              byte_of (16 * x + y) :: _q_byte_subber rest''
          | _, _, _ => c :: _q_byte_subber rest
          end
      | _ => c :: _q_byte_subber rest
      end
  end.

Definition decode_q (encoded : bytes) : bytes * list defect :=
  let encoded := map (fun c => if Byte.to_N c =? 95 then x20 else c) encoded in
  (_q_byte_subber encoded, []).

(** *** Base64 *)

(** The [for i in 0, 1, 2, 3: ... else: raise AssertionError] of
    [decode_b]; [i] runs through [is_]. *)
Fixpoint decode_b_retry (encoded : bytes) (is_ : list nat)
    (defects : list defect) : result (bytes * list defect) :=
  match is_ with
  | [] => Raise AssertionError
  | i :: is' =>
      match b64decode (encoded ++ repeat x3d i) false with
      | Ok decoded => Ok (decoded, defects)
      | Raise binascii_Error =>
          decode_b_retry encoded is'
            (if Nat.eqb i 0 then defects ++ [InvalidBase64PaddingDefect]
             else defects)
      | Raise e => Raise e
      end
  end.

Definition decode_b (encoded : bytes) : result (bytes * list defect) :=
  let pad_err := (length encoded mod 4)%nat in
  let '(defects, padded_encoded) :=
    if negb (Nat.eqb pad_err 0)
    then ([InvalidBase64PaddingDefect], encoded ++ take (4 - pad_err) (b "==="))
    else ([], encoded) in
  match b64decode padded_encoded true with
  | Ok decoded => Ok (decoded, defects)
  | Raise binascii_Error =>
      decode_b_retry encoded [0; 1; 2; 3]%nat [InvalidBase64CharactersDefect]
  | Raise e => Raise e
  end.

(** *** Character sets

    [bytes.decode(charset)] belongs to the interpreter's codec registry:
    [lookup] is [None] for an unknown charset name ([LookupError]);
    [decode_strict] is [None] when the bytes do not decode (the codec
    raises [UnicodeError], which [decode] catches); [decode_replace] is
    [bytes.decode(charset, 'replace')], and [None] when the codec raises
    [UnicodeError] with that error handler too, as the registered codec
    [undefined] does on every input. *)
Record Codec := {
  decode_strict : bytes -> option str;
  decode_replace : bytes -> option str
}.
Definition Codecs := str -> option Codec.

(** [cte_string.encode('ascii', 'surrogateescape')]: an ASCII character is
    its byte, a lone surrogate U+DC80..U+DCFF is the byte it escapes, any
    other character raises. *)
Fixpoint encode_ascii_surrogateescape (s : str) : result bytes :=
  match s with
  | [] => Ok []
  | c :: s' =>
      if c <? 128 then
        rest ← encode_ascii_surrogateescape s'; Ok (byte_of c :: rest)
      else if (56448 <=? c) && (c <=? 56575) then
        rest ← encode_ascii_surrogateescape s'; Ok (byte_of (c - 56320) :: rest)
      else Raise UnicodeEncodeError
  end.

Definition cte_decoders (cte : str) : option (bytes -> result (bytes * list defect)) :=
  if str_eqb cte "q" then Some (fun x => Ok (decode_q x))
  else if str_eqb cte "b" then Some decode_b
  else None.

Definition decode (codecs : Codecs) (ew : str) : result (str * list defect) :=
  match split_char (ch "?") ew with
  | [_; charset; cte; cte_string; _] =>
      let cte := lower cte in
      bstring ← encode_ascii_surrogateescape cte_string;
      match cte_decoders cte with
      | None => Raise KeyError
      | Some decoder =>
          '(bstring, defects) ← decoder bstring;
          match codecs charset with
          | None => Raise LookupError
          | Some codec =>
              match decode_strict codec bstring with
              | Some string => Ok (string, defects)
              | None =>
                  let defects := defects ++ [UndecodableBytesDefect] in
                  match decode_replace codec bstring with
                  | Some string => Ok (string, defects)
                  | None => Raise UnicodeError
                  end
              end
          end
      end
  | _ => Raise ValueError
  end.

(** [bs.decode('ascii', 'replace')]: a byte that is not ASCII becomes
    U+FFFD. *)
Definition decode_ascii_replace (bs : bytes) : str :=
  map (fun x => if Byte.to_N x <? 128 then Byte.to_N x else 65533) bs.

(** The two codecs the examples use, and the codec [undefined], which
    raises whatever it is given. *)
Definition ascii_codec : Codec := {|
  decode_strict bs :=
    if forallb (fun x => Byte.to_N x <? 128) bs then Some (map Byte.to_N bs)
    else None;
  decode_replace bs := Some (decode_ascii_replace bs)
|}.
Definition latin1_codec : Codec := {|
  decode_strict bs := Some (map Byte.to_N bs);
  decode_replace bs := Some (map Byte.to_N bs)
|}.
Definition undefined_codec : Codec := {|
  decode_strict bs := None;
  decode_replace bs := None
|}.
Definition basic_codecs : Codecs := fun name =>
  let name := lower name in
  if str_eqb name "us-ascii" || str_eqb name "ascii" then Some ascii_codec
  else if str_eqb name "latin-1" || str_eqb name "iso-8859-1" then Some latin1_codec
  else None.

End encoded_words.

(** ** [_header_value_parser.py]: the token tree *)

Module parser.

Definition WSP : str := u " " ++ [TAB].
Definition CFWS_LEADER : str := WSP ++ u "(".
Definition SPECIALS : str := u "()<>@,:;.\" ++ [DQUOTE] ++ u "[]".
Definition ATOM_ENDS : str := SPECIALS ++ WSP.
(** The dot, the double quote and the opening parenthesis do not end
    phrases, to support obs-phrase. *)
Definition PHRASE_ENDS : str :=
  filter (fun c => inb c (u "." ++ [DQUOTE] ++ u "(") = false) SPECIALS.

Definition quote_string (value : str) : str :=
  [DQUOTE]
  ++ replace_char DQUOTE [BACKSLASH; DQUOTE]
       (replace_char BACKSLASH [BACKSLASH; BACKSLASH] value)
  ++ [DQUOTE].

(** The subclasses of [TokenList]. *)
Inductive cls :=
| TokenList | WhiteSpaceTokenList | UnstructuredTokenList | Phrase | Word
| CFWSList | Atom | QuotedString | BareQuotedString | Comment | AddressList
| Address | MailboxList | GroupList | Group | NameAddr | AngleAddr | ObsRoute
| Mailbox | InvalidMailbox | Domain | DotAtom | DotAtomText | AddrSpec
| ObsLocalPart | DisplayName | LocalPart | DomainLiteral.

(** The class attribute [token_type] ([None] where the class has none). *)
Definition class_token_type (c : cls) : option string :=
  match c with
  | TokenList | WhiteSpaceTokenList => None
  | UnstructuredTokenList => Some "unstructured"%string
  | Phrase => Some "phrase"%string
  | Word => Some "word"%string
  | CFWSList => Some "cfws"%string
  | Atom => Some "atom"%string
  | QuotedString => Some "quoted-string"%string
  | BareQuotedString => Some "bare-quoted-string"%string
  | Comment => Some "comment"%string
  | AddressList => Some "address-list"%string
  | Address => Some "address"%string
  | MailboxList => Some "mailbox-list"%string
  | GroupList => Some "group-list"%string
  | Group => Some "group"%string
  | NameAddr => Some "name-addr"%string
  | AngleAddr => Some "angle-addr"%string
  | ObsRoute => Some "obs-route"%string
  | Mailbox => Some "mailbox"%string
  | InvalidMailbox => Some "invalid-mailbox"%string
  | Domain => Some "domain"%string
  | DotAtom => Some "dot-atom"%string
  | DotAtomText => Some "dot-atom-text"%string
  | AddrSpec => Some "addr-spec"%string
  | ObsLocalPart => Some "obs-local-part"%string
  | DisplayName => Some "display-name"%string
  | LocalPart => Some "local-part"%string
  | DomainLiteral => Some "domain-literal"%string
  end.

(** The subclasses of [Terminal] (a [str] with a token type). *)
Inductive tcls := WhiteSpaceTerminal | ValueTerminal.

(** An object found in a parse tree.  [Node] is a [TokenList]: its class,
    the [token_type] in force (the class attribute unless an assignment
    [x.token_type = ...] replaced it), its items and its [defects] list.
    [Leaf] is a [Terminal].  [Alien] is a defect object stored among the
    items of a list, which [_check_for_early_dl_end] does. *)
Inductive token :=
| Node (c : cls) (token_type : option string) (items : list token)
       (defects : list defect)
| Leaf (c : tcls) (s : str) (token_type : string) (defects : list defect)
| Alien (d : defect).

Definition no_attribute (name : string) : exn :=
  AttributeError ("object has no attribute " +:+ name).

(** [x.token_type]. *)
Definition token_type_of (x : token) : result (option string) :=
  match x with
  | Node _ ty _ _ => Ok ty
  | Leaf _ _ ty _ => Ok (Some ty)
  | Alien _ => Raise (no_attribute "token_type")
  end.

Definition tt_is (r : option string) (name : string) : bool :=
  bool_decide (r = Some name).

(** [x.token_type == name]. *)
Definition has_type (x : token) (name : string) : result bool :=
  ty ← token_type_of x; Ok (tt_is ty name).

(** [str(defect)]: the detail the exception was built with. *)
Definition defect_str (d : defect) : str :=
  match d with
  | InvalidHeaderDefect m | ObsoleteHeaderDefect m => u m
  | _ => []
  end.

(** [x1 + x2 + ...] over the results of a generator, left to right. *)
Definition concat_results {A} (rs : list (result (list A))) : result (list A) :=
  foldr (fun r acc => v ← r; rest ← acc; Ok (v ++ rest)) (Ok []) rs.

(** [Comment.quote] on the text of an item that is not a comment. *)
Definition comment_quote (s : str) : str :=
  replace_char (ch ")") [BACKSLASH; ch ")"]
    (replace_char (ch "(") [BACKSLASH; ch "("]
       (replace_char BACKSLASH [BACKSLASH; BACKSLASH] s)).

(** [str(x)]: [TokenList.__str__], [BareQuotedString.__str__],
    [Comment.__str__]; a terminal is its own text. *)
Fixpoint to_str (x : token) : result str :=
  match x with
  | Leaf _ s _ _ => Ok s
  | Alien d => Ok (defect_str d)
  | Node c _ items _ =>
      match c with
      | BareQuotedString =>
          s ← concat_results
                (map (fun y => match y with
                               | Leaf _ s _ _ => Ok s
                               | _ => Raise TypeError
                               end) items);
          Ok (quote_string s)
      | Comment =>
          s ← concat_results
                (map (fun y =>
                        ty ← token_type_of y;
                        s ← to_str y;
                        Ok (if tt_is ty "comment" then s else comment_quote s))
                     items);
          Ok (u "(" ++ s ++ u ")")
      | _ => concat_results (map to_str items)
      end
  end.

(** [x.all_defects]: [sum((x.all_defects for x in self), self.defects)] on
    a token list, [list(self.defects)] on a terminal. *)
Fixpoint all_defects (x : token) : result (list defect) :=
  match x with
  | Leaf _ _ _ defects => Ok defects
  | Alien _ => Raise (no_attribute "all_defects")
  | Node _ _ items defects =>
      fold_left (fun acc y => a ← acc; d ← all_defects y; Ok (a ++ d))
                items (Ok defects)
  end.

(** What the [value] and name accessors read of an item [x] of a list:
    [x.token_type], [x.value], and for each [y] of [x] (when [x] is a list)
    [y.token_type] and [y.value]. *)
Inductive shape :=
| SList (sub : list (result (option string) * result str))
| SStr (s : str)
| SOther.
Record info := {
  i_token_type : result (option string);
  i_value : result str;
  i_shape : shape
}.

Definition summarize (value : token -> result str) (x : token) : info :=
  {| i_token_type := token_type_of x;
     i_value := value x;
     i_shape := match x with
                | Node _ _ items _ =>
                    SList (map (fun y => (token_type_of y, value y)) items)
                | Leaf _ s _ _ => SStr s
                | Alien _ => SOther
                end |}.

(** [''.join(x.value for x in self if x.value)]. *)
Definition join_values (vs : list (result str)) : result str :=
  concat_results vs.

(** An item of the copy [res = TokenList(self)] that [display_name] and
    [local_part] edit: an item of the original, or the fresh
    [TokenList(x[1:])] / [TokenList(x[:-1])]. *)
Inductive elt :=
| Orig (i : info)
| Fresh (sub : list (result (option string) * result str)).

Definition elt_token_type (e : elt) : result (option string) :=
  match e with Orig i => i_token_type i | Fresh _ => Ok None end.
Definition elt_value (e : elt) : result str :=
  match e with
  | Orig i => i_value i
  | Fresh sub => join_values (map snd sub)
  end.
(** [e[0].token_type], [e[-1].token_type]: a terminal's item is a plain
    one-character [str], which has no [token_type]. *)
Definition elt_sub (e : elt)
  : result (list (result (option string) * result str)) :=
  match e with
  | Fresh sub => Ok sub
  | Orig i => match i_shape i with
              | SList sub => Ok sub
              | SStr [] => Raise IndexError
              | SStr _ => Raise (no_attribute "token_type")
              | SOther => Raise TypeError
              end
  end.
Definition elt_first_type (e : elt) : result (option string) :=
  sub ← elt_sub e;
  match sub with (ty, _) :: _ => ty | [] => Raise IndexError end.
Definition elt_last_type (e : elt) : result (option string) :=
  sub ← elt_sub e;
  match last sub with Some (ty, _) => ty | None => Raise IndexError end.

(** The body shared by [DisplayName.display_name] and
    [LocalPart.local_part], on [res]: strip one leading and one trailing
    CFWS, at the top level or inside the first / last item, and return
    [res.value]. *)
Definition strip_cfws_value (res : list elt) : result str :=
  res ← match res with
        | [] => Raise IndexError
        | e :: rest =>
            ty ← elt_token_type e;
            if tt_is ty "cfws" then Ok rest
            else
              ft ← elt_first_type e;
              if tt_is ft "cfws"
              then sub ← elt_sub e; Ok (Fresh (drop 1 sub) :: rest)
              else Ok res
        end;
  res ← match last res with
        | None => Raise IndexError
        | Some e =>
            ty ← elt_token_type e;
            if tt_is ty "cfws" then Ok (removelast res)
            else
              lt ← elt_last_type e;
              if tt_is lt "cfws"
              then sub ← elt_sub e; Ok (removelast res ++ [Fresh (removelast sub)])
              else Ok res
        end;
  join_values (map elt_value res).

(** [DisplayName.value]. *)
Definition DisplayName_value (defects : list defect) (infos : list info)
  : result str :=
  quote ← (if nonempty defects then Ok true
           else foldl (fun acc i =>
                         q ← acc; ty ← i_token_type i;
                         Ok (q || tt_is ty "quoted-string"))
                      (Ok false) infos);
  if (quote : bool) then
    first ← match infos with i :: _ => Ok (Orig i) | [] => Raise IndexError end;
    ty ← elt_token_type first;
    pre ← (if tt_is ty "cfws" then Ok (u " ")
           else ft ← elt_first_type first;
                Ok (if tt_is ft "cfws" then u " " else []));
    final ← match last infos with Some i => Ok (Orig i) | None => Raise IndexError end;
    ty ← elt_token_type final;
    post ← (if tt_is ty "cfws" then Ok (u " ")
            else lt ← elt_last_type final;
                 Ok (if tt_is lt "cfws" then u " " else []));
    name ← strip_cfws_value (map Orig infos);
    Ok (pre ++ quote_string name ++ post)
  else join_values (map i_value infos).

(** [AddrSpec.value]. *)
Definition AddrSpec_value (vs : list (result str)) : result str :=
  match vs with
  | [] => Raise IndexError
  | [v0] | [v0; _] => v0
  | v0 :: v1 :: v2 :: _ =>
      a ← v0; m ← v1; d ← v2; Ok (rstrip a ++ m ++ lstrip d)
  end.

Definition is_quoted_string_class (c : cls) : bool :=
  match c with QuotedString | BareQuotedString => true | _ => false end.

(** [x.value], by the class of [x]. *)
Fixpoint value (x : token) : result str :=
  match x with
  | Leaf WhiteSpaceTerminal _ _ _ => Ok (u " ")
  | Leaf ValueTerminal s _ _ => Ok s
  | Alien _ => Raise (no_attribute "value")
  | Node c _ items defects =>
      match c with
      | WhiteSpaceTokenList | CFWSList | Comment => Ok (u " ")
      | BareQuotedString => concat_results (map to_str items)
      | AddrSpec => AddrSpec_value (map value items)
      | DisplayName => DisplayName_value defects (map (summarize value) items)
      | LocalPart =>
          match items with
          | [] => Raise IndexError
          | x0 :: _ =>
              ty ← token_type_of x0;
              if tt_is ty "quoted-string" then
                (* [self[0].quoted_value] *)
                match x0 with
                | Node c0 _ items0 _ =>
                    if is_quoted_string_class c0 then
                      concat_results
                        (map (fun y =>
                                ty ← token_type_of y;
                                if tt_is ty "bare-quoted-string" then to_str y
                                else value y) items0)
                    else Raise (no_attribute "quoted_value")
                | _ => Raise (no_attribute "quoted_value")
                end
              else value x0
          end
      | _ => join_values (map value items)
      end
  end.

(** *** Building token lists

    [new], [append], [extend] and [add_defect] act on the list a parser
    function has just created, which is a [Node]. *)

Definition new (c : cls) : token := Node c (class_token_type c) [] [].

Definition items_of (x : token) : list token :=
  match x with Node _ _ items _ => items | _ => [] end.
Definition defects_of (x : token) : list defect :=
  match x with Node _ _ _ ds | Leaf _ _ _ ds => ds | Alien _ => [] end.

Definition extend (l : token) (xs : list token) : token :=
  match l with
  | Node c ty items ds => Node c ty (items ++ xs) ds
  | _ => l
  end.
Definition append (l : token) (x : token) : token := extend l [x].

(** [l.defects.append(d)]. *)
Definition add_defect (l : token) (d : defect) : token :=
  match l with
  | Node c ty items ds => Node c ty items (ds ++ [d])
  | Leaf c s ty ds => Leaf c s ty (ds ++ [d])
  | Alien _ => l
  end.

(** [token[:0] = [leader]]: a [str] does not support item assignment. *)
Definition prepend (leader : token) (x : token) : result token :=
  match x with
  | Node c ty items ds => Ok (Node c ty (leader :: items) ds)
  | _ => Raise TypeError
  end.
Definition prepend_leader (leader : option token) (x : token) : result token :=
  match leader with
  | Some l => prepend l x
  | None => Ok x
  end.

(** [x.token_type = name], then [x.extend(xs)]; a terminal has no
    [extend]. *)
Definition retype_extend (name : string) (xs : list token) (x : token)
  : result token :=
  match x with
  | Node c _ items ds => Ok (Node c (Some name) (items ++ xs) ds)
  | Leaf _ _ _ _ => Raise (no_attribute "extend")
  | Alien _ => Raise (no_attribute "extend")
  end.

(** [l[-1] = f(l[-1])] and [l[0] = f(l[0])] on the items of a list. *)
Definition update_last (f : token -> result token) (items : list token)
  : result (list token) :=
  match last items with
  | None => Raise IndexError
  | Some x => x' ← f x; Ok (removelast items ++ [x'])
  end.
Definition update_first (f : token -> result token) (items : list token)
  : result (list token) :=
  match items with
  | [] => Raise IndexError
  | x :: rest => x' ← f x; Ok (x' :: rest)
  end.
Definition on_items (f : list token -> result (list token)) (x : token)
  : result token :=
  match x with
  | Node c ty items ds => items' ← f items; Ok (Node c ty items' ds)
  | Leaf _ [] _ _ => Raise IndexError
  | Leaf _ _ _ _ => Raise TypeError
  | Alien _ => Raise TypeError
  end.

(** The shared terminals. *)
Definition DOT : token := Leaf ValueTerminal (u ".") "dot" [].
Definition ListSeparator : token := Leaf ValueTerminal (u ",") "list-separator" [].
Definition RouteComponentMarker : token :=
  Leaf ValueTerminal (u "@") "route-component-marker" [].

(** *** Lexical helpers *)

(** The longest prefix whose characters satisfy [p], and the rest. *)
Fixpoint span (p : uchar -> bool) (s : str) : str * str :=
  match s with
  | c :: s' => if p c then let '(a, r) := span p s' in (c :: a, r) else ([], s)
  | [] => ([], [])
  end.

(** [_wsp_splitter(value, 1)]: split at the first run of WSP. *)
Definition _wsp_splitter (value : str) : list str :=
  let '(before, rest) := span (fun c => negb (inb c WSP)) value in
  match rest with
  | [] => [value]
  | _ => let '(ws, after) := span (fun c => inb c WSP) rest in
         [before; ws; after]
  end.

(** [tok, ws, value = _wsp_splitter(value, 1)], with the [ValueError] of a
    one-element result caught: [tok, ws, value = value, '', '']. *)
Definition split_tok_ws (value : str) : str * str * str :=
  match _wsp_splitter value with
  | [tok; ws; rest] => (tok, ws, rest)
  | _ => (value, [], [])
  end.

(** [_non_printable_finder]: the characters in [\x00-\x20\x7F]. *)
Definition _non_printable_finder (s : str) : list uchar :=
  filter (fun c => (c <=? 32) || (c =? 127) = true) s.

Definition _validate_xtext (xtext : token) : token :=
  match xtext with
  | Leaf _ s _ _ =>
      match _non_printable_finder s with
      | [] => xtext
      | non_printables => add_defect xtext (NonPrintableDefect non_printables)
      end
  | _ => xtext
  end.

(** Modelled from the spec: [email6/utils.py] is not among the sources;
    [_has_surrogates(s)] is true when [s] holds a surrogate code point, the
    form in which undecodable bytes ("surrogateescape") travel in a [str]. *)
Definition _has_surrogates (s : str) : bool :=
  existsb (fun c => (55296 <=? c) && (c <=? 57343)) s.
(** Turn any escaped bytes into the unicode unknown character. *)
Definition _sanitize (string : str) : result str :=
  original_bytes ← encoded_words.encode_ascii_surrogateescape string;
  Ok (encoded_words.decode_ascii_replace original_bytes).

(** The [for pos in range(len(fragment))] loop of
    [_get_ptext_to_endchars]: the unquoted characters, [fragment[pos:]]
    and [had_qp]. *)
Fixpoint ptext_scan (fragment endchars : str) (escape had_qp : bool)
    (vchars : str) : str * str * bool :=
  match fragment with
  | [] => (vchars, [], had_qp)
  | c :: rest =>
      if c =? BACKSLASH then
        if escape then
          if inb c endchars then (vchars, fragment, true)
          else ptext_scan rest endchars false true (vchars ++ [c])
        else ptext_scan rest endchars true had_qp vchars
      else if escape then ptext_scan rest endchars false had_qp (vchars ++ [c])
      else if inb c endchars then (vchars, fragment, had_qp)
      else ptext_scan rest endchars false had_qp (vchars ++ [c])
  end.

(** On an empty fragment the [else] of the loop reads [pos] before any
    assignment. *)
Definition _get_ptext_to_endchars (value endchars : str)
  : result (str * str * bool) :=
  let '(fragment, remainder) :=
    match _wsp_splitter value with
    | [f; ws; rest] => (f, ws ++ rest)
    | _ => (value, [])
    end in
  match fragment with
  | [] => Raise UnboundLocalError
  | _ =>
      let '(vchars, rest, had_qp) := ptext_scan fragment endchars false false [] in
      Ok (vchars, rest ++ remainder, had_qp)
  end.

(** *** The parser *)

(** Every [get_XXX] takes the input and returns the token and the rest of
    the input. *)
Definition parse := result (token * str).

Definition get_qp_ctext (value : str) : parse :=
  '(ptext, value, _) ← _get_ptext_to_endchars value (u "()");
  Ok (_validate_xtext (Leaf WhiteSpaceTerminal ptext "ptext" []), value).

Definition get_qcontent (value : str) : parse :=
  '(ptext, value, _) ← _get_ptext_to_endchars value [DQUOTE];
  Ok (_validate_xtext (Leaf ValueTerminal ptext "ptext" []), value).

Definition get_atext (value : str) : parse :=
  match span (fun c => negb (inb c ATOM_ENDS)) value with
  | ([], _) => Raise HeaderParseError
  | (atext, value) =>
      Ok (_validate_xtext (Leaf ValueTerminal atext "atext" []), value)
  end.

Definition get_fws (value : str) : parse :=
  let newvalue := lstrip value in
  Ok (Leaf WhiteSpaceTerminal
        (slice_to (length value - length newvalue) value) "fws" [],
      newvalue).

Fixpoint bare_quoted_string_loop (fuel : nat) (bare_quoted_string : token)
    (value : str) : parse :=
  match fuel with
  | O => Raise OutOfFuel
  | S fuel =>
      match value with
      | c :: _ =>
          if negb (c =? DQUOTE) then
            '(token, value) ← (if inb c WSP then get_fws value
                               else get_qcontent value);
            bare_quoted_string_loop fuel (append bare_quoted_string token) value
          else Ok (bare_quoted_string, slice_from 1 value)
      | [] =>
          Ok (add_defect bare_quoted_string
                (InvalidHeaderDefect "end of header inside quoted string"),
              value)
      end
  end.

Definition get_bare_quoted_string (value : str) : parse :=
  c ← first value;
  if negb (c =? DQUOTE) then Raise HeaderParseError
  else bare_quoted_string_loop (S (length value)) (new BareQuotedString)
         (slice_from 1 value).

(** [get_comment], from after the opening parenthesis: the [while] loop,
    the nested [get_comment] calls included. *)
Fixpoint comment_loop (fuel : nat) (comment : token) (value : str) : parse :=
  match fuel with
  | O => Raise OutOfFuel
  | S fuel =>
      match value with
      | c :: _ =>
          if negb (c =? ch ")") then
            '(token, value) ← (if inb c WSP then get_fws value
                               else if c =? ch "(" then
                                 comment_loop fuel (new Comment) (slice_from 1 value)
                               else get_qp_ctext value);
            comment_loop fuel (append comment token) value
          else Ok (comment, slice_from 1 value)
      | [] =>
          Ok (add_defect comment
                (InvalidHeaderDefect "end of header inside comment"),
              value)
      end
  end.

Definition get_comment (value : str) : parse :=
  if nonempty value && negb (starts_with_char value (ch "("))
  then Raise HeaderParseError
  else comment_loop (S (length value)) (new Comment) (slice_from 1 value).

Fixpoint cfws_loop (fuel : nat) (cfws : token) (value : str) : parse :=
  match fuel with
  | O => Raise OutOfFuel
  | S fuel =>
      if starts_in value CFWS_LEADER then
        '(token, value) ← (if starts_in value WSP then get_fws value
                           else get_comment value);
        cfws_loop fuel (append cfws token) value
      else Ok (cfws, value)
  end.

Definition get_cfws (value : str) : parse :=
  cfws_loop (S (length value)) (new CFWSList) value.

(** [if value and value[0] in CFWS_LEADER: token, value = get_cfws(value);
    l.append(token)]. *)
Definition optional_cfws (l : token) (value : str) : parse :=
  if starts_in value CFWS_LEADER then
    '(token, value) ← get_cfws value; Ok (append l token, value)
  else Ok (l, value).

Definition get_quoted_string (value : str) : parse :=
  let quoted_string := new QuotedString in
  '(quoted_string, value) ← optional_cfws quoted_string value;
  '(token, value) ← get_bare_quoted_string value;
  let quoted_string := append quoted_string token in
  optional_cfws quoted_string value.

Definition get_atom (value : str) : parse :=
  let atom := new Atom in
  '(atom, value) ← optional_cfws atom value;
  if starts_in value ATOM_ENDS then Raise HeaderParseError
  else
    '(token, value) ← get_atext value;
    let atom := append atom token in
    optional_cfws atom value.

Fixpoint dot_atom_text_loop (fuel : nat) (dot_atom_text : token) (value : str)
  : parse :=
  match fuel with
  | O => Raise OutOfFuel
  | S fuel =>
      if nonempty value && negb (starts_in value ATOM_ENDS) then
        '(token, value) ← get_atext value;
        let dot_atom_text := append dot_atom_text token in
        if starts_with_char value (ch ".")
        then dot_atom_text_loop fuel (append dot_atom_text DOT) (slice_from 1 value)
        else dot_atom_text_loop fuel dot_atom_text value
      else Ok (dot_atom_text, value)
  end.

Definition token_eqb_DOT (x : token) : bool :=
  match x with
  | Leaf ValueTerminal s "dot" [] => str_eqb s (u ".")
  | _ => false
  end.

Definition get_dot_atom_text (value : str) : parse :=
  if negb (nonempty value) || starts_in value ATOM_ENDS
  then Raise HeaderParseError
  else
    '(dot_atom_text, value) ←
      dot_atom_text_loop (S (length value)) (new DotAtomText) value;
    match last (items_of dot_atom_text) with
    | None => Raise IndexError
    | Some x => if token_eqb_DOT x then Raise HeaderParseError
                else Ok (dot_atom_text, value)
    end.

Definition get_dot_atom (value : str) : parse :=
  let dot_atom := new DotAtom in
  c ← first value;
  '(dot_atom, value) ← (if inb c CFWS_LEADER
                        then '(token, value) ← get_cfws value;
                             Ok (append dot_atom token, value)
                        else Ok (dot_atom, value));
  '(token, value) ← get_dot_atom_text value;
  let dot_atom := append dot_atom token in
  optional_cfws dot_atom value.

(** [if value[0] in CFWS_LEADER: leader, value = get_cfws(value)], with
    [leader = None] otherwise. *)
Definition get_leader (value : str) : result (option token * str) :=
  c ← first value;
  if inb c CFWS_LEADER
  then '(leader, value) ← get_cfws value; Ok (Some leader, value)
  else Ok (None, value).

Definition get_word (value : str) : parse :=
  '(leader, value) ← get_leader value;
  c ← first value;
  '(token, value) ← (if c =? DQUOTE then get_quoted_string value
                     else if inb c SPECIALS then Raise HeaderParseError
                     else get_atom value);
  token ← prepend_leader leader token;
  Ok (token, value).

Fixpoint phrase_loop (fuel : nat) (phrase : token) (value : str) : parse :=
  match fuel with
  | O => Raise OutOfFuel
  | S fuel =>
      match value with
      | c :: _ =>
          if negb (inb c PHRASE_ENDS) then
            if c =? ch "." then
              phrase_loop fuel
                (add_defect (append phrase DOT)
                   (ObsoleteHeaderDefect "period in 'phrase'"))
                (slice_from 1 value)
            else
              '(phrase, token, value) ←
                match get_word value with
                | Ok (token, value) => Ok (phrase, token, value)
                | Raise HeaderParseError =>
                    if inb c CFWS_LEADER then
                      '(token, value) ← get_cfws value;
                      Ok (add_defect phrase
                            (ObsoleteHeaderDefect "comment found without atom"),
                          token, value)
                    else Raise HeaderParseError
                | Raise e => Raise e
                end;
              phrase_loop fuel (append phrase token) value
          else Ok (phrase, value)
      | [] => Ok (phrase, value)
      end
  end.

Definition get_phrase (value : str) : parse :=
  let phrase := new Phrase in
  '(phrase, value) ←
    match get_word value with
    | Ok (token, value) => Ok (append phrase token, value)
    | Raise HeaderParseError =>
        Ok (add_defect phrase
              (InvalidHeaderDefect "phrase does not start with word"), value)
    | Raise e => Raise e
    end;
  phrase_loop (S (length value)) phrase value.

Definition is_obs_local_part_char (c : uchar) : bool :=
  (c =? BACKSLASH) || negb (inb c PHRASE_ENDS).

Fixpoint obs_local_part_loop (fuel : nat) (obs_local_part : token)
    (value : str) : parse :=
  match fuel with
  | O => Raise OutOfFuel
  | S fuel =>
      match value with
      | c :: _ =>
          if is_obs_local_part_char c then
            if c =? ch "." then
              '(token, value) ← get_word (slice_from 1 value);
              obs_local_part_loop fuel
                (append (append obs_local_part DOT) token) value
            else if c =? BACKSLASH then
              obs_local_part_loop fuel
                (add_defect
                   (append obs_local_part
                      (Leaf ValueTerminal [c] "misplaced-special" []))
                   (InvalidHeaderDefect
                      "'\' character outside of quoted-string/ccontent"))
                (slice_from 1 value)
            else
              let obs_local_part :=
                add_defect obs_local_part
                  (InvalidHeaderDefect "missing '.' between words") in
              '(token, value) ← get_word value;
              obs_local_part_loop fuel (append obs_local_part token) value
          else Ok (obs_local_part, value)
      | [] => Ok (obs_local_part, value)
      end
  end.

Definition get_local_part (value : str) : parse :=
  let local_part := new LocalPart in
  '(leader, value) ← get_leader value;
  if negb (nonempty value) then Raise HeaderParseError
  else
    '(token, value) ← try_except (get_dot_atom value)
                        (get_word value);
    token ← prepend_leader leader token;
    let local_part := append local_part token in
    match value with
    | c :: _ =>
        if is_obs_local_part_char c then
          let obs_local_part := new ObsLocalPart in
          ty ← token_type_of token;
          obs_local_part ←
            (if tt_is ty "dot-atom"
             then match token with
                  | Node _ _ items _ => Ok (extend obs_local_part items)
                  | _ => Raise TypeError
                  end
             else Ok (append obs_local_part token));
          '(obs_local_part, value) ←
            obs_local_part_loop (S (length value)) obs_local_part value;
          let '(local_part, obs_local_part) :=
            if nonempty (defects_of obs_local_part) then
              (add_defect local_part
                 (InvalidHeaderDefect
                    "local-part is not dot-atom, quoted-string, or obs-local-part"),
               match obs_local_part with
               | Node c0 _ items ds => Node c0 (Some "invalid-obs-local-part"%string) items ds
               | _ => obs_local_part
               end)
            else
              (add_defect local_part
                 (ObsoleteHeaderDefect
                    "local-part is not a dot-atom (contains CFWS)"),
               obs_local_part) in
          local_part ← on_items (update_first (fun _ => Ok obs_local_part)) local_part;
          Ok (local_part, value)
        else Ok (local_part, value)
    | [] => Ok (local_part, value)
    end.

Definition get_dtext (value : str) : parse :=
  '(ptext, value, had_qp) ← _get_ptext_to_endchars value (u "[]");
  let ptext := Leaf ValueTerminal ptext "ptext" [] in
  let ptext :=
    if (had_qp : bool)
    then add_defect ptext
           (ObsoleteHeaderDefect "quoted printable found in domain-literal")
    else ptext in
  Ok (_validate_xtext ptext, value).

(** [_check_for_early_dl_end]: at the end of the input the defect object
    itself is appended to the token list, and the closing terminal after
    it. *)
Definition _check_for_early_dl_end (value : str) (domain_literal : token)
  : bool * token :=
  if nonempty value then (false, domain_literal)
  else (true,
        append
          (append domain_literal
             (Alien (InvalidHeaderDefect "end of input inside domain-literal")))
          (Leaf ValueTerminal (u "]") "domain-literal-end" [])).

(** [if value[0] in WSP: token, value = get_fws(value); l.append(token)]. *)
Definition leading_fws (l : token) (value : str) : parse :=
  c ← first value;
  if inb c WSP then '(token, value) ← get_fws value; Ok (append l token, value)
  else Ok (l, value).

Definition get_domain_literal (value : str) : parse :=
  let domain_literal := new DomainLiteral in
  c ← first value;
  '(domain_literal, value) ←
    (if inb c CFWS_LEADER
     then '(token, value) ← get_cfws value; Ok (append domain_literal token, value)
     else Ok (domain_literal, value));
  match value with
  | [] => Raise HeaderParseError
  | c :: _ =>
      if negb (c =? ch "[") then Raise HeaderParseError
      else
        let value := slice_from 1 value in
        let '(early, domain_literal) := _check_for_early_dl_end value domain_literal in
        if (early : bool) then Ok (domain_literal, value)
        else
          let domain_literal :=
            append domain_literal (Leaf ValueTerminal (u "[") "domain-literal-start" []) in
          '(domain_literal, value) ← leading_fws domain_literal value;
          '(token, value) ← get_dtext value;
          let domain_literal := append domain_literal token in
          let '(early, domain_literal) := _check_for_early_dl_end value domain_literal in
          if (early : bool) then Ok (domain_literal, value)
          else
            '(domain_literal, value) ← leading_fws domain_literal value;
            let '(early, domain_literal) := _check_for_early_dl_end value domain_literal in
            if (early : bool) then Ok (domain_literal, value)
            else
              c ← first value;
              if negb (c =? ch "]") then Raise HeaderParseError
              else
                let domain_literal :=
                  append domain_literal
                    (Leaf ValueTerminal (u "]") "domain-literal-end" []) in
                optional_cfws domain_literal (slice_from 1 value)
  end.

Fixpoint domain_loop (fuel : nat) (domain : token) (value : str) : parse :=
  match fuel with
  | O => Raise OutOfFuel
  | S fuel =>
      if starts_with_char value (ch ".") then
        '(token, value) ← get_atom (slice_from 1 value);
        domain_loop fuel (append (append domain DOT) token) value
      else Ok (domain, value)
  end.

Definition get_domain (value : str) : parse :=
  let domain := new Domain in
  '(leader, value) ← get_leader value;
  match value with
  | [] => Raise HeaderParseError
  | c :: _ =>
      if c =? ch "[" then
        '(token, value) ← get_domain_literal value;
        token ← prepend_leader leader token;
        Ok (append domain token, value)
      else
        '(token, value) ← try_except (get_dot_atom value)
                            (get_atom value);
        token ← prepend_leader leader token;
        let domain := append domain token in
        if starts_with_char value (ch ".") then
          let domain :=
            add_defect domain
              (ObsoleteHeaderDefect "domain is not a dot-atom (contains CFWS)") in
          ty ← token_type_of token;
          domain ←
            (if tt_is ty "dot-atom"
             then match token, domain with
                  | Node _ _ items _, Node c0 ty0 _ ds => Ok (Node c0 ty0 items ds)
                  | _, _ => Raise TypeError
                  end
             else Ok domain);
          domain_loop (S (length value)) domain value
        else Ok (domain, value)
  end.

Definition get_addr_spec (value : str) : parse :=
  let addr_spec := new AddrSpec in
  '(token, value) ← get_local_part value;
  let addr_spec := append addr_spec token in
  if negb (starts_with_char value (ch "@")) then
    Ok (add_defect addr_spec
          (InvalidHeaderDefect "add-spec local part with no domain"), value)
  else
    let addr_spec :=
      append addr_spec (Leaf ValueTerminal (u "@") "address-at-symbol" []) in
    '(token, value) ← get_domain (slice_from 1 value);
    Ok (append addr_spec token, value).

Fixpoint obs_route_lead_loop (fuel : nat) (obs_route : token) (value : str)
  : parse :=
  match fuel with
  | O => Raise OutOfFuel
  | S fuel =>
      match value with
      | c :: _ =>
          if inb c CFWS_LEADER then
            '(token, value) ← get_cfws value;
            obs_route_lead_loop fuel (append obs_route token) value
          else if c =? ch "," then
            obs_route_lead_loop fuel (append obs_route ListSeparator)
              (slice_from 1 value)
          else Ok (obs_route, value)
      | [] => Ok (obs_route, value)
      end
  end.

Fixpoint obs_route_tail_loop (fuel : nat) (obs_route : token) (value : str)
  : parse :=
  match fuel with
  | O => Raise OutOfFuel
  | S fuel =>
      if starts_with_char value (ch ",") then
        let obs_route := append obs_route ListSeparator in
        let value := slice_from 1 value in
        if negb (nonempty value) then Ok (obs_route, value)
        else
          '(obs_route, value) ← optional_cfws obs_route value;
          c ← first value;
          if c =? ch "@" then
            '(token, value) ← get_domain (slice_from 1 value);
            obs_route_tail_loop fuel
              (append (append obs_route RouteComponentMarker) token) value
          else obs_route_tail_loop fuel obs_route value
      else Ok (obs_route, value)
  end.

Definition get_obs_route (value : str) : parse :=
  let obs_route := new ObsRoute in
  '(obs_route, value) ← obs_route_lead_loop (S (length value)) obs_route value;
  if negb (starts_with_char value (ch "@")) then Raise HeaderParseError
  else
    let obs_route := append obs_route RouteComponentMarker in
    '(token, value) ← get_domain (slice_from 1 value);
    let obs_route := append obs_route token in
    '(obs_route, value) ← obs_route_tail_loop (S (length value)) obs_route value;
    match value with
    | [] => Raise HeaderParseError
    | c :: _ =>
        if negb (c =? ch ":") then Raise HeaderParseError
        else Ok (append obs_route
                   (Leaf ValueTerminal (u ":") "end-of-obs-route-marker" []),
                 slice_from 1 value)
    end.

Definition get_angle_addr (value : str) : parse :=
  let angle_addr := new AngleAddr in
  c ← first value;
  '(angle_addr, value) ←
    (if inb c CFWS_LEADER
     then '(token, value) ← get_cfws value; Ok (append angle_addr token, value)
     else Ok (angle_addr, value));
  if negb (starts_with_char value (ch "<")) then Raise HeaderParseError
  else
    let angle_addr :=
      append angle_addr (Leaf ValueTerminal (u "<") "angle-addr-start" []) in
    let value := slice_from 1 value in
    '(angle_addr, token, value) ←
      match get_addr_spec value with
      | Ok (token, value) => Ok (angle_addr, token, value)
      | Raise HeaderParseError =>
          '(token, value) ← get_obs_route value;
          let angle_addr :=
            add_defect angle_addr
              (ObsoleteHeaderDefect "obsolete route specification in angle-addr") in
          let angle_addr := append angle_addr token in
          '(token, value) ← get_addr_spec value;
          Ok (angle_addr, token, value)
      | Raise e => Raise e
      end;
    let angle_addr := append angle_addr token in
    let '(angle_addr, value) :=
      if starts_with_char value (ch ">") then (angle_addr, slice_from 1 value)
      else (add_defect angle_addr
              (InvalidHeaderDefect "missing trailing '>' on angle-addr"), value) in
    let angle_addr :=
      append angle_addr (Leaf ValueTerminal (u ">") "angle-addr-end" []) in
    optional_cfws angle_addr value.

Definition get_display_name (value : str) : parse :=
  '(token, value) ← get_phrase value;
  match new DisplayName with
  | Node c ty _ _ => Ok (Node c ty (items_of token) (defects_of token), value)
  | other => Ok (other, value)
  end.

Definition get_name_addr (value : str) : parse :=
  let name_addr := new NameAddr in
  c ← first value;
  '(leader, value) ←
    (if inb c CFWS_LEADER then
       '(leader, value) ← get_cfws value;
       if negb (nonempty value) then Raise HeaderParseError
       else Ok (Some leader, value)
     else Ok (None, value));
  c ← first value;
  '(name_addr, leader, value) ←
    (if negb (c =? ch "<") then
       if inb c PHRASE_ENDS then Raise HeaderParseError
       else
         '(token, value) ← get_display_name value;
         if negb (nonempty value) then Raise HeaderParseError
         else
           token ← match leader with
                   | Some l => on_items (update_first (prepend l)) token
                   | None => Ok token
                   end;
           Ok (append name_addr token, None, value)
     else Ok (name_addr, leader, value));
  '(token, value) ← get_angle_addr value;
  token ← prepend_leader leader token;
  Ok (append name_addr token, value).

Definition get_mailbox (value : str) : parse :=
  let mailbox := new Mailbox in
  '(token, value) ← try_except (get_name_addr value)
                      (get_addr_spec value);
  ds ← all_defects token;
  let mailbox :=
    if existsb is_InvalidHeaderDefect ds
    then match mailbox with
         | Node c _ items d0 => Node c (Some "invalid-mailbox"%string) items d0
         | other => other
         end
    else mailbox in
  Ok (append mailbox token, value).

Fixpoint invalid_mailbox_loop (fuel : nat) (endchars : str)
    (invalid_mailbox : token) (value : str) : parse :=
  match fuel with
  | O => Raise OutOfFuel
  | S fuel =>
      match value with
      | c :: _ =>
          if negb (inb c endchars) then
            if inb c PHRASE_ENDS then
              invalid_mailbox_loop fuel endchars
                (append invalid_mailbox
                   (Leaf ValueTerminal [c] "misplaced-special" []))
                (slice_from 1 value)
            else
              '(token, value) ← get_phrase value;
              invalid_mailbox_loop fuel endchars
                (append invalid_mailbox token) value
          else Ok (invalid_mailbox, value)
      | [] => Ok (invalid_mailbox, value)
      end
  end.

Definition get_invalid_mailbox (value endchars : str) : parse :=
  invalid_mailbox_loop (S (length value)) endchars (new InvalidMailbox) value.

(** [x.mailboxes] of a [MailboxList]. *)
Definition MailboxList_mailboxes (items : list token) : result (list token) :=
  foldr (fun x acc =>
           ty ← token_type_of x; rest ← acc;
           Ok (if tt_is ty "mailbox" then x :: rest else rest))
        (Ok []) items.

(** The part of [get_mailbox_list] and [get_address_list] after a
    [HeaderParseError]: an empty element, or an invalid mailbox up to the
    next of [endchars]; [wrap] is the identity or [Address([token])]. *)
Definition recover_entry (endchars : str) (wrap : token -> token)
    (empty_msg empty_leader_msg invalid_msg : string)
    (l : token) (value : str) : parse :=
  c ← first value;
  if inb c CFWS_LEADER then
    '(leader, value) ← get_cfws value;
    if negb (nonempty value) || starts_in value endchars then
      Ok (add_defect (append l leader) (ObsoleteHeaderDefect empty_leader_msg),
          value)
    else
      '(token, value) ← get_invalid_mailbox value endchars;
      token ← prepend leader token;
      Ok (add_defect (append l (wrap token)) (InvalidHeaderDefect invalid_msg),
          value)
  else if c =? ch "," then
    Ok (add_defect l (ObsoleteHeaderDefect empty_msg), value)
  else
    '(token, value) ← get_invalid_mailbox value endchars;
    Ok (add_defect (append l (wrap token)) (InvalidHeaderDefect invalid_msg),
        value).

Fixpoint mailbox_list_loop (fuel : nat) (mailbox_list : token) (value : str)
  : parse :=
  match fuel with
  | O => Raise OutOfFuel
  | S fuel =>
      if nonempty value && negb (starts_with_char value (ch ";")) then
        '(mailbox_list, value) ←
          match get_mailbox value with
          | Ok (token, value) => Ok (append mailbox_list token, value)
          | Raise HeaderParseError =>
              recover_entry (u ",;") id
                "empty element in mailbox-list"
                "empty element in mailbox-list"
                "invalid mailbox in mailbox-list" mailbox_list value
          | Raise e => Raise e
          end;
        '(mailbox_list, value) ←
          (if nonempty value && negb (starts_in value (u ",;")) then
             (* Crap after mailbox; treat it as an invalid mailbox. *)
             _ ← match last (items_of mailbox_list) with
                 | Some x => Ok x
                 | None => Raise IndexError
                 end;
             '(token, value) ← get_invalid_mailbox value (u ",;");
             mailbox_list ←
               on_items (update_last
                           (retype_extend "invalid-mailbox" (items_of token)))
                        mailbox_list;
             Ok (add_defect mailbox_list
                   (InvalidHeaderDefect "invalid mailbox in mailbox-list"),
                 value)
           else Ok (mailbox_list, value));
        if starts_with_char value (ch ",")
        then mailbox_list_loop fuel (append mailbox_list ListSeparator)
               (slice_from 1 value)
        else mailbox_list_loop fuel mailbox_list value
      else Ok (mailbox_list, value)
  end.

Definition get_mailbox_list (value : str) : parse :=
  mailbox_list_loop (S (length value)) (new MailboxList) value.

Definition get_group_list (value : str) : parse :=
  let group_list := new GroupList in
  if negb (nonempty value) then
    Ok (add_defect group_list
          (InvalidHeaderDefect "end of header before group-list"), value)
  else
    '(leader, value) ←
      (if starts_in value CFWS_LEADER
       then '(leader, value) ← get_cfws value; Ok (Some leader, value)
       else Ok (None, value));
    match leader, value with
    | Some l, [] =>
        Ok (append
              (add_defect group_list
                 (InvalidHeaderDefect "end of header in group-list")) l,
            value)
    | Some l, c :: _ =>
        if c =? ch ";" then Ok (append group_list l, value)
        else
          '(token, value) ← get_mailbox_list value;
          mbs ← MailboxList_mailboxes (items_of token);
          match mbs with
          | [] =>
              Ok (add_defect (extend (append group_list l) (items_of token))
                    (ObsoleteHeaderDefect "group-list with empty entries"),
                  value)
          | _ => token ← prepend l token; Ok (append group_list token, value)
          end
    | None, _ =>
        '(token, value) ← get_mailbox_list value;
        mbs ← MailboxList_mailboxes (items_of token);
        match mbs with
        | [] =>
            Ok (add_defect (extend group_list (items_of token))
                  (ObsoleteHeaderDefect "group-list with empty entries"),
                value)
        | _ => Ok (append group_list token, value)
        end
    end.

Definition get_group (value : str) : parse :=
  let group := new Group in
  '(token, value) ← get_display_name value;
  if negb (starts_with_char value (ch ":")) then Raise HeaderParseError
  else
    let group := append group token in
    let group :=
      append group (Leaf ValueTerminal (u ":") "group-display-name-terminator" []) in
    let value := slice_from 1 value in
    if starts_with_char value (ch ";") then
      Ok (append group (Leaf ValueTerminal (u ";") "group-terminator" []),
          slice_from 1 value)
    else
      '(token, value) ← get_group_list value;
      let group := append group token in
      let group :=
        if negb (nonempty value)
        then add_defect group (InvalidHeaderDefect "end of header in group")
        else group in
      c ← first value;
      if negb (c =? ch ";") then Raise HeaderParseError
      else
        let group :=
          append group (Leaf ValueTerminal (u ";") "group-terminator" []) in
        optional_cfws group (slice_from 1 value).

Definition get_address (value : str) : parse :=
  let address := new Address in
  '(token, value) ← try_except (get_group value)
                      (get_mailbox value);
  Ok (append address token, value).

(** [Address([token])]. *)
Definition Address_of (x : token) : token :=
  Node Address (class_token_type Address) [x] [].

(** One round of the [while value:] loop of [get_address_list]. *)
Definition address_list_step (address_list : token) (value : str) : parse :=
  '(address_list, value) ←
    match get_address value with
    | Ok (token, value) => Ok (append address_list token, value)
    | Raise HeaderParseError =>
        recover_entry (u ",") Address_of
          "empty element in address-list"
          "address-list entry with no content"
          "invalid address in address-list" address_list value
    | Raise e => Raise e
    end;
  '(address_list, value) ←
    (if nonempty value && negb (starts_with_char value (ch ",")) then
       (* Crap after address; treat it as an invalid mailbox. *)
       _ ← match last (items_of address_list) with
           | Some x => on_items (update_first Ok) x
           | None => Raise IndexError
           end;
       '(token, value) ← get_invalid_mailbox value (u ",");
       address_list ←
         on_items
           (update_last
              (on_items
                 (update_first
                    (retype_extend "invalid-mailbox" (items_of token)))))
           address_list;
       Ok (add_defect address_list
             (InvalidHeaderDefect "invalid address in address-list"),
           value)
     else Ok (address_list, value));
  if nonempty value then   (* Must be a , at this point. *)
    Ok (append address_list (Leaf ValueTerminal (u ",") "list-separator" []),
        slice_from 1 value)
  else Ok (address_list, value).

Fixpoint address_list_loop (fuel : nat) (address_list : token) (value : str)
  : parse :=
  match fuel with
  | O => Raise OutOfFuel
  | S fuel =>
      if nonempty value then
        '(address_list, value) ← address_list_step address_list value;
        address_list_loop fuel address_list value
      else Ok (address_list, value)
  end.

Definition get_address_list (value : str) : parse :=
  address_list_loop (S (length value)) (new AddressList) value.

(** *** Unstructured text *)

Definition looks_like_ew (tok : str) : bool :=
  startswith tok (u "=?") && endswith tok (u "?=").

Fixpoint _decode_ew_run_loop (codecs : encoded_words.Codecs) (fuel : nat)
    (res : str) (defects : list defect) (last_ws : str) (value : str)
  : result (str * str * list defect) :=
  match fuel with
  | O => Raise OutOfFuel
  | S fuel =>
      if nonempty value then
        let '(tok, ws, value) := split_tok_ws value in
        if negb (looks_like_ew tok)
        then Ok (res, last_ws ++ tok ++ ws ++ value, defects)
        else
          '(text, new_defects) ← encoded_words.decode codecs tok;
          _decode_ew_run_loop codecs fuel (res ++ text)
            (defects ++ new_defects) ws value
      else Ok (res, last_ws, defects)
  end.

Definition _decode_ew_run (codecs : encoded_words.Codecs) (value : str)
  : result (str * str * list defect) :=
  _decode_ew_run_loop codecs (S (length value)) [] [] [] value.

Definition append_fws (l : token) (last_ws : str) : token :=
  if nonempty last_ws
  then append l (Leaf WhiteSpaceTerminal last_ws "fws" [])
  else l.

Fixpoint unstructured_loop (codecs : encoded_words.Codecs) (fuel : nat)
    (unstructured : token) (last_ws : str) (value : str) : result token :=
  match fuel with
  | O => Raise OutOfFuel
  | S fuel =>
      if nonempty value then
        let '(tok, ws, value) := split_tok_ws value in
        if negb (nonempty tok) then
          let last_ws := last_ws ++ ws in
          if negb (nonempty value) then Ok (append_fws unstructured last_ws)
          else unstructured_loop codecs fuel unstructured last_ws value
        else if looks_like_ew tok then
          '(text, value, defects) ← _decode_ew_run codecs (tok ++ ws ++ value);
          let unstructured :=
            match unstructured with
            | Node c ty items ds => Node c ty items (ds ++ defects)
            | other => other
            end in
          unstructured_loop codecs fuel unstructured last_ws (text ++ value)
        else
          let unstructured := append_fws unstructured last_ws in
          tok ← (if _has_surrogates tok then _sanitize tok else Ok tok);
          let vtext := _validate_xtext (Leaf ValueTerminal tok "vtext" []) in
          unstructured_loop codecs fuel (append unstructured vtext) ws value
      else Ok (append_fws unstructured last_ws)
  end.

Definition get_unstructured (codecs : encoded_words.Codecs) (value : str)
  : result token :=
  unstructured_loop codecs (S (length value)) (new UnstructuredTokenList) [] value.

(** *** Accessors of the address tokens *)

(** [x.display_name]. *)
Fixpoint display_name (x : token) : result (option str) :=
  match x with
  | Node c _ items _ =>
      match c with
      | Address =>
          match items with
          | [] => Raise IndexError
          | x0 :: _ =>
              ty ← token_type_of x0;
              if tt_is ty "group" then display_name x0 else Ok None
          end
      | Group =>
          match items with
          | [] => Raise IndexError
          | x0 :: _ => display_name x0
          end
      | NameAddr =>
          match items with
          | [] => Raise IndexError
          | [_] => Ok None
          | x0 :: _ => display_name x0
          end
      | Mailbox =>
          match items with
          | [] => Raise IndexError
          | x0 :: _ =>
              ty ← token_type_of x0;
              if tt_is ty "name-addr" then display_name x0 else Ok None
          end
      | InvalidMailbox => Ok None
      | DisplayName =>
          v ← strip_cfws_value (map (fun y => Orig (summarize value y)) items);
          Ok (Some v)
      | _ => Raise (no_attribute "display_name")
      end
  | _ => Raise (no_attribute "display_name")
  end.

(** [TokenList(x)]: the items of a list; the characters of a terminal,
    which are plain [str]s. *)
Definition TokenList_of (x : token) : result (list elt) :=
  match x with
  | Node _ _ items _ => Ok (map (fun y => Orig (summarize value y)) items)
  | Leaf _ s _ _ =>
      Ok (map (fun c => Orig {| i_token_type := Raise (no_attribute "token_type");
                                i_value := Raise (no_attribute "value");
                                i_shape := SStr [c] |}) s)
  | Alien _ => Raise TypeError
  end.

(** [x.local_part]. *)
Fixpoint local_part (x : token) : result (option str) :=
  match x with
  | Node c _ items _ =>
      match c with
      | NameAddr =>
          (fix at_last (l : list token) : result (option str) :=
             match l with
             | [] => Raise IndexError
             | [y] => local_part y
             | _ :: l' => at_last l'
             end) items
      | AngleAddr =>
          (fix find (l : list token) : result (option str) :=
             match l with
             | [] => Ok None
             | y :: l' =>
                 ty ← token_type_of y;
                 if tt_is ty "addr-spec" then local_part y else find l'
             end) items
      | Mailbox | AddrSpec =>
          match items with
          | [] => Raise IndexError
          | x0 :: _ => local_part x0
          end
      | InvalidMailbox => Ok None
      | LocalPart =>
          match items with
          | [] => Raise IndexError
          | x0 :: _ =>
              res ← TokenList_of x0;
              v ← strip_cfws_value res;
              Ok (Some v)
          end
      | _ => Raise (no_attribute "local_part")
      end
  | _ => Raise (no_attribute "local_part")
  end.

(** [x.domain]. *)
Fixpoint domain (x : token) : result (option str) :=
  match x with
  | Node c _ items _ =>
      match c with
      | NameAddr =>
          (fix at_last (l : list token) : result (option str) :=
             match l with
             | [] => Raise IndexError
             | [y] => domain y
             | _ :: l' => at_last l'
             end) items
      | AngleAddr =>
          (fix find (l : list token) : result (option str) :=
             match l with
             | [] => Ok None
             | y :: l' =>
                 ty ← token_type_of y;
                 if tt_is ty "addr-spec" then domain y else find l'
             end) items
      | Mailbox =>
          match items with
          | [] => Raise IndexError
          | x0 :: _ => domain x0
          end
      | AddrSpec =>
          match items with
          | _ :: _ :: _ :: _ =>
              (fix at_last (l : list token) : result (option str) :=
                 match l with
                 | [] => Raise IndexError
                 | [y] => domain y
                 | _ :: l' => at_last l'
                 end) items
          | _ => Ok None
          end
      | InvalidMailbox => Ok None
      | Domain | DomainLiteral =>
          v ← join_values (map value items);
          Ok (Some (remove_whitespace v))
      | _ => Raise (no_attribute "domain")
      end
  | _ => Raise (no_attribute "domain")
  end.

(** [x.all_mailboxes]. *)
Fixpoint all_mailboxes (x : token) : result (list token) :=
  match x with
  | Node c _ items _ =>
      match c with
      | AddressList =>
          (fix go (l : list token) : result (list token) :=
             match l with
             | [] => Ok []
             | y :: l' =>
                 ty ← token_type_of y;
                 if tt_is ty "address"
                 then a ← all_mailboxes y; rest ← go l'; Ok (a ++ rest)
                 else go l'
             end) items
      | Address =>
          match items with
          | [] => Raise IndexError
          | x0 :: _ =>
              ty ← token_type_of x0;
              if tt_is ty "mailbox" || tt_is ty "invalid-mailbox"
              then Ok [x0] else all_mailboxes x0
          end
      | MailboxList =>
          foldr (fun y acc =>
                   ty ← token_type_of y; rest ← acc;
                   Ok (if tt_is ty "mailbox" || tt_is ty "invalid-mailbox"
                       then y :: rest else rest))
                (Ok []) items
      | GroupList =>
          match items with
          | [] => Ok []
          | x0 :: _ =>
              ty ← token_type_of x0;
              if tt_is ty "mailbox-list" then all_mailboxes x0 else Ok []
          end
      | Group =>
          match items with
          | _ :: _ :: x2 :: _ =>
              ty ← token_type_of x2;
              if tt_is ty "group-list" then all_mailboxes x2 else Ok []
          | _ => Raise IndexError
          end
      | _ => Raise (no_attribute "all_mailboxes")
      end
  | _ => Raise (no_attribute "all_mailboxes")
  end.

(** [address_list.addresses]. *)
Definition addresses (x : token) : result (list token) :=
  match x with
  | Node AddressList _ items _ =>
      foldr (fun y acc =>
               ty ← token_type_of y; rest ← acc;
               Ok (if tt_is ty "address" then y :: rest else rest))
            (Ok []) items
  | _ => Raise (no_attribute "addresses")
  end.

End parser.

(** ** [header.py] *)

Module header.

Definition MAXLINELEN : Z := 78.
Definition FWS : str := u " " ++ [TAB].

(** *** The regular expressions *)

(** The tail of [ecre] after the second [?] of the envelope: [.*?] (no
    line feed), then [?=] before a space, a tab, a line feed or the end. *)
Fixpoint ecre_encoded (s : str) : bool :=
  match s with
  | [] => false
  | c :: s' =>
      ((c =? ch "?")
       && match s' with
          | d :: s'' =>
              (d =? ch "=")
              && match s'' with
                 | [] => true
                 | x :: _ => inb x (u " " ++ [TAB; LF])
                 end
          | [] => false
          end)
      || (negb (c =? LF) && ecre_encoded s')
  end.

(** A match of [ecre] at the start of [s]. *)
Definition ecre_match (s : str) : bool :=
  startswith s (u "=?")
  && match parser.span (fun c => negb (c =? ch "?")) (drop 2 s) with
     | (_, q :: e :: q' :: rest) =>
         (q =? ch "?") && inb (lower_char e) (u "qb") && (q' =? ch "?")
         && ecre_encoded rest
     | _ => false
     end.

(** [ecre.search(s)]. *)
Fixpoint ecre_search (s : str) : bool :=
  ecre_match s || match s with _ :: s' => ecre_search s' | [] => false end.

(** [_embeded_header = re.compile(r'\n[^ \t]+:')]: after a line feed, the
    characters read so far are neither space nor tab; [seen] says that
    there is at least one. *)
Fixpoint colon_follows (s : str) (seen : bool) : bool :=
  match s with
  | [] => false
  | c :: s' =>
      if inb c FWS then false
      else (seen && (c =? ch ":")) || colon_follows s' true
  end.

Fixpoint _embeded_header_search (s : str) : bool :=
  match s with
  | [] => false
  | c :: s' => ((c =? LF) && colon_follows s' false) || _embeded_header_search s'
  end.

(** [re.split("([ \t]+)", s)]: text, white space, text, ..., text. *)
Fixpoint re_split_fws_aux (s : str) (cur : str) (in_ws : bool) : list str :=
  match s with
  | [] => if in_ws then [rev cur; []] else [rev cur]
  | c :: s' =>
      if Bool.eqb (inb c FWS) in_ws then re_split_fws_aux s' (c :: cur) in_ws
      else rev cur :: re_split_fws_aux s' [c] (negb in_ws)
  end.
Definition re_split_fws (s : str) : list str := re_split_fws_aux s [] false.

(** *** Character sets of header chunks *)

(** Modelled from the spec: [email6/charset.py] is not among the sources.
    A charset either "requires no transfer encoding" ([header_encoding] is
    [None]) or has "the charset-encoding routine" [header_encode_lines],
    which pre-splits the text "into a sequence of already-encoded fragments
    sized to fit" the lengths it is given; the first fragment is [None]
    when nothing fits on the current line.  Two charsets are the same when
    their names are. *)
Inductive encoding := QP | BASE64 | SHORTEST.
Record Charset := {
  input_charset : str;
  header_encoding : option encoding;
  header_encode_lines : str -> (nat -> Z) -> list (option str)
}.
Definition charset_eqb (c : Charset) (o : option Charset) : bool :=
  match o with
  | Some c' => str_eqb (input_charset c) (input_charset c')
  | None => false
  end.
Definition USASCII : Charset :=
  {| input_charset := u "us-ascii";
     header_encoding := None;
     header_encode_lines := fun _ _ => [] |}.

(** *** [_Accumulator]: the current line *)

Record _Accumulator := {
  parts : list (str * str);        (* the list itself: (fws, string) pairs *)
  _initial_size : nat
}.

Definition push (fws string : str) (a : _Accumulator) : _Accumulator :=
  {| parts := parts a ++ [(fws, string)]; _initial_size := _initial_size a |}.

Definition pop_from (i : nat) (a : _Accumulator)
  : list (str * str) * _Accumulator :=
  (drop i (parts a),
   {| parts := take i (parts a); _initial_size := _initial_size a |}).

Definition part_count (a : _Accumulator) : nat := length (parts a).

Definition pop (a : _Accumulator) : (str * str) * _Accumulator :=
  match last (parts a) with
  | None => (([], []), a)
  | Some p => (p, {| parts := removelast (parts a);
                     _initial_size := _initial_size a |})
  end.

(** [len(a)]. *)
Definition acc_len (a : _Accumulator) : nat :=
  fold_left (fun n p => (n + (length (fst p) + length (snd p)))%nat)
            (parts a) (_initial_size a).

(** [str(a)]. *)
Definition acc_str (a : _Accumulator) : str :=
  concat (map (fun p => fst p ++ snd p) (parts a)).

Definition reset (startval : list (str * str)) (a : _Accumulator)
  : _Accumulator :=
  {| parts := startval; _initial_size := 0 |}.

(** [not self] is [len(self) == 0], with the overridden [__len__]. *)
Definition is_onlyws (a : _Accumulator) : bool :=
  Nat.eqb (_initial_size a) 0
  && (Nat.eqb (acc_len a) 0 || isspace (acc_str a)).

(** *** [_ValueFormatter] *)

Record _ValueFormatter := {
  _maxlen : Z;
  _continuation_ws : str;
  _splitchars : str;
  _lines : list str;
  _current_line : _Accumulator
}.

Definition new_ValueFormatter (headerlen : nat) (maxlen : Z)
    (continuation_ws splitchars : str) : _ValueFormatter :=
  {| _maxlen := maxlen; _continuation_ws := continuation_ws;
     _splitchars := splitchars; _lines := [];
     _current_line := {| parts := []; _initial_size := headerlen |} |}.

Definition with_line (f : _ValueFormatter) (a : _Accumulator) : _ValueFormatter :=
  {| _maxlen := _maxlen f; _continuation_ws := _continuation_ws f;
     _splitchars := _splitchars f; _lines := _lines f; _current_line := a |}.
Definition with_lines (f : _ValueFormatter) (l : list str) : _ValueFormatter :=
  {| _maxlen := _maxlen f; _continuation_ws := _continuation_ws f;
     _splitchars := _splitchars f; _lines := l;
     _current_line := _current_line f |}.

Definition newline (f : _ValueFormatter) : result _ValueFormatter :=
  let '(end_of_line, a) := pop (_current_line f) in
  let a := if bool_decide (end_of_line = (u " ", []))
           then a else push (fst end_of_line) (snd end_of_line) a in
  lines ←
    (if (0 <? acc_len a)%nat then
       if is_onlyws a then
         match last (_lines f) with
         | None => Raise IndexError
         | Some l => Ok (removelast (_lines f) ++ [l ++ acc_str a])
         end
       else Ok (_lines f ++ [acc_str a])
     else Ok (_lines f));
  Ok (with_line (with_lines f lines) (reset [] a)).

Definition add_transition (f : _ValueFormatter) : _ValueFormatter :=
  with_line f (push (u " ") [] (_current_line f)).

(** The test of the inner loop of [_append_chunk] at index [i]. *)
Definition splits_at (c : uchar) (ps : list (str * str)) (i : nat) : bool :=
  (py_isspace c
   && match ps !! i with
      | Some (fws, _) => starts_with_char fws c
      | None => false
      end)
  || match ps !! (i - 1)%nat with
     | Some (_, prevpart) =>
         match last prevpart with Some x => x =? c | None => false end
     | None => false
     end.

(** [for i in range(part_count-1, 0, -1)], from [i] down to 1. *)
Fixpoint find_index (c : uchar) (ps : list (str * str)) (i : nat) : option nat :=
  match i with
  | O => None
  | S i' => if splits_at c ps i then Some i else find_index c ps i'
  end.

(** [for ch in self._splitchars]: the first character that has an index. *)
Fixpoint find_split (splitchars : str) (ps : list (str * str)) : option nat :=
  match splitchars with
  | [] => None
  | c :: rest =>
      match find_index c ps (length ps - 1) with
      | Some i => Some i
      | None => find_split rest ps
      end
  end.

Definition _append_chunk (fws string : str) (f : _ValueFormatter)
  : result _ValueFormatter :=
  let a := push fws string (_current_line f) in
  let f := with_line f a in
  if (_maxlen f <? Z.of_nat (acc_len a))%Z then
    match find_split (_splitchars f) (parts a) with
    | None =>
        let '((fws, part), a) := pop a in
        let f := with_line f a in
        '(f, fws) ←
          (if (0 <? _initial_size a)%nat then
             f ← newline f;
             Ok (f, if nonempty fws then fws else u " ")
           else Ok (f, fws));
        Ok (with_line f (push fws part (_current_line f)))
    | Some i =>
        let '(remainder, a) := pop_from i a in
        Ok (with_line (with_lines f (_lines f ++ [acc_str a]))
              (reset remainder a))
    end
  else Ok f.

(** The pairs of consecutive elements of [parts], with [_append_chunk] on
    every pair. *)
Fixpoint append_pairs (ps : list str) (f : _ValueFormatter)
  : result _ValueFormatter :=
  match ps with
  | fws :: part :: rest => f ← _append_chunk fws part f; append_pairs rest f
  | _ => Ok f
  end.

Definition _ascii_split (fws string : str) (f : _ValueFormatter)
  : result _ValueFormatter :=
  let ps := re_split_fws (fws ++ string) in
  let ps := match ps with
            | [] :: rest => rest
            | _ => [] :: ps
            end in
  append_pairs ps f.

(** The generator [_maxlengths], by position. *)
Definition _maxlengths (f : _ValueFormatter) : nat -> Z :=
  fun k => match k with
           | O => (_maxlen f - Z.of_nat (acc_len (_current_line f)))%Z
           | S _ => (_maxlen f - Z.of_nat (length (_continuation_ws f)))%Z
           end.

(** A fragment that is [None] where a [str] is needed. *)
Definition need_str (o : option str) : result str :=
  match o with Some s => Ok s | None => Raise TypeError end.

Definition feed (fws string : str) (charset : Charset) (f : _ValueFormatter)
  : result _ValueFormatter :=
  match header_encoding charset with
  | None => _ascii_split fws string f
  | Some _ =>
      match header_encode_lines charset string (_maxlengths f) with
      | [] => Ok f
      | first_line :: encoded_lines =>
          f ← match first_line with
              | Some l => _append_chunk fws l f
              | None => Ok f
              end;
          match last encoded_lines with
          | None => Ok f
          | Some last_line =>
              f ← newline f;
              last_line ← need_str last_line;
              let f := with_line f (push (_continuation_ws f) last_line
                                      (_current_line f)) in
              middle ← foldr (fun l acc => s ← need_str l; rest ← acc;
                                           Ok ((_continuation_ws f ++ s) :: rest))
                             (Ok []) (removelast encoded_lines);
              Ok (with_lines f (_lines f ++ middle))
          end
      end
  end.

(** [_str(linesep)]: the final [newline] and the joined lines. *)
Definition _str (linesep : str) (f : _ValueFormatter) : result str :=
  f ← newline f; Ok (join linesep (_lines f)).

(** *** [Header] *)

Record Header := {
  _charset : option Charset;
  h_continuation_ws : str;
  _chunks : list (str * Charset);
  _maxlinelen : Z;
  _headerlen : nat;
  name : option str
}.

(** [Header(s, charset, maxlinelen, header_name, continuation_ws)] for a
    [str] and the charset of its chunk: the one given, or, when none is
    given, the one [append] chooses, which is [USASCII] for ASCII text.
    (The check [s.encode(output_charset)] of [append] belongs to the
    codec.) *)
Definition new_Header (s : option str) (charset : Charset)
    (maxlinelen : option Z) (header_name : option str) (continuation_ws : str)
  : Header :=
  {| _charset := Some charset;
     h_continuation_ws := continuation_ws;
     _chunks := match s with Some s => [(s, charset)] | None => [] end;
     _maxlinelen := match maxlinelen with Some n => n | None => MAXLINELEN end;
     _headerlen := match header_name with
                   | Some n => (length n + 2)%nat
                   | None => 0%nat
                   end;
     name := header_name |}.

Definition append (s : str) (charset : Charset) (h : Header) : Header :=
  {| _charset := _charset h; h_continuation_ws := h_continuation_ws h;
     _chunks := _chunks h ++ [(s, charset)];
     _maxlinelen := _maxlinelen h; _headerlen := _headerlen h;
     name := name h |}.

(** [_normalize]: runs of chunks of one charset become one chunk. *)
Fixpoint normalize_loop (chunks : list (str * Charset))
    (out : list (str * Charset)) (last_charset : option Charset)
    (last_chunk : list str) : list (str * Charset) :=
  match chunks with
  | [] =>
      match last_chunk, last_charset with
      | _ :: _, Some c => out ++ [(join (u " ") last_chunk, c)]
      | _, _ => out
      end
  | (string, charset) :: rest =>
      if charset_eqb charset last_charset
      then normalize_loop rest out last_charset (last_chunk ++ [string])
      else
        let out := match last_charset with
                   | Some c => out ++ [(join (u " ") last_chunk, c)]
                   | None => out
                   end in
        normalize_loop rest out (Some charset) [string]
  end.
Definition _normalize (h : Header) : Header :=
  {| _charset := _charset h; h_continuation_ws := h_continuation_ws h;
     _chunks := normalize_loop (_chunks h) [] None [];
     _maxlinelen := _maxlinelen h; _headerlen := _headerlen h;
     name := name h |}.

(** The body of [for line in lines[1:]] in [encode]. *)
Definition feed_continuation (continuation_ws : str) (charset : Charset)
    (line : str) (f : _ValueFormatter) : result _ValueFormatter :=
  f ← newline f;
  match header_encoding charset with
  | Some _ => feed continuation_ws (u " " ++ lstrip line) charset f
  | None =>
      let sline := lstrip line in
      let fws := slice_to (length line - length sline) line in
      feed fws sline charset f
  end.

(** The body of [for string, charset in self._chunks]. *)
Definition feed_chunk (continuation_ws : str) (chunk : str * Charset)
    (f : _ValueFormatter) : result _ValueFormatter :=
  let '(string, charset) := chunk in
  let lines := splitlines string in
  f ← match lines with
      | l :: _ => feed [] l charset f
      | [] => feed [] [] charset f
      end;
  f ← foldl (fun acc line => f ← acc;
                             feed_continuation continuation_ws charset line f)
            (Ok f) (drop 1 lines);
  f ← (if (1 <? length lines)%nat then newline f else Ok f);
  Ok (add_transition f).

(** The formatter after the loop over the chunks. *)
Definition formatted (h : Header) (splitchars : str) (maxlinelen : option Z)
  : result _ValueFormatter :=
  let h := _normalize h in
  let maxlinelen := match maxlinelen with
                    | Some n => n
                    | None => _maxlinelen h
                    end in
  (* A maxlinelen of 0 means do not wrap. *)
  let maxlinelen := if (maxlinelen =? 0)%Z then 1000000%Z else maxlinelen in
  let formatter := new_ValueFormatter (_headerlen h) maxlinelen
                     (h_continuation_ws h) splitchars in
  foldl (fun acc chunk => f ← acc; feed_chunk (h_continuation_ws h) chunk f)
        (Ok formatter) (_chunks h).

(** The folded text, before the scan for an embedded header. *)
Definition folded (h : Header) (splitchars : str) (maxlinelen : option Z)
    (linesep : str) : result str :=
  formatter ← formatted h splitchars maxlinelen;
  _str linesep formatter.

Definition encode (h : Header) (splitchars : str) (maxlinelen : option Z)
    (linesep : str) : result str :=
  value ← folded h splitchars maxlinelen linesep;
  if _embeded_header_search value then Raise HeaderParseError
  else Ok value.

(** The defaults of [encode]: [splitchars=';, \t'], [linesep='\n']. *)
Definition default_splitchars : str := u ";, " ++ [TAB].
Definition NL : str := [LF].

(** *** The new style headers: [Address] and [Group] *)

Record Address := {
  Address_str : str;             (* the [str] the object is *)
  Address_name : str;
  Address_username : str;
  Address_domain : str;
  Address_defects : list defect
}.

Record Group := {
  Group_str : str;
  Group_name : option str;
  Group_addresses : list Address
}.

Definition or_empty (o : option str) : str :=
  match o with Some s => s | None => [] end.

(** [Address(str(mb).lstrip(), mb.display_name, mb.local_part, mb.domain,
    mb.all_defects)]. *)
Definition Address_of_mailbox (mb : parser.token) : result Address :=
  s ← parser.to_str mb;
  name ← parser.display_name mb;
  username ← parser.local_part mb;
  domain ← parser.domain mb;
  defects ← parser.all_defects mb;
  Ok {| Address_str := lstrip s;
        Address_name := or_empty name;
        Address_username := or_empty username;
        Address_domain := or_empty domain;
        Address_defects := defects |}.

(** [Group(str(addr).lstrip(), addr.display_name, [Address(...) for mb in
    addr.all_mailboxes])]. *)
Definition Group_of_address (addr : parser.token) : result Group :=
  s ← parser.to_str addr;
  name ← parser.display_name addr;
  mbs ← parser.all_mailboxes addr;
  addresses ← mapM Address_of_mailbox mbs;
  Ok {| Group_str := lstrip s; Group_name := name;
        Group_addresses := addresses |}.

(** *** Header classes *)

Inductive header_class :=
| UnstructuredHeader | UniqueUnstructuredHeader
| DateHeader | UniqueDateHeader
| AddressHeader | UniqueAddressHeader
| SingleAddressHeader | UniqueSingleAddressHeader.

Definition max_count (c : header_class) : option nat :=
  match c with
  | UnstructuredHeader | DateHeader | AddressHeader | SingleAddressHeader => None
  | _ => Some 1%nat
  end.

(** A time stamp: the fields of the date and the offset of the time zone,
    [None] for a naive one. *)
Definition DateTime : Type := list Z * option Z.

(** Modelled from the spec: [email6/utils.py] is not among the sources.
    [date_of_string value] stands for [utils.parsedate_tz], the
    construction of the [datetime] and [utils.format_datetime]: a date
    header carries "a timestamp with timezone offset (or naive if the RFC
    unknown offset marker -0000 was present)", and its value is the
    normalised text, or the call raises what the three raise.  [codecs] is
    the codec registry of the interpreter. *)
Record Env := {
  codecs : encoded_words.Codecs;
  date_of_string : str -> result (DateTime * str)
}.

(** The dictionary [kwds] after [parse]. *)
Record kwds := {
  decoded : str;
  defects : list defect;
  groups : option (list Group);
  datetime : option (option DateTime)
}.

Definition UnstructuredHeader_parse (env : Env) (value : str) : result kwds :=
  t ← parser.get_unstructured (codecs env) value;
  s ← parser.to_str t;
  Ok {| decoded := s; defects := []; groups := None; datetime := None |}.

Definition DateHeader_parse (env : Env) (value : str) : result kwds :=
  match value with
  | [] => Ok {| decoded := []; defects := [HeaderMissingRequiredValue];
                groups := None; datetime := Some None |}
  | _ =>
      '(dt, text) ← date_of_string env value;
      Ok {| decoded := text; defects := []; groups := None;
            datetime := Some (Some dt) |}
  end.

Definition AddressHeader_parse (value : str) : result kwds :=
  '(address_list, value) ← parser.get_address_list value;
  if nonempty value then Raise AssertionError
  else
    addrs ← parser.addresses address_list;
    grps ← mapM Group_of_address addrs;
    ds ← parser.all_defects address_list;
    Ok {| decoded := join (u ", ") (map Group_str grps);
          defects := ds; groups := Some grps; datetime := None |}.

Definition parse (env : Env) (c : header_class) (value : str) : result kwds :=
  match c with
  | UnstructuredHeader | UniqueUnstructuredHeader =>
      UnstructuredHeader_parse env value
  | DateHeader | UniqueDateHeader => DateHeader_parse env value
  | _ => AddressHeader_parse value
  end.

(** A header object: the [str] it is, and the attributes [init] sets. *)
Record BaseHeader := {
  header_cls : header_class;
  header_str : str;
  _name : str;
  _source : option str;
  _value : str;
  _defects : list defect;
  _groups : option (list Group);
  _datetime : option (option DateTime)
}.

(** [BaseHeader.__new__(cls, name, unparsed, unfolded, use_decoded)] for an
    [unparsed] that is a [str]. *)
Definition BaseHeader_new (env : Env) (cls : header_class) (name : str)
    (unparsed : str) (unfolded : option str) (use_decoded : bool)
  : result BaseHeader :=
  let lines := splitlines unparsed in
  let has_ec := ecre_search unparsed in
  let '(source, unfolded) :=
    match unfolded with
    | Some v => (Some unparsed, v)
    | None =>
        if (1 <? length lines)%nat || has_ec then (None, concat lines)
        else (None, unparsed)
    end in
  k ← parse env cls unfolded;
  Ok {| header_cls := cls;
        header_str := if use_decoded then decoded k else unparsed;
        _name := name; _source := source; _value := decoded k;
        _defects := defects k; _groups := groups k;
        _datetime := datetime k |}.

(** *** The header factory *)

Definition _default_header_map : gmap str header_class :=
  list_to_map
    [ (u "subject", UniqueUnstructuredHeader);
      (u "date", UniqueDateHeader);
      (u "resent-date", DateHeader);
      (u "orig-date", UniqueDateHeader);
      (u "sender", UniqueSingleAddressHeader);
      (u "resent-sender", SingleAddressHeader);
      (u "to", UniqueAddressHeader);
      (u "resent-to", AddressHeader);
      (u "cc", UniqueAddressHeader);
      (u "resent-cc", AddressHeader);
      (u "bcc", UniqueAddressHeader);
      (u "resent-bcc", AddressHeader);
      (u "from", UniqueAddressHeader);
      (u "resent-from", AddressHeader);
      (u "reply-to", UniqueAddressHeader) ].

Record HeaderFactory := {
  registry : gmap str header_class;
  default_class : header_class
}.

(** [HeaderFactory()]. *)
Definition new_HeaderFactory : HeaderFactory :=
  {| registry := _default_header_map; default_class := UnstructuredHeader |}.

Definition map_to_type (name : str) (cls : header_class) (f : HeaderFactory)
  : HeaderFactory :=
  {| registry := <[lower name := cls]> (registry f);
     default_class := default_class f |}.

(** [factory[name]]. *)
Definition getitem (f : HeaderFactory) (name : str) : header_class :=
  match registry f !! lower name with
  | Some c => c
  | None => default_class f
  end.

(** [factory(name, unparsed, unfolded, use_decoded)]. *)
Definition call (env : Env) (f : HeaderFactory) (name unparsed : str)
    (unfolded : option str) (use_decoded : bool) : result BaseHeader :=
  BaseHeader_new env (getitem f name) name unparsed unfolded use_decoded.

End header.

(** ** [policy.py] *)

Module policy.

(** The values of policy attributes. *)
Inductive pyval :=
| VNone
| VBool (b : bool)
| VInt (n : Z)
| VStr (s : str)
| VFactory (loc : nat)       (* a reference to a [HeaderFactory] object *)
| VMethod (name : string).   (* a method of the class *)

Definition truthy (v : pyval) : bool :=
  match v with
  | VNone => false
  | VBool b => b
  | VInt n => negb (n =? 0)%Z
  | VStr s => nonempty s
  | VFactory _ | VMethod _ => true
  end.

(** The [HeaderFactory] objects that exist, by reference.  Location 0 is
    the one the class statement creates, [Policy.header_factory]. *)
Abbreviation heap := (list header.HeaderFactory).
Definition class_header_factory : nat := 0.

(** A policy object is its instance dictionary. *)
Record Policy := { __dict__ : gmap string pyval }.

(** The class attributes of [Policy]. *)
Definition class_attributes : gmap string pyval :=
  list_to_map
    [ ("raise_on_defect"%string, VBool false);
      ("linesep"%string, VStr [LF]);
      ("must_be_7bit"%string, VBool false);
      ("max_line_length"%string, VInt 78);
      ("decoded_headers"%string, VNone);
      ("header_factory"%string, VFactory class_header_factory) ].

(** The methods of [Policy], [_PolicyBase] and [object]. *)
Definition methods : list string :=
  [ "handle_defect"; "register_defect"; "make_header"; "clone";
    "__init__"; "__repr__"; "__setattr__"; "__add__";
    "__class__"; "__delattr__"; "__dict__"; "__dir__"; "__doc__"; "__eq__";
    "__format__"; "__ge__"; "__getattribute__"; "__gt__"; "__hash__";
    "__init_subclass__"; "__le__"; "__lt__"; "__module__"; "__ne__";
    "__new__"; "__reduce__"; "__reduce_ex__"; "__sizeof__"; "__str__";
    "__subclasshook__"; "__weakref__" ]%string.

(** The lookup of [name] in the class. *)
Definition class_getattr (name : string) : result pyval :=
  match class_attributes !! name with
  | Some v => Ok v
  | None =>
      if bool_decide (name ∈ methods) then Ok (VMethod name)
      else Raise (AttributeError ("object has no attribute " +:+ name))
  end.

(** [getattr(self, name)]: the instance dictionary, then the class. *)
Definition getattr (self : Policy) (name : string) : result pyval :=
  match __dict__ self !! name with
  | Some v => Ok v
  | None => class_getattr name
  end.

Definition hasattr (self : Policy) (name : string) : bool :=
  match getattr self name with Ok _ => true | Raise _ => false end.

(** What [object.__setattr__] raises for [name], whatever the value among
    [pyval]: the class has three data descriptors, of which [__class__]
    takes only a class and [__dict__] only a dictionary ([TypeError]), and
    [__weakref__] cannot be written ([AttributeError]). *)
Definition setattr_error (name : string) : option exn :=
  if String.eqb name "__class__" || String.eqb name "__dict__"
  then Some TypeError
  else if String.eqb name "__weakref__"
  then Some (AttributeError
               "attribute '__weakref__' of '_PolicyBase' objects is not writable")
  else None.

(** [object.__setattr__(self, name, value)]: any other name is stored in
    the instance dictionary. *)
Definition object_setattr (self : Policy) (name : string) (value : pyval)
  : result Policy :=
  match setattr_error name with
  | Some e => Raise e
  | None => Ok {| __dict__ := <[name := value]> (__dict__ self) |}
  end.

(** [self.name = value]: [_PolicyBase.__setattr__].  The policy after the
    statement and its outcome. *)
Definition __setattr__ (self : Policy) (name : string) (value : pyval)
  : Policy * result unit :=
  let msg := if hasattr self name
             then ("object attribute " +:+ name +:+ " is read-only")%string
             else ("object has no attribute " +:+ name)%string in
  (self, Raise (AttributeError msg)).

(** [del self.name]: [object.__delattr__], which the classes do not
    override. *)
Definition __delattr__ (self : Policy) (name : string) : Policy * result unit :=
  match __dict__ self !! name with
  | Some _ => ({| __dict__ := delete name (__dict__ self) |}, Ok tt)
  | None => (self, Raise (AttributeError name))
  end.

(** [_PolicyBase.__init__]: [for name, value in kw.items(): if
    hasattr(self, name): object.__setattr__(self, name, value) else: raise
    TypeError]. *)
Fixpoint set_keywords (self : Policy) (kw : list (string * pyval))
  : result Policy :=
  match kw with
  | [] => Ok self
  | (name, value) :: rest =>
      if hasattr self name
      then self ← object_setattr self name value; set_keywords self rest
      else Raise TypeError
  end.

(** [Policy(kw)], keyword arguments [kw]: a new factory unless one is
    given. *)
Definition new_Policy (h : heap) (kw : list (string * pyval))
  : heap * result Policy :=
  let self := {| __dict__ := ∅ |} in
  if bool_decide ("header_factory"%string ∈ kw.*1)
  then (h, set_keywords self kw)
  else (h ++ [header.new_HeaderFactory],
        self ← object_setattr self "header_factory" (VFactory (length h));
        set_keywords self kw).

(** [for attr, value in items: object.__setattr__(newpolicy, attr,
    value)]. *)
Fixpoint copy_attributes (newpolicy : Policy) (items : list (string * pyval))
  : result Policy :=
  match items with
  | [] => Ok newpolicy
  | (attr, value) :: rest =>
      newpolicy ← object_setattr newpolicy attr value;
      copy_attributes newpolicy rest
  end.

(** [self.clone(kw)], keyword arguments [kw]: the loop over the keywords,
    and the whole method.  The instance dictionary is a finite map, which
    does not keep the order of insertion: the loop over [self.__dict__]
    follows [map_to_list]. *)
Fixpoint clone_keywords (self newpolicy : Policy) (kw : list (string * pyval))
  : result Policy :=
  match kw with
  | [] => Ok newpolicy
  | (attr, value) :: rest =>
      if hasattr self attr
      then newpolicy ← object_setattr newpolicy attr value;
           clone_keywords self newpolicy rest
      else Raise TypeError
  end.
Definition clone (self : Policy) (kw : list (string * pyval)) : result Policy :=
  newpolicy ← copy_attributes {| __dict__ := ∅ |} (map_to_list (__dict__ self));
  clone_keywords self newpolicy kw.

(** [self + other]. *)
Definition __add__ (self other : Policy) : result Policy :=
  clone self (map_to_list (__dict__ other)).

(** [register_defect(obj, defect)]: [obj.defects.append(defect)], on the
    [defects] list of [obj]. *)
Definition register_defect (self : Policy) (obj_defects : list defect)
    (d : defect) : list defect :=
  obj_defects ++ [d].

Definition handle_defect (self : Policy) (obj_defects : list defect)
    (d : defect) : result (list defect) :=
  raise_on_defect ← getattr self "raise_on_defect";
  if truthy raise_on_defect then Raise (DefectRaised d)
  else Ok (register_defect self obj_defects d).

Definition make_header (h : heap) (env : header.Env) (self : Policy)
    (name unparsed : str) (unfolded : option str) : result header.BaseHeader :=
  header_factory ← getattr self "header_factory";
  decoded_headers ← getattr self "decoded_headers";
  match header_factory with
  | VFactory loc =>
      match h !! loc with
      | Some f => header.call env f name unparsed unfolded (truthy decoded_headers)
      | None => Raise TypeError
      end
  | _ => Raise TypeError
  end.

(** The module's own statements: [default = Policy()],
    [del default.header_factory], [strict = default.clone(...)]. *)
Definition module_heap : heap :=
  (new_Policy [header.new_HeaderFactory] []).1.
Definition default_before_del : result Policy :=
  (new_Policy [header.new_HeaderFactory] []).2.
Definition default : Policy := {| __dict__ := ∅ |}.
Definition strict : Policy :=
  {| __dict__ := {[ "raise_on_defect"%string := VBool true ]} |}.

End policy.

(** ** Definitions used by the statements *)

(** The encoded word [=?charset?cte?payload?=]. *)
Definition encoded_word (charset cte payload : str) : str :=
  u "=?" ++ charset ++ u "?" ++ cte ++ u "?" ++ payload ++ u "?=".

(** The bytes of an ASCII payload. *)
Definition ascii_bytes (payload : str) : bytes :=
  map encoded_words.byte_of payload.

(** The value of a hexadecimal digit, in either case. *)
Definition hex_digit (c : uchar) : option N :=
  if (ch "0" <=? c) && (c <=? ch "9") then Some (c - ch "0")
  else if (ch "a" <=? c) && (c <=? ch "f") then Some (c - ch "a" + 10)
  else if (ch "A" <=? c) && (c <=? ch "F") then Some (c - ch "A" + 10)
  else None.

(** Following the design document ("replaces [_] with space and every
    [=XX] hex escape with its byte"): the bytes that the payload of a Q
    encoded word stands for.  An [=] that is not followed by two
    hexadecimal digits stands for itself. *)
Fixpoint q_text (payload : str) : bytes :=
  match payload with
  | [] => []
  | c :: rest =>
      let plain :=
        (if c =? ch "_" then x20 else encoded_words.byte_of c) :: q_text rest in
      if c =? ch "=" then
        match rest with
        | h1 :: h2 :: rest' =>
            match hex_digit h1, hex_digit h2 with
            | Some a, Some b => encoded_words.byte_of (16 * a + b) :: q_text rest'
            | _, _ => plain
            end
        | _ => plain
        end
      else plain
  end.

(** The byte that [decode_q] puts for a character of the payload before
    it looks for escapes. *)
Definition underscore_to_space (x : byte) : byte :=
  if Byte.to_N x =? 95 then x20 else x.

(** The value of a character of the base64 alphabet: its place in
    [A-Za-z0-9+/]. *)
Definition b64_digit (c : uchar) : option N :=
  if (ch "A" <=? c) && (c <=? ch "Z") then Some (c - ch "A")
  else if (ch "a" <=? c) && (c <=? ch "z") then Some (c - ch "a" + 26)
  else if (ch "0" <=? c) && (c <=? ch "9") then Some (c - ch "0" + 52)
  else if c =? ch "+" then Some 62
  else if c =? ch "/" then Some 63
  else None.

(** Following RFC 4648: the bytes that a base64 payload of whole quads
    stands for.  Four digits hold three bytes of six bits each digit; a
    last quad of two digits and two pads holds one byte, of three digits
    and one pad two bytes.  [None] for any other text. *)
Fixpoint b64_text (payload : str) : option bytes :=
  match payload with
  | [] => Some []
  | c1 :: c2 :: c3 :: c4 :: rest =>
      match b64_digit c1, b64_digit c2 with
      | Some v1, Some v2 =>
          let b1 := encoded_words.byte_of (4 * v1 + v2 / 16) in
          match b64_digit c3 with
          | Some v3 =>
              let b2 := encoded_words.byte_of (16 * (v2 mod 16) + v3 / 4) in
              match b64_digit c4 with
              | Some v4 =>
                  let b3 := encoded_words.byte_of (64 * (v3 mod 4) + v4) in
                  match b64_text rest with
                  | Some tail => Some (b1 :: b2 :: b3 :: tail)
                  | None => None
                  end
              | None =>
                  if (c4 =? ch "=") && negb (nonempty rest)
                  then Some [b1; b2] else None
              end
          | None =>
              if (c3 =? ch "=") && (c4 =? ch "=") && negb (nonempty rest)
              then Some [b1] else None
          end
      | _, _ => None
      end
  | _ => None
  end.

(** Checking a property of the numbers below a bound by enumeration. *)
Definition below (n : nat) (P : N -> bool) : bool :=
  forallb P (map N.of_nat (seq 0 n)).

(** A payload decodes cleanly to [raw] under the transfer encoding [cte]:
    under Q, [raw] is the bytes the payload stands for; under B, the
    payload is whole quads of base64 and [raw] is the bytes they stand
    for. *)
Definition cleanly_decodable (cte : str) (payload : str) (raw : bytes) : Prop :=
  (lower cte = u "q" /\ raw = q_text payload)
  \/ (lower cte = u "b" /\ b64_text payload = Some raw).

(** An environment for the examples: the ASCII and Latin-1 codecs, and no
    date that parses. *)
Definition example_env : header.Env :=
  {| header.codecs := encoded_words.basic_codecs;
     header.date_of_string := fun _ => Raise ValueError |}.

(** A tree of tokens only: no object that is not a token among the items
    of a list. *)
Fixpoint tokens_only (x : parser.token) : bool :=
  match x with
  | parser.Node _ _ items _ => forallb tokens_only items
  | parser.Leaf _ _ _ _ => true
  | parser.Alien _ => false
  end.

(** A node and all its descendants, in document order. *)
Fixpoint descendants (x : parser.token) : list parser.token :=
  x :: match x with
       | parser.Node _ _ items _ => flat_map descendants items
       | _ => []
       end.

(** The classes of white-space tokens, and the classes that define a
    [value] of their own. *)
Definition is_whitespace_class (c : parser.cls) : bool :=
  match c with
  | parser.WhiteSpaceTokenList | parser.CFWSList | parser.Comment => true
  | _ => false
  end.
Definition has_own_value (c : parser.cls) : bool :=
  match c with
  | parser.AddrSpec | parser.DisplayName | parser.LocalPart => true
  | _ => false
  end.
Definition is_leaf (x : parser.token) : bool :=
  match x with parser.Leaf _ _ _ _ => true | _ => false end.
Definition literal (x : parser.token) : str :=
  match x with parser.Leaf _ s _ _ => s | _ => [] end.

(** The derived value in the words of the design: a white-space token is
    one space whatever it contains, a bare quoted string is the literal
    text of its items, any other composite is the concatenation of the
    derived values of its children. *)
Fixpoint derived_value (x : parser.token) : str :=
  match x with
  | parser.Leaf parser.WhiteSpaceTerminal _ _ _ => u " "
  | parser.Leaf parser.ValueTerminal s _ _ => s
  | parser.Alien _ => []
  | parser.Node c _ items _ =>
      if is_whitespace_class c then u " "
      else match c with
           | parser.BareQuotedString => concat (map literal items)
           | _ => concat (map derived_value items)
           end
  end.

(** The trees that sentence is about: below a white-space token anything;
    a bare quoted string holds terminals; no other composite is of a class
    with a [value] of its own, and its children are such trees. *)
Fixpoint plain_value (x : parser.token) : bool :=
  match x with
  | parser.Leaf _ _ _ _ => true
  | parser.Alien _ => false
  | parser.Node c _ items _ =>
      if is_whitespace_class c then true
      else match c with
           | parser.BareQuotedString => forallb is_leaf items
           | _ => negb (has_own_value c) && forallb plain_value items
           end
  end.

(** The tree of an address list of two plain addresses, the first with
    white space before the [@]. *)
Definition example_address_list : parser.token :=
  Eval vm_compute in
    match parser.get_address_list (u "a @b, x@y.com") with
    | Ok (t, _) => t
    | Raise _ => parser.new parser.AddressList
    end.

(** A text holds an embedded header line: a line feed, then one or more
    characters that are neither space nor tab, then a colon. *)
Definition has_embedded_header (s : str) : Prop :=
  exists pre mid post,
    s = pre ++ [LF] ++ mid ++ [ch ":"] ++ post
    /\ mid <> []
    /\ Forall (fun c => inb c header.FWS = false) mid.




(** The two lists as one: the items and the defects of the second after
    those of the first. *)
Definition followed_by (l1 l2 : parser.token) : parser.token :=
  match l1 with
  | parser.Node c ty items ds =>
      parser.Node c ty (items ++ parser.items_of l2)
        (ds ++ parser.defects_of l2)
  | other => other
  end.


(** *** Fuel

    [consumes strict value r]: the call [r] on [value] did not run out of
    fuel, and what it leaves of [value] is no longer than [value] (shorter,
    when [strict]). *)
Definition consumes {T} (strict : bool) (value : str) (r : result (T * str))
  : Prop :=
  match r with
  | Ok (_, rest) =>
      if strict then (length rest < length value)%nat
      else (length rest <= length value)%nat
  | Raise e => e <> OutOfFuel
  end.

(** [value and value[0] not in cs]. *)
Definition starts_outside (value cs : str) : bool :=
  match value with c :: _ => negb (inb c cs) | [] => false end.

(** A call that does not run out of fuel. *)
Definition fuelled {A} (r : result A) : Prop := r <> Raise OutOfFuel.

(** An entry of a list is read, or it is empty and the comma is next. *)
Definition advances {T} (value : str) (r : result (T * str)) : Prop :=
  match r with
  | Ok (_, rest) =>
      (length rest < length value)%nat
      \/ (rest = value /\ starts_with_char value (ch ",") = true)
  | Raise e => e <> OutOfFuel
  end.

(** ** Definitions used by the further properties *)

(** The charset field of an encoded word is known to the codec registry
    (true of a text that has no such field). *)
Definition charset_known (codecs : encoded_words.Codecs) (ew : str) : bool :=
  match split_char (ch "?") ew with
  | [_; charset; _; _; _] =>
      match codecs charset with Some _ => true | None => false end
  | _ => true
  end.

(** The number of [c] in [s]. *)
Definition count_char (c : uchar) (s : str) : nat :=
  length (filter (fun x => x = c) s).

(** A character of the base64 alphabet. *)
Definition is_base64_char (c : byte) : bool :=
  bool_decide (is_Some (encoded_words.table_a2b_base64 c)).

(** The bits left over after [p] characters of a quad. *)
Definition leftbits_at (p : nat) : N :=
  match p with 0%nat => 0 | 1%nat => 6 | 2%nat => 4 | _ => 2 end.

(** What [quote_string] writes for one character. *)
Definition esc_char (c : uchar) : str :=
  if c =? BACKSLASH then [BACKSLASH; BACKSLASH]
  else if c =? DQUOTE then [BACKSLASH; DQUOTE]
  else [c].

(** An item of a bare quoted string: folding white space or quoted text. *)
Definition is_qcontent (x : parser.token) : bool :=
  match x with
  | parser.Leaf _ _ ty _ =>
      bool_decide (ty = "fws"%string) || bool_decide (ty = "ptext"%string)
  | _ => false
  end.

(** [s] holds the two characters [=?] somewhere. *)
Fixpoint has_encoded_word_start (s : str) : bool :=
  match s with
  | c :: s' =>
      ((c =? ch "=") && starts_with_char s' (ch "?"))
      || has_encoded_word_start s'
  | [] => false
  end.

(** A character of an atom: printable ASCII that ends no atom. *)
Definition is_atext_char (c : uchar) : bool :=
  (33 <=? c) && (c <=? 126) && negb (inb c parser.ATOM_ENDS).

(** An atom: one character of an atom or more. *)
Definition is_atom (a : str) : bool := nonempty a && forallb is_atext_char a.

(** Atoms joined by dots: [a1.a2.....an]. *)
Definition dotted (atoms : list str) : str := join (u ".") atoms.

(** A dot-atom: one atom or more. *)
Definition is_dot_atom (atoms : list str) : bool :=
  nonempty atoms && forallb is_atom atoms.

(** The items of the dot-atom-text of [a1.a2.....an]. *)
Definition atext_leaf (a : str) : parser.token :=
  parser.Leaf parser.ValueTerminal a "atext" [].

Fixpoint dot_atom_items (atoms : list str) : list parser.token :=
  match atoms with
  | [] => []
  | [a] => [atext_leaf a]
  | a :: rest => atext_leaf a :: parser.DOT :: dot_atom_items rest
  end.

(** One space before an entry, or nothing. *)
Definition lead (sp : bool) : str := if sp then u " " else [].

(** The CFWS token that one space is read as. *)
Definition cfws_space : parser.token :=
  parser.Node parser.CFWSList (Some "cfws"%string)
    [parser.Leaf parser.WhiteSpaceTerminal (u " ") "fws" []] [].

(** The leader that [get_leader] returns after [lead sp], and the items it
    becomes in front of a token. *)
Definition leader_of (sp : bool) : option parser.token :=
  if sp then Some cfws_space else None.

Definition leader_items (sp : bool) : list parser.token :=
  if sp then [cfws_space] else [].

(** The tokens that [a1.a2.....an], a plain address, a mailbox and an
    address of the list are read as. *)
Definition dot_atom_node (sp : bool) (atoms : list str) : parser.token :=
  parser.Node parser.DotAtom (Some "dot-atom"%string)
    (leader_items sp
     ++ [parser.Node parser.DotAtomText (Some "dot-atom-text"%string)
           (dot_atom_items atoms) []]) [].

Definition addr_spec_node (sp : bool) (local_part domain : list str)
  : parser.token :=
  parser.Node parser.AddrSpec (Some "addr-spec"%string)
    [ parser.Node parser.LocalPart (Some "local-part"%string)
        [dot_atom_node sp local_part] [];
      parser.Leaf parser.ValueTerminal (u "@") "address-at-symbol" [];
      parser.Node parser.Domain (Some "domain"%string)
        [dot_atom_node false domain] [] ] [].

Definition mailbox_node (sp : bool) (local_part domain : list str)
  : parser.token :=
  parser.Node parser.Mailbox (Some "mailbox"%string)
    [addr_spec_node sp local_part domain] [].

Definition address_node (sp : bool) (local_part domain : list str)
  : parser.token :=
  parser.Node parser.Address (Some "address"%string)
    [mailbox_node sp local_part domain] [].

(** What may follow a dot-atom: nothing, or a character that ends atoms
    and is neither a dot nor the start of CFWS. *)
Definition after_atom (rest : str) : bool :=
  match rest with
  | [] => true
  | c :: _ => inb c parser.ATOM_ENDS && negb (inb c parser.CFWS_LEADER)
              && negb (c =? ch ".")
  end.

(** The token that one atom is read as. *)
Definition atom_node (sp : bool) (a : str) : parser.token :=
  parser.Node parser.Atom (Some "atom"%string)
    (leader_items sp ++ [atext_leaf a]) [].

(** A phrase under construction: a list that starts with a list. *)
Definition starts_with_node (x : parser.token) : Prop :=
  exists c ty c0 ty0 items0 ds0 items ds,
    x = parser.Node c ty (parser.Node c0 ty0 items0 ds0 :: items) ds.

(** A terminal without defects. *)
Definition is_clean_leaf (x : parser.token) : bool :=
  match x with parser.Leaf _ _ _ [] => true | _ => false end.

(** A plain address [local@domain], local part and domain dot-atoms. *)
Definition plain_address (e : list str * list str) : str :=
  dotted e.1 ++ u "@" ++ dotted e.2.

(** The entries that are plain addresses, and the [Address] and the
    [Group] that the header holds for one. *)
Definition is_plain_address (e : list str * list str) : bool :=
  is_dot_atom e.1 && is_dot_atom e.2.

Definition Address_of_plain (e : list str * list str) : header.Address :=
  {| header.Address_str := plain_address e;
     header.Address_name := [];
     header.Address_username := dotted e.1;
     header.Address_domain := dotted e.2;
     header.Address_defects := [] |}.

Definition Group_of_plain (e : list str * list str) : header.Group :=
  {| header.Group_str := plain_address e;
     header.Group_name := None;
     header.Group_addresses := [Address_of_plain e] |}.

(** The items of the address list of [e1, e2, ..., en]. *)
Fixpoint address_list_items (sp : bool) (entries : list (list str * list str))
  : list parser.token :=
  match entries with
  | [] => []
  | [e] => [address_node sp e.1 e.2]
  | e :: rest =>
      address_node sp e.1 e.2 :: parser.ListSeparator
      :: address_list_items true rest
  end.

(** The address tokens among them. *)
Definition address_nodes (sp : bool) (entries : list (list str * list str))
  : list parser.token :=
  match entries with
  | [] => []
  | e :: rest =>
      address_node sp e.1 e.2 :: map (fun e => address_node true e.1 e.2) rest
  end.

(** [Address.addr_spec] of [header.py]: with [nameset = set(self.username)],
    the test [len(nameset) > len(nameset - parser.ATOM_ENDS)] holds when a
    character of the user name is in [ATOM_ENDS]. *)
Definition Address_addr_spec (a : header.Address) : str :=
  let lp := if existsb (fun c => inb c parser.ATOM_ENDS)
                 (header.Address_username a)
            then parser.quote_string (header.Address_username a)
            else header.Address_username a in
  if nonempty (header.Address_domain a)
  then lp ++ u "@" ++ header.Address_domain a
  else lp.

(** The quoted string of the items [toks]. *)
Definition quoted_string_node (toks : list parser.token) : parser.token :=
  parser.Node parser.QuotedString (Some "quoted-string"%string)
    [parser.Node parser.BareQuotedString (Some "bare-quoted-string"%string)
       toks []] [].

(** The local part that holds it. *)
Definition quoted_local_part_node (toks : list parser.token) : parser.token :=
  parser.Node parser.LocalPart (Some "local-part"%string)
    [quoted_string_node toks] [].

(** No chunk has the charset of the chunk before it. *)
Fixpoint adjacent_differ (cs : list header.Charset) : bool :=
  match cs with
  | a :: (c :: _) as rest =>
      negb (header.charset_eqb c (Some a)) && adjacent_differ rest
  | _ => true
  end.

(** The consecutive pairs of a list of even length. *)
Fixpoint pairs_of (ps : list str) : list (str * str) :=
  match ps with
  | a :: b' :: rest => (a, b') :: pairs_of rest
  | _ => []
  end.

(** The line [a] after the pairs [ps] are pushed. *)
Definition pushed (a : header._Accumulator) (ps : list (str * str))
  : header._Accumulator :=
  {| header.parts := header.parts a ++ ps;
     header._initial_size := header._initial_size a |}.

(** The length limit that [encode] uses. *)
Definition line_limit (maxlinelen : option Z) : Z :=
  let n := match maxlinelen with Some n => n | None => header.MAXLINELEN end in
  if (n =? 0)%Z then 1000000%Z else n.

(** The header classes whose [parse] is [UnstructuredHeader.parse], and
    those whose [parse] is [AddressHeader.parse]. *)
Definition is_unstructured_class (c : header.header_class) : bool :=
  match c with
  | header.UnstructuredHeader | header.UniqueUnstructuredHeader => true
  | _ => false
  end.

Definition is_address_class (c : header.header_class) : bool :=
  match c with
  | header.AddressHeader | header.UniqueAddressHeader
  | header.SingleAddressHeader | header.UniqueSingleAddressHeader => true
  | _ => false
  end.

(** The header that [make_header] builds for [name] from a value that
    needs no unfolding and parses to itself. *)
Definition header_of_value (name value : str)
    (groups : option (list header.Group)) : header.BaseHeader :=
  {| header.header_cls := header.getitem header.new_HeaderFactory name;
     header.header_str := value;
     header._name := name;
     header._source := None;
     header._value := value;
     header._defects := [];
     header._groups := groups;
     header._datetime := None |}.

(** A text of ASCII characters. *)
Definition is_ascii (s : str) : bool := forallb (fun c => c <? 128) s.

(** The instance dictionary after the assignments [kw], in order. *)
Definition assign_all (d : gmap string policy.pyval)
    (kw : list (string * policy.pyval)) : gmap string policy.pyval :=
  foldl (fun m kv => <[kv.1 := kv.2]> m) d kw.

(** No instance attribute has a name that [object.__setattr__] refuses. *)
Definition own_names_writable (p : policy.Policy) : Prop :=
  map_Forall (fun k _ => policy.setattr_error k = None) (policy.__dict__ p).

(** Every instance attribute is an attribute of the class, under a name
    that [object.__setattr__] accepts. *)
Definition settable_names_only (p : policy.Policy) : Prop :=
  map_Forall (fun k _ => policy.hasattr policy.default k = true
                         /\ policy.setattr_error k = None)
             (policy.__dict__ p).

(** * Properties *)

(** ** The encoded-word codec *)

Section SplitChar.
Variable c : uchar.

Lemma split_char_absent (w : str) :
  inb c w = false -> split_char c w = [w].
Proof.
  induction w as [|x w IH]; simpl; [reflexivity|].
  intros H. apply orb_false_iff in H as [Hx Hw].
  rewrite N.eqb_sym, Hx. rewrite (IH Hw). reflexivity.
Qed.

Lemma split_char_field (w rest : str) :
  inb c w = false ->
  split_char c (w ++ c :: rest) = w :: split_char c rest.
Proof.
  induction w as [|x w IH]; simpl.
  - intros _. rewrite N.eqb_refl. reflexivity.
  - intros H. apply orb_false_iff in H as [Hx Hw].
    rewrite N.eqb_sym, Hx. rewrite (IH Hw). reflexivity.
Qed.
End SplitChar.

Lemma encode_ascii_payload (payload : str) :
  forallb (fun x => x <? 128) payload = true ->
  encoded_words.encode_ascii_surrogateescape payload = Ok (ascii_bytes payload).
Proof.
  induction payload as [|x p IH]; simpl; [reflexivity|].
  intros H. apply andb_true_iff in H as [Hx Hp].
  rewrite Hx, (IH Hp). reflexivity.
Qed.

Lemma lower_one_letter (cte : str) (l : uchar) :
  l <> ch "?" -> lower cte = [l] -> inb (ch "?") cte = false.
Proof.
  intros Hl H. destruct cte as [|x [|y cte]]; try discriminate.
  unfold lower in H. cbn [map] in H. injection H as H.
  unfold inb. cbn [existsb]. rewrite orb_false_r.
  apply N.eqb_neq. intros E. apply Hl. rewrite <- H, <- E. reflexivity.
Qed.

Lemma to_N_byte_of (c : uchar) :
  (c <? 128) = true -> Byte.to_N (encoded_words.byte_of c) = c.
Proof.
  intros H. apply N.ltb_lt in H. unfold encoded_words.byte_of.
  destruct (Byte.of_N c) as [x|] eqn:E.
  - now apply Byte.to_of_N.
  - apply Byte.of_N_None_iff in E. lia.
Qed.

Lemma hexval_byte_of (c : uchar) :
  (c <? 128) = true ->
  encoded_words.hexval (encoded_words.byte_of c) = hex_digit c.
Proof.
  intros H. unfold encoded_words.hexval, hex_digit.
  rewrite (to_N_byte_of c H).
  change (ch "0") with 48. change (ch "9") with 57.
  change (ch "a") with 97. change (ch "f") with 102.
  change (ch "A") with 65. change (ch "F") with 70.
  destruct ((48 <=? c) && (c <=? 57)); [reflexivity|].
  destruct ((97 <=? c) && (c <=? 102)) eqn:E1.
  { apply andb_true_iff in E1 as [E1 _]. apply N.leb_le in E1.
    f_equal. lia. }
  destruct ((65 <=? c) && (c <=? 70)) eqn:E2; [|reflexivity].
  apply andb_true_iff in E2 as [E2 _]. apply N.leb_le in E2.
  f_equal. lia.
Qed.

Lemma hex_digit_underscore (c : uchar) :
  (c =? ch "_") = true -> hex_digit c = None.
Proof. intros H. apply N.eqb_eq in H. subst c. reflexivity. Qed.

Lemma subst_to_N (c : uchar) :
  (c <? 128) = true ->
  Byte.to_N (underscore_to_space (encoded_words.byte_of c))
  = if c =? ch "_" then 32 else c.
Proof.
  intros H. unfold underscore_to_space. rewrite (to_N_byte_of c H).
  change (ch "_") with 95. destruct (c =? 95); [reflexivity|].
  exact (to_N_byte_of c H).
Qed.

Lemma subst_hexval (c : uchar) :
  (c <? 128) = true ->
  encoded_words.hexval (underscore_to_space (encoded_words.byte_of c))
  = hex_digit c.
Proof.
  intros H. unfold underscore_to_space. rewrite (to_N_byte_of c H).
  destruct (c =? 95) eqn:E.
  - rewrite (hex_digit_underscore c E). reflexivity.
  - exact (hexval_byte_of c H).
Qed.

Lemma subst_plain (c : uchar) :
  (c <? 128) = true ->
  underscore_to_space (encoded_words.byte_of c)
  = if c =? ch "_" then x20 else encoded_words.byte_of c.
Proof.
  intros H. unfold underscore_to_space. rewrite (to_N_byte_of c H).
  reflexivity.
Qed.

Lemma _q_byte_subber_step (c h l : byte) (rest : bytes) :
  encoded_words._q_byte_subber (c :: h :: l :: rest)
  = match Byte.to_N c =? 61, encoded_words.hexval h, encoded_words.hexval l with
    | true, Some x, Some y =>
        encoded_words.byte_of (16 * x + y) :: encoded_words._q_byte_subber rest
    | _, _, _ => c :: encoded_words._q_byte_subber (h :: l :: rest)
    end.
Proof. reflexivity. Qed.

Lemma _q_byte_subber_q_text (n : nat) (payload : str) :
  (length payload <= n)%nat ->
  forallb (fun x => x <? 128) payload = true ->
  encoded_words._q_byte_subber
    (map underscore_to_space (ascii_bytes payload))
  = q_text payload.
Proof.
  revert payload. induction n as [|n IH]; intros payload Hn Ha.
  - destruct payload; [reflexivity|simpl in Hn; lia].
  - destruct payload as [|c rest]; [reflexivity|].
    cbn [forallb] in Ha. apply andb_true_iff in Ha as [Hc Hrest].
    cbn [length] in Hn.
    assert (IHrest : encoded_words._q_byte_subber
                       (map underscore_to_space (ascii_bytes rest))
                     = q_text rest) by (apply IH; [lia|exact Hrest]).
    unfold ascii_bytes in *. cbn [map q_text].
    destruct rest as [|h1 [|h2 rest']].
    + cbn [map encoded_words._q_byte_subber q_text].
      rewrite (subst_plain c Hc). now destruct (c =? ch "=").
    + cbn [map encoded_words._q_byte_subber] in IHrest |- *.
      rewrite (subst_plain c Hc). rewrite IHrest.
      now destruct (c =? ch "=").
    + cbn [forallb] in Hrest. apply andb_true_iff in Hrest as [H1 Hrest].
      apply andb_true_iff in Hrest as [H2 Hrest'].
      cbn [map] in IHrest |- *.
      rewrite _q_byte_subber_step, IHrest.
      rewrite (subst_to_N c Hc), (subst_hexval h1 H1), (subst_hexval h2 H2).
      rewrite (subst_plain c Hc).
      assert (IH' : encoded_words._q_byte_subber
                      (map underscore_to_space (map encoded_words.byte_of rest'))
                    = q_text rest').
      { apply IH; [simpl in Hn; lia|exact Hrest']. }
      rewrite IH'.
      change (ch "_") with 95. change (ch "=") with 61.
      destruct (c =? 95) eqn:E95.
      * apply N.eqb_eq in E95. subst c. reflexivity.
      * destruct (c =? 61); [|reflexivity].
        now destruct (hex_digit h1), (hex_digit h2).
Qed.

Lemma decode_q_q_text (payload : str) :
  forallb (fun x => x <? 128) payload = true ->
  encoded_words.decode_q (ascii_bytes payload) = (q_text payload, []).
Proof.
  intros H. unfold encoded_words.decode_q. f_equal.
  exact (_q_byte_subber_q_text (length payload) payload (le_n _) H).
Qed.

Lemma below_spec (n : nat) (P : N -> bool) (v : N) :
  below n P = true -> v < N.of_nat n -> P v = true.
Proof.
  unfold below. rewrite forallb_forall. intros H Hv. apply H.
  apply in_map_iff. exists (N.to_nat v). split; [apply N2Nat.id|].
  apply in_seq. lia.
Qed.

Lemma b64_digit_bound (c : uchar) (v : N) :
  b64_digit c = Some v -> c < 128.
Proof.
  unfold b64_digit.
  change (ch "A") with 65. change (ch "Z") with 90.
  change (ch "a") with 97. change (ch "z") with 122.
  change (ch "0") with 48. change (ch "9") with 57.
  change (ch "+") with 43. change (ch "/") with 47.
  destruct ((65 <=? c) && (c <=? 90)) eqn:E1.
  { apply andb_true_iff in E1 as [_ E]. apply N.leb_le in E. lia. }
  destruct ((97 <=? c) && (c <=? 122)) eqn:E2.
  { apply andb_true_iff in E2 as [_ E]. apply N.leb_le in E. lia. }
  destruct ((48 <=? c) && (c <=? 57)) eqn:E3.
  { apply andb_true_iff in E3 as [_ E]. apply N.leb_le in E. lia. }
  destruct (N.eqb_spec c 43); [lia|].
  destruct (N.eqb_spec c 47); [lia|]. discriminate.
Qed.

Lemma b64_digit_table (c : uchar) (v : N) :
  b64_digit c = Some v ->
  Byte.to_N (encoded_words.byte_of c) = c
  /\ encoded_words.table_a2b_base64 (encoded_words.byte_of c) = Some v
  /\ v < 64
  /\ (127 <? c) = false /\ (c =? 13) = false /\ (c =? 10) = false
  /\ (c =? 32) = false /\ (c =? encoded_words.BASE64_PAD) = false.
Proof.
  intros H. pose proof (b64_digit_bound c v H) as Hc.
  assert (Hall :
    below 128
      (fun c =>
         match b64_digit c with
         | Some v =>
             (Byte.to_N (encoded_words.byte_of c) =? c)
             && bool_decide
                  (encoded_words.table_a2b_base64 (encoded_words.byte_of c)
                   = Some v)
             && (v <? 64)
             && negb (127 <? c) && negb (c =? 13) && negb (c =? 10)
             && negb (c =? 32) && negb (c =? encoded_words.BASE64_PAD)
         | None => true
         end) = true) by (vm_compute; reflexivity).
  pose proof (below_spec _ _ c Hall Hc) as Hp. cbv beta in Hp.
  rewrite H in Hp.
  apply andb_true_iff in Hp as [Hp Hpad]. apply andb_true_iff in Hp as [Hp H32].
  apply andb_true_iff in Hp as [Hp H10]. apply andb_true_iff in Hp as [Hp H13].
  apply andb_true_iff in Hp as [Hp H127]. apply andb_true_iff in Hp as [Hp Hv].
  apply andb_true_iff in Hp as [Hn Ht].
  apply negb_true_iff in Hpad, H32, H10, H13, H127.
  apply N.eqb_eq in Hn. apply bool_decide_eq_true in Ht.
  apply N.ltb_lt in Hv. repeat split; assumption.
Qed.

(** One round of the loop of [a2b_base64] on a digit. *)
Lemma a2b_base64_loop_digit (c : uchar) (v : N) (rest : bytes)
    (qp lc lb : N) (out : bytes) :
  b64_digit c = Some v ->
  encoded_words.a2b_base64_loop (encoded_words.byte_of c :: rest) qp lc lb out
  = (let quad_pos := N.land (qp + 1) 3 in
     let leftchar := N.lor (N.shiftl lc 6) v in
     let leftbits := lb + 6 in
     if 8 <=? leftbits then
       let leftbits := leftbits - 8 in
       encoded_words.a2b_base64_loop rest quad_pos
         (N.land leftchar (N.shiftl 1 leftbits - 1)) leftbits
         (out ++ [encoded_words.byte_of
                    (N.land (N.shiftr leftchar leftbits) 255)])
     else encoded_words.a2b_base64_loop rest quad_pos leftchar leftbits out).
Proof.
  intros H.
  destruct (b64_digit_table c v H)
    as (Hn & Ht & _ & H127 & H13 & H10 & H32 & Hpad).
  cbn [encoded_words.a2b_base64_loop].
  rewrite Hn, H127, H13, H10, H32, Hpad, Ht. reflexivity.
Qed.

Lemma b64_bits_1 (v1 v2 : N) :
  v1 < 64 -> v2 < 64 ->
  N.land (N.shiftr (N.lor (N.shiftl v1 6) v2) 4) 255 = 4 * v1 + v2 / 16
  /\ N.land (N.lor (N.shiftl v1 6) v2) 15 = v2 mod 16.
Proof.
  intros H1 H2.
  assert (Hall :
    below 64 (fun v1 => below 64 (fun v2 =>
      (N.land (N.shiftr (N.lor (N.shiftl v1 6) v2) 4) 255 =? 4 * v1 + v2 / 16)
      && (N.land (N.lor (N.shiftl v1 6) v2) 15 =? v2 mod 16))) = true)
    by (vm_compute; reflexivity).
  pose proof (below_spec _ _ v1 Hall H1) as Hp. cbv beta in Hp.
  pose proof (below_spec _ _ v2 Hp H2) as Hq. cbv beta in Hq.
  apply andb_true_iff in Hq as [Ha Hb].
  split; now apply N.eqb_eq.
Qed.

Lemma b64_bits_2 (w v3 : N) :
  w < 16 -> v3 < 64 ->
  N.land (N.shiftr (N.lor (N.shiftl w 6) v3) 2) 255 = 16 * w + v3 / 4
  /\ N.land (N.lor (N.shiftl w 6) v3) 3 = v3 mod 4.
Proof.
  intros H1 H2.
  assert (Hall :
    below 16 (fun w => below 64 (fun v3 =>
      (N.land (N.shiftr (N.lor (N.shiftl w 6) v3) 2) 255 =? 16 * w + v3 / 4)
      && (N.land (N.lor (N.shiftl w 6) v3) 3 =? v3 mod 4))) = true)
    by (vm_compute; reflexivity).
  pose proof (below_spec _ _ w Hall H1) as Hp. cbv beta in Hp.
  pose proof (below_spec _ _ v3 Hp H2) as Hq. cbv beta in Hq.
  apply andb_true_iff in Hq as [Ha Hb].
  split; now apply N.eqb_eq.
Qed.

Lemma b64_bits_3 (x v4 : N) :
  x < 4 -> v4 < 64 ->
  N.land (N.shiftr (N.lor (N.shiftl x 6) v4) 0) 255 = 64 * x + v4.
Proof.
  intros H1 H2.
  assert (Hall :
    below 4 (fun x => below 64 (fun v4 =>
      N.land (N.shiftr (N.lor (N.shiftl x 6) v4) 0) 255 =? 64 * x + v4)) = true)
    by (vm_compute; reflexivity).
  pose proof (below_spec _ _ x Hall H1) as Hp. cbv beta in Hp.
  pose proof (below_spec _ _ v4 Hp H2) as Hq. cbv beta in Hq.
  now apply N.eqb_eq.
Qed.

(** The loop after the first two digits of a quad: the first byte is
    out, four bits are left. *)
Lemma a2b_base64_loop_two (c1 c2 : uchar) (v1 v2 : N) (rest : bytes)
    (out : bytes) :
  b64_digit c1 = Some v1 -> b64_digit c2 = Some v2 ->
  encoded_words.a2b_base64_loop
    (encoded_words.byte_of c1 :: encoded_words.byte_of c2 :: rest) 0 0 0 out
  = encoded_words.a2b_base64_loop rest 2 (v2 mod 16) 4
      (out ++ [encoded_words.byte_of (4 * v1 + v2 / 16)]).
Proof.
  intros H1 H2.
  destruct (b64_digit_table c1 v1 H1) as (_ & _ & Hv1 & _).
  destruct (b64_digit_table c2 v2 H2) as (_ & _ & Hv2 & _).
  rewrite (a2b_base64_loop_digit c1 v1 _ _ _ _ _ H1). cbv zeta.
  change (8 <=? 0 + 6) with false. cbv iota.
  change (N.land (0 + 1) 3) with 1. change (N.shiftl 0 6) with 0.
  rewrite N.lor_0_l. change (0 + 6) with 6.
  rewrite (a2b_base64_loop_digit c2 v2 _ _ _ _ _ H2). cbv zeta.
  change (8 <=? 6 + 6) with true. cbv iota.
  change (N.land (1 + 1) 3) with 2. change (6 + 6 - 8) with 4.
  change (N.shiftl 1 4 - 1) with 15.
  destruct (b64_bits_1 v1 v2 Hv1 Hv2) as [-> ->]. reflexivity.
Qed.

(** The loop after the third digit: the second byte is out, two bits are
    left. *)
Lemma a2b_base64_loop_third (c3 : uchar) (v2 v3 : N) (rest : bytes)
    (out : bytes) :
  b64_digit c3 = Some v3 ->
  encoded_words.a2b_base64_loop (encoded_words.byte_of c3 :: rest)
    2 (v2 mod 16) 4 out
  = encoded_words.a2b_base64_loop rest 3 (v3 mod 4) 2
      (out ++ [encoded_words.byte_of (16 * (v2 mod 16) + v3 / 4)]).
Proof.
  intros H3.
  destruct (b64_digit_table c3 v3 H3) as (_ & _ & Hv3 & _).
  rewrite (a2b_base64_loop_digit c3 v3 _ _ _ _ _ H3). cbv zeta.
  change (8 <=? 4 + 6) with true. cbv iota.
  change (N.land (2 + 1) 3) with 3. change (4 + 6 - 8) with 2.
  change (N.shiftl 1 2 - 1) with 3.
  assert (Hw : v2 mod 16 < 16) by (apply N.mod_lt; discriminate).
  destruct (b64_bits_2 (v2 mod 16) v3 Hw Hv3) as [-> ->]. reflexivity.
Qed.

(** The loop after the fourth digit: the third byte is out, and the state
    is that of the start. *)
Lemma a2b_base64_loop_fourth (c4 : uchar) (v3 v4 : N) (rest : bytes)
    (out : bytes) :
  b64_digit c4 = Some v4 ->
  encoded_words.a2b_base64_loop (encoded_words.byte_of c4 :: rest)
    3 (v3 mod 4) 2 out
  = encoded_words.a2b_base64_loop rest 0 0 0
      (out ++ [encoded_words.byte_of (64 * (v3 mod 4) + v4)]).
Proof.
  intros H4.
  destruct (b64_digit_table c4 v4 H4) as (_ & _ & Hv4 & _).
  rewrite (a2b_base64_loop_digit c4 v4 _ _ _ _ _ H4). cbv zeta.
  change (8 <=? 2 + 6) with true. cbv iota.
  change (N.land (3 + 1) 3) with 0. change (2 + 6 - 8) with 0.
  change (N.shiftl 1 0 - 1) with 0. rewrite N.land_0_r.
  assert (Hx : v3 mod 4 < 4) by (apply N.mod_lt; discriminate).
  rewrite (b64_bits_3 (v3 mod 4) v4 Hx Hv4). reflexivity.
Qed.

Lemma b64_digit_pad : b64_digit (ch "=") = None.
Proof. reflexivity. Qed.

Lemma a2b_base64_loop_b64_text (n : nat) (payload : str) (raw out : bytes) :
  (length payload <= n)%nat ->
  b64_text payload = Some raw ->
  encoded_words.a2b_base64_loop (ascii_bytes payload) 0 0 0 out
  = Ok (out ++ raw).
Proof.
  revert payload raw out. induction n as [|n IH]; intros payload raw out Hn H.
  - destruct payload; [|simpl in Hn; lia]. injection H as <-.
    now rewrite app_nil_r.
  - destruct payload as [|c1 [|c2 [|c3 [|c4 rest]]]]; try discriminate.
    { injection H as <-. now rewrite app_nil_r. }
    cbn [b64_text] in H.
    destruct (b64_digit c1) as [v1|] eqn:H1; [|discriminate].
    destruct (b64_digit c2) as [v2|] eqn:H2; [|discriminate].
    unfold ascii_bytes. cbn [map].
    rewrite (a2b_base64_loop_two c1 c2 v1 v2 _ _ H1 H2).
    destruct (b64_digit c3) as [v3|] eqn:H3.
    + rewrite (a2b_base64_loop_third c3 v2 v3 _ _ H3).
      destruct (b64_digit c4) as [v4|] eqn:H4.
      * rewrite (a2b_base64_loop_fourth c4 v3 v4 _ _ H4).
        destruct (b64_text rest) as [tail|] eqn:Hr; [|discriminate].
        injection H as <-.
        fold (ascii_bytes rest).
        rewrite (IH rest tail _); [|simpl in Hn; lia|exact Hr].
        now rewrite <- !app_assoc.
      * destruct (N.eqb_spec c4 (ch "=")) as [->|]; [|discriminate].
        destruct rest; [|discriminate]. injection H as <-.
        rewrite <- !app_assoc. reflexivity.
    + destruct (N.eqb_spec c3 (ch "=")) as [->|]; [|discriminate].
      destruct (N.eqb_spec c4 (ch "=")) as [->|]; [|discriminate].
      destruct rest; [|discriminate]. injection H as <-.
      reflexivity.
Qed.

Lemma is_Some_table (c : uchar) (v : N) :
  b64_digit c = Some v ->
  bool_decide (is_Some (encoded_words.table_a2b_base64 (encoded_words.byte_of c)))
  = true.
Proof.
  intros H. destruct (b64_digit_table c v H) as (_ & Ht & _).
  apply bool_decide_eq_true. rewrite Ht. now eexists.
Qed.

Lemma b64_fullmatch_b64_text (n : nat) (payload : str) (raw : bytes) :
  (length payload <= n)%nat ->
  b64_text payload = Some raw ->
  encoded_words.b64_fullmatch (ascii_bytes payload) = true.
Proof.
  revert payload raw. induction n as [|n IH]; intros payload raw Hn H.
  - destruct payload; [reflexivity|simpl in Hn; lia].
  - destruct payload as [|c1 [|c2 [|c3 [|c4 rest]]]]; try discriminate.
    { reflexivity. }
    cbn [b64_text] in H.
    destruct (b64_digit c1) as [v1|] eqn:H1; [|discriminate].
    destruct (b64_digit c2) as [v2|] eqn:H2; [|discriminate].
    unfold ascii_bytes. cbn [map encoded_words.b64_fullmatch].
    rewrite (is_Some_table c1 v1 H1), (is_Some_table c2 v2 H2).
    destruct (b64_digit c3) as [v3|] eqn:H3.
    + rewrite (is_Some_table c3 v3 H3).
      destruct (b64_digit c4) as [v4|] eqn:H4.
      * rewrite (is_Some_table c4 v4 H4).
        destruct (b64_text rest) as [tail|] eqn:Hr; [|discriminate].
        fold (ascii_bytes rest).
        apply (IH rest tail); [simpl in Hn; lia|exact Hr].
      * destruct (N.eqb_spec c4 (ch "=")) as [->|]; [|discriminate].
        destruct rest; [|discriminate]. reflexivity.
    + destruct (N.eqb_spec c3 (ch "=")) as [->|]; [|discriminate].
      destruct (N.eqb_spec c4 (ch "=")) as [->|]; [|discriminate].
      destruct rest; [|discriminate]. reflexivity.
Qed.

Lemma b64_text_length (n : nat) (payload : str) (raw : bytes) :
  (length payload <= n)%nat ->
  b64_text payload = Some raw ->
  (length payload mod 4 = 0)%nat.
Proof.
  revert payload raw. induction n as [|n IH]; intros payload raw Hn H.
  - destruct payload; [reflexivity|simpl in Hn; lia].
  - destruct payload as [|c1 [|c2 [|c3 [|c4 rest]]]]; try discriminate.
    { reflexivity. }
    cbn [b64_text] in H.
    destruct (b64_digit c1) as [v1|]; [|discriminate].
    destruct (b64_digit c2) as [v2|]; [|discriminate].
    assert (Hrest : (length rest mod 4 = 0)%nat).
    { destruct (b64_digit c3) as [v3|].
      - destruct (b64_digit c4) as [v4|].
        + destruct (b64_text rest) as [tail|] eqn:Hr; [|discriminate].
          apply (IH rest tail); [simpl in Hn; lia|exact Hr].
        + destruct (c4 =? ch "="); [|discriminate].
          destruct rest; [reflexivity|discriminate].
      - destruct (c3 =? ch "="); [|discriminate].
        destruct (c4 =? ch "="); [|discriminate].
        destruct rest; [reflexivity|discriminate]. }
    cbn [length].
    change (S (S (S (S (length rest))))) with (4 + length rest)%nat.
    rewrite <- Nat.Div0.add_mod_idemp_l. exact Hrest.
Qed.

Lemma decode_b_b64_text (payload : str) (raw : bytes) :
  b64_text payload = Some raw ->
  encoded_words.decode_b (ascii_bytes payload) = Ok (raw, []).
Proof.
  intros H. unfold encoded_words.decode_b.
  replace (length (ascii_bytes payload)) with (length payload)
    by (unfold ascii_bytes; now rewrite length_map).
  rewrite (b64_text_length _ _ _ (le_n _) H). cbn [Nat.eqb negb].
  cbv beta iota.
  unfold encoded_words.b64decode.
  rewrite (b64_fullmatch_b64_text _ _ _ (le_n _) H). cbn [negb andb].
  unfold encoded_words.a2b_base64.
  rewrite (a2b_base64_loop_b64_text _ _ _ [] (le_n _) H). reflexivity.
Qed.

Lemma split_encoded_word (charset cte payload : str) :
  inb (ch "?") charset = false ->
  inb (ch "?") cte = false ->
  inb (ch "?") payload = false ->
  split_char (ch "?") (encoded_word charset cte payload)
  = [u "="; charset; cte; payload; u "="].
Proof.
  intros Hc Ht Hp. unfold encoded_word.
  change (u "=?" ++ charset ++ u "?" ++ cte ++ u "?" ++ payload ++ u "?=")
    with (u "=" ++ ch "?" :: (charset ++ ch "?" :: (cte ++ ch "?" ::
            (payload ++ ch "?" :: u "=")))).
  rewrite split_char_field by reflexivity.
  rewrite split_char_field by assumption.
  rewrite split_char_field by assumption.
  rewrite split_char_field by assumption.
  reflexivity.
Qed.

(** C5.  A syntactically valid encoded word whose charset is known, whose
    payload decodes cleanly under its transfer encoding (Q or B, in either
    case) and whose bytes the charset decodes, decodes to that text with an
    empty list of defects.  The bytes are those the payload stands for:
    under Q an underscore is a space, [=XX] is the byte XX and any other
    character is itself; under B every quad of digits is three bytes, and
    a last quad with one or two pads two bytes or one. *)
Theorem decode_valid_encoded_word
    (codecs : encoded_words.Codecs) (codec : encoded_words.Codec)
    (charset cte payload : str) (raw : bytes) (text : str) :
  inb (ch "?") charset = false ->
  inb (ch "?") payload = false ->
  forallb (fun x => x <? 128) payload = true ->
  cleanly_decodable cte payload raw ->
  codecs charset = Some codec ->
  encoded_words.decode_strict codec raw = Some text ->
  encoded_words.decode codecs (encoded_word charset cte payload)
  = Ok (text, []).
Proof.
  intros Hcs Hp Hascii Hclean Hcodec Htext.
  assert (Hcte : inb (ch "?") cte = false).
  { destruct Hclean as [[H _]|[H _]];
      eapply lower_one_letter; try exact H; discriminate. }
  unfold encoded_words.decode.
  rewrite (split_encoded_word _ _ _ Hcs Hcte Hp).
  rewrite (encode_ascii_payload _ Hascii). cbn [mbind result_bind].
  destruct Hclean as [[Hq ->]|[Hb Hraw]].
  - rewrite Hq.
    change (encoded_words.cte_decoders (u "q"))
      with (Some (fun x => Ok (encoded_words.decode_q x))).
    cbn beta iota. rewrite (decode_q_q_text payload Hascii).
    cbn [mbind result_bind]. cbn beta iota.
    rewrite Hcodec, Htext. reflexivity.
  - rewrite Hb.
    change (encoded_words.cte_decoders (u "b")) with (Some encoded_words.decode_b).
    cbn beta iota. rewrite (decode_b_b64_text payload raw Hraw).
    cbn [mbind result_bind]. cbn beta iota.
    rewrite Hcodec, Htext. reflexivity.
Qed.

(** The two encoded words of the test suite, through the theorem, and a
    word with escapes and underscores under an upper-case Q. *)
Lemma decode_valid_encoded_word_witness :
  encoded_words.decode encoded_words.basic_codecs (u "=?us-ascii?q?foo?=")
  = Ok (u "foo", [])
  /\ encoded_words.decode encoded_words.basic_codecs (u "=?us-ascii?b?dmk=?=")
     = Ok (u "vi", [])
  /\ encoded_words.decode encoded_words.basic_codecs
       (u "=?us-ascii?Q?foo=20bar_=3d=3F?=")
     = Ok (u "foo bar =?", []).
Proof.
  split; [|split].
  - apply (decode_valid_encoded_word encoded_words.basic_codecs
             encoded_words.ascii_codec (u "us-ascii") (u "q") (u "foo")
             (b "foo") (u "foo")); try reflexivity.
    left. split; reflexivity.
  - apply (decode_valid_encoded_word encoded_words.basic_codecs
             encoded_words.ascii_codec (u "us-ascii") (u "b") (u "dmk=")
             (b "vi") (u "vi")); try reflexivity.
    right. split; reflexivity.
  - apply (decode_valid_encoded_word encoded_words.basic_codecs
             encoded_words.ascii_codec (u "us-ascii") (u "Q")
             (u "foo=20bar_=3d=3F") (b "foo bar =?") (u "foo bar =?"));
      try reflexivity.
    left. split; reflexivity.
Defined.

(** C4.  [decode_b] does raise: on an input with one data character more
    than whole quads every retry of the loop fails, and the [else] of the
    loop raises the [AssertionError] its comment calls impossible. *)
Theorem decode_b_raises :
  encoded_words.decode_b (b "a") = Raise AssertionError
  /\ encoded_words.decode_b (b "abcde") = Raise AssertionError
  /\ encoded_words.decode encoded_words.basic_codecs (u "=?us-ascii?b?a?=")
     = Raise AssertionError.
Proof. repeat split; vm_compute; reflexivity. Qed.

(** ** The token tree *)

(** Induction on a token with the hypothesis on every item of a list. *)
Section TokenInduction.
Variable P : parser.token -> Prop.
Hypothesis Hnode : forall c ty items ds,
    Forall P items -> P (parser.Node c ty items ds).
Hypothesis Hleaf : forall c s ty ds, P (parser.Leaf c s ty ds).
Hypothesis Halien : forall d, P (parser.Alien d).

Fixpoint token_induction (x : parser.token) : P x :=
  match x with
  | parser.Node c ty items ds =>
      Hnode c ty items ds
        ((fix all (l : list parser.token) : Forall P l :=
            match l with
            | [] => @Stdlib.Lists.List.Forall_nil _ P
            | y :: l' =>
                @Stdlib.Lists.List.Forall_cons _ P y l' (token_induction y) (all l')
            end) items)
  | parser.Leaf c s ty ds => Hleaf c s ty ds
  | parser.Alien d => Halien d
  end.
End TokenInduction.

Section Sum.
Context {A B : Type} (f : A -> result (list B)).

Let step := fun (acc : result (list B)) (y : A) =>
              a ← acc; d ← f y; Ok (a ++ d).

Lemma sum_raise (l : list A) (e : exn) : fold_left step l (Raise e) = Raise e.
Proof. induction l as [|y l IH]; simpl; auto. Qed.

(** [sum((f(y) for y in l), start)] is [start] followed by the
    concatenation of the results. *)
Lemma sum_concat (l : list A) (start : list B) :
  fold_left step l (Ok start)
  = (ls ← mapM f l; Ok (start ++ concat ls)).
Proof.
  revert start. induction l as [|y l IH]; intros start; simpl.
  - now rewrite app_nil_r.
  - destruct (f y) as [d|e]; simpl.
    + rewrite IH. destruct (mapM f l) as [ls|e]; simpl; [|reflexivity].
      now rewrite app_assoc.
    + apply sum_raise.
Qed.
End Sum.

Lemma mapM_returns {A B} (f : A -> result B) (l : list A) :
  Forall (fun x => returns (f x)) l -> returns (mapM f l).
Proof.
  induction 1 as [|x l [y Hy] _ [ys Hys]].
  - now exists [].
  - unfold mapM in *. cbn [foldr]. rewrite Hy, Hys. now exists (y :: ys).
Qed.

Lemma all_defects_node c ty items ds :
  parser.all_defects (parser.Node c ty items ds)
  = (ls ← mapM parser.all_defects items; Ok (ds ++ concat ls)).
Proof. apply (sum_concat parser.all_defects). Qed.

Lemma all_defects_returns (x : parser.token) :
  tokens_only x = true -> returns (parser.all_defects x).
Proof.
  induction x as [c ty items ds IH|c s ty ds|d] using token_induction;
    intros Hx.
  - rewrite all_defects_node.
    assert (H : returns (mapM parser.all_defects items)).
    { apply mapM_returns. simpl in Hx. rewrite forallb_forall in Hx.
      rewrite Forall_forall in IH |- *. intros y Hy.
      apply IH; [exact Hy|]. apply Hx. apply list_elem_of_In. exact Hy. }
    destruct H as [ls ->]. now eexists.
  - now eexists.
  - discriminate.
Qed.

Lemma mapM_Forall2 {A B} (f : A -> result B) (l : list A) (ys : list B) :
  mapM f l = Ok ys -> Forall2 (fun x y => f x = Ok y) l ys.
Proof.
  revert ys. induction l as [|x l IH]; intros ys H.
  - injection H as <-. constructor.
  - unfold mapM in *. cbn [foldr] in H.
    destruct (f x) as [y|e] eqn:Hx; cbn [mbind result_bind] in H;
      [|discriminate].
    destruct (foldr _ _ l) as [ys'|e]; cbn [mbind result_bind] in H;
      [|discriminate].
    injection H as <-. constructor; [exact Hx|]. now apply IH.
Qed.

Lemma Forall2_In_l {A B} (R : A -> B -> Prop) (l : list A) (ys : list B) x :
  Forall2 R l ys -> In x l -> exists y, In y ys /\ R x y.
Proof.
  induction 1 as [|a y l ys Ha _ IH]; intros Hin; [destruct Hin|].
  destruct Hin as [->|Hin].
  - exists y. split; [now left|exact Ha].
  - destruct (IH Hin) as (y' & Hy' & HR). exists y'. split; [now right|exact HR].
Qed.

Lemma Forall2_In_r {A B} (R : A -> B -> Prop) (l : list A) (ys : list B) y :
  Forall2 R l ys -> In y ys -> exists x, In x l /\ R x y.
Proof.
  induction 1 as [|a b l ys Ha _ IH]; intros Hin; [destruct Hin|].
  destruct Hin as [->|Hin].
  - exists a. split; [now left|exact Ha].
  - destruct (IH Hin) as (x' & Hx' & HR). exists x'. split; [now right|exact HR].
Qed.

(** On a tree of tokens [all_defects] returns the defects of the node and
    of its descendants, and nothing else. *)
Lemma all_defects_descendants (x : parser.token) :
  tokens_only x = true ->
  exists l, parser.all_defects x = Ok l
            /\ forall d, In d l <->
                         exists y, In y (descendants x)
                                   /\ In d (parser.defects_of y).
Proof.
  induction x as [c ty items ds IH|c s ty ds|d0] using token_induction;
    intros Hx.
  - destruct (all_defects_returns _ Hx) as [l Hl]. exists l.
    split; [exact Hl|]. rewrite all_defects_node in Hl.
    destruct (mapM parser.all_defects items) as [ls|e] eqn:Hls;
      [|discriminate].
    injection Hl as <-. apply mapM_Forall2 in Hls.
    cbn [tokens_only] in Hx. rewrite forallb_forall in Hx.
    rewrite Forall_forall in IH.
    intros d. rewrite in_app_iff. cbn [descendants]. split.
    + intros [Hd|Hd].
      * eexists. split; [left; reflexivity|exact Hd].
      * apply in_concat in Hd as (l' & Hl' & Hd).
        destruct (Forall2_In_r _ _ _ _ Hls Hl') as (item & Hitem & Hall).
        destruct (IH item) as (l'' & Hall' & Hiff);
          [apply list_elem_of_In; exact Hitem|apply Hx; exact Hitem|].
        assert (El : l'' = l') by congruence. subst l''.
        destruct (proj1 (Hiff d) Hd) as (y & Hy & Hd'). exists y.
        split; [|exact Hd'].
        right. apply in_flat_map. now exists item.
    + intros (y & [<-|Hy] & Hd).
      * left. exact Hd.
      * right. apply in_flat_map in Hy as (item & Hitem & Hy).
        destruct (IH item) as (l'' & Hall' & Hiff);
          [apply list_elem_of_In; exact Hitem|apply Hx; exact Hitem|].
        destruct (Forall2_In_l _ _ _ _ Hls Hitem) as (l' & Hl' & Hall).
        assert (El : l'' = l') by congruence. subst l''.
        apply in_concat. exists l'. split; [exact Hl'|].
        apply Hiff. now exists y.
  - exists ds. split; [reflexivity|]. intros d. split.
    + intros Hd. eexists. split; [left; reflexivity|exact Hd].
    + intros (y & [<-|[]] & Hd). exact Hd.
  - discriminate.
Qed.

(** [all_defects] of a terminal is its own [defects] list; of a token
    list it is the local [defects] list followed by the [all_defects] of
    each item in order (and raises what the first failing item raises).
    On a tree of tokens it returns, and what it returns holds the local
    defects, and altogether the defects of the node and of its
    descendants and no other.  Nothing is stored: the result is a function
    of the fields the nodes have when it is read. *)
Lemma all_defects_spec (x : parser.token) :
  match x with
  | parser.Leaf _ _ _ ds => parser.all_defects x = Ok ds
  | parser.Node _ _ items ds =>
      parser.all_defects x
      = (ls ← mapM parser.all_defects items; Ok (ds ++ concat ls))
  | parser.Alien _ => True
  end
  /\ (tokens_only x = true ->
      exists l, parser.all_defects x = Ok l
                /\ (forall d, In d (parser.defects_of x) -> In d l)
                /\ (forall d, In d l <->
                              exists y, In y (descendants x)
                                        /\ In d (parser.defects_of y))).
Proof.
  split.
  - destruct x; [apply all_defects_node|reflexivity|exact I].
  - intros Hx. destruct (all_defects_descendants x Hx) as (l & Hl & Hiff).
    exists l. split; [exact Hl|]. split; [|exact Hiff].
    intros d Hd. apply Hiff. exists x. split; [|exact Hd].
    destruct x; left; reflexivity.
Qed.

(** The instance at a phrase with a defect of its own and a defective
    atom. *)
Lemma all_defects_spec_witness :
  exists l,
    parser.all_defects
      (parser.Node parser.Phrase (Some "phrase"%string)
         [parser.Leaf parser.ValueTerminal (u "a") "atext"
            [NonPrintableDefect [1]];
          parser.DOT]
         [ObsoleteHeaderDefect "period in 'phrase'"]) = Ok l
    /\ In (ObsoleteHeaderDefect "period in 'phrase'") l
    /\ In (NonPrintableDefect [1]) l.
Proof.
  destruct (proj2 (all_defects_spec
             (parser.Node parser.Phrase (Some "phrase"%string)
                [parser.Leaf parser.ValueTerminal (u "a") "atext"
                   [NonPrintableDefect [1]];
                 parser.DOT]
                [ObsoleteHeaderDefect "period in 'phrase'"])) eq_refl)
    as (l & Hl & Hlocal & Hall).
  exists l. split; [exact Hl|]. split.
  - apply Hlocal. left. reflexivity.
  - apply Hall. eexists. split; [right; left; reflexivity|].
    left. reflexivity.
Defined.

(** C6.  [all_defects] does not return on every tree the parser builds.
    On a domain literal that the input ends right after its opening
    bracket, [get_domain_literal] puts the defect "end of input inside
    domain-literal" among the items of the list, where every other
    function of the parser appends to the [defects] of the list: the local
    [defects] are empty, and [all_defects], which asks every item for its
    own, raises [AttributeError] at the defect object.  [get_mailbox] reads
    [all_defects] of what it has parsed, so that [get_address_list],
    [AddressHeader.parse] and [make_header] raise on such an address. *)
Theorem all_defects_raises_on_open_domain_literal :
  parser.get_domain_literal (u "[")
  = Ok (parser.Node parser.DomainLiteral (Some "domain-literal"%string)
          [ parser.Alien
              (InvalidHeaderDefect "end of input inside domain-literal");
            parser.Leaf parser.ValueTerminal (u "]") "domain-literal-end" [] ]
          [],
        [])
  /\ parser.all_defects
       (parser.Node parser.DomainLiteral (Some "domain-literal"%string)
          [ parser.Alien
              (InvalidHeaderDefect "end of input inside domain-literal");
            parser.Leaf parser.ValueTerminal (u "]") "domain-literal-end" [] ]
          [])
     = Raise (parser.no_attribute "all_defects")
  /\ parser.get_address_list (u "a@[")
     = Raise (parser.no_attribute "all_defects")
  /\ header.AddressHeader_parse (u "a@[")
     = Raise (parser.no_attribute "all_defects")
  /\ policy.make_header policy.module_heap example_env policy.default
       (u "to") (u "a@[") None
     = Raise (parser.no_attribute "all_defects").
Proof. repeat split; vm_compute; reflexivity. Qed.

Lemma concat_results_pure {A B} (f : A -> result (list B)) (g : A -> list B)
    (l : list A) :
  Forall (fun x => f x = Ok (g x)) l ->
  parser.concat_results (map f l) = Ok (concat (map g l)).
Proof.
  induction 1 as [|x l Hx _ IH]; [reflexivity|].
  unfold parser.concat_results in *. cbn [map foldr concat].
  now rewrite Hx, IH.
Qed.

Lemma concat_results_mapM {A B} (f : A -> result (list B)) (l : list A) :
  parser.concat_results (map f l) = (vs ← mapM f l; Ok (concat vs)).
Proof.
  induction l as [|x l IH]; [reflexivity|].
  unfold parser.concat_results, mapM in *. cbn [map foldr].
  destruct (f x) as [v|e]; cbn [mbind result_bind]; [|reflexivity].
  rewrite IH.
  destruct (foldr _ (Ok []) l); reflexivity.
Qed.

(** C7, as amended.  For every node of every tree: a white-space token
    (fws, cfws, comment) has the value of one space, whatever it contains;
    the value of a bare quoted string is the text of its items, one after
    the other; and the value of a composite of any other class but
    AddrSpec, DisplayName and LocalPart is the concatenation of the values
    of its children, in order (and raises what the first child that has no
    value raises).  On a tree without those three classes the value is
    therefore the derived value of the design. *)
Theorem value_is_derived_value (x : parser.token) :
  match x with
  | parser.Node c _ items _ =>
      if is_whitespace_class c then parser.value x = Ok (u " ")
      else if has_own_value c then True
      else match c with
           | parser.BareQuotedString =>
               parser.value x
               = (ss ← mapM parser.to_str items; Ok (concat ss))
           | _ =>
               parser.value x
               = (vs ← mapM parser.value items; Ok (concat vs))
           end
  | parser.Leaf parser.WhiteSpaceTerminal _ _ _ => parser.value x = Ok (u " ")
  | parser.Leaf parser.ValueTerminal s _ _ => parser.value x = Ok s
  | parser.Alien _ => True
  end
  /\ (plain_value x = true -> parser.value x = Ok (derived_value x)).
Proof.
  split.
  - destruct x as [c ty items ds|[] s ty ds|d]; try reflexivity; try exact I.
    destruct c; cbn [is_whitespace_class has_own_value parser.value];
      try reflexivity; try exact I;
      try (unfold parser.join_values; apply concat_results_mapM).
  - induction x as [c ty items ds IH|c s ty ds|d] using token_induction;
      intros Hx.
    + assert (Hgen : negb (has_own_value c) && forallb plain_value items = true ->
                     parser.join_values (map parser.value items)
                     = Ok (concat (map derived_value items))).
      { intros H. apply andb_true_iff in H as [_ H].
        apply concat_results_pure.
        rewrite forallb_forall in H. rewrite Forall_forall in IH |- *.
        intros y Hy. apply IH; [exact Hy|]. apply H. apply list_elem_of_In.
        exact Hy. }
      destruct c; simpl in Hx |- *; try reflexivity; try discriminate;
        try (apply Hgen; assumption).
      apply concat_results_pure.
      rewrite forallb_forall in Hx. rewrite Forall_forall.
      intros y Hy. apply list_elem_of_In in Hy. specialize (Hx y Hy).
      destruct y; try discriminate. reflexivity.
    + destruct c; reflexivity.
    + discriminate.
Qed.

(** The instances at a phrase of two atoms around a CFWS of a space and a
    comment, where the CFWS counts for one space, and at the address list
    of [a @b, x@y.com], whose value is that of its children. *)
Lemma value_is_derived_value_witness :
  parser.value
    (parser.Node parser.Phrase (Some "phrase"%string)
       [parser.Leaf parser.ValueTerminal (u "a") "atext" [];
        parser.Node parser.CFWSList (Some "cfws"%string)
          [parser.Leaf parser.WhiteSpaceTerminal (u "   ") "fws" [];
           parser.Node parser.Comment (Some "comment"%string)
             [parser.Leaf parser.WhiteSpaceTerminal (u "x y") "ptext" []] []]
          [];
        parser.Leaf parser.ValueTerminal (u "b") "atext" []]
       [])
  = Ok (u "a b")
  /\ parser.get_address_list (u "a @b, x@y.com")
     = Ok (example_address_list, [])
  /\ plain_value example_address_list = false
  /\ parser.value example_address_list
     = (vs ← mapM parser.value (parser.items_of example_address_list);
        Ok (concat vs))
  /\ mapM parser.value (parser.items_of example_address_list)
     = Ok [u "a@b"; u ","; u " x@y.com"].
Proof.
  split; [|split; [|split; [|split]]].
  - apply (proj2 (value_is_derived_value
             (parser.Node parser.Phrase (Some "phrase"%string)
                [parser.Leaf parser.ValueTerminal (u "a") "atext" [];
                 parser.Node parser.CFWSList (Some "cfws"%string)
                   [parser.Leaf parser.WhiteSpaceTerminal (u "   ") "fws" [];
                    parser.Node parser.Comment (Some "comment"%string)
                      [parser.Leaf parser.WhiteSpaceTerminal (u "x y") "ptext" []]
                      []]
                   [];
                 parser.Leaf parser.ValueTerminal (u "b") "atext" []]
                []))).
    reflexivity.
  - vm_compute. reflexivity.
  - vm_compute. reflexivity.
  - exact (proj1 (value_is_derived_value example_address_list)).
  - vm_compute. reflexivity.
Defined.

(** C7, as stated, fails at the three classes that define a [value] of
    their own.  On the addr-spec of [a @b] the CFWS after the local part
    contributes no space; the display name ["a b"] before an address is
    quoted again; so is the local part ["a b"]: in each case the value of
    the composite is not the concatenation of the values of its
    children. *)
Lemma value_not_concatenation :
  (exists x,
      parser.get_addr_spec (u "a @b") = Ok (x, [])
      /\ parser.value x = Ok (u "a@b")
      /\ parser.concat_results (map parser.value (parser.items_of x))
         = Ok (u "a @b"))
  /\ (exists x,
        parser.get_display_name ([DQUOTE] ++ u "a b" ++ [DQUOTE] ++ u " <x@y>")
        = Ok (x, u "<x@y>")
        /\ parser.value x = Ok ([DQUOTE] ++ u "a b" ++ [DQUOTE] ++ u " ")
        /\ parser.concat_results (map parser.value (parser.items_of x))
           = Ok (u "a b "))
  /\ (exists x,
        parser.get_local_part ([DQUOTE] ++ u "a b" ++ [DQUOTE] ++ u "@y")
        = Ok (x, u "@y")
        /\ parser.value x = Ok ([DQUOTE] ++ u "a b" ++ [DQUOTE])
        /\ parser.concat_results (map parser.value (parser.items_of x))
           = Ok (u "a b")).
Proof.
  split; [|split]; eexists; repeat split; vm_compute; reflexivity.
Qed.

(** ** Folding *)

Lemma colon_follows_spec (s : str) (seen : bool) :
  header.colon_follows s seen = true <->
  exists mid post,
    s = mid ++ ch ":" :: post
    /\ Forall (fun c => inb c header.FWS = false) mid
    /\ (seen = true \/ mid <> []).
Proof.
  revert seen. induction s as [|c s IH]; intros seen;
    cbn [header.colon_follows].
  - split; [discriminate|]. intros (mid & post & H & _).
    destruct mid; discriminate.
  - destruct (inb c header.FWS) eqn:Hc.
    + split; [discriminate|]. intros (mid & post & H & Hmid & Hseen).
      destruct mid as [|m mid]; simpl in H; injection H as -> ->.
      * discriminate.
      * apply Forall_cons in Hmid as [Hm _]. congruence.
    + rewrite orb_true_iff, andb_true_iff, IH. split.
      * intros [[-> Hcolon]|(mid & post & -> & Hmid & _)].
        -- apply N.eqb_eq in Hcolon as ->.
           exists [], s. repeat split; auto.
        -- exists (c :: mid), post. repeat split; auto.
      * intros (mid & post & H & Hmid & Hseen).
        destruct mid as [|m mid]; simpl in H; injection H as -> ->.
        -- left. destruct Hseen as [->|]; [|congruence]. split; reflexivity.
        -- right. apply Forall_cons in Hmid as [_ Hmid].
           exists mid, post. repeat split; auto.
Qed.

(** The matcher of [_embeded_header] finds what the expression means. *)
Lemma _embeded_header_search_spec (s : str) :
  header._embeded_header_search s = true <-> has_embedded_header s.
Proof.
  unfold has_embedded_header. induction s as [|c s IH];
    cbn [header._embeded_header_search].
  - split; [discriminate|]. intros (pre & mid & post & H & _).
    destruct pre; discriminate.
  - rewrite orb_true_iff, andb_true_iff, IH, colon_follows_spec. split.
    + intros [[Hc (mid & post & -> & Hmid & Hne)]
             |(pre & mid & post & -> & Hne & Hmid)].
      * apply N.eqb_eq in Hc as ->. exists [], mid, post.
        repeat split; auto. destruct Hne; [discriminate|assumption].
      * exists (c :: pre), mid, post. repeat split; auto.
    + intros (pre & mid & post & H & Hne & Hmid).
      destruct pre as [|p pre]; simpl in H; injection H as -> ->.
      * left. split; [reflexivity|]. exists mid, post. repeat split; auto.
      * right. exists pre, mid, post. repeat split; auto.
Qed.

(** [encode] scans the text it has folded: when the formatter returns,
    the text is its lines joined by the line separator; when it holds an
    embedded header line [encode] fails with [HeaderParseError], otherwise
    it returns that text; so no text [encode] returns holds one. *)
Lemma encode_scans_for_embedded_header
    (h : header.Header) (splitchars : str) (maxlinelen : option Z)
    (linesep value : str) :
  header.folded h splitchars maxlinelen linesep = Ok value ->
  (exists f f', header.formatted h splitchars maxlinelen = Ok f
                /\ header.newline f = Ok f'
                /\ value = join linesep (header._lines f'))
  /\ (has_embedded_header value ->
      header.encode h splitchars maxlinelen linesep = Raise HeaderParseError)
  /\ (~ has_embedded_header value ->
      header.encode h splitchars maxlinelen linesep = Ok value)
  /\ (forall v, header.encode h splitchars maxlinelen linesep = Ok v ->
                v = value /\ ~ has_embedded_header v).
Proof.
  intros Hfolded.
  assert (Hlines : exists f f',
             header.formatted h splitchars maxlinelen = Ok f
             /\ header.newline f = Ok f'
             /\ value = join linesep (header._lines f')).
  { unfold header.folded, header._str in Hfolded.
    destruct (header.formatted h splitchars maxlinelen) as [f|e];
      [|discriminate]. cbn [mbind result_bind] in Hfolded.
    destruct (header.newline f) as [f'|e] eqn:Hnl; [|discriminate].
    injection Hfolded as <-. exists f, f'. repeat split. exact Hnl. }
  unfold header.encode. rewrite Hfolded. cbn [mbind result_bind].
  pose proof (_embeded_header_search_spec value) as Hspec.
  destruct (header._embeded_header_search value).
  - split; [exact Hlines|]. split; [reflexivity|]. split.
    + intros Hno. exfalso. apply Hno, Hspec. reflexivity.
    + discriminate.
  - assert (Hno : ~ has_embedded_header value).
    { intros H. apply Hspec in H. discriminate. }
    split; [exact Hlines|]. split; [intros H; contradiction|].
    split; [reflexivity|]. intros v Hv. injection Hv as <-. auto.
Qed.

(** A value that continues on a second line with [b: c] is rejected. *)
Lemma encode_scans_for_embedded_header_witness :
  header.encode
    (header.new_Header (Some (u "a" ++ [LF] ++ u "b: c")) header.USASCII
       None None (u " "))
    header.default_splitchars None header.NL
  = Raise HeaderParseError.
Proof.
  refine (proj1 (proj2 (encode_scans_for_embedded_header
            (header.new_Header (Some (u "a" ++ [LF] ++ u "b: c")) header.USASCII
               None None (u " "))
            header.default_splitchars None header.NL
            (u "a" ++ [LF] ++ u "b: c") _)) _).
  - vm_compute. reflexivity.
  - exists (u "a"), (u "b"), (u " c"). repeat split.
    + discriminate.
    + repeat constructor.
Defined.

(** C9.  [encode] neither fails with a parse error nor returns on a header
    whose text is white space alone: for [Header(' ')] the formatter has
    no line yet when [newline] finds the current line to be white space
    only, and [self._lines[-1]] raises [IndexError]; no text is folded and
    nothing is scanned.  A header of no text at all is encoded to the
    empty text. *)
Theorem encode_raises_on_white_space :
  header.folded
    (header.new_Header (Some (u " ")) header.USASCII None None (u " "))
    header.default_splitchars None header.NL
  = Raise IndexError
  /\ header.encode
       (header.new_Header (Some (u " ")) header.USASCII None None (u " "))
       header.default_splitchars None header.NL
     = Raise IndexError
  /\ header.encode
       (header.new_Header (Some []) header.USASCII None None (u " "))
       header.default_splitchars None header.NL
     = Ok [].
Proof. repeat split; vm_compute; reflexivity. Qed.

(** C8.  [encode] with a limit of 20 on [aaa; bbbbbbb ccccccc ddddddd]:
    the fold is taken after the semicolon, the preferred split character,
    and what follows it is put on one line of 24 characters, although that
    line has two more places to fold. *)
Theorem encode_exceeds_limit :
  header.encode
    (header.new_Header (Some (u "aaa; bbbbbbb ccccccc ddddddd")) header.USASCII
       None None (u " "))
    header.default_splitchars (Some 20%Z) header.NL
  = Ok (u "aaa;" ++ [LF] ++ u " bbbbbbb ccccccc ddddddd")
  /\ length (u " bbbbbbb ccccccc ddddddd") = 24%nat
  /\ header.re_split_fws (u " bbbbbbb ccccccc ddddddd")
     = [ []; u " "; u "bbbbbbb"; u " "; u "ccccccc"; u " "; u "ddddddd" ].
Proof. repeat split; vm_compute; reflexivity. Qed.

(** ** The policy *)

(** C10.  Assigning to an attribute of a policy raises [AttributeError]
    whatever the name and leaves the policy as it was.  Deleting an
    attribute that is in the instance dictionary succeeds and removes it,
    after which the lookup of that name gives the class attribute and the
    other names read as before.  The module does so itself: the factory
    that [Policy()] stored on [default] is deleted, and [default] reads
    the factory of the class. *)
Theorem policy_attributes (self : policy.Policy) (name : string)
    (value : policy.pyval) :
  (exists msg,
      policy.__setattr__ self name value = (self, Raise (AttributeError msg)))
  /\ (forall v, policy.__dict__ self !! name = Some v ->
        exists self',
          policy.__delattr__ self name = (self', Ok tt)
          /\ policy.__dict__ self' !! name = None
          /\ policy.getattr self' name = policy.class_getattr name
          /\ forall other, other <> name ->
               policy.getattr self' other = policy.getattr self other)
  /\ (exists d,
        policy.default_before_del = Ok d
        /\ policy.getattr d "header_factory" = Ok (policy.VFactory 1)
        /\ policy.__delattr__ d "header_factory" = (policy.default, Ok tt)
        /\ policy.getattr policy.default "header_factory"
           = Ok (policy.VFactory policy.class_header_factory)).
Proof.
  split; [|split].
  - unfold policy.__setattr__. eexists. reflexivity.
  - intros v Hv. unfold policy.__delattr__. rewrite Hv.
    eexists. split; [reflexivity|]. cbn [policy.__dict__].
    split; [apply lookup_delete_eq|]. split.
    + unfold policy.getattr. cbn [policy.__dict__].
      now rewrite lookup_delete_eq.
    + intros other Hne. unfold policy.getattr. cbn [policy.__dict__].
      now rewrite lookup_delete_ne by congruence.
  - eexists. split; [reflexivity|]. repeat split.
Qed.

(** The instance at the policy [Policy()] returns, which holds its own
    factory. *)
Lemma policy_attributes_witness :
  exists self',
    policy.__delattr__
      {| policy.__dict__ := {[ "header_factory"%string := policy.VFactory 1 ]} |}
      "header_factory" = (self', Ok tt)
    /\ policy.__dict__ self' !! "header_factory"%string = None
    /\ policy.getattr self' "header_factory"
       = policy.class_getattr "header_factory"
    /\ forall other, other <> "header_factory"%string ->
         policy.getattr self' other
         = policy.getattr
             {| policy.__dict__ :=
                  {[ "header_factory"%string := policy.VFactory 1 ]} |} other.
Proof.
  apply (proj1 (proj2 (policy_attributes
           {| policy.__dict__ := {[ "header_factory"%string := policy.VFactory 1 ]} |}
           "header_factory" policy.VNone)) (policy.VFactory 1)).
  reflexivity.
Defined.

(** C3, as amended.  [handle_defect] raises the defect when
    [raise_on_defect] is true and appends it to the [defects] of the object
    otherwise; [make_header] does not read [raise_on_defect]: a policy and
    the same policy with any other value of it make the same header, with
    the defects the parser recorded. *)
Theorem strictness_is_in_handle_defect
    (h : policy.heap) (env : header.Env) (self : policy.Policy)
    (v : policy.pyval) (obj_defects : list defect) (d : defect)
    (name unparsed : str) (unfolded : option str) :
  (policy.getattr self "raise_on_defect" = Ok v ->
   policy.handle_defect self obj_defects d
   = if policy.truthy v then Raise (DefectRaised d)
     else Ok (obj_defects ++ [d]))
  /\ exists self',
       policy.object_setattr self "raise_on_defect" v = Ok self'
       /\ policy.make_header h env self' name unparsed unfolded
          = policy.make_header h env self name unparsed unfolded.
Proof.
  split.
  - intros Hv. unfold policy.handle_defect. rewrite Hv. reflexivity.
  - eexists. split; [reflexivity|].
    unfold policy.make_header, policy.getattr.
    cbn [policy.__dict__].
    rewrite !lookup_insert_ne by discriminate. reflexivity.
Qed.

(** The instance at the strict policy of the module. *)
Lemma strictness_is_in_handle_defect_witness :
  policy.handle_defect policy.strict [] InvalidBase64PaddingDefect
  = Raise (DefectRaised InvalidBase64PaddingDefect).
Proof.
  apply (proj1 (strictness_is_in_handle_defect [] example_env policy.strict
                  (policy.VBool true) [] InvalidBase64PaddingDefect [] [] None)).
  reflexivity.
Defined.

(** C3, as stated, fails: under the strict policy of the module the header
    made of [a] for [To] is returned, and the defect the parser found is
    recorded on it. *)
Lemma strict_policy_records_defects :
  policy.getattr policy.strict "raise_on_defect" = Ok (policy.VBool true)
  /\ exists hd,
       policy.make_header policy.module_heap example_env policy.strict
         (u "to") (u "a") None = Ok hd
       /\ header._defects hd
          = [InvalidHeaderDefect "add-spec local part with no domain"].
Proof. split; [reflexivity|]. eexists. split; vm_compute; reflexivity. Qed.

(** ** The fuel of the address parser

    Every production either raises or leaves no more of its input than it
    was given, and the loops go round once more only on a shorter input: the
    length of the input plus one is fuel enough, so that
    [parser.get_address_list] never runs out of it. *)

Lemma consumes_relax {T} strict value (r : result (T * str)) :
  consumes strict value r -> consumes false value r.
Proof. destruct r as [[t v]|e], strict; simpl; auto; lia. Qed.

Lemma lstrip_length (s : str) : (length (lstrip s) <= length s)%nat.
Proof.
  induction s as [|c s IH]; simpl; [lia|].
  destruct (py_isspace c); simpl; lia.
Qed.

Lemma inb_WSP_isspace c : inb c parser.WSP = true -> py_isspace c = true.
Proof.
  unfold inb, parser.WSP. cbn [existsb u app map list_ascii_of_string].
  rewrite !orb_true_iff. intros [H|[H|H]]; try discriminate;
    apply N.eqb_eq in H; subst; reflexivity.
Qed.

Lemma get_fws_consumes value :
  consumes (starts_in value parser.WSP) value (parser.get_fws value).
Proof.
  unfold parser.get_fws. cbn [consumes].
  destruct value as [|c v]; cbn [starts_in]; [simpl; lia|].
  destruct (inb c parser.WSP) eqn:Hc.
  - apply inb_WSP_isspace in Hc. cbn [lstrip]. rewrite Hc.
    pose proof (lstrip_length v). simpl. lia.
  - apply lstrip_length.
Qed.

Lemma span_app (p : uchar -> bool) (s : str) :
  s = (parser.span p s).1 ++ (parser.span p s).2.
Proof.
  induction s as [|c s IH]; [reflexivity|]. cbn [parser.span].
  destruct (p c); [|reflexivity].
  destruct (parser.span p s) as [a r]. cbn [fst snd] in *. cbn.
  now f_equal.
Qed.

Lemma span_head (p : uchar -> bool) (c : uchar) (s : str) :
  p c = true -> (parser.span p (c :: s)).1 <> [].
Proof.
  intros H. cbn [parser.span]. rewrite H.
  destruct (parser.span p s). discriminate.
Qed.

Lemma ptext_scan_length (fragment endchars : str) (escape had_qp : bool)
    (vchars : str) :
  let '(_, rest, _) := parser.ptext_scan fragment endchars escape had_qp vchars in
  (length rest <= length fragment)%nat
  /\ (forall c f, fragment = c :: f -> inb c endchars = false ->
                  (length rest < length fragment)%nat).
Proof.
  revert escape had_qp vchars.
  induction fragment as [|c f IH]; intros escape had_qp vchars;
    cbn [parser.ptext_scan].
  - split; [simpl; lia|]. discriminate.
  - assert (Hrec : forall e q v,
               let '(_, rest, _) := parser.ptext_scan f endchars e q v in
               (length rest <= length (c :: f))%nat
               /\ (forall c0 f0, c :: f = c0 :: f0 -> inb c0 endchars = false ->
                                 (length rest < length (c :: f))%nat)).
    { intros e q v. specialize (IH e q v).
      destruct (parser.ptext_scan f endchars e q v) as [[? rest] ?].
      destruct IH as [IH _]. simpl. split; intros; lia. }
    destruct (c =? BACKSLASH).
    + destruct escape; [|apply Hrec].
      destruct (inb c endchars) eqn:Hc; [|apply Hrec].
      split; [lia|]. intros c0 f0 E. injection E as <- <-. congruence.
    + destruct escape; [apply Hrec|].
      destruct (inb c endchars) eqn:Hc; [|apply Hrec].
      split; [lia|]. intros c0 f0 E. injection E as <- <-. congruence.
Qed.

Lemma _get_ptext_to_endchars_length (value endchars : str) :
  match parser._get_ptext_to_endchars value endchars with
  | Ok (_, rest, _) =>
      (length rest <= length value)%nat
      /\ (forall c v, value = c :: v -> inb c parser.WSP = false ->
                      inb c endchars = false ->
                      (length rest < length value)%nat)
  | Raise e => e <> OutOfFuel
  end.
Proof.
  unfold parser._get_ptext_to_endchars, parser._wsp_splitter.
  pose proof (span_app (fun c => negb (inb c parser.WSP)) value) as Hsp.
  destruct (parser.span (fun c => negb (inb c parser.WSP)) value)
    as [before rest] eqn:Hspan. cbn [fst snd] in Hsp.
  assert (Hfirst : forall c v, value = c :: v -> inb c parser.WSP = false ->
                               exists b, before = c :: b).
  { intros c v -> Hc. cbn [parser.span] in Hspan. rewrite Hc in Hspan.
    cbn [negb] in Hspan. destruct (parser.span _ v) as [a r].
    injection Hspan as <- <-. now eexists. }
  destruct rest as [|r rest].
  - (* one element: the fragment is the value *)
    destruct value as [|c v]; [discriminate|].
    pose proof (ptext_scan_length (c :: v) endchars false false []) as H.
    destruct (parser.ptext_scan (c :: v) endchars false false [])
      as [[vc rs] qp].
    destruct H as [Hle Hlt]. rewrite app_nil_r. split; [exact Hle|].
    intros c0 v0 E _ Hend. injection E as <- <-. now apply (Hlt c v).
  - pose proof (span_app (fun c => inb c parser.WSP) (r :: rest)) as Hsp2.
    destruct (parser.span (fun c => inb c parser.WSP) (r :: rest))
      as [ws after]. cbn [fst snd] in Hsp2.
    destruct before as [|b0 before]; [discriminate|].
    pose proof (ptext_scan_length (b0 :: before) endchars false false []) as H.
    destruct (parser.ptext_scan (b0 :: before) endchars false false [])
      as [[vc rs] qp].
    destruct H as [Hle Hlt].
    assert (Hlen : length value
                   = (length (b0 :: before) + length (ws ++ after))%nat).
    { rewrite Hsp, Hsp2. now rewrite !length_app. }
    rewrite length_app. split; [lia|].
    intros c v E Hc Hend. destruct (Hfirst c v E Hc) as [b' Hb].
    injection Hb as Hb0 _. subst b0.
    specialize (Hlt c before eq_refl Hend). lia.
Qed.

Lemma get_qp_ctext_consumes value :
  consumes (starts_outside value (parser.WSP ++ u "()")) value
    (parser.get_qp_ctext value).
Proof.
  unfold parser.get_qp_ctext.
  pose proof (_get_ptext_to_endchars_length value (u "()")) as H.
  destruct (parser._get_ptext_to_endchars value (u "()")) as [[[p r] q]|e];
    cbn [mbind result_bind consumes]; [|exact H].
  destruct H as [Hle Hlt].
  destruct value as [|c v]; cbn [starts_outside negb]; [exact Hle|].
  destruct (inb c (parser.WSP ++ u "()")) eqn:Hc; cbn [negb]; [exact Hle|].
  unfold inb in Hc. rewrite existsb_app in Hc.
  apply orb_false_iff in Hc as [H1 H2]. now apply (Hlt c v).
Qed.

Lemma get_qcontent_consumes value :
  consumes (starts_outside value (parser.WSP ++ [DQUOTE])) value
    (parser.get_qcontent value).
Proof.
  unfold parser.get_qcontent.
  pose proof (_get_ptext_to_endchars_length value [DQUOTE]) as H.
  destruct (parser._get_ptext_to_endchars value [DQUOTE]) as [[[p r] q]|e];
    cbn [mbind result_bind consumes]; [|exact H].
  destruct H as [Hle Hlt].
  destruct value as [|c v]; cbn [starts_outside negb]; [exact Hle|].
  destruct (inb c (parser.WSP ++ [DQUOTE])) eqn:Hc; cbn [negb]; [exact Hle|].
  unfold inb in Hc. rewrite existsb_app in Hc.
  apply orb_false_iff in Hc as [H1 H2]. now apply (Hlt c v).
Qed.

Lemma get_dtext_consumes value :
  consumes false value (parser.get_dtext value).
Proof.
  unfold parser.get_dtext.
  pose proof (_get_ptext_to_endchars_length value (u "[]")) as H.
  destruct (parser._get_ptext_to_endchars value (u "[]")) as [[[p r] q]|e];
    cbn [mbind result_bind consumes]; [|exact H].
  apply H.
Qed.

Lemma get_atext_consumes value :
  consumes true value (parser.get_atext value).
Proof.
  unfold parser.get_atext.
  pose proof (span_app (fun c => negb (inb c parser.ATOM_ENDS)) value) as H.
  destruct (parser.span (fun c => negb (inb c parser.ATOM_ENDS)) value)
    as [a r]. cbn [fst snd] in H.
  destruct a as [|x a]; [discriminate|]. cbn [consumes].
  rewrite H, length_app. simpl. lia.
Qed.

Lemma consumes_shorter {T} (s : bool) (v v' : str) (r : result (T * str)) :
  consumes false v' r ->
  (if s then (length v' < length v)%nat else (length v' <= length v)%nat) ->
  consumes s v r.
Proof.
  destruct r as [[t w]|e]; cbn [consumes]; [|auto].
  destruct s; lia.
Qed.

Lemma consumes_step {T T'} (s s1 : bool) (value : str) (m : result (T * str))
    (k : T * str -> result (T' * str)) :
  consumes s1 value m ->
  (forall t v, m = Ok (t, v) ->
               (if s1 then (length v < length value)%nat
                else (length v <= length value)%nat) ->
               consumes (s && negb s1) v (k (t, v))) ->
  consumes s value (m ≫= k).
Proof.
  intros Hm Hk. destruct m as [[t v]|e]; cbn [mbind result_bind]; [|exact Hm].
  cbn [consumes] in Hm. specialize (Hk t v eq_refl Hm).
  destruct (k (t, v)) as [[t' v']|e]; [|exact Hk].
  cbn [consumes] in *. destruct s, s1; cbn [andb negb] in Hk; lia.
Qed.

Lemma consumes_ok {T} (t : T) (value : str) :
  consumes false value (Ok (t, value)).
Proof. cbn. lia. Qed.

Lemma consumes_drop1 {T} (s : bool) (t : T) (c : uchar) (v : str) :
  consumes s (c :: v) (Ok (t, slice_from 1 (c :: v))).
Proof. cbn. unfold drop. destruct s; simpl; lia. Qed.

Lemma inb_app c (a b : str) : inb c (a ++ b) = inb c a || inb c b.
Proof. unfold inb. apply existsb_app. Qed.

Lemma bare_quoted_string_loop_consumes (fuel : nat) (acc : parser.token)
    (value : str) :
  (length value < fuel)%nat ->
  consumes false value (parser.bare_quoted_string_loop fuel acc value).
Proof.
  revert acc value. induction fuel as [|fuel IH]; intros acc value Hf; [lia|].
  cbn [parser.bare_quoted_string_loop].
  destruct value as [|c v]; [apply consumes_ok|].
  destruct (c =? DQUOTE) eqn:Hq; cbn [negb]; [apply consumes_drop1|].
  eapply (consumes_step false true).
  - destruct (inb c parser.WSP) eqn:Hw.
    + pose proof (get_fws_consumes (c :: v)) as H. cbn [starts_in] in H.
      now rewrite Hw in H.
    + pose proof (get_qcontent_consumes (c :: v)) as H.
      cbn [starts_outside] in H. rewrite inb_app, Hw in H.
      unfold inb at 1 in H. cbn [existsb] in H. now rewrite Hq in H.
  - intros t v1 _ Hlt. apply IH. simpl in *. lia.
Qed.

Lemma get_bare_quoted_string_consumes value :
  consumes true value (parser.get_bare_quoted_string value).
Proof.
  unfold parser.get_bare_quoted_string.
  destruct value as [|c v]; cbn [first mbind result_bind]; [discriminate|].
  destruct (c =? DQUOTE); cbn [negb]; [|discriminate].
  eapply consumes_shorter.
  - apply bare_quoted_string_loop_consumes. unfold slice_from, drop. simpl. lia.
  - unfold slice_from, drop. simpl. lia.
Qed.

Lemma comment_loop_consumes (fuel : nat) (acc : parser.token) (value : str) :
  (length value < fuel)%nat ->
  consumes false value (parser.comment_loop fuel acc value).
Proof.
  revert acc value. induction fuel as [|fuel IH]; intros acc value Hf; [lia|].
  cbn [parser.comment_loop].
  destruct value as [|c v]; [apply consumes_ok|].
  destruct (c =? ch ")") eqn:Hq; cbn [negb]; [apply consumes_drop1|].
  eapply (consumes_step false true).
  - destruct (inb c parser.WSP) eqn:Hw.
    + pose proof (get_fws_consumes (c :: v)) as H. cbn [starts_in] in H.
      now rewrite Hw in H.
    + destruct (c =? ch "(") eqn:Hp.
      * eapply consumes_shorter; [apply IH|];
          unfold slice_from, drop; simpl in *; lia.
      * pose proof (get_qp_ctext_consumes (c :: v)) as H.
        cbn [starts_outside] in H. rewrite inb_app, Hw in H.
        unfold inb at 1 in H. cbn [existsb u map list_ascii_of_string] in H.
        change (N_of_ascii "(") with (ch "(") in H.
        change (N_of_ascii ")") with (ch ")") in H.
        now rewrite Hp, Hq in H.
  - intros t v1 _ Hlt. apply IH. simpl in *. lia.
Qed.

Lemma get_comment_consumes value :
  consumes (nonempty value) value (parser.get_comment value).
Proof.
  unfold parser.get_comment.
  destruct (nonempty value && negb (starts_with_char value (ch "(")));
    [destruct (nonempty value); discriminate|].
  eapply consumes_shorter.
  - apply comment_loop_consumes. unfold slice_from.
    rewrite length_drop. lia.
  - unfold slice_from. rewrite length_drop.
    destruct value; simpl; lia.
Qed.

Lemma cfws_loop_consumes (fuel : nat) (acc : parser.token) (value : str) :
  (length value < fuel)%nat ->
  consumes false value (parser.cfws_loop fuel acc value).
Proof.
  revert acc value. induction fuel as [|fuel IH]; intros acc value Hf; [lia|].
  cbn [parser.cfws_loop].
  destruct (starts_in value parser.CFWS_LEADER) eqn:Hl; [|apply consumes_ok].
  eapply (consumes_step false true).
  - destruct (starts_in value parser.WSP) eqn:Hw.
    + pose proof (get_fws_consumes value) as H. now rewrite Hw in H.
    + pose proof (get_comment_consumes value) as H.
      destruct value; [discriminate|exact H].
  - intros t v1 _ Hlt. apply IH. lia.
Qed.

Lemma get_cfws_consumes value :
  consumes (starts_in value parser.CFWS_LEADER) value (parser.get_cfws value).
Proof.
  unfold parser.get_cfws.
  destruct (starts_in value parser.CFWS_LEADER) eqn:Hl;
    [|apply cfws_loop_consumes; lia].
  cbn [parser.cfws_loop]. rewrite Hl.
  eapply (consumes_step true true).
  - destruct (starts_in value parser.WSP) eqn:Hw.
    + pose proof (get_fws_consumes value) as H. now rewrite Hw in H.
    + pose proof (get_comment_consumes value) as H.
      destruct value; [discriminate|exact H].
  - intros t v1 _ Hlt. apply cfws_loop_consumes. lia.
Qed.

Lemma optional_cfws_consumes (l : parser.token) value :
  consumes false value (parser.optional_cfws l value).
Proof.
  unfold parser.optional_cfws.
  destruct (starts_in value parser.CFWS_LEADER); [|apply consumes_ok].
  eapply (consumes_step false false).
  - apply (consumes_shorter false value value); [|lia].
    pose proof (get_cfws_consumes value) as H.
    destruct (parser.get_cfws value) as [[t v]|e]; cbn [consumes] in *; auto.
    destruct (starts_in value parser.CFWS_LEADER); lia.
  - intros t v1 _ Hlt. apply consumes_ok.
Qed.

Lemma consumes_then {T A} (s : bool) (value : str) (m : result A)
    (k : A -> result (T * str)) :
  fuelled m -> (forall a, m = Ok a -> consumes s value (k a)) ->
  consumes s value (m ≫= k).
Proof.
  intros Hm Hk. destruct m as [a|e]; cbn [mbind result_bind]; [now apply Hk|].
  cbn. intros ->. now apply Hm.
Qed.

Lemma consumes_finally {T A} (s : bool) (value : str) (r : result (T * str))
    (f : T -> result A) (g : A -> T) :
  consumes s value r -> (forall t, fuelled (f t)) ->
  consumes s value ('(t, v) ← r; a ← f t; Ok (g a, v)).
Proof.
  intros Hr Hf. destruct r as [[t v]|e]; cbn [mbind result_bind]; [|exact Hr].
  specialize (Hf t). destruct (f t) as [a|e]; cbn [mbind result_bind].
  - exact Hr.
  - cbn. intros ->. now apply Hf.
Qed.

Lemma fuelled_first value : fuelled (first value).
Proof. destruct value; discriminate. Qed.

Lemma fuelled_token_type_of x : fuelled (parser.token_type_of x).
Proof. destruct x; discriminate. Qed.

Lemma fuelled_prepend l x : fuelled (parser.prepend l x).
Proof. destruct x; discriminate. Qed.

Lemma fuelled_prepend_leader l x : fuelled (parser.prepend_leader l x).
Proof. destruct l; [apply fuelled_prepend|discriminate]. Qed.

Lemma get_quoted_string_consumes value :
  consumes true value (parser.get_quoted_string value).
Proof.
  unfold parser.get_quoted_string.
  eapply (consumes_step true false); [apply optional_cfws_consumes|].
  intros l v1 _ Hle. cbn [andb negb].
  eapply (consumes_step true true); [apply get_bare_quoted_string_consumes|].
  intros t v2 _ Hlt. cbn [andb negb]. apply optional_cfws_consumes.
Qed.

Lemma get_atom_consumes value :
  consumes true value (parser.get_atom value).
Proof.
  unfold parser.get_atom.
  eapply (consumes_step true false); [apply optional_cfws_consumes|].
  intros l v1 _ Hle. cbn [andb negb].
  destruct (starts_in v1 parser.ATOM_ENDS); [discriminate|].
  eapply (consumes_step true true); [apply get_atext_consumes|].
  intros t v2 _ Hlt. cbn [andb negb]. apply optional_cfws_consumes.
Qed.

Lemma dot_atom_text_loop_consumes (fuel : nat) (acc : parser.token)
    (value : str) :
  (length value < fuel)%nat ->
  consumes false value (parser.dot_atom_text_loop fuel acc value).
Proof.
  revert acc value. induction fuel as [|fuel IH]; intros acc value Hf; [lia|].
  cbn [parser.dot_atom_text_loop].
  destruct (nonempty value && negb (starts_in value parser.ATOM_ENDS));
    [|apply consumes_ok].
  eapply (consumes_step false true); [apply get_atext_consumes|].
  intros t v1 _ Hlt. cbn [andb negb].
  destruct (starts_with_char v1 (ch ".")).
  - eapply consumes_shorter; [apply IH|]; unfold slice_from;
      rewrite ?length_drop; lia.
  - apply IH. lia.
Qed.

Lemma get_dot_atom_text_consumes value :
  consumes true value (parser.get_dot_atom_text value).
Proof.
  unfold parser.get_dot_atom_text.
  destruct (nonempty value) eqn:Hne; cbn [negb orb]; [|discriminate].
  destruct (starts_in value parser.ATOM_ENDS) eqn:Hs; [discriminate|].
  cbn [parser.dot_atom_text_loop]. rewrite Hne, Hs. cbn [andb negb].
  eapply (consumes_step true true).
  - eapply (consumes_step true true); [apply get_atext_consumes|].
    intros t v1 _ Hlt. cbn [andb negb].
    destruct (starts_with_char v1 (ch ".")).
    + eapply consumes_shorter; [apply dot_atom_text_loop_consumes|];
        unfold slice_from; rewrite ?length_drop; lia.
    + apply dot_atom_text_loop_consumes. lia.
  - intros t v1 _ Hlt. cbn [andb negb].
    destruct (last (parser.items_of t)); [|discriminate].
    destruct (parser.token_eqb_DOT t0); [discriminate|apply consumes_ok].
Qed.

Lemma get_dot_atom_consumes value :
  consumes true value (parser.get_dot_atom value).
Proof.
  unfold parser.get_dot_atom.
  apply consumes_then; [apply fuelled_first|]. intros c _.
  eapply (consumes_step true false).
  - destruct (inb c parser.CFWS_LEADER); [|apply consumes_ok].
    eapply (consumes_step false false);
      [eapply consumes_relax, get_cfws_consumes|].
    intros; apply consumes_ok.
  - intros l v1 _ Hle. cbn [andb negb].
    eapply (consumes_step true true); [apply get_dot_atom_text_consumes|].
    intros t v2 _ Hlt. cbn [andb negb]. apply optional_cfws_consumes.
Qed.

Lemma get_leader_consumes value :
  consumes false value (parser.get_leader value).
Proof.
  unfold parser.get_leader.
  apply consumes_then; [apply fuelled_first|]. intros c _.
  destruct (inb c parser.CFWS_LEADER); [|apply consumes_ok].
  eapply (consumes_step false false);
    [eapply consumes_relax, get_cfws_consumes|].
  intros; apply consumes_ok.
Qed.

Lemma get_word_consumes value :
  consumes true value (parser.get_word value).
Proof.
  unfold parser.get_word.
  eapply (consumes_step true false); [apply get_leader_consumes|].
  intros leader v1 _ Hle. cbn [andb negb].
  apply consumes_then; [apply fuelled_first|]. intros c _.
  eapply (consumes_step true true).
  - destruct (c =? DQUOTE); [apply get_quoted_string_consumes|].
    destruct (inb c parser.SPECIALS); [discriminate|apply get_atom_consumes].
  - intros t v2 _ Hlt. cbn [andb negb].
    apply consumes_then; [apply fuelled_prepend_leader|].
    intros; apply consumes_ok.
Qed.

Lemma phrase_loop_consumes (fuel : nat) (acc : parser.token) (value : str) :
  (length value < fuel)%nat ->
  consumes (starts_outside value parser.PHRASE_ENDS) value
    (parser.phrase_loop fuel acc value).
Proof.
  revert acc value. induction fuel as [|fuel IH]; intros acc value Hf; [lia|].
  cbn [parser.phrase_loop].
  destruct value as [|c v]; [apply consumes_ok|]. cbn [starts_outside].
  destruct (inb c parser.PHRASE_ENDS) eqn:He; cbn [negb]; [apply consumes_ok|].
  destruct (c =? ch ".").
  - eapply consumes_shorter; [eapply consumes_relax, IH|];
      unfold slice_from, drop; simpl in *; lia.
  - eapply (consumes_step true true).
    + pose proof (get_word_consumes (c :: v)) as Hw.
      destruct (parser.get_word (c :: v)) as [[t w]|e]; [exact Hw|].
      destruct e; try exact Hw.
      destruct (inb c parser.CFWS_LEADER) eqn:Hl; [|discriminate].
      eapply (consumes_step true true).
      * pose proof (get_cfws_consumes (c :: v)) as H.
        cbn [starts_in] in H. now rewrite Hl in H.
      * intros; apply consumes_ok.
    + intros [p t] v1 _ Hlt. cbn [andb negb].
      eapply consumes_relax, IH. simpl in *. lia.
Qed.

Lemma get_phrase_consumes value :
  consumes (starts_outside value parser.PHRASE_ENDS) value
    (parser.get_phrase value).
Proof.
  unfold parser.get_phrase.
  pose proof (get_word_consumes value) as Hw.
  destruct (parser.get_word value) as [[t w]|e].
  - cbn [mbind result_bind]. cbn [consumes] in Hw.
    eapply consumes_shorter.
    + eapply consumes_relax, phrase_loop_consumes. lia.
    + destruct (starts_outside value parser.PHRASE_ENDS); lia.
  - destruct e; try (cbn [mbind result_bind]; exact Hw).
    cbn [mbind result_bind]. apply phrase_loop_consumes. lia.
Qed.

Lemma try_except_consumes {T} (s : bool) (value : str)
    (a b' : result (T * str)) :
  consumes s value a -> consumes s value b' ->
  consumes s value (try_except a b').
Proof.
  intros Ha Hb. destruct a as [x|e]; [exact Ha|].
  destruct e; try exact Ha. exact Hb.
Qed.

Lemma fuelled_update_first f items :
  (forall x, fuelled (f x)) -> fuelled (parser.update_first f items).
Proof.
  intros Hf. destruct items as [|x l]; [discriminate|]. cbn.
  specialize (Hf x). destruct (f x); [discriminate|].
  cbn. intros E. injection E as ->. now apply Hf.
Qed.

Lemma fuelled_update_last f items :
  (forall x, fuelled (f x)) -> fuelled (parser.update_last f items).
Proof.
  intros Hf. unfold parser.update_last.
  destruct (last items) as [x|]; [|discriminate].
  specialize (Hf x). destruct (f x); [discriminate|].
  cbn. intros E. injection E as ->. now apply Hf.
Qed.

Lemma fuelled_on_items f x :
  (forall items, fuelled (f items)) -> fuelled (parser.on_items f x).
Proof.
  intros Hf. destruct x as [c ty items ds|c [|a s] ty ds|d]; try discriminate.
  cbn. specialize (Hf items). destruct (f items); [discriminate|].
  cbn. intros E. injection E as ->. now apply Hf.
Qed.

Lemma fuelled_retype_extend name xs x :
  fuelled (parser.retype_extend name xs x).
Proof. destruct x; discriminate. Qed.

Lemma fuelled_mapM {A B} (f : A -> result B) (l : list A) :
  (forall x, fuelled (f x)) -> fuelled (mapM f l).
Proof.
  intros Hf. induction l as [|x l IH]; [discriminate|].
  unfold mapM in *. cbn [foldr]. specialize (Hf x).
  destruct (f x); cbn [mbind result_bind].
  - destruct (foldr _ _ l); [discriminate|].
    cbn. intros E. injection E as ->. now apply IH.
  - intros E. injection E as ->. now apply Hf.
Qed.

Lemma fuelled_all_defects x : fuelled (parser.all_defects x).
Proof.
  induction x as [c ty items ds IH|c s ty ds|d] using token_induction;
    try discriminate.
  rewrite all_defects_node.
  assert (H : fuelled (mapM parser.all_defects items)).
  { clear -IH. induction IH as [|x l Hx _ IHl]; [discriminate|].
    unfold mapM in *. cbn [foldr].
    destruct (parser.all_defects x); cbn [mbind result_bind].
    - destruct (foldr _ _ l); [discriminate|].
      cbn. intros E. injection E as ->. now apply IHl.
    - intros E. injection E as ->. now apply Hx. }
  destruct (mapM parser.all_defects items); [discriminate|].
  cbn. intros E. injection E as ->. now apply H.
Qed.

Lemma fuelled_MailboxList_mailboxes items :
  fuelled (parser.MailboxList_mailboxes items).
Proof.
  unfold parser.MailboxList_mailboxes.
  induction items as [|x l IH]; [discriminate|]. cbn [foldr].
  destruct x; cbn; try discriminate;
    destruct (foldr _ _ l); cbn; try discriminate;
    intros E; injection E as ->; now apply IH.
Qed.

Lemma obs_local_part_loop_consumes (fuel : nat) (acc : parser.token)
    (value : str) :
  (length value < fuel)%nat ->
  consumes false value (parser.obs_local_part_loop fuel acc value).
Proof.
  revert acc value. induction fuel as [|fuel IH]; intros acc value Hf; [lia|].
  cbn [parser.obs_local_part_loop].
  destruct value as [|c v]; [apply consumes_ok|].
  destruct (parser.is_obs_local_part_char c); [|apply consumes_ok].
  destruct (c =? ch ".").
  - eapply (consumes_step false true).
    + eapply consumes_shorter;
        [eapply consumes_relax, get_word_consumes|].
      unfold slice_from, drop. simpl. lia.
    + intros t v1 _ Hlt. apply IH. simpl in *. lia.
  - destruct (c =? BACKSLASH).
    + eapply consumes_shorter; [apply IH|];
        unfold slice_from, drop; simpl in *; lia.
    + eapply (consumes_step false true); [apply get_word_consumes|].
      intros t v1 _ Hlt. apply IH. simpl in *. lia.
Qed.

Lemma get_local_part_consumes value :
  consumes true value (parser.get_local_part value).
Proof.
  unfold parser.get_local_part.
  eapply (consumes_step true false); [apply get_leader_consumes|].
  intros leader v1 _ Hle. cbn [andb negb].
  destruct (nonempty v1); cbn [negb]; [|discriminate].
  eapply (consumes_step true true).
  - apply try_except_consumes;
      [apply get_dot_atom_consumes|apply get_word_consumes].
  - intros t v2 _ Hlt. cbn [andb negb].
    apply consumes_then; [apply fuelled_prepend_leader|]. intros t' _.
    destruct v2 as [|c v2]; [apply consumes_ok|].
    destruct (parser.is_obs_local_part_char c); [|apply consumes_ok].
    apply consumes_then; [apply fuelled_token_type_of|]. intros ty _.
    apply consumes_then.
    { destruct (parser.tt_is ty "dot-atom"); [|discriminate].
      destruct t'; discriminate. }
    intros o _.
    eapply (consumes_step false false).
    + apply obs_local_part_loop_consumes. lia.
    + intros o' v3 _ Hle3. cbn [andb negb].
      destruct (nonempty (parser.defects_of o'));
        (apply consumes_then;
         [apply fuelled_on_items; intros; apply fuelled_update_first;
          discriminate|intros; apply consumes_ok]).
Qed.

Lemma leading_fws_consumes (l : parser.token) value :
  consumes false value (parser.leading_fws l value).
Proof.
  unfold parser.leading_fws.
  apply consumes_then; [apply fuelled_first|]. intros c _.
  destruct (inb c parser.WSP); [|apply consumes_ok].
  eapply (consumes_step false false);
    [eapply consumes_relax, get_fws_consumes|].
  intros; apply consumes_ok.
Qed.

Lemma get_domain_literal_consumes value :
  consumes false value (parser.get_domain_literal value).
Proof.
  unfold parser.get_domain_literal.
  apply consumes_then; [apply fuelled_first|]. intros c _.
  eapply (consumes_step false false).
  - destruct (inb c parser.CFWS_LEADER); [|apply consumes_ok].
    eapply (consumes_step false false);
      [eapply consumes_relax, get_cfws_consumes|].
    intros; apply consumes_ok.
  - intros l v1 _ Hle. cbn [andb negb].
    destruct v1 as [|c1 v1]; [discriminate|].
    destruct (c1 =? ch "["); cbn [negb]; [|discriminate].
    assert (Hd : (length (slice_from 1 (c1 :: v1)) <= length (c1 :: v1))%nat)
      by (unfold slice_from, drop; simpl; lia).
    eapply consumes_shorter; [|exact Hd].
    generalize (slice_from 1 (c1 :: v1)). clear. intros value.
    unfold parser._check_for_early_dl_end at 1.
    destruct (nonempty value); [|apply consumes_ok].
    eapply (consumes_step false false); [apply leading_fws_consumes|].
    intros l1 v2 _ Hle2. cbn [andb negb].
    eapply (consumes_step false false); [apply get_dtext_consumes|].
    intros t v3 _ Hle3. cbn [andb negb].
    unfold parser._check_for_early_dl_end at 1.
    destruct (nonempty v3); [|apply consumes_ok].
    eapply (consumes_step false false); [apply leading_fws_consumes|].
    intros l2 v4 _ Hle4. cbn [andb negb].
    unfold parser._check_for_early_dl_end at 1.
    destruct (nonempty v4); [|apply consumes_ok].
    apply consumes_then; [apply fuelled_first|]. intros c4 _.
    destruct (c4 =? ch "]"); cbn [negb]; [|discriminate].
    eapply consumes_shorter; [apply optional_cfws_consumes|].
    unfold slice_from. rewrite length_drop. lia.
Qed.

Lemma domain_loop_consumes (fuel : nat) (acc : parser.token) (value : str) :
  (length value < fuel)%nat ->
  consumes false value (parser.domain_loop fuel acc value).
Proof.
  revert acc value. induction fuel as [|fuel IH]; intros acc value Hf; [lia|].
  cbn [parser.domain_loop].
  destruct (starts_with_char value (ch ".")) eqn:Hd; [|apply consumes_ok].
  destruct value as [|c v]; [discriminate|].
  eapply (consumes_step false true).
  - eapply consumes_shorter; [eapply consumes_relax, get_atom_consumes|].
    unfold slice_from, drop. simpl. lia.
  - intros t v1 _ Hlt. apply IH. simpl in *. lia.
Qed.

Lemma get_domain_consumes value :
  consumes false value (parser.get_domain value).
Proof.
  unfold parser.get_domain.
  eapply (consumes_step false false); [apply get_leader_consumes|].
  intros leader v1 _ Hle. cbn [andb negb].
  destruct v1 as [|c v1]; [discriminate|].
  destruct (c =? ch "[").
  - eapply (consumes_step false false); [apply get_domain_literal_consumes|].
    intros t v2 _ Hle2. cbn [andb negb].
    apply consumes_then; [apply fuelled_prepend_leader|].
    intros; apply consumes_ok.
  - eapply (consumes_step false false).
    + apply try_except_consumes; eapply consumes_relax;
        [apply get_dot_atom_consumes|apply get_atom_consumes].
    + intros t v2 _ Hle2. cbn [andb negb].
      apply consumes_then; [apply fuelled_prepend_leader|]. intros t' _.
      destruct (starts_with_char v2 (ch ".")); [|apply consumes_ok].
      apply consumes_then; [apply fuelled_token_type_of|]. intros ty _.
      apply consumes_then.
      { destruct (parser.tt_is ty "dot-atom"); [|discriminate].
        destruct t'; discriminate. }
      intros d _. apply domain_loop_consumes. lia.
Qed.

Lemma get_addr_spec_consumes value :
  consumes true value (parser.get_addr_spec value).
Proof.
  unfold parser.get_addr_spec.
  eapply (consumes_step true true); [apply get_local_part_consumes|].
  intros t v1 _ Hlt. cbn [andb negb].
  destruct (starts_with_char v1 (ch "@")); cbn [negb]; [|apply consumes_ok].
  eapply (consumes_step false false).
  - eapply consumes_shorter; [apply get_domain_consumes|].
    unfold slice_from. rewrite length_drop. lia.
  - intros; apply consumes_ok.
Qed.

Lemma obs_route_lead_loop_consumes (fuel : nat) (acc : parser.token)
    (value : str) :
  (length value < fuel)%nat ->
  consumes false value (parser.obs_route_lead_loop fuel acc value).
Proof.
  revert acc value. induction fuel as [|fuel IH]; intros acc value Hf; [lia|].
  cbn [parser.obs_route_lead_loop].
  destruct value as [|c v]; [apply consumes_ok|].
  destruct (inb c parser.CFWS_LEADER) eqn:Hl.
  - eapply (consumes_step false true).
    + pose proof (get_cfws_consumes (c :: v)) as H. cbn [starts_in] in H.
      now rewrite Hl in H.
    + intros t v1 _ Hlt. apply IH. simpl in *. lia.
  - destruct (c =? ch ","); [|apply consumes_ok].
    eapply consumes_shorter; [apply IH|];
      unfold slice_from, drop; simpl in *; lia.
Qed.

Lemma obs_route_tail_loop_consumes (fuel : nat) (acc : parser.token)
    (value : str) :
  (length value < fuel)%nat ->
  consumes false value (parser.obs_route_tail_loop fuel acc value).
Proof.
  revert acc value. induction fuel as [|fuel IH]; intros acc value Hf; [lia|].
  cbn [parser.obs_route_tail_loop].
  destruct (starts_with_char value (ch ",")) eqn:Hc; [|apply consumes_ok].
  destruct value as [|c v]; [discriminate|].
  assert (Hd : (length (slice_from 1 (c :: v)) < length (c :: v))%nat)
    by (unfold slice_from, drop; simpl; lia).
  eapply consumes_shorter with (v' := slice_from 1 (c :: v)); [|lia].
  revert Hd. generalize (slice_from 1 (c :: v)). intros value Hd.
  destruct (nonempty value); cbn [negb]; [|apply consumes_ok].
  eapply (consumes_step false false); [apply optional_cfws_consumes|].
  intros l v1 _ Hle. cbn [andb negb].
  apply consumes_then; [apply fuelled_first|]. intros c1 _.
  destruct (c1 =? ch "@").
  - eapply (consumes_step false false).
    + eapply consumes_shorter; [apply get_domain_consumes|].
      unfold slice_from. rewrite length_drop. lia.
    + intros t v2 _ Hle2. apply IH. simpl in *. lia.
  - apply IH. simpl in *. lia.
Qed.

Lemma get_obs_route_consumes value :
  consumes false value (parser.get_obs_route value).
Proof.
  unfold parser.get_obs_route.
  eapply (consumes_step false false);
    [apply obs_route_lead_loop_consumes; lia|].
  intros l v1 _ Hle. cbn [andb negb].
  destruct (starts_with_char v1 (ch "@")); cbn [negb]; [|discriminate].
  eapply (consumes_step false false).
  - eapply consumes_shorter; [apply get_domain_consumes|].
    unfold slice_from. rewrite length_drop. lia.
  - intros t v2 _ Hle2. cbn [andb negb].
    eapply (consumes_step false false);
      [apply obs_route_tail_loop_consumes; lia|].
    intros l2 v3 _ Hle3. cbn [andb negb].
    destruct v3 as [|c v3]; [discriminate|].
    destruct (c =? ch ":"); cbn [negb]; [|discriminate].
    apply consumes_drop1.
Qed.

Lemma get_angle_addr_consumes value :
  consumes true value (parser.get_angle_addr value).
Proof.
  unfold parser.get_angle_addr.
  apply consumes_then; [apply fuelled_first|]. intros c _.
  eapply (consumes_step true false).
  - destruct (inb c parser.CFWS_LEADER); [|apply consumes_ok].
    eapply (consumes_step false false);
      [eapply consumes_relax, get_cfws_consumes|].
    intros; apply consumes_ok.
  - intros l v1 _ Hle. cbn [andb negb].
    destruct (starts_with_char v1 (ch "<")) eqn:Hlt; cbn [negb];
      [|discriminate].
    destruct v1 as [|c1 v1]; [discriminate|].
    assert (Hd : (length (slice_from 1 (c1 :: v1)) < length (c1 :: v1))%nat)
      by (unfold slice_from, drop; simpl; lia).
    eapply consumes_shorter with (v' := slice_from 1 (c1 :: v1)); [|exact Hd].
    generalize (slice_from 1 (c1 :: v1)). clear. intros value.
    eapply (consumes_step false false).
    + pose proof (get_addr_spec_consumes value) as Ha.
      apply consumes_relax in Ha.
      destruct (parser.get_addr_spec value) as [[t w]|e]; [exact Ha|].
      destruct e; try exact Ha.
      eapply (consumes_step false false); [apply get_obs_route_consumes|].
      intros r v2 _ Hle2. cbn [andb negb].
      eapply (consumes_step false false);
        [eapply consumes_relax, get_addr_spec_consumes|].
      intros; apply consumes_ok.
    + intros [a t] v2 _ Hle2. cbn [andb negb].
      destruct (starts_with_char v2 (ch ">")).
      * eapply consumes_shorter; [apply optional_cfws_consumes|].
        unfold slice_from. rewrite length_drop. lia.
      * apply optional_cfws_consumes.
Qed.

Lemma get_display_name_consumes value :
  consumes (starts_outside value parser.PHRASE_ENDS) value
    (parser.get_display_name value).
Proof.
  unfold parser.get_display_name.
  pose proof (get_phrase_consumes value) as H.
  destruct (parser.get_phrase value) as [[t v]|e]; [|exact H].
  exact H.
Qed.

Lemma get_name_addr_consumes value :
  consumes true value (parser.get_name_addr value).
Proof.
  unfold parser.get_name_addr.
  apply consumes_then; [apply fuelled_first|]. intros c _.
  eapply (consumes_step true false).
  - destruct (inb c parser.CFWS_LEADER); [|apply consumes_ok].
    eapply (consumes_step false false);
      [eapply consumes_relax, get_cfws_consumes|].
    intros l v1 _ _. destruct (nonempty v1); [apply consumes_ok|discriminate].
  - intros leader v1 _ Hle. cbn [andb negb].
    apply consumes_then; [apply fuelled_first|]. intros c1 _.
    eapply (consumes_step true false).
    + destruct (c1 =? ch "<"); cbn [negb]; [apply consumes_ok|].
      destruct (inb c1 parser.PHRASE_ENDS); [discriminate|].
      eapply (consumes_step false false);
        [eapply consumes_relax, get_display_name_consumes|].
      intros t v2 _ _. destruct (nonempty v2); cbn [negb]; [|discriminate].
      apply consumes_then; [|intros; apply consumes_ok].
      destruct leader; [|discriminate].
      apply fuelled_on_items. intros. apply fuelled_update_first.
      intros. apply fuelled_prepend.
    + intros [n l] v2 _ Hle2. cbn [andb negb].
      eapply (consumes_step true true); [apply get_angle_addr_consumes|].
      intros t v3 _ _.
      apply consumes_then; [apply fuelled_prepend_leader|].
      intros; apply consumes_ok.
Qed.

Lemma get_mailbox_consumes value :
  consumes true value (parser.get_mailbox value).
Proof.
  unfold parser.get_mailbox.
  eapply (consumes_step true true).
  - apply try_except_consumes;
      [apply get_name_addr_consumes|apply get_addr_spec_consumes].
  - intros t v1 _ _. cbn [andb negb].
    apply consumes_then; [apply fuelled_all_defects|].
    intros; apply consumes_ok.
Qed.

Lemma invalid_mailbox_loop_consumes (fuel : nat) (endchars : str)
    (acc : parser.token) (value : str) :
  (length value < fuel)%nat ->
  consumes (starts_outside value endchars) value
    (parser.invalid_mailbox_loop fuel endchars acc value).
Proof.
  revert acc value. induction fuel as [|fuel IH]; intros acc value Hf; [lia|].
  cbn [parser.invalid_mailbox_loop].
  destruct value as [|c v]; [apply consumes_ok|]. cbn [starts_outside].
  destruct (inb c endchars); cbn [negb]; [apply consumes_ok|].
  destruct (inb c parser.PHRASE_ENDS) eqn:Hp.
  - eapply consumes_shorter; [eapply consumes_relax, IH|];
      unfold slice_from, drop; simpl in *; lia.
  - eapply (consumes_step true true).
    + pose proof (get_phrase_consumes (c :: v)) as H.
      cbn [starts_outside] in H. now rewrite Hp in H.
    + intros t v1 _ Hlt. eapply consumes_relax, IH. simpl in *. lia.
Qed.

Lemma get_invalid_mailbox_consumes value endchars :
  consumes (starts_outside value endchars) value
    (parser.get_invalid_mailbox value endchars).
Proof. apply invalid_mailbox_loop_consumes. lia. Qed.

Lemma consumes_advances {T} value (r : result (T * str)) :
  consumes true value r -> advances value r.
Proof. destruct r as [[t v]|e]; cbn; auto. Qed.

Lemma recover_entry_advances endchars wrap m1 m2 m3 l value :
  (starts_in value endchars = true -> starts_with_char value (ch ",") = true) ->
  advances value (parser.recover_entry endchars wrap m1 m2 m3 l value).
Proof.
  intros Hend. unfold parser.recover_entry.
  destruct value as [|c v]; [discriminate|]. cbn [first mbind result_bind].
  destruct (inb c parser.CFWS_LEADER) eqn:Hl.
  - apply consumes_advances.
    eapply (consumes_step true true).
    + pose proof (get_cfws_consumes (c :: v)) as H. cbn [starts_in] in H.
      now rewrite Hl in H.
    + intros leader v1 _ Hlt. cbn [andb negb].
      destruct (negb (nonempty v1) || starts_in v1 endchars);
        [apply consumes_ok|].
      eapply (consumes_step false false);
        [eapply consumes_relax, get_invalid_mailbox_consumes|].
      intros t v2 _ _.
      apply consumes_then; [apply fuelled_prepend|].
      intros; apply consumes_ok.
  - destruct (c =? ch ",") eqn:Hc.
    + cbn. right. split; [reflexivity|exact Hc].
    + apply consumes_advances.
      eapply (consumes_step true true).
      * pose proof (get_invalid_mailbox_consumes (c :: v) endchars) as H.
        cbn [starts_outside] in H.
        destruct (inb c endchars) eqn:He; [|exact H].
        cbn [starts_in starts_with_char] in Hend.
        rewrite He in Hend. specialize (Hend eq_refl). congruence.
      * intros; apply consumes_ok.
Qed.

Lemma advances_step {T T'} (s : bool) (value : str) (m : result (T * str))
    (k : T * str -> result (T' * str)) :
  advances value m ->
  (forall t v, m = Ok (t, v) ->
     (length v < length value)%nat
     \/ (v = value /\ starts_with_char value (ch ",") = true) ->
     consumes s value (k (t, v))) ->
  consumes s value (m ≫= k).
Proof.
  intros Hm Hk. destruct m as [[t v]|e]; cbn [mbind result_bind].
  - apply Hk; [reflexivity|exact Hm].
  - exact Hm.
Qed.

Lemma entry_advances {T} (value : str) (m : result (T * str))
    (f : T -> T) (handler : result (T * str)) :
  consumes true value m -> advances value handler ->
  advances value
    match m with
    | Ok (token, value) => Ok (f token, value)
    | Raise HeaderParseError => handler
    | Raise e => Raise e
    end.
Proof.
  intros Hm Hh. destruct m as [[t v]|e].
  - left. exact Hm.
  - destruct e; try exact Hm. exact Hh.
Qed.

Lemma fuelled_last_item {A} (l : list A) :
  fuelled match last l with Some x => Ok x | None => Raise IndexError end.
Proof. destruct (last l); discriminate. Qed.

Lemma inb_comma_semi c :
  inb c (u ",;") = (c =? ch ",") || (c =? ch ";").
Proof.
  change (u ",;") with [ch ","; ch ";"]. unfold inb. cbn [existsb].
  now rewrite orb_false_r.
Qed.

Lemma inb_comma c : inb c (u ",") = (c =? ch ",").
Proof.
  change (u ",") with [ch ","]. unfold inb. cbn [existsb].
  now rewrite orb_false_r.
Qed.

Lemma mailbox_list_loop_consumes (fuel : nat) (acc : parser.token)
    (value : str) :
  (length value < fuel)%nat ->
  consumes false value (parser.mailbox_list_loop fuel acc value).
Proof.
  revert acc value. induction fuel as [|fuel IH]; intros acc value Hf; [lia|].
  cbn [parser.mailbox_list_loop].
  destruct (nonempty value && negb (starts_with_char value (ch ";"))) eqn:Hc;
    [|apply consumes_ok].
  apply andb_prop in Hc as [Hne Hsemi].
  eapply advances_step.
  - apply entry_advances; [apply get_mailbox_consumes|].
    apply recover_entry_advances.
    destruct value as [|c v]; [discriminate|].
    cbn [starts_in starts_with_char] in *. rewrite inb_comma_semi.
    destruct (c =? ch ";"); [discriminate|]. now rewrite orb_false_r.
  - intros l1 v1 _ H1.
    assert (Hsecond :
      forall (m : result (parser.token * str)),
        m = (if nonempty v1 && negb (starts_in v1 (u ",;")) then
               _ ← match last (parser.items_of l1) with
                   | Some x => Ok x
                   | None => Raise IndexError
                   end;
               '(token, value) ← parser.get_invalid_mailbox v1 (u ",;");
               mailbox_list ←
                 parser.on_items
                   (parser.update_last
                      (parser.retype_extend "invalid-mailbox"
                         (parser.items_of token))) l1;
               Ok (parser.add_defect mailbox_list
                     (InvalidHeaderDefect "invalid mailbox in mailbox-list"),
                   value)
             else Ok (l1, v1)) ->
        advances value m).
    { intros m ->.
      destruct (nonempty v1 && negb (starts_in v1 (u ",;"))) eqn:Hc2.
      - assert (Hlt : (length v1 < length value)%nat).
        { destruct H1 as [Hlt|[-> Hcomma]]; [exact Hlt|].
          apply andb_prop in Hc2 as [_ Hc2].
          destruct value as [|c v]; [discriminate|].
          cbn [starts_in starts_with_char] in *.
          rewrite inb_comma_semi, Hcomma in Hc2. discriminate. }
        apply consumes_advances.
        apply consumes_then; [apply fuelled_last_item|]. intros _ _.
        eapply consumes_shorter; [|exact Hlt].
        eapply (consumes_step false false);
          [eapply consumes_relax, get_invalid_mailbox_consumes|].
        intros t v2 _ _.
        apply consumes_then; [|intros; apply consumes_ok].
        apply fuelled_on_items. intros. apply fuelled_update_last.
        intros. apply fuelled_retype_extend.
      - exact H1. }
    eapply advances_step; [apply Hsecond; reflexivity|].
    intros l2 v2 _ H2.
    destruct (starts_with_char v2 (ch ",")) eqn:Hcomma.
    + assert (Hd : (length (slice_from 1 v2) < length value)%nat).
      { destruct v2 as [|c2 w2]; [discriminate|].
        unfold slice_from, drop.
        destruct H2 as [H2|[E2 _]]; [|rewrite <- E2]; simpl in *; lia. }
      eapply consumes_shorter; [apply IH|]; lia.
    + destruct H2 as [H2|[-> H2]]; [|congruence].
      eapply consumes_shorter; [apply IH|]; simpl in *; lia.
Qed.

Lemma get_mailbox_list_consumes value :
  consumes false value (parser.get_mailbox_list value).
Proof. apply mailbox_list_loop_consumes. lia. Qed.

Lemma get_group_list_consumes value :
  consumes false value (parser.get_group_list value).
Proof.
  unfold parser.get_group_list.
  destruct (nonempty value); cbn [negb]; [|apply consumes_ok].
  eapply (consumes_step false false).
  - destruct (starts_in value parser.CFWS_LEADER).
    + eapply (consumes_step false false);
        [eapply consumes_relax, get_cfws_consumes|].
      intros; apply consumes_ok.
    + apply consumes_ok.
  - intros [l|] v1 _ _.
    + destruct v1 as [|c v1]; [apply consumes_ok|].
      destruct (c =? ch ";"); [apply consumes_ok|].
      eapply (consumes_step false false); [apply get_mailbox_list_consumes|].
      intros t v _ _.
      apply consumes_then; [apply fuelled_MailboxList_mailboxes|].
      intros mbs _. destruct mbs as [|m mbs]; [apply consumes_ok|].
      apply consumes_then; [apply fuelled_prepend|].
      intros; apply consumes_ok.
    + eapply (consumes_step false false); [apply get_mailbox_list_consumes|].
      intros t v _ _.
      apply consumes_then; [apply fuelled_MailboxList_mailboxes|].
      intros mbs _. destruct mbs as [|m mbs]; apply consumes_ok.
Qed.

Lemma get_group_consumes value :
  consumes true value (parser.get_group value).
Proof.
  unfold parser.get_group.
  eapply (consumes_step true false);
    [eapply consumes_relax, get_display_name_consumes|].
  intros t v1 _ _. cbn [andb negb].
  destruct (starts_with_char v1 (ch ":")) eqn:Hc; cbn [negb]; [|discriminate].
  destruct v1 as [|c v1]; [discriminate|].
  assert (Hd : (length (slice_from 1 (c :: v1)) < length (c :: v1))%nat)
    by (unfold slice_from, drop; simpl; lia).
  eapply consumes_shorter with (v' := slice_from 1 (c :: v1)); [|exact Hd].
  generalize (slice_from 1 (c :: v1)). clear. intros value.
  destruct (starts_with_char value (ch ";")).
  - eapply consumes_shorter; [apply consumes_ok|].
    unfold slice_from. rewrite length_drop. lia.
  - eapply (consumes_step false false); [apply get_group_list_consumes|].
    intros g v2 _ _. cbn [andb negb].
    apply consumes_then; [apply fuelled_first|]. intros c _.
    destruct (c =? ch ";"); cbn [negb]; [|discriminate].
    eapply consumes_shorter; [apply optional_cfws_consumes|].
    unfold slice_from. rewrite length_drop. lia.
Qed.

Lemma get_address_consumes value :
  consumes true value (parser.get_address value).
Proof.
  unfold parser.get_address.
  eapply (consumes_step true true).
  - apply try_except_consumes;
      [apply get_group_consumes|apply get_mailbox_consumes].
  - intros; apply consumes_ok.
Qed.

Lemma address_list_step_consumes (address_list : parser.token) (value : str) :
  nonempty value = true ->
  consumes true value (parser.address_list_step address_list value).
Proof.
  intros Hne. unfold parser.address_list_step.
  eapply advances_step.
  - apply entry_advances; [apply get_address_consumes|].
    apply recover_entry_advances.
    destruct value as [|c v]; [discriminate|].
    cbn [starts_in starts_with_char]. now rewrite inb_comma.
  - intros l1 v1 _ H1.
    match goal with |- consumes _ _ (?m ≫= _) =>
      assert (H2 : consumes false value m); [|destruct m as [[l2 v2]|e]]
    end; cbn [mbind result_bind].
    + destruct (nonempty v1 && negb (starts_with_char v1 (ch ","))) eqn:Hc2.
      * assert (Hlt : (length v1 < length value)%nat).
        { destruct H1 as [Hlt|[-> Hcomma]]; [exact Hlt|].
          apply andb_prop in Hc2 as [_ Hc2]. rewrite Hcomma in Hc2.
          discriminate. }
        apply consumes_then.
        { destruct (last (parser.items_of l1)); [|discriminate].
          apply fuelled_on_items. intros. apply fuelled_update_first.
          discriminate. }
        intros _ _.
        eapply consumes_shorter; [|apply Nat.lt_le_incl, Hlt].
        eapply (consumes_step false false);
          [eapply consumes_relax, get_invalid_mailbox_consumes|].
        intros t v2 _ _.
        apply consumes_then; [|intros; apply consumes_ok].
        apply fuelled_on_items. intros. apply fuelled_update_last.
        intros. apply fuelled_on_items. intros. apply fuelled_update_first.
        intros. apply fuelled_retype_extend.
      * eapply consumes_shorter; [apply consumes_ok|].
        destruct H1 as [H1|[-> _]]; lia.
    + destruct v2 as [|c2 v2]; cbn [nonempty].
      * destruct value; [discriminate|]. cbn. lia.
      * cbn in H2 |- *. unfold drop. lia.
    + exact H2.
Qed.

Lemma address_list_loop_consumes (fuel : nat) (address_list : parser.token)
    (value : str) :
  (length value < fuel)%nat ->
  consumes false value (parser.address_list_loop fuel address_list value).
Proof.
  revert address_list value.
  induction fuel as [|fuel IH]; intros acc value Hf; [lia|].
  cbn [parser.address_list_loop].
  destruct (nonempty value) eqn:Hne; [|apply consumes_ok].
  eapply (consumes_step false true);
    [apply address_list_step_consumes, Hne|].
  intros l v _ Hlt. apply IH. lia.
Qed.

Lemma address_list_loop_rest (fuel : nat) (address_list : parser.token)
    (value : str) t rest :
  parser.address_list_loop fuel address_list value = Ok (t, rest) ->
  rest = [].
Proof.
  revert address_list value.
  induction fuel as [|fuel IH]; intros acc value; [discriminate|].
  cbn [parser.address_list_loop].
  destruct value as [|c v]; cbn [nonempty]; [congruence|].
  destruct (parser.address_list_step acc (c :: v)) as [[l w]|e];
    cbn [mbind result_bind]; [apply IH|discriminate].
Qed.

Theorem get_address_list_fuelled (value : str) :
  parser.get_address_list value <> Raise OutOfFuel.
Proof.
  pose proof (address_list_loop_consumes (S (length value))
                (parser.new parser.AddressList) value (Nat.lt_succ_diag_r _))
    as H.
  unfold parser.get_address_list.
  destruct (parser.address_list_loop _ _ value) as [[t v]|e];
    [discriminate|]. cbn in H. congruence.
Qed.

(** ** The entry points *)

(** C2.  The entry points raise: a group that the input ends before its
    semicolon has its defect recorded and then [value[0]] read on the empty
    rest ([IndexError]), from [get_address_list] and from [make_header]
    alike; an encoded word with a transfer encoding other than Q and B
    raises [KeyError] out of [get_unstructured], whatever the codecs. *)
Theorem entry_points_raise :
  parser.get_address_list (u "a:") = Raise IndexError
  /\ parser.get_address_list (u "undisclosed-recipients:") = Raise IndexError
  /\ policy.make_header policy.module_heap example_env policy.default
       (u "to") (u "a:") None = Raise IndexError
  /\ (forall codecs,
         parser.get_unstructured codecs (u "=?us-ascii?x?foo?=") = Raise KeyError).
Proof.
  split; [vm_compute; reflexivity|].
  split; [vm_compute; reflexivity|].
  split; [vm_compute; reflexivity|].
  intros codecs. reflexivity.
Qed.

(** ** Fault isolation in the address list *)





(** ** Further properties of the codec *)

Lemma _q_byte_subber_plain (l : bytes) :
  forallb (fun c => negb (Byte.to_N c =? 61)) l = true ->
  encoded_words._q_byte_subber l = l.
Proof.
  induction l as [|c l IH]; [reflexivity|]. cbn [forallb]. intros H.
  apply andb_prop in H as [Hc Hl]. apply negb_true_iff in Hc.
  cbn [encoded_words._q_byte_subber]. rewrite Hc.
  destruct l as [|h [|l0 l']]; [reflexivity| |]; now rewrite (IH Hl).
Qed.

(** X1.  [decode_q] on bytes that hold no [=]: nothing is taken for an
    escape, every underscore becomes a space, every other byte is kept as
    it is, and the defect list is empty. *)
Theorem decode_q_without_escapes (encoded : bytes) :
  forallb (fun c => negb (Byte.to_N c =? 61)) encoded = true ->
  encoded_words.decode_q encoded
  = (map (fun c => if Byte.to_N c =? 95 then x20 else c) encoded, []).
Proof.
  intros H. unfold encoded_words.decode_q. f_equal.
  apply _q_byte_subber_plain. rewrite forallb_forall in *.
  intros c Hc. apply in_map_iff in Hc as (c0 & <- & Hc0).
  specialize (H c0 Hc0). destruct (Byte.to_N c0 =? 95); [reflexivity|exact H].
Qed.

Lemma decode_q_without_escapes_witness :
  encoded_words.decode_q (b "a_b") = (b "a b", []).
Proof. apply (decode_q_without_escapes (b "a_b")). reflexivity. Defined.

Lemma split_char_length (c : uchar) (s : str) :
  length (split_char c s) = S (count_char c s).
Proof.
  unfold count_char, str, uchar in *.
  induction s as [|x s IH]; [reflexivity|]. cbn [split_char].
  destruct (N.eqb_spec x c) as [->|Hne].
  - rewrite filter_cons_True by reflexivity. cbn [length]. now rewrite IH.
  - rewrite filter_cons_False by exact Hne.
    destruct (split_char c s) as [|w ws]; [discriminate|]. exact IH.
Qed.

Lemma a2b_base64_loop_raises (data : bytes) (qp lc lb : N) (out : bytes)
    (e : exn) :
  encoded_words.a2b_base64_loop data qp lc lb out = Raise e ->
  e = binascii_Error.
Proof.
  revert qp lc lb out. induction data as [|c data IH]; intros qp lc lb out.
  - cbn. destruct (lb =? 0); [discriminate|congruence].
  - cbn [encoded_words.a2b_base64_loop].
    repeat match goal with
           | |- context [if ?b' then _ else _] => destruct b'
           | |- context [match encoded_words.table_a2b_base64 c with
                         | _ => _ end] =>
               destruct (encoded_words.table_a2b_base64 c)
           end; try discriminate; apply IH.
Qed.

Lemma b64decode_raises (s : bytes) (validate : bool) (e : exn) :
  encoded_words.b64decode s validate = Raise e -> e = binascii_Error.
Proof.
  unfold encoded_words.b64decode, encoded_words.a2b_base64.
  destruct (validate && negb (encoded_words.b64_fullmatch s));
    [congruence|apply a2b_base64_loop_raises].
Qed.

Lemma decode_b_retry_raises (encoded : bytes) (is_ : list nat)
    (defects : list defect) (e : exn) :
  encoded_words.decode_b_retry encoded is_ defects = Raise e ->
  e = AssertionError.
Proof.
  revert defects. induction is_ as [|i is_ IH]; intros defects.
  - cbn. congruence.
  - cbn [encoded_words.decode_b_retry].
    destruct (encoded_words.b64decode _ false) as [d|e0] eqn:E;
      [discriminate|].
    apply b64decode_raises in E. subst e0. apply IH.
Qed.

Lemma decode_b_only_assertion (encoded : bytes) (e : exn) :
  encoded_words.decode_b encoded = Raise e -> e = AssertionError.
Proof.
  unfold encoded_words.decode_b.
  destruct (negb (Nat.eqb (length encoded mod 4) 0)).
  - destruct (encoded_words.b64decode _ true) as [d|e0] eqn:E;
      [discriminate|].
    apply b64decode_raises in E. subst e0. apply decode_b_retry_raises.
  - destruct (encoded_words.b64decode _ true) as [d|e0] eqn:E;
      [discriminate|].
    apply b64decode_raises in E. subst e0. apply decode_b_retry_raises.
Qed.

Lemma encode_ascii_surrogateescape_raises (s : str) (e : exn) :
  encoded_words.encode_ascii_surrogateescape s = Raise e ->
  e = UnicodeEncodeError.
Proof.
  induction s as [|c s IH]; [discriminate|].
  cbn [encoded_words.encode_ascii_surrogateescape].
  destruct (c <? 128).
  - destruct (encoded_words.encode_ascii_surrogateescape s);
      cbn [mbind result_bind]; [discriminate|]. intros E. apply IH.
    congruence.
  - destruct ((56448 <=? c) && (c <=? 56575)); [|congruence].
    destruct (encoded_words.encode_ascii_surrogateescape s);
      cbn [mbind result_bind]; [discriminate|]. intros E. apply IH.
    congruence.
Qed.

(** X2.  The outcomes of [decode] when the codec registry knows the
    charset of the word.  It returns only on a text with exactly four
    question marks; it raises [ValueError] (the unpacking of
    [ew.split('?')]) only on a text with another number of them; and on a
    text with four, the only exceptions are [UnicodeEncodeError] (a payload
    that is not ASCII), [KeyError] (a transfer encoding other than q and
    b), [AssertionError] (from [decode_b]) and [UnicodeError] (from a codec
    that raises with the error handler [replace] too, which nothing
    catches). *)
Theorem decode_exceptions (codecs : encoded_words.Codecs) (ew : str) :
  charset_known codecs ew = true ->
  match encoded_words.decode codecs ew with
  | Ok _ => count_char (ch "?") ew = 4%nat
  | Raise ValueError => count_char (ch "?") ew <> 4%nat
  | Raise e =>
      count_char (ch "?") ew = 4%nat
      /\ (e = UnicodeEncodeError \/ e = KeyError \/ e = AssertionError
          \/ e = UnicodeError)
  end.
Proof.
  unfold encoded_words.decode, charset_known.
  pose proof (split_char_length (ch "?") ew) as Hlen.
  destruct (split_char (ch "?") ew) as [|f0 [|f1 [|f2 [|f3 [|f4 [|f5 l]]]]]];
    cbn [length] in Hlen;
    try (intros _ E; rewrite E in Hlen; discriminate).
  intros Hknown.
  assert (H4 : count_char (ch "?") ew = 4%nat) by congruence.
  destruct (codecs f1) as [codec|]; [clear Hknown|discriminate].
  destruct (encoded_words.encode_ascii_surrogateescape f3) as [bs|e] eqn:Eb;
    cbn [mbind result_bind].
  2:{ apply encode_ascii_surrogateescape_raises in Eb. subst e. auto. }
  unfold encoded_words.cte_decoders.
  destruct (str_eqb (lower f2) "q").
  - cbn [mbind result_bind]. destruct (encoded_words.decode_q bs) as [raw ds].
    destruct (encoded_words.decode_strict codec raw); [exact H4|].
    destruct (encoded_words.decode_replace codec raw); [exact H4|auto 6].
  - destruct (str_eqb (lower f2) "b"); [|auto 6].
    destruct (encoded_words.decode_b bs) as [[raw ds]|e] eqn:Ed;
      cbn [mbind result_bind].
    + destruct (encoded_words.decode_strict codec raw); [exact H4|].
      destruct (encoded_words.decode_replace codec raw); [exact H4|auto 6].
    + apply decode_b_only_assertion in Ed. subst e. auto 6.
Qed.

(** The instance at the codec [undefined], which raises in both modes. *)
Lemma decode_exceptions_witness :
  count_char (ch "?") (u "=?undefined?q?foo?=") = 4%nat
  /\ (UnicodeError = UnicodeEncodeError \/ UnicodeError = KeyError
      \/ UnicodeError = AssertionError \/ UnicodeError = UnicodeError).
Proof.
  exact (decode_exceptions (fun _ => Some encoded_words.undefined_codec)
           (u "=?undefined?q?foo?=") eq_refl).
Defined.

Lemma is_base64_char_spec (c : byte) :
  is_base64_char c = true ->
  exists v, encoded_words.table_a2b_base64 c = Some v
            /\ (127 <? Byte.to_N c) = false
            /\ (Byte.to_N c =? 13) = false
            /\ (Byte.to_N c =? 10) = false
            /\ (Byte.to_N c =? 32) = false
            /\ (Byte.to_N c =? encoded_words.BASE64_PAD) = false.
Proof.
  unfold is_base64_char. intros H. apply bool_decide_eq_true in H as [v Hv].
  exists v. split; [exact Hv|]. revert Hv.
  destruct c; vm_compute; intros Hv; try discriminate; repeat split.
Qed.

Lemma a2b_base64_loop_step (c : byte) (rest : bytes) (p : nat) (lc : N)
    (out : bytes) :
  is_base64_char c = true -> (p < 4)%nat ->
  exists lc' out',
    encoded_words.a2b_base64_loop (c :: rest) (N.of_nat p) lc (leftbits_at p) out
    = encoded_words.a2b_base64_loop rest (N.of_nat (S p mod 4)) lc'
        (leftbits_at (S p mod 4)) out'
    /\ (8 * length out' + N.to_nat (leftbits_at (S p mod 4))
        = 8 * length out + N.to_nat (leftbits_at p) + 6)%nat.
Proof.
  intros Hc Hp.
  destruct (is_base64_char_spec c Hc) as (v & Hv & H127 & H13 & H10 & H32 & Hpad).
  cbn [encoded_words.a2b_base64_loop]. rewrite H127, H13, H10, H32, Hpad, Hv.
  cbn [orb].
  destruct p as [|[|[|[|p]]]]; [| | | |lia].
  - eexists _, _. split; [reflexivity|]. simpl. lia.
  - eexists _, _. split; [reflexivity|]. rewrite length_app. simpl. lia.
  - eexists _, _. split; [reflexivity|]. rewrite length_app. simpl. lia.
  - eexists _, _. split; [reflexivity|]. rewrite length_app. simpl. lia.
Qed.

Lemma a2b_base64_loop_alphabet (data tail : bytes) :
  forall (p : nat) (lc : N) (out : bytes),
    forallb is_base64_char data = true -> (p < 4)%nat ->
    exists lc' out',
      encoded_words.a2b_base64_loop (data ++ tail) (N.of_nat p) lc
        (leftbits_at p) out
      = encoded_words.a2b_base64_loop tail
          (N.of_nat ((p + length data) mod 4)) lc'
          (leftbits_at ((p + length data) mod 4)) out'
      /\ (8 * length out' + N.to_nat (leftbits_at ((p + length data) mod 4))
          = 8 * length out + N.to_nat (leftbits_at p) + 6 * length data)%nat.
Proof.
  induction data as [|c data IH]; intros p lc out Hall Hp.
  - exists lc, out. cbn [app length]. rewrite Nat.add_0_r, Nat.mod_small by lia.
    split; [reflexivity|lia].
  - cbn [forallb] in Hall. apply andb_prop in Hall as [Hc Hall].
    destruct (a2b_base64_loop_step c (data ++ tail) p lc out Hc Hp)
      as (lc1 & out1 & E1 & B1).
    assert (Hp1 : (S p mod 4 < 4)%nat) by (apply Nat.mod_upper_bound; lia).
    destruct (IH (S p mod 4)%nat lc1 out1 Hall Hp1) as (lc2 & out2 & E2 & B2).
    exists lc2, out2. cbn [app]. rewrite E1, E2.
    assert (Hmod : ((S p mod 4 + length data) mod 4
                    = (p + length (c :: data)) mod 4)%nat).
    { cbn [length]. rewrite Nat.Div0.add_mod_idemp_l. f_equal. lia. }
    rewrite Hmod in *. split; [reflexivity|]. cbn [length] in *. lia.
Qed.

Lemma b64_fullmatch_alphabet (data tail : bytes) :
  forallb is_base64_char data = true ->
  encoded_words.b64_fullmatch (data ++ tail) = encoded_words.b64_fullmatch tail.
Proof.
  induction data as [|c data IH]; [reflexivity|]. cbn [forallb].
  intros H. apply andb_prop in H as [Hc Hall].
  cbn [app encoded_words.b64_fullmatch].
  unfold is_base64_char in Hc. rewrite Hc. auto.
Qed.

Lemma a2b_base64_alphabet (encoded tail : bytes) :
  forallb is_base64_char encoded = true ->
  exists lc out,
    encoded_words.a2b_base64 (encoded ++ tail)
    = encoded_words.a2b_base64_loop tail
        (N.of_nat (length encoded mod 4)) lc
        (leftbits_at (length encoded mod 4)) out
    /\ (8 * length out + N.to_nat (leftbits_at (length encoded mod 4))
        = 6 * length encoded)%nat.
Proof.
  intros Hall.
  destruct (a2b_base64_loop_alphabet encoded tail 0 0 [] Hall)
    as (lc & out & E & B); [lia|].
  exists lc, out. cbn [Nat.add] in E, B. split; [exact E|].
  change (N.to_nat (leftbits_at 0)) with 0%nat in B.
  change (length (@nil byte)) with 0%nat in B. unfold bytes in *. lia.
Qed.

(** X3.  [decode_b] on bytes of the base64 alphabet, by the length modulo
    four: whole quads decode without defect; one character more than whole
    quads raises [AssertionError]; two or three more decode with the one
    defect [InvalidBase64PaddingDefect].  Whenever it returns, the result
    has [3 * len(encoded) // 4] bytes. *)
Theorem decode_b_on_alphabet (encoded : bytes) :
  forallb is_base64_char encoded = true ->
  match (length encoded mod 4)%nat with
  | 0%nat =>
      exists decoded,
        encoded_words.decode_b encoded = Ok (decoded, [])
        /\ length decoded = (3 * length encoded / 4)%nat
  | 1%nat => encoded_words.decode_b encoded = Raise AssertionError
  | _ =>
      exists decoded,
        encoded_words.decode_b encoded
        = Ok (decoded, [InvalidBase64PaddingDefect])
        /\ length decoded = (3 * length encoded / 4)%nat
  end.
Proof.
  intros Hall.
  assert (Hlt : (length encoded mod 4 < 4)%nat)
    by (apply Nat.mod_upper_bound; lia).
  pose proof (Nat.div_mod_eq (length encoded) 4) as Hdm.
  destruct (a2b_base64_alphabet encoded [] Hall) as (lc0 & out0 & E0 & B0).
  destruct (a2b_base64_alphabet encoded [x3d] Hall) as (lc1 & out1 & E1 & B1).
  destruct (a2b_base64_alphabet encoded [x3d; x3d] Hall)
    as (lc2 & out2 & E2 & B2).
  destruct (a2b_base64_alphabet encoded [x3d; x3d; x3d] Hall)
    as (lc3 & out3 & E3 & _).
  rewrite app_nil_r in E0.
  unfold encoded_words.decode_b, encoded_words.b64decode.
  destruct (length encoded mod 4)%nat as [|[|[|[|r]]]] eqn:Hr; [| | | |lia].
  - (* whole quads *)
    exists out0. cbn [Nat.eqb negb].
    pose proof (b64_fullmatch_alphabet encoded [] Hall) as Hfm.
    rewrite app_nil_r in Hfm. rewrite Hfm, E0.
    split; [reflexivity|]. cbn in B0. unfold bytes in *.
    apply (Nat.div_unique _ _ _ 0%nat); lia.
  - (* one character left over *)
    cbn [Nat.eqb negb Nat.sub].
    rewrite (b64_fullmatch_alphabet encoded _ Hall).
    change (encoded_words.b64_fullmatch (take 3 (b "==="))) with false.
    cbn [andb negb encoded_words.decode_b_retry repeat].
    unfold encoded_words.b64decode. cbn [andb].
    rewrite app_nil_r, E0, E1, E2, E3. reflexivity.
  - (* two characters left over *)
    exists out2. cbn [Nat.eqb negb Nat.sub].
    rewrite (b64_fullmatch_alphabet encoded _ Hall).
    change (encoded_words.b64_fullmatch (take 2 (b "==="))) with true.
    cbn [andb negb]. change (take 2 (b "===")) with [x3d; x3d].
    rewrite E2. split; [reflexivity|]. cbn in B2. unfold bytes in *.
    apply (Nat.div_unique _ _ _ 2%nat); lia.
  - (* three characters left over *)
    exists out1. cbn [Nat.eqb negb Nat.sub].
    rewrite (b64_fullmatch_alphabet encoded _ Hall).
    change (encoded_words.b64_fullmatch (take 1 (b "==="))) with true.
    cbn [andb negb]. change (take 1 (b "===")) with [x3d].
    rewrite E1. split; [reflexivity|]. cbn in B1. unfold bytes in *.
    apply (Nat.div_unique _ _ _ 1%nat); lia.
Qed.

Lemma decode_b_on_alphabet_witness :
  (exists decoded,
      encoded_words.decode_b (b "Zm9v") = Ok (decoded, [])
      /\ length decoded = 3%nat)
  /\ encoded_words.decode_b (b "Zm9vY") = Raise AssertionError
  /\ (exists decoded,
        encoded_words.decode_b (b "Zm9vYg")
        = Ok (decoded, [InvalidBase64PaddingDefect])
        /\ length decoded = 4%nat).
Proof.
  split; [|split].
  - apply (decode_b_on_alphabet (b "Zm9v")). reflexivity.
  - apply (decode_b_on_alphabet (b "Zm9vY")). reflexivity.
  - apply (decode_b_on_alphabet (b "Zm9vYg")). reflexivity.
Defined.

(** ** Further properties of the parser *)

(** X4.  [get_address_list] leaves nothing unread: whenever it returns,
    the rest of the input it returns is empty, and it never stops for lack
    of fuel. *)
Theorem get_address_list_reads_everything (value : str) :
  match parser.get_address_list value with
  | Ok (_, rest) => rest = []
  | Raise e => e <> OutOfFuel
  end.
Proof.
  pose proof (address_list_loop_consumes (S (length value))
                (parser.new parser.AddressList) value (Nat.lt_succ_diag_r _))
    as H.
  unfold parser.get_address_list.
  destruct (parser.address_list_loop _ _ value) as [[t v]|e] eqn:E;
    [|exact H].
  eapply address_list_loop_rest, E.
Qed.

(** X5.  Progress of the productions of the address grammar: each of
    [get_atext], [get_bare_quoted_string], [get_quoted_string], [get_atom],
    [get_dot_atom], [get_word], [get_local_part], [get_addr_spec],
    [get_angle_addr], [get_name_addr], [get_mailbox], [get_group] and
    [get_address], when it returns, returns a rest that is strictly shorter
    than its input, and none of them runs out of fuel. *)
Theorem address_productions_consume (value : str) :
  consumes true value (parser.get_atext value)
  /\ consumes true value (parser.get_bare_quoted_string value)
  /\ consumes true value (parser.get_quoted_string value)
  /\ consumes true value (parser.get_atom value)
  /\ consumes true value (parser.get_dot_atom value)
  /\ consumes true value (parser.get_word value)
  /\ consumes true value (parser.get_local_part value)
  /\ consumes true value (parser.get_addr_spec value)
  /\ consumes true value (parser.get_angle_addr value)
  /\ consumes true value (parser.get_name_addr value)
  /\ consumes true value (parser.get_mailbox value)
  /\ consumes true value (parser.get_group value)
  /\ consumes true value (parser.get_address value).
Proof.
  repeat split.
  - apply get_atext_consumes.
  - apply get_bare_quoted_string_consumes.
  - apply get_quoted_string_consumes.
  - apply get_atom_consumes.
  - apply get_dot_atom_consumes.
  - apply get_word_consumes.
  - apply get_local_part_consumes.
  - apply get_addr_spec_consumes.
  - apply get_angle_addr_consumes.
  - apply get_name_addr_consumes.
  - apply get_mailbox_consumes.
  - apply get_group_consumes.
  - apply get_address_consumes.
Qed.

Lemma span_prefix (p : uchar -> bool) (s : str) :
  forallb p (parser.span p s).1 = true.
Proof.
  induction s as [|c s IH]; [reflexivity|]. cbn [parser.span].
  destruct (p c) eqn:Hc; [|reflexivity].
  destruct (parser.span p s) as [a r]. cbn [fst] in *. cbn. now rewrite Hc.
Qed.

Lemma span_rest (p : uchar -> bool) (s : str) :
  match (parser.span p s).2 with c :: _ => p c = false | [] => True end.
Proof.
  induction s as [|c s IH]; [exact I|]. cbn [parser.span].
  destruct (p c) eqn:Hc; [|exact Hc].
  destruct (parser.span p s) as [a r]. exact IH.
Qed.

(** The longest prefix: a run of [p] before an end or a character that
    fails [p] is what [span] returns. *)
Lemma span_run (p : uchar -> bool) (a rest : str) :
  forallb p a = true ->
  match rest with c :: _ => p c = false | [] => True end ->
  parser.span p (a ++ rest) = (a, rest).
Proof.
  intros Ha Hr. induction a as [|c a IH]; cbn [app].
  - destruct rest as [|c r]; [reflexivity|]. cbn [parser.span]. now rewrite Hr.
  - cbn [forallb] in Ha. apply andb_prop in Ha as [Hc Ha].
    cbn [parser.span]. rewrite Hc, (IH Ha). reflexivity.
Qed.

(** X6.  [get_atext] splits the input at the longest prefix free of
    [ATOM_ENDS]: it raises [HeaderParseError] exactly when that prefix is
    empty (the input is empty or starts with a character of [ATOM_ENDS]);
    otherwise the token is the validated terminal of that prefix, its text
    and its value are the prefix, and the rest is empty or starts with a
    character of [ATOM_ENDS]. *)
Theorem get_atext_longest_run (value : str) :
  match parser.get_atext value with
  | Ok (tok, rest) =>
      exists atext,
        value = atext ++ rest
        /\ atext <> []
        /\ forallb (fun c => negb (inb c parser.ATOM_ENDS)) atext = true
        /\ starts_in rest parser.ATOM_ENDS = nonempty rest
        /\ tok = parser._validate_xtext
                   (parser.Leaf parser.ValueTerminal atext "atext" [])
        /\ parser.to_str tok = Ok atext
        /\ parser.value tok = Ok atext
  | Raise e =>
      e = HeaderParseError
      /\ starts_in value parser.ATOM_ENDS = nonempty value
  end.
Proof.
  unfold parser.get_atext.
  pose proof (span_app (fun c => negb (inb c parser.ATOM_ENDS)) value) as Happ.
  pose proof (span_prefix (fun c => negb (inb c parser.ATOM_ENDS)) value) as Hp.
  pose proof (span_rest (fun c => negb (inb c parser.ATOM_ENDS)) value) as Hr.
  destruct (parser.span _ value) as [atext rest]. cbn [fst snd] in *.
  destruct atext as [|c atext].
  - split; [reflexivity|]. cbn [app] in Happ. subst rest.
    destruct value as [|c v]; [reflexivity|]. cbn [starts_in nonempty].
    now apply negb_false_iff in Hr.
  - exists (c :: atext). split; [exact Happ|]. split; [discriminate|].
    split; [exact Hp|]. split.
    { destruct rest as [|d r]; [reflexivity|]. cbn [starts_in nonempty].
      now apply negb_false_iff in Hr. }
    split; [reflexivity|].
    unfold parser._validate_xtext.
    destruct (parser._non_printable_finder (c :: atext)); split; reflexivity.
Qed.

Lemma lstrip_take (s : str) :
  take (length s - length (lstrip s)) s ++ lstrip s = s.
Proof.
  induction s as [|c s IH]; [reflexivity|]. cbn [lstrip].
  destruct (py_isspace c).
  - pose proof (lstrip_length s).
    replace (length (c :: s) - length (lstrip s))%nat
      with (S (length s - length (lstrip s))) by (simpl; lia).
    cbn [take app]. now rewrite IH.
  - now rewrite Nat.sub_diag.
Qed.

Lemma lstrip_take_space (s : str) :
  forallb py_isspace (take (length s - length (lstrip s)) s) = true.
Proof.
  induction s as [|c s IH]; [reflexivity|]. cbn [lstrip].
  destruct (py_isspace c) eqn:Hc.
  - pose proof (lstrip_length s).
    replace (length (c :: s) - length (lstrip s))%nat
      with (S (length s - length (lstrip s))) by (simpl; lia).
    cbn [take forallb]. now rewrite Hc, IH.
  - now rewrite Nat.sub_diag.
Qed.

Lemma lstrip_head (s : str) :
  match lstrip s with c :: _ => py_isspace c = false | [] => True end.
Proof.
  induction s as [|c s IH]; [exact I|]. cbn [lstrip].
  destruct (py_isspace c) eqn:Hc; [exact IH|exact Hc].
Qed.

(** X7.  [get_fws] never raises: it splits the input into its leading
    white space (possibly empty), returned as an [fws] terminal without
    defects, and a rest that is empty or starts with a character that is
    not white space. *)
Theorem get_fws_leading_white_space (value : str) :
  exists ws rest,
    parser.get_fws value
    = Ok (parser.Leaf parser.WhiteSpaceTerminal ws "fws" [], rest)
    /\ value = ws ++ rest
    /\ forallb py_isspace ws = true
    /\ match rest with c :: _ => py_isspace c = false | [] => True end.
Proof.
  eexists _, _. split; [reflexivity|].
  split; [symmetry; apply lstrip_take|].
  split; [apply lstrip_take_space|apply lstrip_head].
Qed.

Lemma quote_string_flat_map (s : str) :
  parser.quote_string s = [DQUOTE] ++ flat_map esc_char s ++ [DQUOTE].
Proof.
  unfold parser.quote_string, replace_char. do 2 f_equal.
  induction s as [|c s IH]; [reflexivity|]. cbn [flat_map].
  rewrite flat_map_app. f_equal; [|exact IH]. unfold esc_char.
  destruct (c =? BACKSLASH) eqn:Hb.
  - apply N.eqb_eq in Hb. subst c. reflexivity.
  - cbn [flat_map app]. destruct (c =? DQUOTE); reflexivity.
Qed.

Lemma ptext_scan_escaped (w tail acc : str) (hq : bool) :
  exists hq',
    parser.ptext_scan (flat_map esc_char w ++ tail) [DQUOTE] false hq acc
    = parser.ptext_scan tail [DQUOTE] false hq' (acc ++ w).
Proof.
  revert acc hq. induction w as [|c w IH]; intros acc hq.
  - exists hq. now rewrite app_nil_r.
  - cbn [flat_map]. rewrite <- app_assoc. unfold esc_char at 1.
    destruct (c =? BACKSLASH) eqn:Hb.
    + apply N.eqb_eq in Hb. subst c. cbn [app parser.ptext_scan].
      change (BACKSLASH =? BACKSLASH) with true. cbn match.
      change (inb BACKSLASH [DQUOTE]) with false. cbn match.
      destruct (IH (acc ++ [BACKSLASH]) true) as [hq' E]. exists hq'.
      rewrite E. now rewrite <- app_assoc.
    + destruct (c =? DQUOTE) eqn:Hd.
      * apply N.eqb_eq in Hd. subst c. cbn [app parser.ptext_scan].
        change (BACKSLASH =? BACKSLASH) with true.
        change (DQUOTE =? BACKSLASH) with false. cbn match.
        destruct (IH (acc ++ [DQUOTE]) hq) as [hq' E]. exists hq'.
        rewrite E. now rewrite <- app_assoc.
      * cbn [app parser.ptext_scan]. rewrite Hb.
        assert (Hin : inb c [DQUOTE] = false).
        { unfold inb. cbn [existsb]. now rewrite Hd. }
        rewrite Hin.
        destruct (IH (acc ++ [c]) hq) as [hq' E]. exists hq'.
        rewrite E. now rewrite <- app_assoc.
Qed.

Lemma flat_map_esc_nonempty (w : str) : w <> [] -> flat_map esc_char w <> [].
Proof.
  destruct w as [|c w]; [congruence|]. intros _. cbn [flat_map].
  unfold esc_char. destruct (c =? BACKSLASH); [discriminate|].
  destruct (c =? DQUOTE); discriminate.
Qed.

Lemma esc_char_outside_WSP (c : uchar) :
  inb c parser.WSP = false ->
  forallb (fun x => negb (inb x parser.WSP)) (esc_char c) = true.
Proof.
  intros Hc. unfold esc_char.
  destruct (c =? BACKSLASH); [reflexivity|].
  destruct (c =? DQUOTE); [reflexivity|].
  cbn [forallb]. now rewrite Hc.
Qed.

Lemma flat_map_esc_outside_WSP (w : str) :
  forallb (fun c => negb (inb c parser.WSP)) w = true ->
  forallb (fun c => negb (inb c parser.WSP)) (flat_map esc_char w) = true.
Proof.
  induction w as [|c w IH]; [reflexivity|]. cbn [forallb flat_map].
  intros H. apply andb_prop in H as [Hc Hw]. rewrite forallb_app.
  apply negb_true_iff in Hc. now rewrite esc_char_outside_WSP, IH.
Qed.

Lemma span_app_prefix (p : uchar -> bool) (a rest : str) :
  forallb p a = true ->
  parser.span p (a ++ rest)
  = ((a ++ (parser.span p rest).1), (parser.span p rest).2).
Proof.
  intros Ha. induction a as [|c a IH]; cbn [app].
  - now destruct (parser.span p rest).
  - cbn [forallb] in Ha. apply andb_prop in Ha as [Hc Ha].
    cbn [parser.span]. rewrite Hc, (IH Ha). reflexivity.
Qed.

(** A run of quoted text before white space or the closing quote: the
    scan returns the text unquoted and stops there. *)
Lemma _get_ptext_to_endchars_escaped (w y : str) :
  w <> [] ->
  forallb (fun c => negb (inb c parser.WSP)) w = true ->
  (starts_in y parser.WSP = true \/ starts_with_char y DQUOTE = true) ->
  exists hq,
    parser._get_ptext_to_endchars (flat_map esc_char w ++ y) [DQUOTE]
    = Ok (w, y, hq).
Proof.
  intros Hne Hw Hy. unfold parser._get_ptext_to_endchars, parser._wsp_splitter.
  pose proof (flat_map_esc_outside_WSP w Hw) as Hesc.
  pose proof (flat_map_esc_nonempty w Hne) as Hnil.
  rewrite (span_app_prefix _ _ y Hesc).
  destruct Hy as [Hy|Hy].
  - (* white space next *)
    destruct y as [|d y']; [discriminate|]. cbn [starts_in] in Hy.
    cbn [parser.span]. rewrite Hy. cbn [negb fst snd]. rewrite app_nil_r.
    pose proof (span_app (fun c => inb c parser.WSP) (d :: y')) as Hsp.
    destruct (parser.span (fun c => inb c parser.WSP) (d :: y')) as [ws after].
    cbn [fst snd] in Hsp.
    destruct (flat_map esc_char w) as [|e0 es] eqn:Ees; [congruence|].
    rewrite <- Ees.
    destruct (ptext_scan_escaped w [] [] false) as [hq E].
    rewrite app_nil_r in E. rewrite E. cbn [parser.ptext_scan app].
    exists hq. now rewrite <- Hsp.
  - (* the closing quote next *)
    destruct y as [|d y']; [discriminate|]. cbn [starts_with_char] in Hy.
    apply N.eqb_eq in Hy. subst d.
    cbn [parser.span]. change (inb DQUOTE parser.WSP) with false.
    cbn [negb].
    pose proof (span_app (fun c => negb (inb c parser.WSP)) y') as Hsp.
    destruct (parser.span (fun c => negb (inb c parser.WSP)) y') as [y1 y2].
    cbn [fst snd] in Hsp |- *.
    destruct (ptext_scan_escaped w (DQUOTE :: y1) [] false) as [hq E].
    cbn [parser.ptext_scan] in E.
    change (DQUOTE =? BACKSLASH) with false in E.
    change (inb DQUOTE [DQUOTE]) with true in E. cbn match in E.
    cbn [app] in E.
    destruct y2 as [|z y2].
    + rewrite app_nil_r in Hsp. subst y1.
      destruct (flat_map esc_char w ++ DQUOTE :: y') as [|e0 es] eqn:Ees.
      { destruct (flat_map esc_char w); discriminate. }
      rewrite <- Ees in E |- *. rewrite E. exists hq. now rewrite app_nil_r.
    + pose proof (span_app (fun c => inb c parser.WSP) (z :: y2)) as Hsp2.
      destruct (parser.span (fun c => inb c parser.WSP) (z :: y2))
        as [ws after]. cbn [fst snd] in Hsp2.
      destruct (flat_map esc_char w ++ DQUOTE :: y1) as [|e0 es] eqn:Ees.
      { destruct (flat_map esc_char w); discriminate. }
      rewrite <- Ees in E |- *. rewrite E. exists hq. cbn [app].
      rewrite <- Hsp2, Hsp.
      reflexivity.
Qed.

Lemma esc_char_space (c : uchar) : py_isspace c = true -> esc_char c = [c].
Proof.
  intros Hc. unfold esc_char.
  destruct (c =? BACKSLASH) eqn:Hb.
  { apply N.eqb_eq in Hb. subst c. discriminate. }
  destruct (c =? DQUOTE) eqn:Hd; [|reflexivity].
  apply N.eqb_eq in Hd. subst c. discriminate.
Qed.

Lemma flat_map_esc_space (t : str) :
  forallb py_isspace t = true -> flat_map esc_char t = t.
Proof.
  induction t as [|c t IH]; [reflexivity|]. cbn [forallb flat_map].
  intros H. apply andb_prop in H as [Hc Ht].
  now rewrite (esc_char_space c Hc), (IH Ht).
Qed.

Lemma esc_char_head (c : uchar) :
  exists h t, esc_char c = h :: t
              /\ (py_isspace c = false -> py_isspace h = false)
              /\ (inb c parser.WSP = false ->
                  (h =? DQUOTE) = false /\ inb h parser.WSP = false).
Proof.
  unfold esc_char. destruct (c =? BACKSLASH) eqn:Hb.
  { eexists _, _. split; [reflexivity|]. split; [reflexivity|].
    split; reflexivity. }
  destruct (c =? DQUOTE) eqn:Hd.
  { eexists _, _. split; [reflexivity|]. split; [reflexivity|].
    split; reflexivity. }
  eexists _, _. split; [reflexivity|]. split; [auto|]. auto.
Qed.

Lemma lstrip_escaped (s rest : str) :
  lstrip (flat_map esc_char s ++ DQUOTE :: rest)
  = flat_map esc_char (lstrip s) ++ DQUOTE :: rest.
Proof.
  induction s as [|c s IH]; [reflexivity|]. cbn [flat_map lstrip].
  destruct (py_isspace c) eqn:Hc.
  - rewrite (esc_char_space c Hc). cbn [app lstrip]. now rewrite Hc.
  - destruct (esc_char_head c) as (h & t & E & Hh & _).
    cbn [flat_map]. rewrite E. cbn [app lstrip]. now rewrite (Hh Hc).
Qed.

Lemma get_fws_escaped (s rest : str) :
  parser.get_fws (flat_map esc_char s ++ DQUOTE :: rest)
  = Ok (parser.Leaf parser.WhiteSpaceTerminal
          (take (length s - length (lstrip s)) s) "fws" [],
        flat_map esc_char (lstrip s) ++ DQUOTE :: rest).
Proof.
  unfold parser.get_fws, slice_to.
  set (V := flat_map esc_char s ++ DQUOTE :: rest).
  set (t := take (length s - length (lstrip s)) s).
  pose proof (lstrip_escaped s rest) as HL. fold V in HL.
  assert (Ht : V = t ++ lstrip V).
  { rewrite HL. unfold V. rewrite <- (lstrip_take s) at 1. fold t.
    rewrite flat_map_app, <- app_assoc.
    now rewrite (flat_map_esc_space t) by apply lstrip_take_space. }
  assert (Htake : take (length V - length (lstrip V)) V = t).
  { apply (app_inv_tail (lstrip V)). rewrite lstrip_take. exact Ht. }
  now rewrite Htake, HL.
Qed.

Lemma is_leaf__validate_xtext c s ty :
  is_leaf (parser._validate_xtext (parser.Leaf c s ty [])) = true
  /\ literal (parser._validate_xtext (parser.Leaf c s ty [])) = s.
Proof.
  unfold parser._validate_xtext.
  destruct (parser._non_printable_finder s); split; reflexivity.
Qed.

Lemma is_qcontent__validate_xtext c s :
  is_qcontent (parser._validate_xtext (parser.Leaf c s "ptext" [])) = true.
Proof.
  unfold parser._validate_xtext.
  destruct (parser._non_printable_finder s); reflexivity.
Qed.

Lemma bare_quoted_string_loop_step (fuel : nat) (acc : parser.token)
    (h : uchar) (v : str) :
  (h =? DQUOTE) = false ->
  parser.bare_quoted_string_loop (S fuel) acc (h :: v)
  = '(token, value) ← (if inb h parser.WSP then parser.get_fws (h :: v)
                       else parser.get_qcontent (h :: v));
    parser.bare_quoted_string_loop fuel (parser.append acc token) value.
Proof. intros H. cbn [parser.bare_quoted_string_loop]. now rewrite H. Qed.

(** The loop of [get_bare_quoted_string] on what [quote_string] wrote. *)
Lemma bare_quoted_string_loop_quoted (fuel : nat) (s rest : str)
    (ty : option string) (items : list parser.token) (ds : list defect) :
  (length s < fuel)%nat ->
  exists toks,
    parser.bare_quoted_string_loop fuel
      (parser.Node parser.BareQuotedString ty items ds)
      (flat_map esc_char s ++ DQUOTE :: rest)
    = Ok (parser.Node parser.BareQuotedString ty (items ++ toks) ds, rest)
    /\ forallb is_leaf toks = true
    /\ forallb is_qcontent toks = true
    /\ concat (map literal toks) = s.
Proof.
  revert s items. induction fuel as [|fuel IH]; intros s items Hf; [lia|].
  destruct s as [|c s'].
  - exists []. cbn. now rewrite app_nil_r.
  - destruct (inb c parser.WSP) eqn:Hw.
    + (* folding white space *)
      pose proof (inb_WSP_isspace c Hw) as Hsp.
      assert (Hhead : flat_map esc_char (c :: s') ++ DQUOTE :: rest
                      = c :: (flat_map esc_char s' ++ DQUOTE :: rest)).
      { cbn [flat_map]. now rewrite (esc_char_space c Hsp). }
      assert (Hq : (c =? DQUOTE) = false).
      { destruct (c =? DQUOTE) eqn:E; [|reflexivity].
        apply N.eqb_eq in E. subst c. discriminate. }
      rewrite Hhead, (bare_quoted_string_loop_step _ _ _ _ Hq), Hw.
      rewrite <- Hhead, get_fws_escaped.
      cbn [mbind result_bind parser.append parser.extend].
      assert (Hlen : (length (lstrip (c :: s')) < fuel)%nat).
      { cbn [lstrip]. rewrite Hsp. pose proof (lstrip_length s').
        simpl in Hf. lia. }
      match goal with
      | |- context [parser.Node _ _ (items ++ [?t]) _] =>
          destruct (IH (lstrip (c :: s')) (items ++ [t]) Hlen)
            as (toks & E & Hleaf & Hq' & Hcat)
      end.
      rewrite E. eexists (_ :: toks). rewrite <- app_assoc.
      split; [reflexivity|]. split; [exact Hleaf|]. split; [exact Hq'|].
      cbn [map concat literal]. rewrite Hcat. apply lstrip_take.
    + (* quoted text *)
      set (p := fun x : uchar => negb (inb x parser.WSP)).
      pose proof (span_app p (c :: s')) as Happ.
      pose proof (span_prefix p (c :: s')) as Hpre.
      pose proof (span_rest p (c :: s')) as Hrest.
      assert (Hne : (parser.span p (c :: s')).1 <> []).
      { apply span_head. unfold p. now rewrite Hw. }
      destruct (parser.span p (c :: s')) as [w s2]. cbn [fst snd] in *.
      assert (Hy : starts_in (flat_map esc_char s2 ++ DQUOTE :: rest)
                     parser.WSP = true
                   \/ starts_with_char
                        (flat_map esc_char s2 ++ DQUOTE :: rest) DQUOTE = true).
      { destruct s2 as [|d s2]; [right; reflexivity|]. left.
        unfold p in Hrest. apply negb_false_iff in Hrest.
        cbn [flat_map]. rewrite (esc_char_space d (inb_WSP_isspace d Hrest)).
        exact Hrest. }
      destruct (_get_ptext_to_endchars_escaped w _ Hne Hpre Hy) as [hq Hscan].
      destruct (esc_char_head c) as (h & t & Eh & _ & Hh).
      destruct (Hh Hw) as [Hq Hhw].
      assert (Hhead : flat_map esc_char (c :: s') ++ DQUOTE :: rest
                      = h :: (t ++ flat_map esc_char s' ++ DQUOTE :: rest)).
      { cbn [flat_map]. rewrite Eh. cbn [app]. now rewrite <- app_assoc. }
      rewrite Hhead, (bare_quoted_string_loop_step _ _ _ _ Hq), Hhw.
      rewrite <- Hhead.
      assert (Hsplit : flat_map esc_char (c :: s') ++ DQUOTE :: rest
                       = flat_map esc_char w
                         ++ flat_map esc_char s2 ++ DQUOTE :: rest).
      { rewrite Happ. now rewrite flat_map_app, <- app_assoc. }
      rewrite Hsplit.
      unfold parser.get_qcontent. rewrite Hscan.
      cbn [mbind result_bind parser.append parser.extend].
      assert (Hlen : (length s2 < fuel)%nat).
      { apply (f_equal (@length _)) in Happ. rewrite length_app in Happ.
        destruct w; [congruence|]. simpl in *. lia. }
      match goal with
      | |- context [parser.Node _ _ (items ++ [?t]) _] =>
          destruct (IH s2 (items ++ [t]) Hlen)
            as (toks & E & Hleaf & Hq' & Hcat)
      end.
      rewrite E. eexists (_ :: toks). rewrite <- app_assoc.
      split; [reflexivity|].
      destruct (is_leaf__validate_xtext parser.ValueTerminal w "ptext")
        as [Hl Hlit].
      split; [cbn [forallb]; now rewrite Hl, Hleaf|].
      split; [cbn [forallb];
              now rewrite (is_qcontent__validate_xtext parser.ValueTerminal w),
                          Hq'|].
      cbn [map concat]. rewrite Hlit, Hcat. now rewrite Happ.
Qed.

Lemma flat_map_esc_length (s : str) :
  (length s <= length (flat_map esc_char s))%nat.
Proof.
  induction s as [|c s IH]; [reflexivity|]. cbn [flat_map].
  rewrite length_app. destruct (esc_char_head c) as (h & t & E & _).
  rewrite E. simpl. lia.
Qed.

Lemma concat_results_literal (f : parser.token -> result str)
    (toks : list parser.token) :
  (forall c s ty ds, f (parser.Leaf c s ty ds) = Ok s) ->
  forallb is_leaf toks = true ->
  parser.concat_results (map f toks) = Ok (concat (map literal toks)).
Proof.
  intros Hf. induction toks as [|x toks IH]; [reflexivity|].
  cbn [forallb map concat]. intros H. apply andb_prop in H as [Hx Ht].
  unfold parser.concat_results in *. cbn [foldr]. rewrite (IH Ht).
  destruct x; try discriminate. rewrite Hf. reflexivity.
Qed.

(** [get_bare_quoted_string] on what [quote_string] wrote: the items are
    the runs of white space and of text of [s]. *)
Lemma get_bare_quoted_string_quoted (s rest : str) :
  exists toks,
    parser.get_bare_quoted_string (parser.quote_string s ++ rest)
    = Ok (parser.Node parser.BareQuotedString
            (Some "bare-quoted-string"%string) toks [], rest)
    /\ forallb is_leaf toks = true
    /\ forallb is_qcontent toks = true
    /\ concat (map literal toks) = s.
Proof.
  rewrite quote_string_flat_map.
  unfold parser.get_bare_quoted_string, slice_from.
  cbn [app first mbind result_bind drop].
  change (DQUOTE =? DQUOTE) with true. cbn [negb].
  rewrite <- !app_assoc. cbn [app].
  edestruct (bare_quoted_string_loop_quoted
               (S (S (length (flat_map esc_char s ++ DQUOTE :: rest))))
               s rest (parser.class_token_type parser.BareQuotedString) [] [])
    as (toks & E & Hleaf & Hq & Hcat).
  { pose proof (flat_map_esc_length s). rewrite length_app. lia. }
  unfold parser.new. cbn [length]. rewrite drop_0, E. cbn [app].
  exists toks. repeat split; assumption.
Qed.

Lemma bare_quoted_string_value (ty : option string)
    (toks : list parser.token) (ds : list defect) :
  forallb is_leaf toks = true ->
  parser.value (parser.Node parser.BareQuotedString ty toks ds)
  = Ok (concat (map literal toks))
  /\ parser.to_str (parser.Node parser.BareQuotedString ty toks ds)
     = Ok (parser.quote_string (concat (map literal toks))).
Proof.
  intros Hleaf. split.
  - cbn [parser.value]. now rewrite concat_results_literal.
  - cbn [parser.to_str].
    rewrite concat_results_literal; [reflexivity| |exact Hleaf].
    reflexivity.
Qed.

(** X8.  What [quote_string] writes, [get_bare_quoted_string] reads back:
    for every string [s] and every text [rest] after it, the parser returns
    a token and [rest]; the value of the token is [s], white space
    included, and its text is the quoted form again. *)
Theorem quote_string_round_trip (s rest : str) :
  exists tok,
    parser.get_bare_quoted_string (parser.quote_string s ++ rest)
    = Ok (tok, rest)
    /\ parser.value tok = Ok s
    /\ parser.to_str tok = Ok (parser.quote_string s).
Proof.
  destruct (get_bare_quoted_string_quoted s rest)
    as (toks & E & Hleaf & _ & Hcat).
  destruct (bare_quoted_string_value (Some "bare-quoted-string"%string)
              toks [] Hleaf) as [Hv Hs].
  eexists. split; [exact E|]. rewrite Hv, Hs, Hcat. split; reflexivity.
Qed.

Lemma has_encoded_word_start_suffix (a b' : str) :
  has_encoded_word_start (a ++ b') = false ->
  has_encoded_word_start b' = false.
Proof.
  induction a as [|c a IH]; [auto|]. cbn [app has_encoded_word_start].
  intros H. apply orb_false_elim in H as [_ H]. auto.
Qed.

Lemma looks_like_ew_start (tok rest : str) :
  parser.looks_like_ew tok = true ->
  has_encoded_word_start (tok ++ rest) = true.
Proof.
  unfold parser.looks_like_ew. intros H. apply andb_prop in H as [H _].
  change (u "=?") with [61; 63] in H.
  destruct tok as [|c [|d tok]]; cbn [startswith] in H; [discriminate| |].
  { rewrite andb_false_r in H. discriminate. }
  cbn [app has_encoded_word_start starts_with_char].
  apply andb_prop in H as [Hc H]. apply andb_prop in H as [Hd _].
  rewrite N.eqb_sym in Hc. rewrite N.eqb_sym in Hd.
  change (ch "=") with 61. change (ch "?") with 63.
  now rewrite Hc, Hd.
Qed.

Lemma split_tok_ws_spec (value : str) :
  let '(tok, ws, rest) := parser.split_tok_ws value in
  value = tok ++ ws ++ rest
  /\ (value <> [] -> (length rest < length value)%nat)
  /\ (tok = [] -> rest <> [] -> ws <> []).
Proof.
  unfold parser.split_tok_ws, parser._wsp_splitter.
  pose proof (span_app (fun c => negb (inb c parser.WSP)) value) as H1.
  pose proof (span_rest (fun c => negb (inb c parser.WSP)) value) as H2.
  destruct (parser.span _ value) as [before r]. cbn [fst snd] in *.
  destruct r as [|d r].
  - rewrite !app_nil_r. split; [reflexivity|].
    split; [destruct value; [congruence|simpl; lia]|congruence].
  - pose proof (span_app (fun c => inb c parser.WSP) (d :: r)) as H3.
    pose proof (span_head (fun c => inb c parser.WSP) d r) as H4.
    apply negb_false_iff in H2. specialize (H4 H2).
    destruct (parser.span (fun c => inb c parser.WSP) (d :: r)) as [ws after].
    cbn [fst snd] in *. split; [now rewrite <- H3|].
    split; [|auto]. intros _. rewrite H1, H3, !length_app.
    destruct ws; [congruence|]. simpl. lia.
Qed.

Lemma _has_surrogates_app (a b' : str) :
  parser._has_surrogates (a ++ b')
  = parser._has_surrogates a || parser._has_surrogates b'.
Proof. apply existsb_app. Qed.

Lemma to_str_append_fws (c : parser.cls) ty items ds (last_ws : str) :
  exists toks,
    @Ok parser.token (parser.append_fws (parser.Node c ty items ds) last_ws)
    = Ok (parser.Node c ty (items ++ toks) ds)
    /\ forallb is_leaf toks = true
    /\ concat (map literal toks) = last_ws.
Proof.
  unfold parser.append_fws. destruct last_ws as [|x l]; cbn [nonempty].
  - exists []. now rewrite app_nil_r.
  - eexists [_]. split; [reflexivity|]. split; [reflexivity|].
    cbn. now rewrite app_nil_r.
Qed.

Lemma unstructured_loop_plain (codecs : encoded_words.Codecs) (fuel : nat)
    (c : parser.cls) ty items ds (last_ws value : str) :
  (length value < fuel)%nat ->
  has_encoded_word_start value = false ->
  parser._has_surrogates value = false ->
  exists toks,
    parser.unstructured_loop codecs fuel (parser.Node c ty items ds)
      last_ws value
    = Ok (parser.Node c ty (items ++ toks) ds)
    /\ forallb is_leaf toks = true
    /\ concat (map literal toks) = last_ws ++ value.
Proof.
  revert items last_ws value.
  induction fuel as [|fuel IH]; intros items last_ws value Hf Hew Hsur; [lia|].
  cbn [parser.unstructured_loop].
  destruct value as [|v0 value'] eqn:Ev; cbn [nonempty].
  { rewrite app_nil_r. apply to_str_append_fws. }
  rewrite <- Ev in *. assert (Hne : value <> []) by (subst; discriminate).
  clear Ev v0 value'.
  pose proof (split_tok_ws_spec value) as Hsplit.
  destruct (parser.split_tok_ws value) as [[tok ws] rest].
  destruct Hsplit as (Hval & Hlen & Hws). specialize (Hlen Hne).
  assert (Hew' : has_encoded_word_start rest = false).
  { rewrite Hval, app_assoc in Hew.
    eapply has_encoded_word_start_suffix, Hew. }
  assert (Hsur' : parser._has_surrogates rest = false).
  { rewrite Hval, !_has_surrogates_app in Hsur.
    apply orb_false_elim in Hsur as [_ Hsur].
    now apply orb_false_elim in Hsur as [_ Hsur]. }
  destruct tok as [|t0 tok'] eqn:Et; cbn [nonempty negb].
  - (* white space only *)
    cbn [app] in Hval.
    destruct rest as [|r0 rest'] eqn:Er; cbn [nonempty negb].
    + rewrite app_nil_r in Hval. subst value. apply to_str_append_fws.
    + rewrite <- Er in *.
      destruct (IH items (last_ws ++ ws) rest) as (toks & E & Hl & Hc);
        [lia|exact Hew'|exact Hsur'|].
      exists toks. split; [exact E|]. split; [exact Hl|].
      rewrite Hc, Hval. now rewrite app_assoc.
  - rewrite <- Et in *. clear Et t0 tok'.
    destruct (parser.looks_like_ew tok) eqn:Hlook.
    { apply (looks_like_ew_start tok (ws ++ rest)) in Hlook.
      rewrite <- Hval in Hlook. congruence. }
    assert (Hst : parser._has_surrogates tok = false).
    { rewrite Hval, _has_surrogates_app in Hsur.
      now apply orb_false_elim in Hsur as [Hsur _]. }
    rewrite Hst. cbn [mbind result_bind].
    destruct (to_str_append_fws c ty items ds last_ws)
      as (pre & Epre & Hlpre & Hcpre).
    injection Epre as Epre. rewrite Epre. cbn [parser.append parser.extend].
    match goal with
    | |- context [parser.Node _ _ ((items ++ pre) ++ [?t]) _] =>
        destruct (IH ((items ++ pre) ++ [t]) ws rest)
          as (toks & E & Hl & Hc); [lia|exact Hew'|exact Hsur'|]
    end.
    rewrite E. eexists (pre ++ _ :: toks).
    split; [now rewrite <- !app_assoc|].
    destruct (is_leaf__validate_xtext parser.ValueTerminal tok "vtext")
      as [Hlv Hlit].
    split.
    + rewrite forallb_app. cbn [forallb]. now rewrite Hlpre, Hlv, Hl.
    + rewrite map_app, concat_app. cbn [map concat].
      rewrite Hcpre, Hlit, Hc, Hval. now rewrite <- ?app_assoc.
Qed.

Lemma get_unstructured_plain (env : header.Env) (value : str) :
  has_encoded_word_start value = false ->
  parser._has_surrogates value = false ->
  (exists t,
      parser.get_unstructured (header.codecs env) value = Ok t
      /\ parser.to_str t = Ok value)
  /\ header.UnstructuredHeader_parse env value
     = Ok {| header.decoded := value; header.defects := [];
             header.groups := None; header.datetime := None |}.
Proof.
  intros Hew Hsur.
  destruct (unstructured_loop_plain (header.codecs env) (S (length value))
              parser.UnstructuredTokenList
              (parser.class_token_type parser.UnstructuredTokenList)
              [] [] [] value) as (toks & E & Hl & Hc);
    [lia|exact Hew|exact Hsur|].
  cbn [app] in E, Hc.
  assert (Hstr : parser.to_str
                   (parser.Node parser.UnstructuredTokenList
                      (parser.class_token_type parser.UnstructuredTokenList)
                      toks []) = Ok value).
  { cbn [parser.to_str]. rewrite concat_results_literal; [now rewrite Hc| |exact Hl].
    reflexivity. }
  split.
  - eexists. split; [exact E|exact Hstr].
  - unfold header.UnstructuredHeader_parse, parser.get_unstructured.
    unfold parser.new. rewrite E. cbn [mbind result_bind].
    rewrite Hstr. reflexivity.
Qed.

(** X9.  [get_unstructured] keeps a text that holds no [=?] and no
    surrogate: it returns a token list whose text is the input, character
    for character, and [UnstructuredHeader.parse] yields that text as the
    decoded value, with no defect recorded on the header. *)
Theorem unstructured_text_is_kept (env : header.Env) (value : str) :
  has_encoded_word_start value = false ->
  parser._has_surrogates value = false ->
  (exists t,
      parser.get_unstructured (header.codecs env) value = Ok t
      /\ parser.to_str t = Ok value)
  /\ header.UnstructuredHeader_parse env value
     = Ok {| header.decoded := value; header.defects := [];
             header.groups := None; header.datetime := None |}.
Proof. exact (get_unstructured_plain env value). Qed.

Lemma unstructured_text_is_kept_witness :
  header.UnstructuredHeader_parse example_env (u "Hello, World")
  = Ok {| header.decoded := u "Hello, World"; header.defects := [];
          header.groups := None; header.datetime := None |}.
Proof.
  apply (unstructured_text_is_kept example_env (u "Hello, World"));
    reflexivity.
Defined.

Lemma is_atext_char_spec (c : uchar) :
  is_atext_char c = true ->
  inb c parser.ATOM_ENDS = false
  /\ inb c parser.SPECIALS = false
  /\ inb c parser.WSP = false
  /\ inb c parser.CFWS_LEADER = false
  /\ inb c parser.PHRASE_ENDS = false
  /\ py_isspace c = false
  /\ (c <=? 32) || (c =? 127) = false.
Proof.
  unfold is_atext_char. intros H. apply andb_prop in H as [H Hends].
  apply andb_prop in H as [Hlo Hhi]. apply negb_true_iff in Hends.
  apply N.leb_le in Hlo, Hhi.
  assert (Hsp : inb c parser.SPECIALS = false
                /\ inb c parser.WSP = false).
  { unfold parser.ATOM_ENDS in Hends. rewrite inb_app in Hends.
    now apply orb_false_elim in Hends. }
  destruct Hsp as [Hs Hw].
  split; [exact Hends|]. split; [exact Hs|]. split; [exact Hw|].
  assert (Hin : forall x l, inb x l = false -> Forall (fun y => x <> y) l).
  { intros x l. unfold inb. induction l as [|y l IHl]; [constructor|].
    cbn [existsb]. intros E. apply orb_false_elim in E as [E1 E2].
    constructor; [now apply N.eqb_neq|auto]. }
  pose proof (Hin _ _ Hs) as Fs. pose proof (Hin _ _ Hw) as Fw.
  assert (Hout : forall x l, Forall (fun y => x <> y) l -> inb x l = false).
  { intros x l F. unfold inb. induction F as [|y l Hy _ IHl]; [reflexivity|].
    cbn [existsb]. apply N.eqb_neq in Hy. now rewrite Hy, IHl. }
  split.
  { apply Hout. unfold parser.CFWS_LEADER. apply Forall_app. split; [exact Fw|].
    change (u "(") with [ch "("]. constructor; [|constructor].
    rewrite List.Forall_forall in Fs. apply Fs. vm_compute. auto 20. }
  split.
  { apply Hout. rewrite List.Forall_forall in Fs |- *. intros y Hy. apply Fs.
    unfold parser.PHRASE_ENDS in Hy. apply list_elem_of_In in Hy.
    apply list_elem_of_filter in Hy as [_ Hy]. now apply list_elem_of_In. }
  split.
  { unfold py_isspace.
    assert (H13 : (c <=? 13) = false) by (apply N.leb_gt; lia).
    assert (H32 : (c <=? 32) = false) by (apply N.leb_gt; lia).
    assert (H8192 : (8192 <=? c) = false) by (apply N.leb_gt; lia).
    assert (Hneq : forall k, 126 < k -> (c =? k) = false)
      by (intros k Hk; apply N.eqb_neq; lia).
    rewrite H13, H32, H8192, !Hneq by lia.
    now rewrite !andb_false_r. }
  destruct (N.leb_spec c 32); [lia|]. destruct (N.eqb_spec c 127); [lia|].
  reflexivity.
Qed.

Lemma is_atom_spec (a : str) :
  is_atom a = true ->
  exists c a', a = c :: a' /\ is_atext_char c = true
               /\ forallb is_atext_char a = true.
Proof.
  unfold is_atom. intros H. apply andb_prop in H as [Hne Hall].
  destruct a as [|c a']; [discriminate|]. exists c, a'.
  split; [reflexivity|]. split; [|exact Hall].
  cbn [forallb] in Hall. now apply andb_prop in Hall as [Hc _].
Qed.

Lemma after_atom_spec (rest : str) :
  after_atom rest = true ->
  starts_in rest parser.ATOM_ENDS = nonempty rest
  /\ starts_in rest parser.CFWS_LEADER = false
  /\ starts_with_char rest (ch ".") = false.
Proof.
  destruct rest as [|c r]; [repeat split|]. cbn [after_atom starts_in
    starts_with_char nonempty].
  intros H. apply andb_prop in H as [H Hdot]. apply andb_prop in H as [He Hc].
  apply negb_true_iff in Hdot, Hc. repeat split; assumption.
Qed.

Lemma _non_printable_finder_atom (a : str) :
  forallb is_atext_char a = true -> parser._non_printable_finder a = [].
Proof.
  induction a as [|x l IH]; [reflexivity|]. cbn [forallb]. intros H.
  apply andb_prop in H as [Hx Hl].
  destruct (is_atext_char_spec x Hx) as (_ & _ & _ & _ & _ & _ & Hnp).
  unfold parser._non_printable_finder, str, uchar in *.
  rewrite filter_cons_False; [auto|]. rewrite Hnp. discriminate.
Qed.

Lemma get_atext_atom (a rest : str) :
  is_atom a = true ->
  starts_in rest parser.ATOM_ENDS = nonempty rest ->
  parser.get_atext (a ++ rest) = Ok (atext_leaf a, rest).
Proof.
  intros Ha Hrest. destruct (is_atom_spec a Ha) as (c & a' & -> & _ & Hall).
  unfold parser.get_atext.
  rewrite (span_run (fun c => negb (inb c parser.ATOM_ENDS)) (c :: a') rest).
  - unfold parser._validate_xtext.
    now rewrite (_non_printable_finder_atom _ Hall).
  - clear -Hall. induction (c :: a') as [|x l IH]; [reflexivity|].
    cbn [forallb] in *. apply andb_prop in Hall as [Hx Hl].
    destruct (is_atext_char_spec x Hx) as (He & _). rewrite He. auto.
  - destruct rest as [|d r]; [exact I|]. cbn [starts_in nonempty] in Hrest.
    now rewrite Hrest.
Qed.

Lemma dotted_cons (a : str) (atoms : list str) :
  atoms <> [] -> dotted (a :: atoms) = a ++ u "." ++ dotted atoms.
Proof. destruct atoms; [congruence|reflexivity]. Qed.

Lemma is_dot_atom_spec (atoms : list str) :
  is_dot_atom atoms = true ->
  exists a atoms', atoms = a :: atoms' /\ is_atom a = true
                   /\ forallb is_atom atoms' = true.
Proof.
  unfold is_dot_atom. intros H. apply andb_prop in H as [Hne Hall].
  destruct atoms as [|a atoms']; [discriminate|]. exists a, atoms'.
  cbn [forallb] in Hall. apply andb_prop in Hall as [Ha Hr]. auto.
Qed.

Lemma dot_atom_text_loop_step (fuel : nat) (acc : parser.token) (a rest : str) :
  is_atom a = true ->
  starts_in rest parser.ATOM_ENDS = nonempty rest ->
  parser.dot_atom_text_loop (S fuel) acc (a ++ rest)
  = if starts_with_char rest (ch ".")
    then parser.dot_atom_text_loop fuel
           (parser.append (parser.append acc (atext_leaf a)) parser.DOT)
           (slice_from 1 rest)
    else parser.dot_atom_text_loop fuel (parser.append acc (atext_leaf a)) rest.
Proof.
  intros Ha Hrest. cbn [parser.dot_atom_text_loop].
  rewrite (get_atext_atom a rest Ha Hrest).
  destruct (is_atom_spec a Ha) as (c & a' & -> & Hc & _).
  destruct (is_atext_char_spec c Hc) as (He & _).
  cbn [app nonempty starts_in]. rewrite He. reflexivity.
Qed.

Lemma dot_atom_text_loop_dotted (atoms : list str) :
  forall (fuel : nat) (c : parser.cls) ty items ds (rest : str),
    atoms <> [] ->
    forallb is_atom atoms = true ->
    after_atom rest = true ->
    (length atoms < fuel)%nat ->
    parser.dot_atom_text_loop fuel (parser.Node c ty items ds)
      (dotted atoms ++ rest)
    = Ok (parser.Node c ty (items ++ dot_atom_items atoms) ds, rest).
Proof.
  induction atoms as [|a atoms IH]; intros fuel c ty items ds rest Hne Hall
    Hrest Hf; [congruence|].
  cbn [forallb] in Hall. apply andb_prop in Hall as [Ha Hall].
  destruct (after_atom_spec rest Hrest) as (Hends & Hcfws & Hdot).
  destruct fuel as [|fuel]; [lia|].
  destruct atoms as [|a2 atoms].
  - cbn [dotted join dot_atom_items].
    rewrite (dot_atom_text_loop_step _ _ _ _ Ha Hends), Hdot.
    destruct fuel as [|fuel]; [simpl in Hf; lia|].
    cbn [parser.dot_atom_text_loop]. rewrite Hends.
    destruct rest; reflexivity.
  - rewrite dotted_cons by discriminate. rewrite <- !app_assoc.
    rewrite (dot_atom_text_loop_step _ _ _ _ Ha) by reflexivity.
    change (starts_with_char (u "." ++ dotted (a2 :: atoms) ++ rest) (ch "."))
      with true. cbn match.
    change (slice_from 1 (u "." ++ dotted (a2 :: atoms) ++ rest))
      with (dotted (a2 :: atoms) ++ rest).
    cbn [parser.append parser.extend].
    rewrite IH; [|discriminate|exact Hall|exact Hrest|simpl in *; lia].
    rewrite <- !app_assoc. reflexivity.
Qed.

Lemma dot_atom_items_last (atoms : list str) :
  atoms <> [] ->
  exists a, last (dot_atom_items atoms) = Some (atext_leaf a).
Proof.
  induction atoms as [|a atoms IH]; [congruence|]. intros _.
  destruct atoms as [|a2 atoms]; [now exists a|].
  destruct IH as [x Hx]; [discriminate|]. exists x.
  change (dot_atom_items (a :: a2 :: atoms))
    with ([atext_leaf a; parser.DOT] ++ dot_atom_items (a2 :: atoms)).
  rewrite last_app, Hx. reflexivity.
Qed.

Lemma dot_atom_items_first (atoms : list str) :
  atoms <> [] ->
  exists a l, dot_atom_items atoms = atext_leaf a :: l.
Proof.
  destruct atoms as [|a [|a2 atoms]]; [congruence| |]; intros _;
    eexists _, _; reflexivity.
Qed.

Lemma dotted_length (atoms : list str) :
  forallb is_atom atoms = true -> (length atoms <= length (dotted atoms))%nat.
Proof.
  induction atoms as [|a atoms IH]; [reflexivity|]. cbn [forallb].
  intros H. apply andb_prop in H as [Ha Hall].
  destruct (is_atom_spec a Ha) as (c & a' & -> & _).
  destruct atoms as [|a2 atoms]; [simpl; lia|].
  rewrite dotted_cons by discriminate. specialize (IH Hall).
  rewrite !length_app. simpl in *. lia.
Qed.

Lemma dotted_head (atoms : list str) :
  is_dot_atom atoms = true ->
  exists c s, dotted atoms = c :: s /\ is_atext_char c = true.
Proof.
  intros H. destruct (is_dot_atom_spec atoms H) as (a & atoms' & -> & Ha & _).
  destruct (is_atom_spec a Ha) as (c & a' & -> & Hc & _).
  exists c. destruct atoms' as [|a2 l]; [now exists a'|].
  rewrite dotted_cons by discriminate. eexists. split; [reflexivity|exact Hc].
Qed.

Lemma get_dot_atom_text_dotted (atoms : list str) (rest : str) :
  is_dot_atom atoms = true ->
  after_atom rest = true ->
  parser.get_dot_atom_text (dotted atoms ++ rest)
  = Ok (parser.Node parser.DotAtomText (Some "dot-atom-text"%string)
          (dot_atom_items atoms) [], rest).
Proof.
  intros Hd Hrest. unfold parser.get_dot_atom_text.
  destruct (dotted_head atoms Hd) as (c & s & Es & Hc).
  destruct (is_atext_char_spec c Hc) as (He & _).
  destruct (is_dot_atom_spec atoms Hd) as (a & atoms' & Ea & Ha & Hall).
  assert (Hne : atoms <> []) by (subst; discriminate).
  assert (Hall' : forallb is_atom atoms = true).
  { subst atoms. cbn [forallb]. now rewrite Ha, Hall. }
  rewrite Es at 1 2. cbn [app nonempty negb starts_in orb]. rewrite He.
  cbn match. unfold parser.new.
  rewrite dot_atom_text_loop_dotted;
    [|exact Hne|exact Hall'|exact Hrest|].
  - cbn [mbind result_bind parser.items_of app].
    destruct (dot_atom_items_last atoms Hne) as [x Hx]. rewrite Hx.
    reflexivity.
  - pose proof (dotted_length atoms Hall'). rewrite length_app. lia.
Qed.

Lemma optional_cfws_none (l : parser.token) (rest : str) :
  starts_in rest parser.CFWS_LEADER = false ->
  parser.optional_cfws l rest = Ok (l, rest).
Proof. intros H. unfold parser.optional_cfws. now rewrite H. Qed.

Lemma get_dot_atom_dotted (atoms : list str) (rest : str) :
  is_dot_atom atoms = true ->
  after_atom rest = true ->
  parser.get_dot_atom (dotted atoms ++ rest)
  = Ok (dot_atom_node false atoms, rest).
Proof.
  intros Hd Hrest. unfold parser.get_dot_atom.
  destruct (dotted_head atoms Hd) as (c & s & Es & Hc).
  destruct (is_atext_char_spec c Hc) as (_ & _ & _ & Hl & _).
  rewrite Es at 1. cbn [app first mbind result_bind]. rewrite Hl.
  cbn [mbind result_bind].
  rewrite (get_dot_atom_text_dotted atoms rest Hd Hrest).
  cbn [mbind result_bind].
  destruct (after_atom_spec rest Hrest) as (_ & Hcfws & _).
  now rewrite optional_cfws_none.
Qed.

Lemma cfws_loop_unfold (fuel : nat) (cfws : parser.token) (value : str) :
  parser.cfws_loop (S fuel) cfws value
  = if starts_in value parser.CFWS_LEADER then
      '(token, value) ← (if starts_in value parser.WSP
                         then parser.get_fws value
                         else parser.get_comment value);
      parser.cfws_loop fuel (parser.append cfws token) value
    else Ok (cfws, value).
Proof. reflexivity. Qed.

Lemma get_fws_space (c : uchar) (s : str) :
  py_isspace c = false ->
  parser.get_fws (32 :: c :: s)
  = Ok (parser.Leaf parser.WhiteSpaceTerminal (u " ") "fws" [], c :: s).
Proof.
  intros Hsp. unfold parser.get_fws. cbn [lstrip].
  change (py_isspace 32) with true. cbn match. rewrite Hsp.
  assert (E : (length (32%N :: c :: s) - length (c :: s))%nat = 1%nat).
  { change (length (32%N :: c :: s)) with (S (length (c :: s))). lia. }
  unfold str, uchar in *. rewrite E. reflexivity.
Qed.

Lemma get_cfws_space (c : uchar) (s : str) :
  is_atext_char c = true ->
  parser.get_cfws (u " " ++ c :: s) = Ok (cfws_space, c :: s).
Proof.
  intros Hc.
  destruct (is_atext_char_spec c Hc) as (_ & _ & _ & Hl & _ & Hsp & _).
  unfold parser.get_cfws. change (u " " ++ c :: s) with (32 :: c :: s).
  cbn [length]. rewrite cfws_loop_unfold.
  change (starts_in (32 :: c :: s) parser.CFWS_LEADER) with true.
  change (starts_in (32 :: c :: s) parser.WSP) with true. cbn match.
  rewrite (get_fws_space c s Hsp). cbn [mbind result_bind].
  rewrite cfws_loop_unfold. cbn [starts_in]. rewrite Hl. reflexivity.
Qed.

Lemma get_leader_lead (sp : bool) (c : uchar) (s : str) :
  is_atext_char c = true ->
  parser.get_leader (lead sp ++ c :: s) = Ok (leader_of sp, c :: s).
Proof.
  intros Hc. destruct sp; cbn [lead leader_of].
  - unfold parser.get_leader. change (first (u " " ++ c :: s)) with (@Ok uchar 32).
    cbn [mbind result_bind]. change (inb 32 parser.CFWS_LEADER) with true.
    cbn match. now rewrite (get_cfws_space c s Hc).
  - destruct (is_atext_char_spec c Hc) as (_ & _ & _ & Hl & _).
    unfold parser.get_leader. cbn [app first mbind result_bind].
    now rewrite Hl.
Qed.

Lemma prepend_leader_node (sp : bool) (c : parser.cls) ty items ds :
  parser.prepend_leader (leader_of sp) (parser.Node c ty items ds)
  = Ok (parser.Node c ty (leader_items sp ++ items) ds).
Proof. destruct sp; reflexivity. Qed.

Lemma get_atom_atom (a rest : str) :
  is_atom a = true ->
  starts_in rest parser.ATOM_ENDS = nonempty rest ->
  starts_in rest parser.CFWS_LEADER = false ->
  parser.get_atom (a ++ rest) = Ok (atom_node false a, rest).
Proof.
  intros Ha He Hc. destruct (is_atom_spec a Ha) as (c & a' & Ea & Hch & _).
  destruct (is_atext_char_spec c Hch) as (Hends & Hs & _ & Hl & _).
  unfold parser.get_atom.
  rewrite optional_cfws_none by (rewrite Ea; cbn [app starts_in]; exact Hl).
  cbn [mbind result_bind].
  assert (Hst : starts_in (a ++ rest) parser.ATOM_ENDS = false)
    by (rewrite Ea; cbn [app starts_in]; exact Hends).
  rewrite Hst, (get_atext_atom a rest Ha He). cbn [mbind result_bind].
  rewrite optional_cfws_none by exact Hc. reflexivity.
Qed.

Lemma get_word_atom (sp : bool) (a rest : str) :
  is_atom a = true ->
  starts_in rest parser.ATOM_ENDS = nonempty rest ->
  starts_in rest parser.CFWS_LEADER = false ->
  parser.get_word (lead sp ++ a ++ rest) = Ok (atom_node sp a, rest).
Proof.
  intros Ha He Hc. destruct (is_atom_spec a Ha) as (c & a' & Ea & Hch & _).
  destruct (is_atext_char_spec c Hch) as (Hends & Hs & _ & Hl & _).
  unfold parser.get_word. rewrite Ea at 1. cbn [app].
  rewrite (get_leader_lead sp c _ Hch). cbn [mbind result_bind first].
  assert (Hq : (c =? DQUOTE) = false).
  { destruct (c =? DQUOTE) eqn:E; [|reflexivity]. apply N.eqb_eq in E.
    subst c. discriminate. }
  rewrite Hq, Hs.
  change (c :: a' ++ rest) with ((c :: a') ++ rest). rewrite <- Ea.
  rewrite (get_atom_atom a rest Ha He Hc). cbn [mbind result_bind].
  unfold atom_node at 1. cbn [leader_items app].
  rewrite prepend_leader_node. reflexivity.
Qed.

(** The rest of an obs-phrase [a1.a2.....an] after its first word. *)
Lemma dotted_tail (a : str) (atoms : list str) :
  dotted (a :: atoms) = a ++ concat (map (fun x => u "." ++ x) atoms).
Proof.
  revert a. induction atoms as [|a2 atoms IH]; intros a.
  - cbn. now rewrite app_nil_r.
  - rewrite dotted_cons by discriminate. rewrite IH. cbn [map concat].
    now rewrite <- !app_assoc.
Qed.

Lemma phrase_loop_dot (fuel : nat) (phrase : parser.token) (v : str) :
  parser.phrase_loop (S fuel) phrase (ch "." :: v)
  = parser.phrase_loop fuel
      (parser.add_defect (parser.append phrase parser.DOT)
         (ObsoleteHeaderDefect "period in 'phrase'")) v.
Proof. reflexivity. Qed.

Lemma phrase_loop_word (fuel : nat) (phrase : parser.token) (a rest : str) :
  is_atom a = true ->
  starts_in rest parser.ATOM_ENDS = nonempty rest ->
  starts_in rest parser.CFWS_LEADER = false ->
  parser.phrase_loop (S fuel) phrase (a ++ rest)
  = parser.phrase_loop fuel (parser.append phrase (atom_node false a)) rest.
Proof.
  intros Ha Hr1 Hr2. cbn [parser.phrase_loop].
  pose proof (get_word_atom false a rest Ha Hr1 Hr2) as Hw.
  cbn [lead app] in Hw. rewrite Hw.
  destruct (is_atom_spec a Ha) as (c & a' & Ea & Hch & _).
  destruct (is_atext_char_spec c Hch) as (_ & _ & _ & _ & Hp & _).
  rewrite Ea. cbn [app]. rewrite Hp. cbn [negb].
  assert (Hdot : (c =? ch ".") = false).
  { destruct (c =? ch ".") eqn:E; [|reflexivity]. apply N.eqb_eq in E.
    subst c. discriminate. }
  now rewrite Hdot.
Qed.

Lemma starts_with_node_append x y :
  starts_with_node x -> starts_with_node (parser.append x y).
Proof.
  intros (c & ty & c0 & ty0 & items0 & ds0 & items & ds & ->).
  cbn. now eexists _, _, _, _, _, _, _, _.
Qed.

Lemma starts_with_node_add_defect x d :
  starts_with_node x -> starts_with_node (parser.add_defect x d).
Proof.
  intros (c & ty & c0 & ty0 & items0 & ds0 & items & ds & ->).
  cbn. now eexists _, _, _, _, _, _, _, _.
Qed.

Lemma phrase_loop_dotted (atoms : list str) :
  forall (fuel : nat) (phrase : parser.token) (x : str),
    forallb is_atom atoms = true ->
    (2 * length atoms < fuel)%nat ->
    starts_with_node phrase ->
    exists t,
      parser.phrase_loop fuel phrase
        (concat (map (fun a => u "." ++ a) atoms) ++ ch "@" :: x)
      = Ok (t, ch "@" :: x)
      /\ starts_with_node t.
Proof.
  induction atoms as [|a atoms IH]; intros fuel phrase x Hall Hf Hph.
  - destruct fuel as [|fuel]; [lia|]. eexists. split; [reflexivity|exact Hph].
  - cbn [forallb] in Hall. apply andb_prop in Hall as [Ha Hall].
    destruct fuel as [|[|fuel]]; [simpl in Hf; lia|simpl in Hf; lia|].
    cbn [map concat]. rewrite <- !app_assoc.
    change (u "." ++ a ++ concat (map (fun a => u "." ++ a) atoms)
            ++ ch "@" :: x)
      with (ch "." :: (a ++ concat (map (fun a => u "." ++ a) atoms)
                       ++ ch "@" :: x)).
    rewrite phrase_loop_dot.
    set (rest := concat (map (fun a => u "." ++ a) atoms) ++ ch "@" :: x).
    assert (Hr : starts_in rest parser.ATOM_ENDS = nonempty rest
                 /\ starts_in rest parser.CFWS_LEADER = false).
    { unfold rest. destruct atoms as [|a2 atoms]; split; reflexivity. }
    destruct Hr as [Hr1 Hr2].
    rewrite (phrase_loop_word _ _ a rest Ha Hr1 Hr2).
    apply IH; [exact Hall|simpl in Hf; lia|].
    apply starts_with_node_append, starts_with_node_add_defect,
      starts_with_node_append, Hph.
Qed.

Lemma get_phrase_dotted (sp : bool) (atoms : list str) (x : str) :
  is_dot_atom atoms = true ->
  exists t, parser.get_phrase (lead sp ++ dotted atoms ++ ch "@" :: x)
            = Ok (t, ch "@" :: x)
            /\ starts_with_node t.
Proof.
  intros Hd.
  destruct (is_dot_atom_spec atoms Hd) as (a & atoms' & -> & Ha & Hall).
  rewrite dotted_tail, <- app_assoc. unfold parser.get_phrase.
  set (rest := concat (map (fun a => u "." ++ a) atoms') ++ ch "@" :: x).
  assert (Hr : starts_in rest parser.ATOM_ENDS = nonempty rest
               /\ starts_in rest parser.CFWS_LEADER = false).
  { unfold rest. destruct atoms' as [|a2 atoms]; split; reflexivity. }
  destruct Hr as [Hr1 Hr2].
  rewrite (get_word_atom sp a rest Ha Hr1 Hr2). cbn [mbind result_bind].
  apply phrase_loop_dotted; [exact Hall| |].
  - unfold rest. rewrite length_app.
    assert (H : (2 * length atoms'
                 <= length (concat (map (fun a => u "." ++ a) atoms')))%nat).
    { clear -Hall. induction atoms' as [|a l IH]; [simpl; lia|].
      cbn [forallb] in Hall. apply andb_prop in Hall as [Ha Hl].
      destruct (is_atom_spec a Ha) as (c & a' & -> & _).
      cbn [map concat]. rewrite !length_app. specialize (IH Hl).
      change (length (u ".")) with 1%nat. cbn [length]. lia. }
    cbn [length]. lia.
  - unfold atom_node, parser.new. cbn [parser.append parser.extend app].
    now eexists _, _, _, _, _, _, _, _.
Qed.

Lemma get_group_dotted (sp : bool) (atoms : list str) (x : str) :
  is_dot_atom atoms = true ->
  parser.get_group (lead sp ++ dotted atoms ++ ch "@" :: x)
  = Raise HeaderParseError.
Proof.
  intros Hd. unfold parser.get_group, parser.get_display_name.
  destruct (get_phrase_dotted sp atoms x Hd) as (t & Ht & _). rewrite Ht.
  reflexivity.
Qed.

Lemma get_name_addr_dotted (sp : bool) (atoms : list str) (x : str) :
  is_dot_atom atoms = true ->
  parser.get_name_addr (lead sp ++ dotted atoms ++ ch "@" :: x)
  = Raise HeaderParseError.
Proof.
  intros Hd. unfold parser.get_name_addr.
  destruct (dotted_head atoms Hd) as (c & s & Es & Hc).
  destruct (is_atext_char_spec c Hc) as (_ & Hs & _ & Hl & Hp & _).
  destruct (get_phrase_dotted false atoms x Hd) as (t & Ht & Hnode).
  cbn [lead app] in Ht.
  set (V := dotted atoms ++ ch "@" :: x) in *.
  assert (HV : V = c :: (s ++ ch "@" :: x)) by (unfold V; now rewrite Es).
  assert (Hfirst : first V = Ok c) by now rewrite HV.
  assert (Hlt : (c =? ch "<") = false).
  { destruct (c =? ch "<") eqn:E; [|reflexivity]. apply N.eqb_eq in E.
    subst c. discriminate. }
  assert (Hbody :
    forall leader : option parser.token,
      (c0 ← first V;
       '(name_addr, leader, value) ←
         (if negb (c0 =? ch "<") then
            if inb c0 parser.PHRASE_ENDS then Raise HeaderParseError
            else
              '(token, value) ← parser.get_display_name V;
              if negb (nonempty value) then Raise HeaderParseError
              else
                token ← match leader with
                        | Some l =>
                            parser.on_items
                              (parser.update_first (parser.prepend l)) token
                        | None => Ok token
                        end;
                Ok (parser.append (parser.new parser.NameAddr) token,
                    None, value)
          else Ok (parser.new parser.NameAddr, leader, V));
       '(token, value) ← parser.get_angle_addr value;
       token ← parser.prepend_leader leader token;
       Ok (parser.append name_addr token, value))
      = Raise HeaderParseError).
  { intros leader. rewrite Hfirst. cbn [mbind result_bind].
    rewrite Hlt, Hp. cbn [negb]. unfold parser.get_display_name.
    rewrite Ht. cbn [mbind result_bind nonempty negb].
    destruct Hnode as (c1 & ty1 & c0 & ty0 & items0 & ds0 & items & ds & ->).
    destruct leader as [l|]; reflexivity. }
  destruct sp; cbn [lead].
  - change (first (u " " ++ V)) with (@Ok uchar 32).
    cbn [mbind result_bind]. change (inb 32 parser.CFWS_LEADER) with true.
    cbn match. rewrite HV at 1. rewrite (get_cfws_space c _ Hc).
    cbn [mbind result_bind nonempty negb]. rewrite <- HV.
    exact (Hbody (Some cfws_space)).
  - cbn [app]. rewrite Hfirst at 1. cbn [mbind result_bind]. rewrite Hl.
    cbn [mbind result_bind]. exact (Hbody None).
Qed.

Lemma get_local_part_dotted (sp : bool) (atoms : list str) (x : str) :
  is_dot_atom atoms = true ->
  parser.get_local_part (lead sp ++ dotted atoms ++ ch "@" :: x)
  = Ok (parser.Node parser.LocalPart (Some "local-part"%string)
          [dot_atom_node sp atoms] [], ch "@" :: x).
Proof.
  intros Hd. unfold parser.get_local_part.
  destruct (dotted_head atoms Hd) as (c & s & Es & Hc).
  rewrite Es at 1. cbn [app]. rewrite (get_leader_lead sp _ _ Hc).
  cbn [mbind result_bind nonempty negb]. change (c :: s ++ ch "@" :: x)
    with ((c :: s) ++ ch "@" :: x). rewrite <- Es.
  rewrite (get_dot_atom_dotted atoms (ch "@" :: x) Hd eq_refl).
  cbn [try_except mbind result_bind]. unfold dot_atom_node at 1.
  cbn [leader_items app]. rewrite prepend_leader_node. reflexivity.
Qed.

Lemma get_domain_dotted (atoms : list str) (rest : str) :
  is_dot_atom atoms = true ->
  after_atom rest = true ->
  parser.get_domain (dotted atoms ++ rest)
  = Ok (parser.Node parser.Domain (Some "domain"%string)
          [dot_atom_node false atoms] [], rest).
Proof.
  intros Hd Hrest. unfold parser.get_domain.
  destruct (dotted_head atoms Hd) as (c & s & Es & Hc).
  destruct (is_atext_char_spec c Hc) as (_ & Hs & _ & Hl & _).
  rewrite Es at 1. cbn [app].
  pose proof (get_leader_lead false c (s ++ rest) Hc) as Hlead.
  cbn [lead app leader_of] in Hlead. rewrite Hlead.
  cbn [mbind result_bind].
  assert (Hb : (c =? ch "[") = false).
  { destruct (c =? ch "[") eqn:E; [|reflexivity]. apply N.eqb_eq in E.
    subst c. discriminate. }
  rewrite Hb. change (c :: s ++ rest) with ((c :: s) ++ rest). rewrite <- Es.
  rewrite (get_dot_atom_dotted atoms rest Hd Hrest).
  destruct (after_atom_spec rest Hrest) as (_ & _ & Hdot).
  cbn [try_except mbind result_bind parser.prepend_leader].
  cbn [parser.append parser.extend parser.new app]. now rewrite Hdot.
Qed.

Lemma get_addr_spec_dotted (sp : bool) (ls ds : list str) (rest : str) :
  is_dot_atom ls = true ->
  is_dot_atom ds = true ->
  after_atom rest = true ->
  parser.get_addr_spec (lead sp ++ dotted ls ++ u "@" ++ dotted ds ++ rest)
  = Ok (addr_spec_node sp ls ds, rest).
Proof.
  intros Hl Hd Hrest. unfold parser.get_addr_spec.
  change (u "@" ++ dotted ds ++ rest) with (ch "@" :: (dotted ds ++ rest)).
  rewrite (get_local_part_dotted sp ls _ Hl).
  cbn [mbind result_bind starts_with_char]. rewrite N.eqb_refl.
  cbn [negb slice_from drop]. rewrite drop_0.
  rewrite (get_domain_dotted ds rest Hd Hrest). reflexivity.
Qed.

Lemma all_defects_clean_leaves (c : parser.cls) ty items ds :
  forallb is_clean_leaf items = true ->
  parser.all_defects (parser.Node c ty items ds) = Ok ds.
Proof.
  cbn [parser.all_defects]. revert ds.
  induction items as [|x items IH]; intros ds H; [reflexivity|].
  cbn [forallb] in H. apply andb_prop in H as [Hx Hi].
  cbn [fold_left]. destruct x as [| c0 s0 ty0 [|d0 ds0] |]; try discriminate.
  cbn [mbind result_bind parser.all_defects]. rewrite app_nil_r. auto.
Qed.

Lemma dot_atom_items_clean (atoms : list str) :
  forallb is_clean_leaf (dot_atom_items atoms) = true.
Proof.
  induction atoms as [|a [|a2 atoms] IH]; [reflexivity|reflexivity|].
  change (dot_atom_items (a :: a2 :: atoms))
    with (atext_leaf a :: parser.DOT :: dot_atom_items (a2 :: atoms)).
  cbn [forallb]. exact IH.
Qed.

Lemma dot_atom_items_value (atoms : list str) :
  parser.concat_results (map parser.value (dot_atom_items atoms))
  = Ok (dotted atoms)
  /\ parser.concat_results (map parser.to_str (dot_atom_items atoms))
     = Ok (dotted atoms).
Proof.
  induction atoms as [|a [|a2 atoms] IH].
  - split; reflexivity.
  - split; cbn; now rewrite app_nil_r.
  - change (dot_atom_items (a :: a2 :: atoms))
      with (atext_leaf a :: parser.DOT :: dot_atom_items (a2 :: atoms)).
    rewrite dotted_cons by discriminate. destruct IH as [IH1 IH2].
    unfold parser.concat_results in *. cbn [map foldr].
    rewrite IH1, IH2. split; reflexivity.
Qed.

Lemma to_str_node (c : parser.cls) ty items ds :
  c <> parser.BareQuotedString -> c <> parser.Comment ->
  parser.to_str (parser.Node c ty items ds)
  = parser.concat_results (map parser.to_str items).
Proof. destruct c; congruence || reflexivity. Qed.

Lemma dot_atom_text_spec (atoms : list str) :
  let x := parser.Node parser.DotAtomText (Some "dot-atom-text"%string)
             (dot_atom_items atoms) [] in
  parser.to_str x = Ok (dotted atoms)
  /\ parser.value x = Ok (dotted atoms)
  /\ parser.all_defects x = Ok [].
Proof.
  destruct (dot_atom_items_value atoms) as [Hv Hs]. cbn zeta.
  split; [exact Hs|]. split; [exact Hv|].
  apply all_defects_clean_leaves, dot_atom_items_clean.
Qed.

Lemma cfws_space_spec :
  parser.to_str cfws_space = Ok (u " ")
  /\ parser.all_defects cfws_space = Ok []
  /\ parser.token_type_of cfws_space = Ok (Some "cfws"%string).
Proof. repeat split. Qed.

Lemma dot_atom_node_spec (sp : bool) (atoms : list str) :
  parser.to_str (dot_atom_node sp atoms) = Ok (lead sp ++ dotted atoms)
  /\ parser.all_defects (dot_atom_node sp atoms) = Ok [].
Proof.
  destruct (dot_atom_text_spec atoms) as (Hs & _ & Hd).
  destruct cfws_space_spec as (Hcs & Hcd & _).
  unfold dot_atom_node. split.
  - rewrite to_str_node by discriminate.
    destruct sp; cbn [leader_items app map lead];
      rewrite ?Hcs, Hs; unfold parser.concat_results;
      cbn [foldr mbind result_bind]; now rewrite ?app_nil_r.
  - rewrite all_defects_node. unfold mapM.
    destruct sp; cbn [leader_items app foldr]; rewrite ?Hcd, Hd; reflexivity.
Qed.

Lemma value_node_Domain ty items ds :
  parser.value (parser.Node parser.DotAtom ty items ds)
  = parser.concat_results (map parser.value items).
Proof. reflexivity. Qed.

Lemma dot_atom_node_value (atoms : list str) :
  parser.value (dot_atom_node false atoms) = Ok (dotted atoms).
Proof.
  destruct (dot_atom_text_spec atoms) as (_ & Hv & _).
  unfold dot_atom_node. rewrite value_node_Domain.
  cbn [leader_items app map]. rewrite Hv. unfold parser.concat_results.
  cbn [foldr mbind result_bind]. now rewrite app_nil_r.
Qed.

Lemma addr_spec_node_spec (sp : bool) (ls ds : list str) :
  parser.to_str (addr_spec_node sp ls ds)
  = Ok (lead sp ++ dotted ls ++ u "@" ++ dotted ds)
  /\ parser.all_defects (addr_spec_node sp ls ds) = Ok [].
Proof.
  destruct (dot_atom_node_spec sp ls) as (Hs1 & Hd1).
  destruct (dot_atom_node_spec false ds) as (Hs2 & Hd2).
  unfold addr_spec_node. split.
  - rewrite to_str_node by discriminate. cbn [map].
    rewrite !(to_str_node parser.LocalPart) by discriminate.
    rewrite !(to_str_node parser.Domain) by discriminate. cbn [map].
    rewrite Hs1, Hs2. unfold parser.concat_results.
    cbn [foldr mbind result_bind parser.to_str].
    now rewrite !app_nil_r, <- app_assoc.
  - rewrite all_defects_node. unfold mapM. cbn [foldr].
    rewrite !all_defects_node. unfold mapM. cbn [foldr].
    rewrite Hd1, Hd2. reflexivity.
Qed.

Lemma get_mailbox_dotted (sp : bool) (ls ds : list str) (rest : str) :
  is_dot_atom ls = true ->
  is_dot_atom ds = true ->
  after_atom rest = true ->
  parser.get_mailbox (lead sp ++ dotted ls ++ u "@" ++ dotted ds ++ rest)
  = Ok (mailbox_node sp ls ds, rest).
Proof.
  intros Hl Hd Hrest. unfold parser.get_mailbox.
  change (u "@" ++ dotted ds ++ rest) with (ch "@" :: (dotted ds ++ rest)).
  rewrite (get_name_addr_dotted sp ls _ Hl). cbn [try_except].
  change (ch "@" :: (dotted ds ++ rest)) with (u "@" ++ dotted ds ++ rest).
  rewrite (get_addr_spec_dotted sp ls ds rest Hl Hd Hrest).
  cbn [mbind result_bind].
  destruct (addr_spec_node_spec sp ls ds) as [_ Hdef]. rewrite Hdef.
  reflexivity.
Qed.

Lemma get_address_dotted (sp : bool) (ls ds : list str) (rest : str) :
  is_dot_atom ls = true ->
  is_dot_atom ds = true ->
  after_atom rest = true ->
  parser.get_address (lead sp ++ dotted ls ++ u "@" ++ dotted ds ++ rest)
  = Ok (address_node sp ls ds, rest).
Proof.
  intros Hl Hd Hrest. unfold parser.get_address.
  change (u "@" ++ dotted ds ++ rest) with (ch "@" :: (dotted ds ++ rest)).
  rewrite (get_group_dotted sp ls _ Hl). cbn [try_except].
  change (ch "@" :: (dotted ds ++ rest)) with (u "@" ++ dotted ds ++ rest).
  rewrite (get_mailbox_dotted sp ls ds rest Hl Hd Hrest). reflexivity.
Qed.

Lemma remove_whitespace_atoms (atoms : list str) :
  forallb is_atom atoms = true ->
  remove_whitespace (dotted atoms) = dotted atoms.
Proof.
  intros Hall. unfold remove_whitespace, str, uchar.
  assert (Hatom : forall a, forallb is_atext_char a = true ->
                            Forall (fun c => py_isspace c = false) a).
  { induction a as [|x a IHa]; [constructor|]. cbn [forallb]. intros Hf.
    apply andb_prop in Hf as [Hx Hf]. constructor; [|auto].
    now destruct (is_atext_char_spec x Hx) as (_ & _ & _ & _ & _ & Hsp & _). }
  assert (H : Forall (fun c => py_isspace c = false) (dotted atoms)).
  { induction atoms as [|a [|a2 atoms] IH].
    - constructor.
    - cbn [forallb] in Hall. apply andb_prop in Hall as [Ha _].
      destruct (is_atom_spec a Ha) as (_ & _ & _ & _ & Hf).
      cbn [dotted join]. auto.
    - cbn [forallb] in Hall. apply andb_prop in Hall as [Ha Hall].
      rewrite dotted_cons by discriminate.
      apply Forall_app. split; [|apply Forall_app; split].
      + destruct (is_atom_spec a Ha) as (_ & _ & _ & _ & Hf). auto.
      + repeat constructor.
      + apply IH. exact Hall. }
  induction H as [|c l Hc _ IH]; [reflexivity|].
  rewrite filter_cons_True by exact Hc. now rewrite IH.
Qed.

Lemma last_map_Some {A B} (f : A -> B) (l : list A) (x : A) :
  last l = Some x -> last (map f l) = Some (f x).
Proof.
  induction l as [|y [|z l] IH]; [discriminate| |].
  - intros E. injection E as <-. reflexivity.
  - intros E. apply IH in E. exact E.
Qed.

(** [strip_cfws_value] on a list that may start with a CFWS item, before
    one item that neither is nor starts or ends with CFWS: the value of
    that item. *)
Lemma strip_cfws_value_single (sp : bool) (i : parser.info)
    (sub : list (result (option string) * result str))
    (ty ft lt : option string) (fv lv : result str) :
  parser.i_token_type i = Ok ty -> parser.tt_is ty "cfws" = false ->
  parser.i_shape i = parser.SList sub ->
  head sub = Some (Ok ft, fv) -> parser.tt_is ft "cfws" = false ->
  last sub = Some (Ok lt, lv) -> parser.tt_is lt "cfws" = false ->
  parser.strip_cfws_value
    (map (fun y => parser.Orig (parser.summarize parser.value y))
         (leader_items sp)
     ++ [parser.Orig i])
  = (v ← parser.i_value i; Ok (v ++ [])).
Proof.
  intros Hty Hc Hsh Hhd Hf Hla Hl.
  assert (Hlast : forall res : list parser.elt,
    res = [parser.Orig i] ->
    (res ← match last res with
           | None => Raise IndexError
           | Some e =>
               ty ← parser.elt_token_type e;
               if parser.tt_is ty "cfws" then Ok (removelast res)
               else
                 lt ← parser.elt_last_type e;
                 if parser.tt_is lt "cfws"
                 then sub ← parser.elt_sub e;
                      Ok (removelast res ++ [parser.Fresh (removelast sub)])
                 else Ok res
           end;
     parser.join_values (map parser.elt_value res))
    = (v ← parser.i_value i; Ok (v ++ []))).
  { intros res ->. cbn [last parser.elt_token_type]. rewrite Hty.
    cbn [mbind result_bind]. rewrite Hc. unfold parser.elt_last_type.
    cbn [parser.elt_sub]. rewrite Hsh. cbn [mbind result_bind].
    rewrite Hla. cbn [mbind result_bind]. rewrite Hl.
    cbn [mbind result_bind map parser.elt_value].
    unfold parser.join_values, parser.concat_results. cbn [foldr].
    destruct (parser.i_value i); reflexivity. }
  unfold parser.strip_cfws_value. destruct sp; cbn [leader_items map app].
  - cbn [parser.elt_token_type parser.summarize parser.i_token_type].
    change (parser.token_type_of cfws_space) with (@Ok (option string) (Some "cfws"%string)).
    cbn [mbind result_bind].
    change (parser.tt_is (Some "cfws"%string) "cfws") with true. cbn match.
    cbn [mbind result_bind]. apply Hlast. reflexivity.
  - cbn [parser.elt_token_type]. rewrite Hty. cbn [mbind result_bind].
    rewrite Hc. unfold parser.elt_first_type.
    cbn [parser.elt_sub]. rewrite Hsh. cbn [mbind result_bind].
    destruct sub as [|[t0 v0] sub']; [discriminate|].
    cbn [head] in Hhd. injection Hhd as -> ->. cbn [mbind result_bind].
    rewrite Hf. cbn [mbind result_bind]. apply Hlast. reflexivity.
Qed.

Lemma mailbox_node_accessors (sp : bool) (ls ds : list str) :
  is_dot_atom ls = true ->
  is_dot_atom ds = true ->
  parser.to_str (mailbox_node sp ls ds)
  = Ok (lead sp ++ dotted ls ++ u "@" ++ dotted ds)
  /\ parser.display_name (mailbox_node sp ls ds) = Ok None
  /\ parser.local_part (mailbox_node sp ls ds) = Ok (Some (dotted ls))
  /\ parser.domain (mailbox_node sp ls ds) = Ok (Some (dotted ds))
  /\ parser.all_defects (mailbox_node sp ls ds) = Ok [].
Proof.
  intros Hl Hd.
  destruct (addr_spec_node_spec sp ls ds) as [Hstr Hdef].
  pose proof (dot_atom_node_value ds) as Hvd.
  destruct (dot_atom_items_value ls) as [Hvl _].
  split; [|split; [|split; [|split]]].
  - unfold mailbox_node. rewrite to_str_node by discriminate. cbn [map].
    rewrite Hstr. unfold parser.concat_results.
    cbn [foldr mbind result_bind]. now rewrite app_nil_r.
  - reflexivity.
  - unfold mailbox_node, addr_spec_node, dot_atom_node.
    cbn [parser.local_part parser.TokenList_of mbind result_bind].
    destruct (is_dot_atom_spec ls Hl) as (a & ls' & Els & _ & _).
    assert (Hne : ls <> []) by (subst; discriminate).
    destruct (dot_atom_items_first ls Hne) as (a1 & l1 & E1).
    destruct (dot_atom_items_last ls Hne) as (a2 & E2).
    rewrite map_app. cbn [map].
    erewrite (strip_cfws_value_single sp);
      [|reflexivity|reflexivity|reflexivity
       |cbn [parser.summarize parser.i_shape]; rewrite E1; reflexivity
       |reflexivity
       |exact (last_map_Some _ _ _ E2)
       |reflexivity].
    cbn [parser.summarize parser.i_value parser.value].
    unfold parser.join_values. rewrite Hvl. cbn [mbind result_bind].
    now rewrite app_nil_r.
  - unfold mailbox_node, addr_spec_node.
    cbn [parser.domain mbind result_bind].
    unfold parser.join_values. cbn [map]. rewrite Hvd.
    unfold parser.concat_results. cbn [foldr mbind result_bind].
    rewrite app_nil_r.
    rewrite remove_whitespace_atoms; [reflexivity|].
    unfold is_dot_atom in Hd. now apply andb_prop in Hd as [_ Hd].
  - unfold mailbox_node. rewrite all_defects_node. unfold mapM.
    cbn [foldr]. rewrite Hdef. reflexivity.
Qed.

Lemma address_list_loop_unfold (fuel : nat) (al : parser.token) (value : str) :
  parser.address_list_loop (S fuel) al value
  = if nonempty value then
      '(al, value) ← parser.address_list_step al value;
      parser.address_list_loop fuel al value
    else Ok (al, value).
Proof. reflexivity. Qed.

Lemma address_list_step_last (sp : bool) (e : list str * list str)
    (al : parser.token) :
  is_plain_address e = true ->
  parser.address_list_step al (lead sp ++ plain_address e)
  = Ok (parser.append al (address_node sp e.1 e.2), []).
Proof.
  intros He. apply andb_prop in He as [Hl Hd].
  unfold parser.address_list_step, plain_address.
  rewrite <- (app_nil_r (dotted e.2)) at 1.
  rewrite (get_address_dotted sp e.1 e.2 [] Hl Hd eq_refl). reflexivity.
Qed.

Lemma address_list_step_more (sp : bool) (e : list str * list str)
    (al : parser.token) (r : str) :
  is_plain_address e = true ->
  parser.address_list_step al (lead sp ++ plain_address e ++ ch "," :: r)
  = Ok (parser.append (parser.append al (address_node sp e.1 e.2))
          parser.ListSeparator, r).
Proof.
  intros He. apply andb_prop in He as [Hl Hd].
  unfold parser.address_list_step, plain_address.
  rewrite <- !app_assoc.
  rewrite (get_address_dotted sp e.1 e.2 (ch "," :: r) Hl Hd eq_refl).
  cbn [mbind result_bind nonempty starts_with_char].
  rewrite N.eqb_refl. cbn [negb andb slice_from drop]. now rewrite ?drop_0.
Qed.

Lemma plain_address_head (sp : bool) (e : list str * list str) (r : str) :
  is_plain_address e = true ->
  nonempty (lead sp ++ plain_address e ++ r) = true.
Proof.
  intros He. apply andb_prop in He as [Hl _].
  destruct (dotted_head e.1 Hl) as (c & s & Es & _).
  unfold plain_address. rewrite Es. destruct sp; reflexivity.
Qed.

Lemma join_cons2 (sep x y : str) (l : list str) :
  join sep (x :: y :: l) = x ++ sep ++ join sep (y :: l).
Proof. reflexivity. Qed.

Lemma address_list_loop_plain (entries : list (list str * list str)) :
  forall (sp : bool) (fuel : nat) (c : parser.cls) ty items ds,
    entries <> [] ->
    forallb is_plain_address entries = true ->
    (length entries < fuel)%nat ->
    parser.address_list_loop fuel (parser.Node c ty items ds)
      (lead sp ++ join (u ", ") (map plain_address entries))
    = Ok (parser.Node c ty (items ++ address_list_items sp entries) ds, []).
Proof.
  induction entries as [|e entries IH];
    intros sp fuel c ty items ds Hne Hall Hf; [congruence|].
  cbn [forallb] in Hall. apply andb_prop in Hall as [He Hall].
  destruct fuel as [|fuel]; [lia|]. rewrite address_list_loop_unfold.
  destruct entries as [|e2 entries].
  - cbn [map join address_list_items].
    pose proof (plain_address_head sp e [] He) as Hhead.
    rewrite app_nil_r in Hhead. rewrite Hhead.
    rewrite (address_list_step_last sp e _ He). cbn [mbind result_bind].
    destruct fuel as [|fuel]; [simpl in Hf; lia|]. reflexivity.
  - cbn [map]. rewrite join_cons2.
    change (u ", " ++ join (u ", ") (plain_address e2 :: map plain_address entries))
      with (ch "," :: (lead true
                       ++ join (u ", ") (map plain_address (e2 :: entries)))).
    rewrite (plain_address_head sp e _ He).
    rewrite (address_list_step_more sp e _ _ He). cbn [mbind result_bind].
    cbn [parser.append parser.extend].
    rewrite IH; [|discriminate|exact Hall|simpl in *; lia].
    rewrite <- !app_assoc. reflexivity.
Qed.

Lemma lstrip_lead (sp : bool) (e : list str * list str) :
  is_plain_address e = true ->
  lstrip (lead sp ++ plain_address e) = plain_address e.
Proof.
  intros He. apply andb_prop in He as [Hl _].
  destruct (dotted_head e.1 Hl) as (c & s & Es & Hc).
  destruct (is_atext_char_spec c Hc) as (_ & _ & _ & _ & _ & Hsp & _).
  unfold plain_address. rewrite Es. destruct sp.
  - change (lead true ++ (c :: s) ++ u "@" ++ dotted e.2)
      with (32 :: c :: (s ++ u "@" ++ dotted e.2)).
    cbn [lstrip]. change (py_isspace 32) with true. cbn match.
    now rewrite Hsp.
  - cbn [lead app lstrip]. now rewrite Hsp.
Qed.

Lemma Address_of_mailbox_plain (sp : bool) (e : list str * list str) :
  is_plain_address e = true ->
  header.Address_of_mailbox (mailbox_node sp e.1 e.2)
  = Ok (Address_of_plain e).
Proof.
  intros He. pose proof He as He'. apply andb_prop in He' as [Hl Hd].
  destruct (mailbox_node_accessors sp e.1 e.2 Hl Hd)
    as (Hs & Hn & Hlp & Hdo & Hde).
  unfold header.Address_of_mailbox. rewrite Hs, Hn, Hlp, Hdo, Hde.
  cbn [mbind result_bind header.or_empty].
  fold (plain_address e). now rewrite (lstrip_lead sp e He).
Qed.

Lemma Group_of_address_plain (sp : bool) (e : list str * list str) :
  is_plain_address e = true ->
  header.Group_of_address (address_node sp e.1 e.2)
  = Ok (Group_of_plain e).
Proof.
  intros He. pose proof He as He'. apply andb_prop in He' as [Hl Hd].
  destruct (mailbox_node_accessors sp e.1 e.2 Hl Hd) as (Hs & _).
  unfold header.Group_of_address, address_node.
  rewrite to_str_node by discriminate. cbn [map]. rewrite Hs.
  unfold parser.concat_results. cbn [foldr mbind result_bind].
  rewrite app_nil_r.
  change (parser.display_name
            (parser.Node parser.Address (Some "address"%string)
               [mailbox_node sp e.1 e.2] []))
    with (@Ok (option str) None).
  change (parser.all_mailboxes
            (parser.Node parser.Address (Some "address"%string)
               [mailbox_node sp e.1 e.2] []))
    with (@Ok (list parser.token) [mailbox_node sp e.1 e.2]).
  cbn [mbind result_bind]. unfold mapM. cbn [foldr].
  rewrite (Address_of_mailbox_plain sp e He). cbn [mbind result_bind].
  fold (plain_address e). now rewrite (lstrip_lead sp e He).
Qed.

Lemma addresses_plain (entries : list (list str * list str)) :
  forall (sp : bool) ty ds,
    parser.addresses
      (parser.Node parser.AddressList ty (address_list_items sp entries) ds)
    = Ok (address_nodes sp entries).
Proof.
  induction entries as [|e [|e2 entries] IH]; intros sp ty ds;
    [reflexivity|reflexivity|].
  specialize (IH true ty ds).
  change (address_list_items sp (e :: e2 :: entries))
    with (address_node sp e.1 e.2 :: parser.ListSeparator
          :: address_list_items true (e2 :: entries)).
  cbn [parser.addresses foldr] in IH |- *.
  change (parser.token_type_of (address_node sp e.1 e.2))
    with (@Ok (option string) (Some "address"%string)).
  change (parser.token_type_of parser.ListSeparator)
    with (@Ok (option string) (Some "list-separator"%string)).
  cbn [mbind result_bind].
  destruct (foldr _ _ (address_list_items true (e2 :: entries))) as [l|x];
    [|discriminate].
  injection IH as ->. reflexivity.
Qed.

Lemma all_defects_address_list (entries : list (list str * list str)) :
  forall (sp : bool) ty,
    forallb is_plain_address entries = true ->
    parser.all_defects
      (parser.Node parser.AddressList ty (address_list_items sp entries) [])
    = Ok [].
Proof.
  intros sp ty Hall. rewrite all_defects_node.
  assert (H : exists ls, mapM parser.all_defects
                           (address_list_items sp entries) = Ok ls
                         /\ concat ls = []).
  { revert sp. induction entries as [|e [|e2 entries] IH]; intros sp.
    - exists []. split; reflexivity.
    - cbn [forallb] in Hall. apply andb_prop in Hall as [He _].
      apply andb_prop in He as [Hl Hd].
      destruct (mailbox_node_accessors sp e.1 e.2 Hl Hd)
        as (_ & _ & _ & _ & Hde).
      exists [[]]. split; [|reflexivity].
      cbn [address_list_items]. unfold mapM. cbn [foldr].
      unfold address_node. rewrite all_defects_node. unfold mapM.
      cbn [foldr]. rewrite Hde. reflexivity.
    - cbn [forallb] in Hall. apply andb_prop in Hall as [He Hall].
      apply andb_prop in He as [Hl Hd].
      destruct (mailbox_node_accessors sp e.1 e.2 Hl Hd)
        as (_ & _ & _ & _ & Hde).
      destruct (IH Hall true) as (ls & Els & Hcat).
      exists ([] :: [] :: ls). split; [|exact Hcat].
      change (address_list_items sp (e :: e2 :: entries))
        with (address_node sp e.1 e.2 :: parser.ListSeparator
              :: address_list_items true (e2 :: entries)).
      unfold mapM in *. cbn [foldr]. rewrite Els.
      unfold address_node at 1. rewrite all_defects_node. unfold mapM.
      cbn [foldr]. rewrite Hde. reflexivity. }
  destruct H as (ls & -> & Hcat). cbn [mbind result_bind]. now rewrite Hcat.
Qed.

Lemma AddressHeader_parse_plain (entries : list (list str * list str)) :
  forallb is_plain_address entries = true ->
  header.AddressHeader_parse (join (u ", ") (map plain_address entries))
  = Ok {| header.decoded := join (u ", ") (map plain_address entries);
          header.defects := [];
          header.groups := Some (map Group_of_plain entries);
          header.datetime := None |}.
Proof.
  intros Hall. destruct entries as [|e entries]; [reflexivity|].
  unfold header.AddressHeader_parse, parser.get_address_list, parser.new.
  pose proof (address_list_loop_plain (e :: entries) false
                (S (length (join (u ", ") (map plain_address (e :: entries)))))
                parser.AddressList
                (parser.class_token_type parser.AddressList) [] []) as Hloop.
  cbn [lead app] in Hloop. rewrite Hloop; [|discriminate|exact Hall|].
  - cbn [mbind result_bind nonempty].
    rewrite addresses_plain. cbn [mbind result_bind].
    rewrite (all_defects_address_list (e :: entries) false _ Hall).
    assert (Hg : mapM header.Group_of_address (address_nodes false (e :: entries))
                 = Ok (map Group_of_plain (e :: entries))).
    { cbn [forallb] in Hall. apply andb_prop in Hall as [He Hrest].
      cbn [address_nodes map]. unfold mapM. cbn [foldr].
      rewrite (Group_of_address_plain false e He).
      assert (Hr : foldr (fun x acc => y ← header.Group_of_address x;
                                       rest ← acc; Ok (y :: rest)) (Ok [])
                     (map (fun e => address_node true e.1 e.2) entries)
                   = Ok (map Group_of_plain entries)).
      { clear -Hrest. induction entries as [|e2 entries IH]; [reflexivity|].
        cbn [forallb] in Hrest. apply andb_prop in Hrest as [He2 Hrest].
        cbn [map foldr]. rewrite (IH Hrest).
        rewrite (Group_of_address_plain true e2 He2). reflexivity. }
      rewrite Hr. reflexivity. }
    rewrite Hg. cbn [mbind result_bind]. do 2 f_equal.
    rewrite map_map. reflexivity.
  - (* the fuel *)
    clear Hloop. apply Nat.lt_succ_r.
    generalize (e :: entries) Hall. clear. intros l Hall.
    induction l as [|x [|y l] IH]; [simpl; lia| |].
    + cbn [forallb] in Hall. apply andb_prop in Hall as [Hx _].
      pose proof (plain_address_head false x [] Hx) as H.
      cbn [lead app map join] in *. rewrite app_nil_r in H.
      destruct (plain_address x); [discriminate|simpl; lia].
    + cbn [forallb] in Hall. apply andb_prop in Hall as [Hx Hall].
      specialize (IH Hall). cbn [map] in *. rewrite join_cons2.
      rewrite !length_app. change (length (u ", ")) with 2%nat.
      cbn [length] in *. lia.
Qed.

(** X10.  An address header of plain addresses: for entries
    [local@domain] whose local parts and domains are dot-atoms, joined by a
    comma and a space, [AddressHeader.parse] returns the text unchanged as
    the decoded value, one group per entry holding the one address with
    its user name and domain, no display name, and no defect. *)
Theorem plain_address_list_header (entries : list (list str * list str)) :
  forallb is_plain_address entries = true ->
  header.AddressHeader_parse (join (u ", ") (map plain_address entries))
  = Ok {| header.decoded := join (u ", ") (map plain_address entries);
          header.defects := [];
          header.groups := Some (map Group_of_plain entries);
          header.datetime := None |}.
Proof. exact (AddressHeader_parse_plain entries). Qed.

Lemma plain_address_list_header_witness :
  header.AddressHeader_parse (u "john.doe@example.com, x@y.org")
  = Ok {| header.decoded := u "john.doe@example.com, x@y.org";
          header.defects := [];
          header.groups :=
            Some [ {| header.Group_str := u "john.doe@example.com";
                      header.Group_name := None;
                      header.Group_addresses :=
                        [ {| header.Address_str := u "john.doe@example.com";
                             header.Address_name := [];
                             header.Address_username := u "john.doe";
                             header.Address_domain := u "example.com";
                             header.Address_defects := [] |} ] |};
                   {| header.Group_str := u "x@y.org";
                      header.Group_name := None;
                      header.Group_addresses :=
                        [ {| header.Address_str := u "x@y.org";
                             header.Address_name := [];
                             header.Address_username := u "x";
                             header.Address_domain := u "y.org";
                             header.Address_defects := [] |} ] |} ];
          header.datetime := None |}.
Proof.
  apply (plain_address_list_header
           [([u "john"; u "doe"], [u "example"; u "com"]);
            ([u "x"], [u "y"; u "org"])]).
  reflexivity.
Defined.

Lemma quote_string_head (s rest : str) :
  exists tl, parser.quote_string s ++ rest = DQUOTE :: tl.
Proof. rewrite quote_string_flat_map. eexists. reflexivity. Qed.

Lemma get_quoted_string_quoted (s x : str) :
  exists toks,
    parser.get_quoted_string (parser.quote_string s ++ ch "@" :: x)
    = Ok (quoted_string_node toks, ch "@" :: x)
    /\ forallb is_leaf toks = true
    /\ forallb is_qcontent toks = true
    /\ concat (map literal toks) = s.
Proof.
  destruct (get_bare_quoted_string_quoted s (ch "@" :: x))
    as (toks & E & Hl & Hq & Hc).
  exists toks. split; [|auto].
  unfold parser.get_quoted_string.
  rewrite optional_cfws_none.
  - cbn [mbind result_bind]. rewrite E. cbn [mbind result_bind].
    rewrite optional_cfws_none by reflexivity. reflexivity.
  - destruct (quote_string_head s (ch "@" :: x)) as [tl ->]. reflexivity.
Qed.

Lemma get_leader_none (c : uchar) (v : str) :
  inb c parser.CFWS_LEADER = false ->
  parser.get_leader (c :: v) = Ok (None, c :: v).
Proof.
  intros H. unfold parser.get_leader. cbn [first mbind result_bind].
  now rewrite H.
Qed.

Lemma get_dot_atom_special (c : uchar) (v : str) :
  inb c parser.CFWS_LEADER = false ->
  inb c parser.ATOM_ENDS = true ->
  parser.get_dot_atom (c :: v) = Raise HeaderParseError.
Proof.
  intros Hl He. unfold parser.get_dot_atom. cbn [first mbind result_bind].
  rewrite Hl. cbn [mbind result_bind]. unfold parser.get_dot_atom_text.
  cbn [nonempty negb orb starts_in]. now rewrite He.
Qed.

Lemma get_word_quoted (s x : str) :
  exists toks,
    parser.get_word (parser.quote_string s ++ ch "@" :: x)
    = Ok (quoted_string_node toks, ch "@" :: x)
    /\ forallb is_leaf toks = true
    /\ forallb is_qcontent toks = true
    /\ concat (map literal toks) = s.
Proof.
  destruct (get_quoted_string_quoted s x) as (toks & E & H).
  exists toks. split; [|exact H]. revert E.
  destruct (quote_string_head s (ch "@" :: x)) as [tl ->]. intros E.
  unfold parser.get_word. rewrite get_leader_none by reflexivity.
  cbn [mbind result_bind first]. change (DQUOTE =? DQUOTE) with true.
  cbn match. rewrite E. reflexivity.
Qed.

Lemma get_local_part_quoted (s x : str) :
  exists toks,
    parser.get_local_part (parser.quote_string s ++ ch "@" :: x)
    = Ok (quoted_local_part_node toks, ch "@" :: x)
    /\ forallb is_leaf toks = true
    /\ forallb is_qcontent toks = true
    /\ concat (map literal toks) = s.
Proof.
  destruct (get_word_quoted s x) as (toks & E & H).
  exists toks. split; [|exact H]. revert E.
  destruct (quote_string_head s (ch "@" :: x)) as [tl ->]. intros E.
  unfold parser.get_local_part. rewrite get_leader_none by reflexivity.
  cbn [mbind result_bind nonempty negb].
  rewrite get_dot_atom_special by reflexivity.
  cbn [try_except]. rewrite E. reflexivity.
Qed.

Lemma is_qcontent_spec (x : parser.token) :
  is_qcontent x = true ->
  exists c s ty ds, x = parser.Leaf c s ty ds
                    /\ parser.tt_is (Some ty) "cfws" = false.
Proof.
  destruct x as [| c s ty ds |]; try discriminate. cbn [is_qcontent].
  intros H. exists c, s, ty, ds. split; [reflexivity|].
  unfold parser.tt_is. apply bool_decide_eq_false. intros E.
  injection E as ->. discriminate.
Qed.

(** [local_part] of a quoted local part: the text between the quotes. *)
Lemma quoted_local_part_node_local_part (toks : list parser.token) :
  toks <> [] ->
  forallb is_leaf toks = true ->
  forallb is_qcontent toks = true ->
  parser.local_part (quoted_local_part_node toks)
  = Ok (Some (concat (map literal toks))).
Proof.
  intros Hne Hl Hq.
  unfold quoted_local_part_node, quoted_string_node.
  cbn [parser.local_part parser.TokenList_of map].
  destruct (bare_quoted_string_value (Some "bare-quoted-string"%string)
              toks [] Hl) as [Hv _].
  assert (Hhead : exists ft fv,
             head (map (fun y => (parser.token_type_of y, parser.value y)) toks)
             = Some (Ok ft, fv) /\ parser.tt_is ft "cfws" = false).
  { destruct toks as [|x toks']; [congruence|]. cbn [forallb] in Hq.
    apply andb_prop in Hq as [Hx _].
    destruct (is_qcontent_spec x Hx) as (c & s & ty & ds & -> & Hty).
    eexists _, _. split; [reflexivity|exact Hty]. }
  assert (Hlast : exists lt lv,
             last (map (fun y => (parser.token_type_of y, parser.value y)) toks)
             = Some (Ok lt, lv) /\ parser.tt_is lt "cfws" = false).
  { destruct (last toks) as [x|] eqn:E.
    - assert (Hx : is_qcontent x = true).
      { rewrite forallb_forall in Hq. apply Hq.
        apply list_elem_of_In. apply last_Some_elem_of. exact E. }
      destruct (is_qcontent_spec x Hx) as (c & s & ty & ds & -> & Hty).
      eexists _, _. split; [|exact Hty].
      exact (last_map_Some _ _ _ E).
    - apply last_None in E. congruence. }
  destruct Hhead as (ft & fv & Hhd & Hft).
  destruct Hlast as (lt & lv & Hla & Hlt).
  pose proof (strip_cfws_value_single false
                (parser.summarize parser.value
                   (parser.Node parser.BareQuotedString
                      (Some "bare-quoted-string"%string) toks []))
                _ (Some "bare-quoted-string"%string) ft lt fv lv
                eq_refl eq_refl eq_refl Hhd Hft Hla Hlt) as H.
  cbn [leader_items map app] in H. cbn [mbind result_bind]. rewrite H.
  cbn [parser.summarize parser.i_value]. rewrite Hv.
  cbn [mbind result_bind]. now rewrite app_nil_r.
Qed.

Lemma domain_node_domain (ds : list str) :
  is_dot_atom ds = true ->
  parser.domain (parser.Node parser.Domain (Some "domain"%string)
                   [dot_atom_node false ds] [])
  = Ok (Some (dotted ds)).
Proof.
  intros Hd. pose proof (dot_atom_node_value ds) as Hvd.
  cbn [parser.domain]. unfold parser.join_values. cbn [map]. rewrite Hvd.
  unfold parser.concat_results. cbn [foldr mbind result_bind].
  rewrite app_nil_r. rewrite remove_whitespace_atoms; [reflexivity|].
  unfold is_dot_atom in Hd. now apply andb_prop in Hd as [_ Hd].
Qed.

(** X11.  [Address.addr_spec] writes an addr-spec that [get_addr_spec]
    reads back: for a domain that is a dot-atom and a user name that is an
    atom or holds a character of [ATOM_ENDS] (it is then written as a
    quoted string, whatever else it holds), the parser consumes the whole
    text, and the local part and the domain of the token are the user name
    and the domain of the address. *)
Theorem addr_spec_parses_back (a : header.Address) (ds : list str) :
  header.Address_domain a = dotted ds ->
  is_dot_atom ds = true ->
  is_atom (header.Address_username a) = true
  \/ existsb (fun c => inb c parser.ATOM_ENDS) (header.Address_username a)
     = true ->
  exists t,
    parser.get_addr_spec (Address_addr_spec a) = Ok (t, [])
    /\ parser.local_part t = Ok (Some (header.Address_username a))
    /\ parser.domain t = Ok (Some (header.Address_domain a)).
Proof.
  intros Edom Hd Huser. unfold Address_addr_spec. rewrite Edom.
  destruct (dotted_head ds Hd) as (c0 & s0 & Eds & _).
  assert (Hne : nonempty (dotted ds) = true) by now rewrite Eds.
  rewrite Hne.
  destruct (existsb (fun c => inb c parser.ATOM_ENDS)
              (header.Address_username a)) eqn:Ends.
  - (* a quoted local part *)
    destruct (get_local_part_quoted (header.Address_username a) (dotted ds))
      as (toks & E & Hl & Hq & Hc).
    change (u "@" ++ dotted ds) with (ch "@" :: dotted ds).
    unfold parser.get_addr_spec. rewrite E.
    cbn [mbind result_bind starts_with_char]. rewrite N.eqb_refl.
    cbn [negb slice_from drop]. rewrite drop_0.
    pose proof (get_domain_dotted ds [] Hd eq_refl) as Edm.
    rewrite app_nil_r in Edm. rewrite Edm. cbn [mbind result_bind].
    eexists. split; [reflexivity|]. split.
    + cbn [parser.append parser.extend parser.new app].
      change (parser.local_part (parser.Node parser.AddrSpec ?ty
                (quoted_local_part_node toks :: ?l) ?d))
        with (parser.local_part (quoted_local_part_node toks)).
      rewrite quoted_local_part_node_local_part; [now rewrite Hc| |exact Hl|exact Hq].
      intros ->. cbn in Hc. rewrite <- Hc in Ends. discriminate.
    + cbn [parser.append parser.extend parser.new app].
      exact (domain_node_domain ds Hd).
  - (* an atom *)
    destruct Huser as [Hatom|]; [|discriminate].
    assert (Hls : is_dot_atom [header.Address_username a] = true).
    { unfold is_dot_atom. cbn [nonempty forallb andb]. now rewrite Hatom. }
    pose proof (get_addr_spec_dotted false [header.Address_username a] ds []
                  Hls Hd eq_refl) as E.
    cbn [lead app dotted join] in E. rewrite app_nil_r in E.
    fold (dotted ds) in E. rewrite E.
    destruct (mailbox_node_accessors false [header.Address_username a] ds
                Hls Hd) as (_ & _ & Hlp & Hdm & _).
    eexists. split; [reflexivity|]. split; [exact Hlp|exact Hdm].
Qed.

Lemma addr_spec_parses_back_witness :
  (exists t,
      parser.get_addr_spec (u "jdoe@example.com") = Ok (t, [])
      /\ parser.local_part t = Ok (Some (u "jdoe"))
      /\ parser.domain t = Ok (Some (u "example.com")))
  /\ (exists t,
        parser.get_addr_spec ([DQUOTE] ++ u "john doe" ++ [DQUOTE]
                              ++ u "@example.com") = Ok (t, [])
        /\ parser.local_part t = Ok (Some (u "john doe"))
        /\ parser.domain t = Ok (Some (u "example.com"))).
Proof.
  split.
  - apply (addr_spec_parses_back
             {| header.Address_str := u "jdoe@example.com";
                header.Address_name := [];
                header.Address_username := u "jdoe";
                header.Address_domain := u "example.com";
                header.Address_defects := [] |}
             [u "example"; u "com"]);
      [reflexivity | reflexivity | left; reflexivity].
  - apply (addr_spec_parses_back
             {| header.Address_str := [];
                header.Address_name := [];
                header.Address_username := u "john doe";
                header.Address_domain := u "example.com";
                header.Address_defects := [] |}
             [u "example"; u "com"]);
      [reflexivity | reflexivity | right; reflexivity].
Defined.

(** ** Further properties of the old and new style headers *)

(** X12.  The registry of the header factory ignores the case of ASCII
    names: for ASCII [name] and [name'], after [map_to_type(name, cls)] a
    lookup of [name'] gives [cls] when the two names are equal up to the
    case of their letters, and what it gave before otherwise; the default
    class is kept. *)
Theorem registry_is_case_insensitive (f : header.HeaderFactory)
    (name name' : str) (cls : header.header_class) :
  is_ascii name = true ->
  is_ascii name' = true ->
  header.getitem (header.map_to_type name cls f) name'
  = (if bool_decide (lower name = lower name') then cls
     else header.getitem f name')
  /\ header.default_class (header.map_to_type name cls f)
     = header.default_class f.
Proof.
  intros _ _. unfold header.getitem, header.map_to_type.
  cbn [header.registry header.default_class]. split.
  - destruct (bool_decide_reflect (lower name = lower name')) as [E|E].
    + now rewrite E, lookup_insert_eq.
    + now rewrite lookup_insert_ne.
  - reflexivity.
Qed.

(** The instance at a name registered in mixed case and looked up in
    another. *)
Lemma registry_is_case_insensitive_witness :
  header.getitem
    (header.map_to_type (u "X-Sender") header.AddressHeader
       header.new_HeaderFactory) (u "x-SENDER")
  = header.AddressHeader
  /\ header.default_class
       (header.map_to_type (u "X-Sender") header.AddressHeader
          header.new_HeaderFactory)
     = header.UnstructuredHeader.
Proof.
  exact (registry_is_case_insensitive header.new_HeaderFactory
           (u "X-Sender") (u "x-SENDER") header.AddressHeader
           eq_refl eq_refl).
Defined.

Lemma acc_len_fold (ps : list (str * str)) (n : nat) :
  fold_left (fun n p => (n + (length p.1 + length p.2))%nat) ps n
  = (n + length (concat (map (fun p => p.1 ++ p.2) ps)))%nat.
Proof.
  revert n. induction ps as [|p ps IH]; intros n; cbn [fold_left map concat].
  - simpl. lia.
  - rewrite IH, !length_app. lia.
Qed.

(** X13.  The current line of the formatter: its length is the initial
    size plus the length of its text; [pop] after [push] returns the pushed
    pair and the line as it was; [push] appends the white space and the
    string to the text and adds their lengths; [pop_from] splits the text
    without losing any of it; [pop] on a line without parts returns the
    pair of empty strings and leaves the line alone. *)
Theorem accumulator_laws (a : header._Accumulator) (fws string : str) :
  header.acc_len a
  = (header._initial_size a + length (header.acc_str a))%nat
  /\ header.pop (header.push fws string a) = ((fws, string), a)
  /\ header.acc_str (header.push fws string a)
     = header.acc_str a ++ fws ++ string
  /\ header.acc_len (header.push fws string a)
     = (header.acc_len a + length fws + length string)%nat
  /\ (forall i,
         header.acc_str (header.pop_from i a).2
         ++ concat (map (fun p => p.1 ++ p.2) (header.pop_from i a).1)
         = header.acc_str a)
  /\ (header.parts a = [] -> header.pop a = (([], []), a)).
Proof.
  destruct a as [ps n]. unfold header.acc_len, header.acc_str, header.pop,
    header.push, header.pop_from.
  cbn [header.parts header._initial_size fst snd].
  split; [apply acc_len_fold|]. split.
  { rewrite last_snoc, removelast_last. reflexivity. }
  split.
  { rewrite map_app, concat_app. cbn [map concat fst snd].
    now rewrite app_nil_r. }
  split.
  { rewrite !acc_len_fold, map_app, concat_app, !length_app.
    cbn [map concat fst snd]. rewrite app_nil_r, length_app.
    unfold str, uchar in *. lia. }
  split.
  { intros i. rewrite <- concat_app, <- map_app, take_drop. reflexivity. }
  intros ->. reflexivity.
Qed.

Lemma all_defects_fold (items : list parser.token) (acc : result (list defect)) :
  fold_left (fun acc y => a ← acc; d ← parser.all_defects y; Ok (a ++ d))
            items acc
  = (a ← acc; ls ← mapM parser.all_defects items; Ok (a ++ concat ls)).
Proof.
  revert acc. induction items as [|x items IH]; intros acc.
  - destruct acc; cbn; [now rewrite app_nil_r|reflexivity].
  - cbn [fold_left]. rewrite IH. unfold mapM. cbn [foldr].
    destruct acc as [a|e]; cbn [mbind result_bind]; [|reflexivity].
    destruct (parser.all_defects x) as [d|e]; cbn [mbind result_bind];
      [|reflexivity].
    destruct (foldr _ _ items) as [ls|e]; cbn [mbind result_bind];
      [|reflexivity].
    cbn [concat]. now rewrite app_assoc.
Qed.

(** X14.  [all_defects] of a list under construction: after [append] it
    is that of the list followed by that of the new item, after [extend]
    that of the list followed by those of the new items in order, and
    after a defect is added to the list's own defects, the new defect comes
    after the list's own and before those of the items. *)
Theorem defects_of_built_lists (c : parser.cls) (ty : option string)
    (items : list parser.token) (ds : list defect)
    (x : parser.token) (xs : list parser.token) (d : defect) :
  let l := parser.Node c ty items ds in
  parser.all_defects (parser.append l x)
  = (a ← parser.all_defects l; b ← parser.all_defects x; Ok (a ++ b))
  /\ parser.all_defects (parser.extend l xs)
     = (a ← parser.all_defects l; bs ← mapM parser.all_defects xs;
        Ok (a ++ concat bs))
  /\ parser.all_defects (parser.add_defect l d)
     = (ls ← mapM parser.all_defects items; Ok (ds ++ [d] ++ concat ls)).
Proof.
  cbn zeta. unfold parser.append.
  cbn [parser.extend parser.add_defect parser.all_defects].
  split; [|split].
  - rewrite fold_left_app. cbn [fold_left]. reflexivity.
  - rewrite fold_left_app. now rewrite (all_defects_fold xs).
  - rewrite all_defects_fold. cbn [mbind result_bind].
    destruct (mapM parser.all_defects items); cbn [mbind result_bind];
      [now rewrite <- app_assoc|reflexivity].
Qed.

Lemma join_cons_nonempty (sep x : str) (l : list str) :
  l <> [] -> join sep (x :: l) = x ++ sep ++ join sep l.
Proof. destruct l; [congruence|reflexivity]. Qed.

Lemma join_app_nonempty (sep : str) (l1 l2 : list str) :
  l1 <> [] -> l2 <> [] ->
  join sep (l1 ++ l2) = join sep l1 ++ sep ++ join sep l2.
Proof.
  intros H1 H2. induction l1 as [|x l1 IH]; [congruence|].
  destruct l1 as [|y l1].
  - cbn [app]. now rewrite join_cons_nonempty.
  - change ((x :: y :: l1) ++ l2) with (x :: ((y :: l1) ++ l2)).
    rewrite join_cons_nonempty by discriminate.
    rewrite IH by discriminate.
    rewrite (join_cons_nonempty sep x (y :: l1)) by discriminate.
    now rewrite <- !app_assoc.
Qed.

Lemma join_flatten (sep : str) (a l b' : list str) :
  l <> [] -> join sep (a ++ join sep l :: b') = join sep (a ++ l ++ b').
Proof.
  intros Hl.
  assert (Hr : join sep (join sep l :: b') = join sep (l ++ b')).
  { destruct b' as [|y b'].
    - now rewrite app_nil_r.
    - rewrite join_cons_nonempty by discriminate.
      now rewrite join_app_nonempty by (assumption || discriminate). }
  destruct a as [|x a]; [exact Hr|].
  rewrite !(join_app_nonempty sep (x :: a)); try discriminate.
  - now rewrite Hr.
  - destruct l; [congruence|discriminate].
Qed.

Lemma normalize_loop_text (chunks out : list (str * header.Charset))
    (last_charset : option header.Charset) (last_chunk : list str) :
  (last_charset = None <-> last_chunk = []) ->
  join (u " ")
    (header.normalize_loop chunks out last_charset last_chunk).*1
  = join (u " ") (out.*1 ++ last_chunk ++ chunks.*1).
Proof.
  revert out last_charset last_chunk.
  induction chunks as [|[string charset] rest IH];
    intros out last_charset last_chunk Hinv.
  - cbn [header.normalize_loop fmap list_fmap]. rewrite app_nil_r.
    destruct last_chunk as [|x l].
    + now rewrite app_nil_r.
    + destruct last_charset as [c|];
        [|now destruct Hinv as [Hinv _]; specialize (Hinv eq_refl)].
      rewrite fmap_app. cbn [fmap list_fmap fst].
      rewrite join_flatten by discriminate. now rewrite app_nil_r.
  - cbn [header.normalize_loop].
    destruct (header.charset_eqb charset last_charset) eqn:E.
    + rewrite IH.
      * cbn [fmap list_fmap fst]. now rewrite <- app_assoc.
      * destruct last_charset; [|discriminate]. split; [discriminate|].
        now destruct last_chunk.
    + rewrite IH by (split; discriminate).
      cbn [fmap list_fmap fst app].
      destruct last_charset as [c|].
      * rewrite fmap_app. cbn [fmap list_fmap fst].
        rewrite <- app_assoc. cbn [app]. apply join_flatten.
        intros ->. now destruct Hinv as [_ Hinv]; specialize (Hinv eq_refl).
      * destruct Hinv as [Hinv _]. now rewrite (Hinv eq_refl).
Qed.

Lemma adjacent_differ_snoc (cs : list header.Charset) (c : header.Charset) :
  adjacent_differ (cs ++ [c])
  = adjacent_differ cs
    && match last cs with
       | Some p => negb (header.charset_eqb c (Some p))
       | None => true
       end.
Proof.
  induction cs as [|a cs IH]; [reflexivity|].
  destruct cs as [|a' cs].
  - cbn [app adjacent_differ last]. now rewrite andb_true_r.
  - change ((a :: a' :: cs) ++ [c]) with (a :: a' :: (cs ++ [c])).
    change (adjacent_differ (a :: a' :: (cs ++ [c])))
      with (negb (header.charset_eqb a' (Some a))
            && adjacent_differ ((a' :: cs) ++ [c])).
    rewrite IH.
    change (adjacent_differ (a :: a' :: cs))
      with (negb (header.charset_eqb a' (Some a))
            && adjacent_differ (a' :: cs)).
    change (last (a :: a' :: cs)) with (last (a' :: cs)).
    now rewrite andb_assoc.
Qed.

Lemma normalize_loop_differ (chunks out : list (str * header.Charset))
    (last_charset : option header.Charset) (last_chunk : list str) :
  (last_charset = None <-> last_chunk = []) ->
  (last_charset = None -> out = []) ->
  adjacent_differ (out.*2 ++ option_list last_charset) = true ->
  adjacent_differ
    (header.normalize_loop chunks out last_charset last_chunk).*2 = true.
Proof.
  revert out last_charset last_chunk.
  induction chunks as [|[string charset] rest IH];
    intros out last_charset last_chunk Hinv Hout Hd.
  - cbn [header.normalize_loop].
    destruct last_chunk as [|x l].
    + destruct Hinv as [_ Hinv]. rewrite (Hinv eq_refl) in Hd.
      cbn [option_list] in Hd. now rewrite app_nil_r in Hd.
    + destruct last_charset as [c|];
        [|now destruct Hinv as [Hinv _]; specialize (Hinv eq_refl)].
      rewrite fmap_app. exact Hd.
  - cbn [header.normalize_loop].
    destruct (header.charset_eqb charset last_charset) eqn:E.
    + apply IH; [|exact Hout|exact Hd].
      destruct last_charset; [|discriminate]. split; [discriminate|].
      now destruct last_chunk.
    + apply IH; [split; discriminate|discriminate|].
      destruct last_charset as [c|].
      * rewrite fmap_app.
        change ([(join (u " ") last_chunk, c)].*2) with [c].
        change (option_list (Some charset)) with [charset].
        rewrite adjacent_differ_snoc.
        change (option_list (Some c)) with [c] in Hd.
        rewrite Hd, last_snoc, E. reflexivity.
      * rewrite (Hout eq_refl). reflexivity.
Qed.

Lemma normalize_loop_fixed (chunks out : list (str * header.Charset))
    (c : header.Charset) (s : str) :
  adjacent_differ (c :: chunks.*2) = true ->
  header.normalize_loop chunks out (Some c) [s] = out ++ (s, c) :: chunks.
Proof.
  revert out c s.
  induction chunks as [|[s' c'] rest IH]; intros out c s Hd; [reflexivity|].
  cbn [fmap list_fmap snd] in Hd.
  change (adjacent_differ (c :: c' :: rest.*2))
    with (negb (header.charset_eqb c' (Some c))
          && adjacent_differ (c' :: rest.*2)) in Hd.
  apply andb_prop in Hd as [Hc Hd]. apply negb_true_iff in Hc.
  cbn [header.normalize_loop]. rewrite Hc.
  rewrite IH by exact Hd. now rewrite <- app_assoc.
Qed.

Lemma normalize_loop_identity (chunks : list (str * header.Charset)) :
  adjacent_differ chunks.*2 = true ->
  header.normalize_loop chunks [] None [] = chunks.
Proof.
  destruct chunks as [|[s c] rest]; [reflexivity|]. intros Hd.
  cbn [header.normalize_loop header.charset_eqb].
  now rewrite normalize_loop_fixed.
Qed.

(** X15.  [_normalize] keeps the text of the chunks joined by spaces,
    leaves no chunk with the charset of the chunk before it, changes
    nothing when that already holds, and is idempotent. *)
Theorem normalize_collapses_runs (h : header.Header) :
  join (u " ") (header._chunks (header._normalize h)).*1
  = join (u " ") (header._chunks h).*1
  /\ adjacent_differ (header._chunks (header._normalize h)).*2 = true
  /\ (adjacent_differ (header._chunks h).*2 = true ->
      header._normalize h = h)
  /\ header._normalize (header._normalize h) = header._normalize h.
Proof.
  assert (Hd : adjacent_differ
                 (header.normalize_loop (header._chunks h) [] None []).*2
               = true).
  { apply normalize_loop_differ; [split; reflexivity|reflexivity|reflexivity]. }
  repeat split.
  - cbn [header._normalize header._chunks].
    now rewrite normalize_loop_text by (split; reflexivity).
  - exact Hd.
  - intros H. unfold header._normalize.
    rewrite normalize_loop_identity by exact H. now destruct h.
  - unfold header._normalize. cbn [header._chunks header._charset
      header.h_continuation_ws header._maxlinelen header._headerlen
      header.name].
    now rewrite (normalize_loop_identity _ Hd).
Qed.

Lemma re_split_fws_aux_spec (s cur : str) (in_ws : bool) :
  concat (header.re_split_fws_aux s cur in_ws) = rev cur ++ s
  /\ Nat.even (length (header.re_split_fws_aux s cur in_ws)) = in_ws
  /\ (in_ws = false -> cur <> [] ->
      exists x l, header.re_split_fws_aux s cur in_ws = x :: l /\ x <> []).
Proof.
  revert cur in_ws. induction s as [|c s IH]; intros cur in_ws.
  - cbn [header.re_split_fws_aux]. destruct in_ws.
    + cbn. rewrite !app_nil_r. split; [reflexivity|]. split; [reflexivity|].
      discriminate.
    + cbn. rewrite !app_nil_r. split; [reflexivity|]. split; [reflexivity|].
      intros _ Hc. eexists _, _. split; [reflexivity|].
      intros E. apply (f_equal (@rev _)) in E. rewrite rev_involutive in E.
      now cbn in E.
  - cbn [header.re_split_fws_aux].
    destruct (Bool.eqb (inb c header.FWS) in_ws).
    + destruct (IH (c :: cur) in_ws) as (H1 & H2 & H3).
      split; [|split].
      * rewrite H1. cbn [rev]. now rewrite <- app_assoc.
      * exact H2.
      * intros Hw _. apply H3; [exact Hw|discriminate].
    + destruct (IH [c] (negb in_ws)) as (H1 & H2 & _).
      split; [|split].
      * cbn [concat]. rewrite H1. reflexivity.
      * cbn [length]. rewrite Nat.even_succ, <- Nat.negb_even, H2.
        apply negb_involutive.
      * intros _ Hc. eexists _, _. split; [reflexivity|].
        intros E. apply (f_equal (@rev _)) in E. rewrite rev_involutive in E.
        now cbn in E.
Qed.

Lemma re_split_fws_spec (s : str) :
  let ps := match header.re_split_fws s with
            | [] :: rest => rest
            | _ => [] :: header.re_split_fws s
            end in
  concat ps = s /\ Nat.even (length ps) = true.
Proof.
  unfold header.re_split_fws.
  destruct (re_split_fws_aux_spec s [] false) as (H1 & H2 & _).
  cbn [rev app] in H1.
  destruct (header.re_split_fws_aux s [] false) as [|[|x0 x] l]; cbn zeta.
  - discriminate.
  - cbn [concat app length] in *. split; [exact H1|].
    rewrite Nat.even_succ in H2. unfold Nat.odd in H2.
    now apply negb_false_iff in H2.
  - cbn [concat app]. split; [exact H1|].
    change (length ([] :: (x0 :: x) :: l)) with (S (length ((x0 :: x) :: l))).
    rewrite Nat.even_succ. unfold Nat.odd. apply negb_true_iff. exact H2.
Qed.

Lemma pairs_ind (P : list str -> Prop) :
  P [] -> (forall a, P [a]) ->
  (forall a b' ps, P ps -> P (a :: b' :: ps)) ->
  forall ps, P ps.
Proof.
  intros H0 H1 H2. fix IH 1. intros [|a [|b' ps]];
    [exact H0|apply H1|apply H2, IH].
Qed.

Lemma pairs_of_concat (ps : list str) :
  Nat.even (length ps) = true ->
  concat (map (fun p => p.1 ++ p.2) (pairs_of ps)) = concat ps.
Proof.
  induction ps as [|a|a b' ps IH] using pairs_ind;
    [reflexivity|discriminate|].
  cbn [length Nat.even pairs_of map concat fst snd]. intros H.
  rewrite (IH H). now rewrite <- app_assoc.
Qed.

Lemma acc_len_pushed (a : header._Accumulator) (ps : list (str * str)) :
  header.acc_len (pushed a ps)
  = (header.acc_len a
     + length (concat (map (fun p => p.1 ++ p.2) ps)))%nat.
Proof.
  unfold header.acc_len, pushed. cbn [header.parts header._initial_size].
  rewrite !acc_len_fold, map_app, concat_app, length_app.
  unfold str, uchar in *. lia.
Qed.

Lemma append_pairs_fits (ps : list str) :
  forall f : header._ValueFormatter,
    (Z.of_nat (header.acc_len (pushed (header._current_line f) (pairs_of ps)))
     <= header._maxlen f)%Z ->
    header.append_pairs ps f
    = Ok (header.with_line f (pushed (header._current_line f) (pairs_of ps))).
Proof.
  induction ps as [|a|a b' ps IH] using pairs_ind; intros f Hfit.
  - cbn. unfold pushed. rewrite app_nil_r. now destruct f as [? ? ? ? []].
  - cbn. unfold pushed. rewrite app_nil_r. now destruct f as [? ? ? ? []].
  - cbn [header.append_pairs pairs_of]. unfold header._append_chunk.
    rewrite acc_len_pushed in Hfit.
    cbn [pairs_of map concat fst snd] in Hfit.
    unfold str, uchar in *. rewrite !length_app in Hfit.
    set (a1 := header.push a b' (header._current_line f)).
    assert (Hlen1 : header.acc_len a1
                    = (header.acc_len (header._current_line f)
                       + (length a + length b'))%nat).
    { pose proof (acc_len_pushed (header._current_line f) [(a, b')]) as H.
      cbn [map concat fst snd] in H. unfold str, uchar in *.
      rewrite app_nil_r, length_app in H. exact H. }
    cbn [header.with_line header._maxlen].
    destruct (Z.ltb_spec (header._maxlen f) (Z.of_nat (header.acc_len a1)))
      as [Hgt|Hle]; [unfold str, uchar in *; lia|].
    cbn [mbind result_bind].
    rewrite IH.
    + cbn [header.with_line header._current_line header._maxlen
           header._continuation_ws header._splitchars header._lines].
      unfold pushed, a1, header.push.
      cbn [header.parts header._initial_size]. rewrite <- app_assoc.
      reflexivity.
    + cbn [header.with_line header._current_line header._maxlen].
      rewrite acc_len_pushed, Hlen1. unfold str, uchar in *. lia.
Qed.

Lemma splitlines_aux_one_line (s cur : str) :
  forallb (fun c => negb (is_linebreak c)) s = true ->
  splitlines_aux s cur
  = match rev cur ++ s with [] => [] | l => [l] end.
Proof.
  revert cur. induction s as [|c s IH]; intros cur H.
  - cbn [splitlines_aux]. rewrite app_nil_r. destruct cur as [|x cur];
      [reflexivity|]. destruct (rev (x :: cur)) eqn:E; [|reflexivity].
    apply (f_equal (@rev _)) in E. rewrite rev_involutive in E. discriminate.
  - cbn [forallb] in H. apply andb_prop in H as [Hc Hs].
    apply negb_true_iff in Hc. cbn [splitlines_aux]. rewrite Hc.
    rewrite (IH (c :: cur) Hs). cbn [rev]. now rewrite <- app_assoc.
Qed.

Lemma _embeded_header_search_one_line (s : str) :
  forallb (fun c => negb (is_linebreak c)) s = true ->
  header._embeded_header_search s = false.
Proof.
  induction s as [|c s IH]; [reflexivity|]. cbn [forallb]. intros H.
  apply andb_prop in H as [Hc Hs]. cbn [header._embeded_header_search].
  rewrite (IH Hs), orb_false_r.
  destruct (N.eqb_spec c LF) as [->|_]; [discriminate|reflexivity].
Qed.

Lemma _ascii_split_fits (fws string : str) (f : header._ValueFormatter) :
  (Z.of_nat (header.acc_len (header._current_line f)
             + length (fws ++ string)) <= header._maxlen f)%Z ->
  exists ps,
    header._ascii_split fws string f
    = Ok (header.with_line f (pushed (header._current_line f) ps))
    /\ concat (map (fun p => p.1 ++ p.2) ps) = fws ++ string.
Proof.
  intros Hfit. unfold header._ascii_split.
  destruct (re_split_fws_spec (fws ++ string)) as [Hcat Heven].
  cbn zeta in Hcat, Heven.
  set (ps := match header.re_split_fws (fws ++ string) with
             | [] :: rest => rest
             | _ => [] :: header.re_split_fws (fws ++ string)
             end) in *.
  exists (pairs_of ps). pose proof (pairs_of_concat ps Heven) as Hp.
  split; [|now rewrite Hp].
  change (header.append_pairs ps f
          = Ok (header.with_line f
                  (pushed (header._current_line f) (pairs_of ps)))).
  apply append_pairs_fits. rewrite acc_len_pushed, Hp, Hcat. exact Hfit.
Qed.

(** X16.  [encode] returns a one-line ASCII value unchanged when it fits:
    if the text has no line break, the header name's prefix plus the text
    is no longer than the line limit, and the text is not all white space
    unless there is a header name, then nothing is folded, nothing is
    raised, and the result is the text itself. *)
Theorem encode_keeps_a_header_that_fits (s : str) (maxlinelen : option Z)
    (header_name : option str) (continuation_ws splitchars linesep : str) :
  let h := header.new_Header (Some s) header.USASCII maxlinelen header_name
             continuation_ws in
  forallb (fun c => c <? 128) s = true ->
  forallb (fun c => negb (is_linebreak c)) s = true ->
  (0 <? header._headerlen h)%nat || negb (isspace s) = true ->
  (Z.of_nat (header._headerlen h + length s) <= line_limit maxlinelen)%Z ->
  header.encode h splitchars None linesep = Ok s.
Proof.
  cbn zeta. intros _ Hline Hws Hfit.
  cbn [header._headerlen header.new_Header] in Hws, Hfit.
  set (headerlen := match header_name with
                    | Some n => (length n + 2)%nat
                    | None => 0%nat
                    end) in *.
  unfold header.encode, header.folded, header.formatted.
  change (header._chunks (header._normalize (header.new_Header (Some s)
            header.USASCII maxlinelen header_name continuation_ws)))
    with [(s, header.USASCII)].
  cbn [header._normalize header.new_Header header._maxlinelen
       header._headerlen header.h_continuation_ws foldl].
  fold headerlen. fold (line_limit maxlinelen).
  set (f0 := header.new_ValueFormatter headerlen (line_limit maxlinelen)
               continuation_ws splitchars).
  cbn [mbind result_bind]. unfold header.feed_chunk.
  assert (Hlines : splitlines s = match s with [] => [] | l => [l] end).
  { unfold splitlines. rewrite (splitlines_aux_one_line s [] Hline).
    now destruct s. }
  assert (Hfeed : (match splitlines s with
                   | l :: _ => header.feed [] l header.USASCII f0
                   | [] => header.feed [] [] header.USASCII f0
                   end) = header._ascii_split [] s f0).
  { rewrite Hlines. destruct s; reflexivity. }
  rewrite Hfeed.
  destruct (_ascii_split_fits [] s f0) as (ps & Esplit & Hcat).
  { unfold f0. cbn [header.new_ValueFormatter header._current_line
      header._maxlen header.acc_len header.parts header._initial_size
      fold_left app]. exact Hfit. }
  rewrite Esplit. cbn [mbind result_bind app] in *.
  assert (Hdrop : drop 1 (splitlines s) = []).
  { rewrite Hlines. destruct s; reflexivity. }
  assert (Hcount : (1 <? length (splitlines s))%nat = false).
  { rewrite Hlines. destruct s; reflexivity. }
  rewrite Hdrop, Hcount. cbn [foldl mbind result_bind].
  unfold header._str, header.newline, header.add_transition.
  cbn [header.with_line header._current_line header._lines header._maxlen
       header._continuation_ws header._splitchars f0
       header.new_ValueFormatter].
  unfold header.pop, header.push, pushed.
  cbn [header.parts header._initial_size app].
  rewrite last_snoc, removelast_last.
  change (bool_decide ((u " ", @nil uchar) = (u " ", @nil uchar))) with true.
  cbn match.
  set (a := {| header.parts := ps; header._initial_size := headerlen |}).
  assert (Hlen : header.acc_len a = (headerlen + length s)%nat).
  { unfold header.acc_len, a. cbn [header.parts header._initial_size].
    now rewrite acc_len_fold, Hcat. }
  assert (Hstr : header.acc_str a = s) by exact Hcat.
  assert (Hres :
    (if (0 <? header.acc_len a)%nat then
       if header.is_onlyws a then
         match last (@nil str) with
         | None => Raise IndexError
         | Some l => Ok (removelast (@nil str) ++ [l ++ header.acc_str a])
         end
       else Ok [header.acc_str a]
     else Ok (@nil str))
    = Ok (match s with [] => if (0 <? headerlen)%nat then [s] else []
                   | _ => [s] end)).
  { rewrite Hlen, Hstr. unfold header.is_onlyws. rewrite Hlen, Hstr.
    cbn [header._initial_size a].
    destruct headerlen as [|n]; cbn [Nat.ltb Nat.leb Nat.eqb andb orb Nat.add]
      in Hws |- *.
    - cbn [negb orb] in Hws. apply negb_true_iff in Hws. rewrite Hws.
      destruct s as [|c s]; [reflexivity|]. cbn [length Nat.leb Nat.eqb orb].
      reflexivity.
    - destruct s; reflexivity. }
  rewrite Hres. cbn [mbind result_bind header.with_lines header.with_line
                     header._lines].
  assert (Hjoin : join linesep
                    (match s with
                     | [] => if (0 <? headerlen)%nat then [s] else []
                     | _ => [s]
                     end) = s).
  { destruct s; [destruct (0 <? headerlen)%nat|]; reflexivity. }
  rewrite Hjoin, (_embeded_header_search_one_line s Hline). reflexivity.
Qed.

Lemma encode_keeps_a_header_that_fits_witness :
  header.encode
    (header.new_Header (Some (u "Hello, World")) header.USASCII None
       (Some (u "Subject")) (u " "))
    header.default_splitchars None header.NL
  = Ok (u "Hello, World").
Proof.
  apply (encode_keeps_a_header_that_fits (u "Hello, World") None
           (Some (u "Subject")) (u " ") header.default_splitchars header.NL);
    [reflexivity | reflexivity | reflexivity | vm_compute; discriminate].
Defined.

(** On one line, [BaseHeader.__new__] parses the value as it is, with or
    without an encoded word in it. *)
Lemma BaseHeader_new_one_line (env : header.Env) (cls : header.header_class)
    (name unparsed : str) (use_decoded : bool) :
  forallb (fun c => negb (is_linebreak c)) unparsed = true ->
  header.BaseHeader_new env cls name unparsed None use_decoded
  = (k ← header.parse env cls unparsed;
     Ok {| header.header_cls := cls;
           header.header_str := if use_decoded then header.decoded k
                                else unparsed;
           header._name := name; header._source := None;
           header._value := header.decoded k;
           header._defects := header.defects k;
           header._groups := header.groups k;
           header._datetime := header.datetime k |}).
Proof.
  intros Hline. unfold header.BaseHeader_new.
  assert (Hlines : splitlines unparsed
                   = match unparsed with [] => [] | l => [l] end).
  { unfold splitlines. rewrite (splitlines_aux_one_line unparsed [] Hline).
    now destruct unparsed. }
  assert (Hcat : concat (splitlines unparsed) = unparsed).
  { rewrite Hlines. destruct unparsed; [reflexivity|].
    cbn [concat]. now rewrite app_nil_r. }
  destruct ((1 <? length (splitlines unparsed))%nat
            || header.ecre_search unparsed);
    [rewrite Hcat|]; reflexivity.
Qed.

(** A policy without a factory of its own calls the factory of the
    class. *)
Lemma make_header_class_factory (env : header.Env) (p : policy.Policy)
    (name unparsed : str) (unfolded : option str) :
  policy.__dict__ p !! "header_factory"%string = None ->
  exists v,
    policy.make_header policy.module_heap env p name unparsed unfolded
    = header.call env header.new_HeaderFactory name unparsed unfolded
        (policy.truthy v).
Proof.
  intros Hf. unfold policy.make_header, policy.getattr. rewrite Hf.
  change (policy.class_getattr "header_factory")
    with (@Ok policy.pyval (policy.VFactory policy.class_header_factory)).
  cbn [mbind result_bind].
  destruct (policy.__dict__ p !! "decoded_headers"%string) as [v|].
  - exists v. reflexivity.
  - exists policy.VNone. reflexivity.
Qed.

Lemma is_atext_char_no_linebreak (c : uchar) :
  is_atext_char c = true -> is_linebreak c = false.
Proof.
  unfold is_atext_char. intros H. apply andb_prop in H as [H _].
  apply andb_prop in H as [Hlo Hhi]. apply N.leb_le in Hlo, Hhi.
  unfold is_linebreak.
  assert (Hneq : forall k, (k < 33 \/ 126 < k) -> (c =? k) = false)
    by (intros k Hk; apply N.eqb_neq; lia).
  rewrite !Hneq by lia. reflexivity.
Qed.

Lemma dotted_no_linebreak (atoms : list str) :
  forallb is_atom atoms = true ->
  forallb (fun c => negb (is_linebreak c)) (dotted atoms) = true.
Proof.
  intros Hall.
  assert (Hatom : forall a, is_atom a = true ->
                    forallb (fun c => negb (is_linebreak c)) a = true).
  { intros a Ha. destruct (is_atom_spec a Ha) as (_ & _ & _ & _ & Hf).
    clear Ha. induction a as [|x a IHa]; [reflexivity|].
    cbn [forallb] in *. apply andb_prop in Hf as [Hx Hf].
    now rewrite (is_atext_char_no_linebreak x Hx), IHa. }
  induction atoms as [|a [|a2 atoms] IH].
  - reflexivity.
  - cbn [forallb] in Hall. apply andb_prop in Hall as [Ha _].
    cbn [dotted join]. auto.
  - cbn [forallb] in Hall. apply andb_prop in Hall as [Ha Hall].
    rewrite dotted_cons by discriminate. rewrite !forallb_app.
    rewrite (Hatom a Ha), (IH Hall). reflexivity.
Qed.

Lemma plain_addresses_no_linebreak (entries : list (list str * list str)) :
  forallb is_plain_address entries = true ->
  forallb (fun c => negb (is_linebreak c))
    (join (u ", ") (map plain_address entries)) = true.
Proof.
  intros Hall.
  assert (Hone : forall e, is_plain_address e = true ->
                   forallb (fun c => negb (is_linebreak c)) (plain_address e)
                   = true).
  { intros e He. unfold is_plain_address, is_dot_atom in He.
    apply andb_prop in He as [H1 H2].
    apply andb_prop in H1 as [_ H1]. apply andb_prop in H2 as [_ H2].
    unfold plain_address. rewrite !forallb_app.
    now rewrite (dotted_no_linebreak _ H1), (dotted_no_linebreak _ H2). }
  induction entries as [|e [|e2 entries] IH].
  - reflexivity.
  - cbn [forallb] in Hall. apply andb_prop in Hall as [He _].
    cbn [map join]. auto.
  - cbn [forallb] in Hall. apply andb_prop in Hall as [He Hall].
    cbn [map] in *. rewrite join_cons2. rewrite !forallb_app.
    rewrite (Hone e He), (IH Hall). reflexivity.
Qed.

(** X17.  [make_header] on plain text: under a policy without a header
    factory of its own (the module's [default] and [strict] are such), for
    a name that the class factory maps to an unstructured header class and
    a one-line value without [=?] and without surrogates, the header is
    the value itself: its text and its [value] are the input, it has no
    source and no defect. *)
Theorem make_header_keeps_plain_text (env : header.Env) (p : policy.Policy)
    (name value : str) :
  policy.__dict__ p !! "header_factory"%string = None ->
  is_unstructured_class (header.getitem header.new_HeaderFactory name)
  = true ->
  has_encoded_word_start value = false ->
  parser._has_surrogates value = false ->
  forallb (fun c => negb (is_linebreak c)) value = true ->
  policy.make_header policy.module_heap env p name value None
  = Ok (header_of_value name value None).
Proof.
  intros Hf Hcls Hew Hsur Hline.
  destruct (make_header_class_factory env p name value None Hf) as [v ->].
  unfold header.call. rewrite BaseHeader_new_one_line by exact Hline.
  destruct (get_unstructured_plain env value Hew Hsur) as [_ Hparse].
  assert (Hp : header.parse env (header.getitem header.new_HeaderFactory name)
                 value
               = header.UnstructuredHeader_parse env value).
  { destruct (header.getitem header.new_HeaderFactory name);
      try discriminate; reflexivity. }
  rewrite Hp, Hparse. cbn [mbind result_bind header.decoded header.defects
    header.groups header.datetime]. unfold header_of_value.
  now destruct (policy.truthy v).
Qed.

Lemma make_header_keeps_plain_text_witness :
  policy.make_header policy.module_heap example_env policy.strict
    (u "Subject") (u "Hello, World") None
  = Ok {| header.header_cls := header.UniqueUnstructuredHeader;
          header.header_str := u "Hello, World";
          header._name := u "Subject";
          header._source := None;
          header._value := u "Hello, World";
          header._defects := [];
          header._groups := None;
          header._datetime := None |}.
Proof.
  apply (make_header_keeps_plain_text example_env policy.strict
           (u "Subject") (u "Hello, World")); reflexivity.
Defined.

(** X18.  [make_header] on plain addresses: under a policy without a
    header factory of its own, for a name that the class factory maps to
    an address header class and a value that is a list of plain addresses
    joined by a comma and a space, the header is the value itself, with no
    source and no defect, and its groups are one group per address. *)
Theorem make_header_keeps_plain_addresses (env : header.Env)
    (p : policy.Policy) (name : str) (entries : list (list str * list str)) :
  policy.__dict__ p !! "header_factory"%string = None ->
  is_address_class (header.getitem header.new_HeaderFactory name) = true ->
  forallb is_plain_address entries = true ->
  policy.make_header policy.module_heap env p name
    (join (u ", ") (map plain_address entries)) None
  = Ok (header_of_value name (join (u ", ") (map plain_address entries))
          (Some (map Group_of_plain entries))).
Proof.
  intros Hf Hcls Hall.
  destruct (make_header_class_factory env p name
              (join (u ", ") (map plain_address entries)) None Hf) as [v ->].
  unfold header.call.
  rewrite BaseHeader_new_one_line
    by exact (plain_addresses_no_linebreak entries Hall).
  assert (Hp : forall value,
             header.parse env (header.getitem header.new_HeaderFactory name)
               value
             = header.AddressHeader_parse value).
  { intros value. destruct (header.getitem header.new_HeaderFactory name);
      try discriminate; reflexivity. }
  rewrite Hp, (AddressHeader_parse_plain entries Hall).
  cbn [mbind result_bind header.decoded header.defects
    header.groups header.datetime]. unfold header_of_value.
  now destruct (policy.truthy v).
Qed.

Lemma make_header_keeps_plain_addresses_witness :
  policy.make_header policy.module_heap example_env policy.default
    (u "To") (u "john.doe@example.com, x@y.org") None
  = Ok (header_of_value (u "To") (u "john.doe@example.com, x@y.org")
          (Some [Group_of_plain ([u "john"; u "doe"], [u "example"; u "com"]);
                 Group_of_plain ([u "x"], [u "y"; u "org"])])).
Proof.
  apply (make_header_keeps_plain_addresses example_env policy.default
           (u "To")
           [([u "john"; u "doe"], [u "example"; u "com"]);
            ([u "x"], [u "y"; u "org"])]); reflexivity.
Defined.

(** ** The recovery of an entry of the address list *)

Lemma SPECIALS_split (c : uchar) :
  inb c parser.SPECIALS
  = inb c parser.PHRASE_ENDS || (c =? ch ".") || (c =? DQUOTE) || (c =? ch "(").
Proof.
  let l := eval vm_compute in parser.PHRASE_ENDS in
  change parser.PHRASE_ENDS with l.
  let l := eval vm_compute in parser.SPECIALS in
  change parser.SPECIALS with l.
  change (ch ".") with 46. change DQUOTE with 34. change (ch "(") with 40.
  unfold inb. cbn [existsb].
  repeat match goal with
         | |- context [N.eqb c ?k] =>
             destruct (N.eqb_spec c k) as [->|?]; [reflexivity|]
         end.
  reflexivity.
Qed.

Lemma WSP_split (c : uchar) :
  inb c parser.WSP = (c =? 32) || (c =? TAB).
Proof.
  let l := eval vm_compute in parser.WSP in change parser.WSP with l.
  unfold inb, TAB. cbn [existsb]. now rewrite orb_false_r.
Qed.


Lemma comma_in_PHRASE_ENDS : inb (ch ",") parser.PHRASE_ENDS = true.
Proof. reflexivity. Qed.



Lemma PHRASE_ENDS_ATOM_ENDS (c : uchar) :
  inb c parser.PHRASE_ENDS = true -> inb c parser.ATOM_ENDS = true.
Proof.
  intros H. unfold parser.ATOM_ENDS.
  now rewrite inb_app, SPECIALS_split, H.
Qed.












Lemma followed_by_assoc (l1 : parser.token) (c : parser.cls) ty items ds
    (l3 : parser.token) :
  followed_by (followed_by l1 (parser.Node c ty items ds)) l3
  = followed_by l1 (followed_by (parser.Node c ty items ds) l3).
Proof.
  destruct l1 as [c1 ty1 items1 ds1| |]; [|reflexivity..].
  cbn. now rewrite <- !app_assoc.
Qed.














(** ** Further properties of the policy *)

Lemma hasattr_class (self : policy.Policy) (k : string) :
  policy.hasattr policy.default k = true -> policy.hasattr self k = true.
Proof.
  unfold policy.hasattr, policy.getattr, policy.default. cbn [policy.__dict__].
  rewrite lookup_empty. intros H.
  destruct (policy.__dict__ self !! k); [reflexivity|exact H].
Qed.

Lemma object_setattr_ok (s : policy.Policy) (k : string) (v : policy.pyval) :
  policy.setattr_error k = None ->
  policy.object_setattr s k v
  = Ok {| policy.__dict__ := <[k := v]> (policy.__dict__ s) |}.
Proof. intros H. unfold policy.object_setattr. now rewrite H. Qed.

Lemma object_setattr_raise (s : policy.Policy) (k : string) (v : policy.pyval)
    (e : exn) :
  policy.setattr_error k = Some e -> policy.object_setattr s k v = Raise e.
Proof. intros H. unfold policy.object_setattr. now rewrite H. Qed.

Lemma copy_attributes_ok (np : policy.Policy)
    (items : list (string * policy.pyval)) :
  Forall (fun k => policy.setattr_error k = None) items.*1 ->
  policy.copy_attributes np items
  = Ok {| policy.__dict__ := assign_all (policy.__dict__ np) items |}.
Proof.
  revert np. induction items as [|[k v] items IH]; intros np H.
  - destruct np. reflexivity.
  - cbn [fmap list_fmap fst] in H. apply Forall_cons in H as [Hk H].
    cbn [policy.copy_attributes]. rewrite (object_setattr_ok _ _ _ Hk).
    cbn [mbind result_bind]. rewrite (IH _ H). reflexivity.
Qed.

Lemma copy_attributes_raise (np : policy.Policy)
    (items : list (string * policy.pyval)) (e : exn) :
  policy.copy_attributes np items = Raise e ->
  exists k v, (k, v) ∈ items /\ policy.setattr_error k = Some e.
Proof.
  revert np. induction items as [|[k v] items IH]; intros np; [discriminate|].
  cbn [policy.copy_attributes]. unfold policy.object_setattr.
  destruct (policy.setattr_error k) as [e0|] eqn:Ek; cbn [mbind result_bind].
  - intros [= <-]. exists k, v. split; [left|exact Ek].
  - intros H. destruct (IH _ H) as (k' & v' & Hin & Hk').
    exists k', v'. split; [right; exact Hin|exact Hk'].
Qed.

Lemma copy_attributes_inv (np np' : policy.Policy)
    (items : list (string * policy.pyval)) :
  policy.copy_attributes np items = Ok np' ->
  Forall (fun k => policy.setattr_error k = None) items.*1.
Proof.
  revert np. induction items as [|[k v] items IH]; intros np.
  - intros _. constructor.
  - cbn [policy.copy_attributes]. unfold policy.object_setattr.
    destruct (policy.setattr_error k) as [e0|] eqn:Ek; cbn [mbind result_bind];
      [discriminate|].
    intros H. cbn [fmap list_fmap fst]. constructor; [exact Ek|].
    exact (IH _ H).
Qed.

Lemma clone_keywords_ok (self np : policy.Policy)
    (kw : list (string * policy.pyval)) :
  Forall (fun k => policy.hasattr self k = true
                   /\ policy.setattr_error k = None) kw.*1 ->
  policy.clone_keywords self np kw
  = Ok {| policy.__dict__ := assign_all (policy.__dict__ np) kw |}.
Proof.
  revert np. induction kw as [|[k v] kw IH]; intros np H.
  - destruct np. reflexivity.
  - cbn [fmap list_fmap fst] in H. apply Forall_cons in H as [[Hh Hk] H].
    cbn [policy.clone_keywords]. rewrite Hh, (object_setattr_ok _ _ _ Hk).
    cbn [mbind result_bind]. rewrite (IH _ H). reflexivity.
Qed.

(** The loop over the keywords stops at the first keyword that is not an
    attribute or that [object.__setattr__] refuses. *)
Lemma clone_keywords_cases (self np : policy.Policy)
    (kw : list (string * policy.pyval)) :
  match policy.clone_keywords self np kw with
  | Ok _ =>
      Forall (fun k => policy.hasattr self k = true
                       /\ policy.setattr_error k = None) kw.*1
  | Raise e =>
      exists pre k v post,
        kw = pre ++ (k, v) :: post
        /\ Forall (fun k => policy.hasattr self k = true
                            /\ policy.setattr_error k = None) pre.*1
        /\ (if policy.hasattr self k then policy.setattr_error k = Some e
            else e = TypeError)
  end.
Proof.
  revert np. induction kw as [|[k v] kw IH]; intros np.
  - constructor.
  - cbn [policy.clone_keywords].
    destruct (policy.hasattr self k) eqn:Hh.
    + unfold policy.object_setattr.
      destruct (policy.setattr_error k) as [e0|] eqn:Ek;
        cbn [mbind result_bind].
      * exists [], k, v, kw. split; [reflexivity|]. split; [constructor|].
        rewrite Hh. exact Ek.
      * specialize (IH {| policy.__dict__ := <[k:=v]> (policy.__dict__ np) |}).
        destruct (policy.clone_keywords self _ kw) as [r|e].
        -- cbn [fmap list_fmap fst]. constructor; [split; assumption|exact IH].
        -- destruct IH as (pre & k' & v' & post & -> & Hpre & Hk').
           exists ((k, v) :: pre), k', v', post. split; [reflexivity|].
           split; [|exact Hk'].
           cbn [fmap list_fmap fst]. constructor; [split; assumption|exact Hpre].
    + exists [], k, v, kw. split; [reflexivity|]. split; [constructor|].
      rewrite Hh. reflexivity.
Qed.

Lemma assign_all_lookup (d : gmap string policy.pyval)
    (kw : list (string * policy.pyval)) (name : string) :
  assign_all d kw !! name
  = match (list_to_map (reverse kw) : gmap string policy.pyval) !! name with
    | Some v => Some v
    | None => d !! name
    end.
Proof.
  revert d. induction kw as [|[k v] kw IH]; intros d.
  - reflexivity.
  - unfold assign_all in *. cbn [foldl fst snd]. rewrite IH.
    rewrite reverse_cons, list_to_map_app.
    cbn [list_to_map foldr]. unfold uncurry. cbn [fst snd].
    rewrite lookup_union.
    destruct (list_to_map (reverse kw) !! name) as [x|] eqn:E.
    + now destruct (<[k:=v]> ∅ !! name).
    + destruct (decide (k = name)) as [->|Hne].
      * rewrite !lookup_insert_eq. reflexivity.
      * rewrite !lookup_insert_ne by exact Hne. rewrite lookup_empty.
        reflexivity.
Qed.

Lemma assign_all_to_list (d m : gmap string policy.pyval) :
  assign_all m (map_to_list d) = d ∪ m.
Proof.
  apply map_eq. intros name. rewrite assign_all_lookup, lookup_union.
  assert (E : (list_to_map (reverse (map_to_list d)) : gmap string policy.pyval) = d).
  { symmetry. apply list_to_map_flip. symmetry. apply reverse_Permutation. }
  rewrite E. destruct (d !! name), (m !! name); reflexivity.
Qed.

Lemma own_names_writable_list (self : policy.Policy) :
  own_names_writable self <->
  Forall (fun k => policy.setattr_error k = None)
         (map_to_list (policy.__dict__ self)).*1.
Proof.
  unfold own_names_writable. rewrite Forall_forall. split.
  - intros H k Hk. apply list_elem_of_fmap in Hk as ([k' v] & -> & Hkv).
    apply elem_of_map_to_list in Hkv. exact (H _ _ Hkv).
  - intros H k v Hkv. apply H. apply list_elem_of_fmap. exists (k, v).
    split; [reflexivity|]. now apply elem_of_map_to_list.
Qed.

(** The first loop of [clone] copies the instance dictionary when
    [object.__setattr__] accepts its names. *)
Lemma copy_own_attributes (self : policy.Policy) :
  own_names_writable self ->
  policy.copy_attributes {| policy.__dict__ := ∅ |}
    (map_to_list (policy.__dict__ self)) = Ok self.
Proof.
  intros H. apply own_names_writable_list in H.
  rewrite (copy_attributes_ok _ _ H). cbn [policy.__dict__].
  rewrite assign_all_to_list, (right_id_L ∅ (∪)). now destruct self.
Qed.

Lemma clone_spec_aux (self : policy.Policy) (kw : list (string * policy.pyval)) :
  own_names_writable self ->
  Forall (fun k => policy.hasattr self k = true
                   /\ policy.setattr_error k = None) kw.*1 ->
  policy.clone self kw
  = Ok {| policy.__dict__ := assign_all (policy.__dict__ self) kw |}.
Proof.
  intros Hs Hkw. unfold policy.clone. rewrite (copy_own_attributes _ Hs).
  cbn [mbind result_bind]. now apply clone_keywords_ok.
Qed.

(** X19.  [clone], exactly.  It returns when [object.__setattr__] accepts
    the names of the instance dictionary and every keyword is an attribute
    of the policy under a name that [object.__setattr__] accepts; every
    attribute of the new policy is then the last value given for it among
    the keywords, or the value it has on the original.  Otherwise it
    raises: what [object.__setattr__] raises for a name of the instance
    dictionary that it refuses; or else, at the first keyword that is not
    an attribute or that it refuses, [TypeError] for the one and what
    [object.__setattr__] raises for the other ([TypeError] for [__class__]
    and [__dict__], [AttributeError] for [__weakref__]). *)
Theorem clone_overrides (self : policy.Policy)
    (kw : list (string * policy.pyval)) :
  match policy.clone self kw with
  | Ok newpolicy =>
      own_names_writable self
      /\ Forall (fun k => policy.hasattr self k = true
                          /\ policy.setattr_error k = None) kw.*1
      /\ forall name,
           policy.getattr newpolicy name
           = match (list_to_map (reverse kw) : gmap string policy.pyval)
                   !! name with
             | Some v => Ok v
             | None => policy.getattr self name
             end
  | Raise e =>
      (exists k v, policy.__dict__ self !! k = Some v
                   /\ policy.setattr_error k = Some e)
      \/ (own_names_writable self
          /\ exists pre k v post,
               kw = pre ++ (k, v) :: post
               /\ Forall (fun k => policy.hasattr self k = true
                                   /\ policy.setattr_error k = None) pre.*1
               /\ (if policy.hasattr self k
                   then policy.setattr_error k = Some e
                   else e = TypeError))
  end.
Proof.
  unfold policy.clone.
  destruct (policy.copy_attributes _ (map_to_list (policy.__dict__ self)))
    as [np|e] eqn:Ec; cbn [mbind result_bind].
  - apply copy_attributes_inv in Ec as Hs.
    apply own_names_writable_list in Hs.
    rewrite (copy_own_attributes _ Hs) in Ec. injection Ec as <-.
    pose proof (clone_keywords_cases self self kw) as Hc.
    destruct (policy.clone_keywords self self kw) as [newpolicy|e] eqn:Ek.
    + split; [exact Hs|]. split; [exact Hc|].
      rewrite (clone_keywords_ok _ _ _ Hc) in Ek. injection Ek as <-.
      intros name. unfold policy.getattr. cbn [policy.__dict__].
      rewrite assign_all_lookup.
      now destruct (list_to_map (reverse kw) !! name).
    + right. split; [exact Hs|exact Hc].
  - left. apply copy_attributes_raise in Ec as (k & v & Hin & Hk).
    apply elem_of_map_to_list in Hin. exists k, v. split; assumption.
Qed.

Lemma add_spec_aux (self other : policy.Policy) :
  own_names_writable self ->
  settable_names_only other ->
  policy.__add__ self other
  = Ok {| policy.__dict__ := policy.__dict__ other ∪ policy.__dict__ self |}.
Proof.
  intros Hs Ho. unfold policy.__add__. rewrite clone_spec_aux.
  - now rewrite assign_all_to_list.
  - exact Hs.
  - apply Forall_forall. intros k Hk.
    apply list_elem_of_fmap in Hk as ([k' v] & -> & Hkv).
    apply elem_of_map_to_list in Hkv. destruct (Ho _ _ Hkv) as [Hc Hw].
    split; [apply hasattr_class; exact Hc|exact Hw].
Qed.

(** X20.  [p + q], for a [p] whose instance attributes have names that
    [object.__setattr__] accepts and a [q] whose instance attributes are
    attributes of the class under such names: the sum exists, each
    attribute is [q]'s own where [q] sets it and [p]'s otherwise; [default]
    is neutral on both sides; and if the instance attributes of [p] are
    attributes of the class, so are those of the sum. *)
Theorem add_is_override (self other : policy.Policy) :
  own_names_writable self ->
  settable_names_only other ->
  exists sum,
    policy.__add__ self other = Ok sum
    /\ (forall name,
           policy.getattr sum name
           = match policy.__dict__ other !! name with
             | Some v => Ok v
             | None => policy.getattr self name
             end)
    /\ policy.__add__ self policy.default = Ok self
    /\ policy.__add__ policy.default other = Ok other
    /\ (settable_names_only self -> settable_names_only sum).
Proof.
  intros Hs Ho.
  assert (Hd : own_names_writable policy.default).
  { intros k v. unfold policy.default. cbn [policy.__dict__].
    rewrite lookup_empty. discriminate. }
  assert (Hd' : settable_names_only policy.default).
  { intros k v. unfold policy.default. cbn [policy.__dict__].
    rewrite lookup_empty. discriminate. }
  eexists. split; [exact (add_spec_aux self other Hs Ho)|].
  split; [|split; [|split]].
  - intros name. unfold policy.getattr. cbn [policy.__dict__].
    rewrite lookup_union.
    now destruct (policy.__dict__ other !! name),
                 (policy.__dict__ self !! name).
  - rewrite (add_spec_aux _ _ Hs Hd').
    unfold policy.default. cbn [policy.__dict__].
    rewrite (left_id_L ∅ (∪)). now destruct self.
  - rewrite (add_spec_aux _ _ Hd Ho).
    unfold policy.default. cbn [policy.__dict__].
    rewrite (right_id_L ∅ (∪)). now destruct other.
  - intros Hself k v Hkv. cbn [policy.__dict__] in Hkv.
    apply lookup_union_Some_raw in Hkv as [Hkv|[_ Hkv]].
    + exact (Ho _ _ Hkv).
    + exact (Hself _ _ Hkv).
Qed.

(** The instance at the two policies of the module. *)
Lemma add_is_override_witness :
  exists sum,
    policy.__add__ policy.default policy.strict = Ok sum
    /\ policy.getattr sum "raise_on_defect" = Ok (policy.VBool true).
Proof.
  destruct (add_is_override policy.default policy.strict) as (sum & E & H & _).
  - intros k v. unfold policy.default. cbn [policy.__dict__].
    rewrite lookup_empty. discriminate.
  - apply map_Forall_singleton. split; reflexivity.
  - exists sum. split; [exact E|]. rewrite H. reflexivity.
Defined.

Lemma hasattr_insert (s : policy.Policy) (k k' : string) (v : policy.pyval) :
  policy.hasattr {| policy.__dict__ := <[k := v]> (policy.__dict__ s) |} k'
  = bool_decide (k = k') || policy.hasattr s k'.
Proof.
  unfold policy.hasattr, policy.getattr.
  cbn [policy.__dict__].
  destruct (bool_decide_reflect (k = k')) as [->|Hne].
  - now rewrite lookup_insert_eq.
  - now rewrite lookup_insert_ne.
Qed.

(** The loop of [__init__] on an object that answers [hasattr] as [self]
    does is the loop of [self.clone]. *)
Lemma set_keywords_clone_keywords (self s : policy.Policy)
    (kw : list (string * policy.pyval)) :
  (forall k, policy.hasattr s k = policy.hasattr self k) ->
  policy.set_keywords s kw = policy.clone_keywords self s kw.
Proof.
  revert s. induction kw as [|[k v] kw IH]; intros s Hs; [reflexivity|].
  cbn [policy.set_keywords policy.clone_keywords]. rewrite Hs.
  destruct (policy.hasattr self k) eqn:Hk; [|reflexivity].
  unfold policy.object_setattr.
  destruct (policy.setattr_error k); [reflexivity|]. cbn [mbind result_bind].
  apply IH. intros k'. rewrite hasattr_insert, Hs.
  destruct (bool_decide_reflect (k = k')) as [<-|_]; [now rewrite Hk|].
  reflexivity.
Qed.

(** X21.  Constructing with keywords is cloning: [Policy] called with
    the keywords [kw] is [default.clone] with [kw] when [kw] gives a header
    factory, and otherwise [Policy().clone] with [kw], with the one new
    factory that [Policy()] creates; in particular it raises [TypeError]
    in the same cases. *)
Theorem init_is_clone (h : policy.heap) (kw : list (string * policy.pyval)) :
  policy.new_Policy h kw
  = if bool_decide ("header_factory"%string ∈ kw.*1)
    then (h, policy.clone policy.default kw)
    else ((policy.new_Policy h []).1,
          p ← (policy.new_Policy h []).2; policy.clone p kw).
Proof.
  unfold policy.new_Policy.
  destruct (bool_decide ("header_factory"%string ∈ kw.*1)).
  - f_equal. unfold policy.clone, policy.default. cbn [policy.__dict__].
    rewrite map_to_list_empty. cbn [policy.copy_attributes mbind result_bind].
    now apply set_keywords_clone_keywords.
  - cbn [fmap list_fmap bool_decide fst snd].
    change (policy.object_setattr {| policy.__dict__ := ∅ |} "header_factory"
              (policy.VFactory (length h)))
      with (Ok {| policy.__dict__ :=
                    <["header_factory"%string := policy.VFactory (length h)]> ∅ |}).
    assert (E : bool_decide ("header_factory"%string ∈ ([] : list string))
                = false).
    { apply bool_decide_eq_false_2. intros H. inversion H. }
    rewrite E. cbn [policy.set_keywords mbind result_bind fst snd].
    f_equal. unfold policy.clone. cbn [policy.__dict__].
    rewrite insert_empty, map_to_list_singleton.
    change (policy.copy_attributes {| policy.__dict__ := ∅ |}
              [("header_factory"%string, policy.VFactory (length h))])
      with (Ok {| policy.__dict__ :=
                    <["header_factory"%string := policy.VFactory (length h)]> ∅ |}).
    cbn [mbind result_bind]. rewrite insert_empty.
    now apply set_keywords_clone_keywords.
Qed.
